(** * ts-gif: the GIF writer, reader and LZW codec, embedded in Rocq

    The development follows [src/writer.ts] (function [GifWriter] with its
    closures [addFrame] and [end], and [GifWriterOutputLZWCodeStream]) and
    [src/reader.ts] (class [Reader] and [readerLZWOutputIndexStream]).

    Modelling conventions.
    - JavaScript numbers are integers of [Z]; the bitwise operators go
      through [ToInt32], which is written out in [JS.to_int32].
    - [undefined] is [None]; a read outside a buffer yields [undefined].
    - A [Buffer]/[Uint8Array] is a [list Z] of fixed length: a store keeps
      the value modulo 256, a store outside the array is dropped.
    - An exception is the [Throw] outcome of a call; since the buffers are
      shared with the caller, every call also returns the state it leaves.
    - An option of a call is absent ([None]) or has a value; the options of
      a frame that are [null] are those of [Writer.NullableFrameOptions]. *)

From Stdlib Require Import ZArith Lia Bool List.
From stdpp Require Import base tactics option list gmap.

Local Open Scope Z_scope.

(** ** JavaScript integer operators *)

Module JS.

Definition to_int32 (x : Z) : Z := (x + 2 ^ 31) mod 2 ^ 32 - 2 ^ 31.

(** [a & b] *)
Definition and (a b : Z) : Z := Z.land (to_int32 a) (to_int32 b).
(** [a | b] *)
Definition or (a b : Z) : Z := Z.lor (to_int32 a) (to_int32 b).
(** [a << n] *)
Definition shl (a n : Z) : Z := to_int32 (Z.shiftl (to_int32 a) (n mod 32)).
(** [a >> n] *)
Definition shr (a n : Z) : Z := Z.shiftr (to_int32 a) (n mod 32).

(** Truthiness of a number. *)
Definition truthy (a : Z) : bool := negb (a =? 0).

End JS.

(** ** Byte buffers *)

(** [buf[i]] *)
Definition buf_get (buf : list Z) (i : Z) : option Z :=
  if i <? 0 then None else buf !! Z.to_nat i.

(** [buf[i] = v] on a typed array. *)
Definition buf_set (buf : list Z) (i v : Z) : list Z :=
  if i <? 0 then buf else <[Z.to_nat i := v mod 256]> buf.

(** A value read from a buffer and used as operand of a bitwise operator:
    [undefined] converts to 0. *)
Definition num (o : option Z) : Z := default 0 o.

(** ** Outcomes of calls *)

Inductive error : Type :=
  | WidthHeightInvalid        (* 'Width/Height invalid.' *)
  | InvalidColorLength        (* 'Invalid code/color length, must be power of 2 and 2 .. 256.' *)
  | BackgroundOutOfRange      (* 'Background index out of range.' *)
  | BackgroundZero            (* 'Background index explicitly passed as 0.' *)
  | LoopCountInvalid          (* 'Loop count invalid.' *)
  | XYInvalid                 (* 'x/y invalid.' *)
  | NotEnoughPixels           (* 'Not enough pixels for the frame size.' *)
  | NoPalette                 (* 'Must supply either a local or global palette.' *)
  | DisposalOutOfRange        (* 'Disposal out of range.' *)
  | TransparentIndexInvalid   (* 'Transparent color index.' *)
  | InvalidHeader             (* 'Invalid GIF 87a/89a header.' *)
  | InvalidBlockSize          (* 'Invalid block size' *)
  | InvalidGraphicsExtension  (* 'Invalid graphics extension block.' *)
  | UnknownGraphicControlLabel (label : option Z)
  | UnknownGifBlock (tag : option Z)
  | FrameIndexOutOfRange      (* 'Frame index out of range.' *)
  | NoPaletteForFrame.        (* 'No palette found for frame' *)

Inductive outcome (A : Type) : Type :=
  | Return (a : A)
  | Throw (e : error).
Arguments Return {A} a.
Arguments Throw {A} e.

(** ** The LZW encoder of [writer.ts] *)

Module Encoder.

(** The variables shared by the closures [emit_bytes_to_buffer] and
    [emit_code]. *)
Record packer : Type := Packer {
  buf : list Z;
  p : Z;
  cur_subblock : Z;
  cur : Z;
  cur_shift : Z
}.

(** One turn of the loop of [emit_bytes_to_buffer]. *)
Definition emit_byte (s : packer) : packer :=
  let buf1 := buf_set (buf s) (p s) (JS.and (cur s) 0xFF) in
  let p1 := p s + 1 in
  let cur1 := JS.shr (cur s) 8 in
  let cur_shift1 := cur_shift s - 8 in
  if p1 =? cur_subblock s + 256 then
    Packer (buf_set buf1 (cur_subblock s) 255) (p1 + 1) p1 cur1 cur_shift1
  else
    Packer buf1 p1 (cur_subblock s) cur1 cur_shift1.

Fixpoint emit_bytes_loop (fuel : nat) (bit_block_size : Z) (s : packer) : packer :=
  match fuel with
  | O => s
  | S fuel' =>
      if bit_block_size <=? cur_shift s
      then emit_bytes_loop fuel' bit_block_size (emit_byte s)
      else s
  end.

(** [emit_bytes_to_buffer(bit_block_size)]; each turn takes 8 from
    [cur_shift], so [cur_shift] turns are enough for a positive
    [bit_block_size]. *)
Definition emit_bytes_to_buffer (bit_block_size : Z) (s : packer) : packer :=
  emit_bytes_loop (Z.to_nat (cur_shift s)) bit_block_size s.

(** [emit_code(c)] with the current value of [cur_code_size]. *)
Definition emit_code (cur_code_size c : Z) (s : packer) : packer :=
  emit_bytes_to_buffer 8
    (Packer (buf s) (p s) (cur_subblock s)
            (JS.or (cur s) (JS.shl c (cur_shift s)))
            (cur_shift s + cur_code_size)).

(** The inlined copy of [emit_code] in the main loop. *)
Fixpoint emit_inline_loop (fuel : nat) (s : packer) : packer :=
  match fuel with
  | O => s
  | S fuel' =>
      if 8 <=? cur_shift s then emit_inline_loop fuel' (emit_byte s) else s
  end.

Definition emit_inline (cur_code_size ib_code : Z) (s : packer) : packer :=
  let s1 := Packer (buf s) (p s) (cur_subblock s)
                   (JS.or (cur s) (JS.shl ib_code (cur_shift s)))
                   (cur_shift s + cur_code_size) in
  emit_inline_loop (Z.to_nat (cur_shift s1)) s1.

(** The variables of the main loop. *)
Record state : Type := State {
  pk : packer;
  cur_code_size : Z;
  next_code : Z;
  code_table : gmap Z Z;
  ib_code : Z
}.

Section Loop.
Variable min_code_size : Z.

Definition clear_code : Z := JS.shl 1 min_code_size.
Definition code_mask : Z := clear_code - 1.
Definition eoi_code : Z := clear_code + 1.

(** The body of the [for] loop, for the input index [x = index_stream[i]]. *)
Definition step (st : state) (x : Z) : state :=
  let k := JS.and x code_mask in
  let cur_key := JS.or (JS.shl (ib_code st) 8) k in
  match code_table st !! cur_key with
  | None =>
      let pk1 := emit_inline (cur_code_size st) (ib_code st) (pk st) in
      if next_code st =? 4096 then
        State (emit_code (cur_code_size st) clear_code pk1)
              (min_code_size + 1) (eoi_code + 1) ∅ k
      else
        let cur_code_size1 :=
          if JS.shl 1 (cur_code_size st) <=? next_code st
          then cur_code_size st + 1 else cur_code_size st in
        State pk1 cur_code_size1 (next_code st + 1)
              (<[cur_key := next_code st]> (code_table st)) k
  | Some cur_code =>
      State (pk st) (cur_code_size st) (next_code st) (code_table st) cur_code
  end.

(** The state when the [for] loop is entered: the length field of the first
    sub-block is reserved, the first index is loaded and the clear code is
    out. *)
Definition init (buf0 : list Z) (p0 : Z) (index_stream : list Z) : state :=
  let buf1 := buf_set buf0 p0 min_code_size in
  let pk0 := Packer buf1 (p0 + 2) (p0 + 1) 0 0 in
  let cur_code_size0 := min_code_size + 1 in
  State (emit_code cur_code_size0 clear_code pk0)
        cur_code_size0 (eoi_code + 1) ∅
        (JS.and (num (index_stream !! 0%nat)) code_mask).

(** After the loop: last code, end of information, flush, and the length
    of the last sub-block with the terminator. *)
Definition finish (st : state) : list Z * Z :=
  let s1 := emit_code (cur_code_size st) (ib_code st) (pk st) in
  let s2 := emit_code (cur_code_size st) eoi_code s1 in
  let s3 := emit_bytes_to_buffer 1 s2 in
  if cur_subblock s3 + 1 =? p s3 then
    (buf_set (buf s3) (cur_subblock s3) 0, p s3)
  else
    let buf4 := buf_set (buf s3) (cur_subblock s3) (p s3 - cur_subblock s3 - 1) in
    (buf_set buf4 (p s3) 0, p s3 + 1).

End Loop.

(** [GifWriterOutputLZWCodeStream(buf, p, min_code_size, index_stream)]:
    the buffer it leaves and the position it returns. *)
Definition GifWriterOutputLZWCodeStream
    (buf0 : list Z) (p0 : Z) (min_code_size : Z) (index_stream : list Z)
    : list Z * Z :=
  finish min_code_size
    (fold_left (step min_code_size) (tail index_stream)
               (init min_code_size buf0 p0 index_stream)).

End Encoder.

(** ** The container writer of [writer.ts] *)

Module Writer.

Record WriterOptions : Type := {
  palette : option (list Z);
  loop : option Z;
  background : option Z
}.

Record FrameOptions : Type := {
  frame_palette : option (list Z);
  delay : option Z;
  disposal : option Z;
  transparent : option Z
}.

(** The variables captured by the closures of [GifWriter]. *)
Record writer : Type := Build_writer {
  buf : list Z;
  p : Z;
  ended : bool;
  global_palette : option (list Z)
}.

(** Statements of the writer: they change the captured variables and either
    complete with a value or throw. *)
Definition M (A : Type) : Type := writer → writer * outcome A.

#[global] Instance M_ret : MRet M := λ A a st, (st, Return a).
#[global] Instance M_bind : MBind M := λ A B f c st,
  match c st with
  | (st1, Return a) => f a st1
  | (st1, Throw e) => (st1, Throw e)
  end.

Definition throw {A : Type} (e : error) : M A := λ st, (st, Throw e).

Definition throw_if (c : bool) (e : error) : M unit :=
  if c then throw e else mret tt.

(** [buf[p++] = v] *)
Definition put_byte (v : Z) : M unit := λ st,
  (Build_writer (buf_set (buf st) (p st) v) (p st + 1) (ended st) (global_palette st),
   Return tt).

Definition get_p : M Z := λ st, (st, Return (p st)).

Definition check_palette_and_num_colors (palette : list Z) : M Z :=
  let num_colors := Z.of_nat (length palette) in
  if (num_colors <? 2) || (256 <? num_colors)
     || JS.truthy (JS.and num_colors (num_colors - 1))
  then throw InvalidColorLength
  else mret num_colors.

(** [while (n >>= 1) ++count] *)
Fixpoint shift_count (fuel : nat) (n count : Z) : Z :=
  match fuel with
  | O => count
  | S fuel' =>
      let n1 := JS.shr n 1 in
      if JS.truthy n1 then shift_count fuel' n1 (count + 1) else count
  end.

(** A positive 32-bit number reaches 0 within 32 shifts. *)
Definition log2_by_shifts (n : Z) : Z := shift_count 32 n 0.

(** The colour-table loop: three bytes per entry. *)
Fixpoint write_color_table (palette : list Z) : M unit :=
  match palette with
  | [] => mret tt
  | rgb :: rest =>
      put_byte (JS.and (JS.shr rgb 16) 0xFF);;
      put_byte (JS.and (JS.shr rgb 8) 0xFF);;
      put_byte (JS.and rgb 0xFF);;
      write_color_table rest
  end.

Fixpoint put_bytes (vs : list Z) : M unit :=
  match vs with
  | [] => mret tt
  | v :: rest => put_byte v;; put_bytes rest
  end.

(** The global colour table and background index part of the constructor:
    yields [gp_num_colors_pow2] and [background]. *)
Definition global_table_fields (options : WriterOptions) : M (Z * Z) :=
  match palette options with
  | Some gp =>
      gp_num_colors ← check_palette_and_num_colors gp;
      let gp_num_colors_pow2 := log2_by_shifts gp_num_colors in
      let gp_num_colors := JS.shl 1 gp_num_colors_pow2 in
      let gp_num_colors_pow2 := gp_num_colors_pow2 - 1 in
      match background options with
      | Some background =>
          throw_if (gp_num_colors <=? background) BackgroundOutOfRange;;
          throw_if (background =? 0) BackgroundZero;;
          mret (gp_num_colors_pow2, background)
      | None => mret (gp_num_colors_pow2, 0)
      end
  | None => mret (0, 0)
  end.

Definition netscape_block (loop_count : option Z) : M unit :=
  match loop_count with
  | Some loop_count =>
      throw_if ((loop_count <? 0) || (65535 <? loop_count)) LoopCountInvalid;;
      put_bytes [0x21; 0xFF; 0x0B;
                 0x4E; 0x45; 0x54; 0x53; 0x43; 0x41; 0x50; 0x45; 0x32; 0x2E; 0x30;
                 0x03; 0x01;
                 JS.and loop_count 0xFF; JS.and (JS.shr loop_count 8) 0xFF;
                 0x00]
  | None => mret tt
  end.

Definition constructor_body (width height : Z) (options : WriterOptions) : M unit :=
  throw_if ((width <=? 0) || (height <=? 0) || (65535 <? width) || (65535 <? height))
           WidthHeightInvalid;;
  put_bytes [0x47; 0x49; 0x46; 0x38; 0x39; 0x61];;
  '(gp_num_colors_pow2, background) ← global_table_fields options;
  put_byte (JS.and width 0xFF);;
  put_byte (JS.and (JS.shr width 8) 0xFF);;
  put_byte (JS.and height 0xFF);;
  put_byte (JS.and (JS.shr height 8) 0xFF);;
  put_byte (JS.or (match palette options with Some _ => 0x80 | None => 0 end)
                  gp_num_colors_pow2);;
  put_byte background;;
  put_byte 0;;
  match palette options with
  | Some gp => write_color_table gp
  | None => mret tt
  end;;
  netscape_block (loop options).

(** [new GifWriter(buf, width, height, options)]: the captured variables at
    the end of the call, or at the point where it threw. *)
Definition GifWriter (buf0 : list Z) (width height : Z) (options : WriterOptions)
    : writer * outcome unit :=
  constructor_body width height options
    (Build_writer buf0 0 false (palette options)).

Definition un_end : M unit := λ st,
  if ended st
  then (Build_writer (buf st) (p st - 1) false (global_palette st), Return tt)
  else (st, Return tt).

Definition graphics_control_extension
    (disposal delay : Z) (use_transparency : bool) (transparent_index : Z) : M unit :=
  if negb (disposal =? 0) || use_transparency || negb (delay =? 0) then
    put_bytes [0x21; 0xF9; 4;
               JS.or (JS.shl disposal 2) (if use_transparency then 1 else 0);
               JS.and delay 0xFF; JS.and (JS.shr delay 8) 0xFF;
               transparent_index;
               0]
  else mret tt.

Definition image_descriptor (x y w h : Z) (using_local_palette : bool)
    (min_code_size : Z) : M unit :=
  put_bytes [0x2C;
             JS.and x 0xFF; JS.and (JS.shr x 8) 0xFF;
             JS.and y 0xFF; JS.and (JS.shr y 8) 0xFF;
             JS.and w 0xFF; JS.and (JS.shr w 8) 0xFF;
             JS.and h 0xFF; JS.and (JS.shr h 8) 0xFF;
             if using_local_palette then JS.or 0x80 (min_code_size - 1) else 0].

(** [p = GifWriterOutputLZWCodeStream(buf, p, min_code_size, indexed_pixels)] *)
Definition output_lzw (min_code_size : Z) (indexed_pixels : list Z) : M unit := λ st,
  let '(buf1, p1) :=
    Encoder.GifWriterOutputLZWCodeStream (buf st) (p st) min_code_size indexed_pixels in
  (Build_writer buf1 p1 (ended st) (global_palette st), Return tt).

Definition transparency (opts : FrameOptions) (num_colors : Z) : M (bool * Z) :=
  match transparent opts with
  | Some transparent_index =>
      throw_if ((transparent_index <? 0) || (num_colors <=? transparent_index))
               TransparentIndexInvalid;;
      mret (true, transparent_index)
  | None => mret (false, 0)
  end.

(** [addFrame(x, y, w, h, indexed_pixels, opts)] *)
Definition addFrame (x y w h : Z) (indexed_pixels : list Z) (opts : FrameOptions)
    : M Z :=
  un_end;;
  throw_if ((x <? 0) || (y <? 0) || (65535 <? x) || (65535 <? y)) XYInvalid;;
  throw_if ((w <=? 0) || (h <=? 0) || (65535 <? w) || (65535 <? h)) WidthHeightInvalid;;
  throw_if (Z.of_nat (length indexed_pixels) <? w * h) NotEnoughPixels;;
  st ← (λ st, (st, Return st));
  let using_local_palette := bool_decide (is_Some (frame_palette opts)) in
  match (match frame_palette opts with
         | Some pal => Some pal
         | None => global_palette st
         end) with
  | None => throw NoPalette
  | Some palette =>
      num_colors ← check_palette_and_num_colors palette;
      let min_code_size := log2_by_shifts num_colors in
      let num_colors := JS.shl 1 min_code_size in
      let delay := default 0 (delay opts) in
      let disposal := default 0 (disposal opts) in
      throw_if ((disposal <? 0) || (3 <? disposal)) DisposalOutOfRange;;
      '(use_transparency, transparent_index) ← transparency opts num_colors;
      graphics_control_extension disposal delay use_transparency transparent_index;;
      image_descriptor x y w h using_local_palette min_code_size;;
      (if using_local_palette then write_color_table palette else mret tt);;
      output_lzw (if min_code_size <? 2 then 2 else min_code_size) indexed_pixels;;
      get_p
  end.

(** *** Options that are [null]

    [FrameOptions] holds the options of a frame that are absent or have a
    value. A caller may also pass [null] for an option. [addFrame] takes a
    [null] palette or transparent index for an absent one; it takes
    [undefined] alone for an absent delay or disposal, so that a [null]
    delay or disposal is kept: [null] converts to 0 where it is compared or
    used as the operand of a bitwise operator, and [null !== 0] holds. *)

Inductive nullable (A : Type) : Type :=
  | Undefined
  | Null
  | Given (a : A).
Arguments Undefined {A}.
Arguments Null {A}.
Arguments Given {A} a.

Record NullableFrameOptions : Type := {
  null_palette : nullable (list Z);
  null_delay : nullable Z;
  null_disposal : nullable Z;
  null_transparent : nullable Z
}.

(** [v === undefined ? 0 : v]: a number, or [None] for [null]. *)
Definition unless_undefined (v : nullable Z) : option Z :=
  match v with
  | Undefined => Some 0
  | Null => None
  | Given z => Some z
  end.

(** [v !== 0] for a number or [null]. *)
Definition is_not_zero (v : option Z) : bool :=
  match v with
  | Some z => negb (z =? 0)
  | None => true
  end.

(** [addFrame(x, y, w, h, indexed_pixels, opts)] for options that may be
    [null]: the statements of [addFrame] above, with [delay] and [disposal]
    a number or [null]. *)
Definition addFrame_nullable (x y w h : Z) (indexed_pixels : list Z)
    (opts : NullableFrameOptions) : M Z :=
  un_end;;
  throw_if ((x <? 0) || (y <? 0) || (65535 <? x) || (65535 <? y)) XYInvalid;;
  throw_if ((w <=? 0) || (h <=? 0) || (65535 <? w) || (65535 <? h)) WidthHeightInvalid;;
  throw_if (Z.of_nat (length indexed_pixels) <? w * h) NotEnoughPixels;;
  st ← (λ st, (st, Return st));
  let using_local_palette :=
    match null_palette opts with Given _ => true | _ => false end in
  match (match null_palette opts with
         | Given pal => Some pal
         | _ => global_palette st
         end) with
  | None => throw NoPalette
  | Some palette =>
      num_colors ← check_palette_and_num_colors palette;
      let min_code_size := log2_by_shifts num_colors in
      let num_colors := JS.shl 1 min_code_size in
      let delay := unless_undefined (null_delay opts) in
      let disposal := unless_undefined (null_disposal opts) in
      throw_if ((num disposal <? 0) || (3 <? num disposal)) DisposalOutOfRange;;
      '(use_transparency, transparent_index) ←
        match null_transparent opts with
        | Given transparent_index =>
            throw_if ((transparent_index <? 0) || (num_colors <=? transparent_index))
                     TransparentIndexInvalid;;
            mret (true, transparent_index)
        | _ => mret (false, 0)
        end;
      (if is_not_zero disposal || use_transparency || is_not_zero delay then
         put_bytes [0x21; 0xF9; 4;
                    JS.or (JS.shl (num disposal) 2) (if use_transparency then 1 else 0);
                    JS.and (num delay) 0xFF; JS.and (JS.shr (num delay) 8) 0xFF;
                    transparent_index;
                    0]
       else mret tt);;
      image_descriptor x y w h using_local_palette min_code_size;;
      (if using_local_palette then write_color_table palette else mret tt);;
      output_lzw (if min_code_size <? 2 then 2 else min_code_size) indexed_pixels;;
      get_p
  end.

(** [end()] *)
Definition end_ : M Z := λ st,
  if ended st then (st, Return (p st))
  else
    (Build_writer (buf_set (buf st) (p st) 0x3B) (p st + 1) true (global_palette st),
     Return (p st + 1)).

Definition getOutputBuffer : M (list Z) := λ st, (st, Return (buf st)).
Definition setOutputBuffer (v : list Z) : M unit := λ st,
  (Build_writer v (p st) (ended st) (global_palette st), Return tt).
Definition getOutputBufferPosition : M Z := get_p.
Definition setOutputBufferPosition (v : Z) : M unit := λ st,
  (Build_writer (buf st) v (ended st) (global_palette st), Return tt).

End Writer.

(** ** The LZW decoder of [reader.ts] *)

Module Decoder.

(** [new Int32Array(n)] and its accesses. *)
Definition new_Int32Array (n : nat) : list Z := replicate n 0.

Definition int32_set (t : list Z) (i v : Z) : list Z :=
  if i <? 0 then t else <[Z.to_nat i := JS.to_int32 v]> t.

(** [t[c]] where [c] may be [null]: the property ["null"] does not exist. *)
Definition table_get (t : list Z) (c : option Z) : option Z :=
  match c with
  | Some i => buf_get t i
  | None => None
  end.

(** The bit source: position in the code stream, bytes left in the current
    sub-block, bit accumulator. [subblock_size] is [None] once it is
    [undefined] or [NaN] (a length read outside the buffer). *)
Record bits : Type := Bits {
  p : Z;
  subblock_size : option Z;
  cur : Z;
  cur_shift : Z
}.

(** The dictionary side. [prev_code = None] is [null]. *)
Record dict : Type := Dict {
  cur_code_size : Z;
  code_mask : Z;
  next_code : Z;
  prev_code : option Z;
  code_table : list Z
}.

(** One turn of [while (cur_shift < 16)] that does read a byte. *)
Definition read_byte (code_stream : list Z) (b : bits) : bits :=
  let cur1 := JS.or (cur b) (JS.shl (num (buf_get code_stream (p b))) (cur_shift b)) in
  let p1 := p b + 1 in
  let cur_shift1 := cur_shift b + 8 in
  match subblock_size b with
  | Some 1 => Bits (p1 + 1) (buf_get code_stream p1) cur1 cur_shift1
  | Some n => Bits p1 (Some (n - 1)) cur1 cur_shift1
  | None => Bits p1 None cur1 cur_shift1
  end.

Fixpoint fill_loop (fuel : nat) (code_stream : list Z) (b : bits) : bits :=
  match fuel with
  | O => b
  | S fuel' =>
      if cur_shift b <? 16 then
        match subblock_size b with
        | Some 0 => b
        | _ => fill_loop fuel' code_stream (read_byte code_stream b)
        end
      else b
  end.

(** [while (cur_shift < 16) ...]: every turn adds 8 to [cur_shift]. *)
Definition fill (code_stream : list Z) (b : bits) : bits :=
  fill_loop (Z.to_nat (16 - cur_shift b)) code_stream b.

(** First chase: [while (chase > clear_code) { chase = code_table[chase] >> 8;
    ++chase_length }]. Yields the final [chase] and [chase_length]; [None]
    when the fuel is used up: a chase that ends sees no entry twice, so
    4100 turns (see [emit_string]) are only exceeded on a cyclic table. *)
Fixpoint chase_length_loop (fuel : nat) (clear_code : Z) (t : list Z)
    (chase : option Z) (chase_length : Z) : option (option Z * Z) :=
  match fuel with
  | O => None
  | S fuel' =>
      if clear_code <? num chase then
        chase_length_loop fuel' clear_code t
          (Some (JS.shr (num (table_get t chase)) 8)) (chase_length + 1)
      else Some (chase, chase_length)
  end.

(** Second chase: [while (chase_length--) { chase = code_table[chase];
    output[--b] = chase & 0xFF; chase >>= 8 }]. *)
Fixpoint write_back_loop (chase_length : nat) (t : list Z)
    (chase : option Z) (b : Z) (output : list Z) : list Z :=
  match chase_length with
  | O => output
  | S n =>
      let entry := num (table_get t chase) in
      write_back_loop n t (Some (JS.shr entry 8)) (b - 1)
        (buf_set output (b - 1) (JS.and entry 0xFF))
  end.

Inductive warning : Type :=
  | StreamLonger    (* 'Warning, gif stream longer than expected.' *)
  | StreamShorter.  (* 'Warning, gif stream shorter than expected.' *)

(** What one turn of [while (true)] does. *)
Inductive turn : Type :=
  | Continue (b : bits) (d : dict) (op : Z) (output : list Z)
  | Break (op : Z) (output : list Z)
  | ReturnVoid (output : list Z)
  | Diverges.

Section Loop.
Variable code_stream : list Z.
Variable min_code_size : Z.
Variable output_length : Z.

Definition clear_code : Z := JS.shl 1 min_code_size.
Definition eoi_code : Z := clear_code + 1.

(** The part of the loop body that handles a code which is neither the
    clear code nor the end of information. *)
Definition emit_string (code : Z) (b : bits) (d : dict) (op : Z) (output : list Z)
    : turn :=
  let chase_code := if code <? next_code d then Some code else prev_code d in
  match chase_length_loop 4100 clear_code (code_table d) chase_code 0 with
  | None => Diverges
  | Some (k, chase_length) =>
      let extra := negb (bool_decide (chase_code = Some code)) in
      let op_end := op + chase_length + (if extra then 1 else 0) in
      if output_length <? op_end then ReturnVoid output
      else
        let output1 := buf_set output op (num k) in
        let op1 := op + 1 + chase_length in
        let bk := op1 in
        let output2 := if extra then buf_set output1 op1 (num k) else output1 in
        let op2 := if extra then op1 + 1 else op1 in
        let output3 :=
          write_back_loop (Z.to_nat chase_length) (code_table d) chase_code bk output2 in
        let d1 :=
          match prev_code d with
          | Some prev =>
              if next_code d <? 4096 then
                let t1 := int32_set (code_table d) (next_code d)
                                    (JS.or (JS.shl prev 8) (num k)) in
                let next_code1 := next_code d + 1 in
                if (code_mask d + 1 <=? next_code1) && (cur_code_size d <? 12)
                then Dict (cur_code_size d + 1) (JS.or (JS.shl (code_mask d) 1) 1)
                          next_code1 (Some code) t1
                else Dict (cur_code_size d) (code_mask d) next_code1 (Some code) t1
              else Dict (cur_code_size d) (code_mask d) (next_code d) (Some code)
                        (code_table d)
          | None => Dict (cur_code_size d) (code_mask d) (next_code d) (Some code)
                         (code_table d)
          end in
        Continue b d1 op2 output3
  end.

(** The body of [while (true)]. *)
Definition body (b : bits) (d : dict) (op : Z) (output : list Z) : turn :=
  let b1 := fill code_stream b in
  if cur_shift b1 <? cur_code_size d then Break op output
  else
    let code := JS.and (cur b1) (code_mask d) in
    let b2 := Bits (p b1) (subblock_size b1)
                   (JS.shr (cur b1) (cur_code_size d))
                   (cur_shift b1 - cur_code_size d) in
    if code =? clear_code then
      Continue b2
        (Dict (min_code_size + 1) (JS.shl 1 (min_code_size + 1) - 1)
              (eoi_code + 1) None (code_table d))
        op output
    else if code =? eoi_code then Break op output
    else emit_string code b2 d op output.

(** The loop and what follows it: the decoded output with the warning that
    was logged, if any. [None] when the fuel is used up. *)
Fixpoint loop (fuel : nat) (b : bits) (d : dict) (op : Z) (output : list Z)
    : option (list Z * option warning) :=
  match fuel with
  | O => None
  | S fuel' =>
      match body b d op output with
      | Continue b1 d1 op1 output1 => loop fuel' b1 d1 op1 output1
      | Break op1 output1 =>
          Some (output1, if op1 =? output_length then None else Some StreamShorter)
      | ReturnVoid output1 => Some (output1, Some StreamLonger)
      | Diverges => None
      end
  end.

End Loop.

(** The call whose [min_code_size] byte lies outside the buffer.
    [min_code_size] is [undefined], so [clear_code = 1 << undefined] is 1,
    [eoi_code] is 2, [next_code] starts at 3, [cur_code_size] is [NaN] and
    [code_mask = (1 << NaN) - 1] is 0. No comparison with [NaN] holds: the
    test [cur_shift < cur_code_size] never leaves the loop, and after the
    first turn, where [cur_shift -= cur_code_size] makes [cur_shift] a [NaN],
    no byte is read any more. Every code is [cur & 0], which is 0: not the
    clear code, not the end of information, below [next_code] and not above
    [clear_code], so that [chase_length] is 0 and [op_end] is [op]. A turn
    returns with the warning when [op > output_length], and writes
    [output[op++] = 0] otherwise; the entries that it puts into the code
    table are never looked at. One turn of [nan_loop] is one turn of
    [while (true)]. *)
Fixpoint nan_loop (fuel : nat) (output_length op : Z) (output : list Z)
    : option (list Z * option warning) :=
  match fuel with
  | O => None
  | S fuel' =>
      if output_length <? op then Some (output, Some StreamLonger)
      else nan_loop fuel' output_length (op + 1) (buf_set output op 0)
  end.

(** [readerLZWOutputIndexStream(code_stream, p, output, output_length)].
    The result is the contents of [output] after the call and the warning
    that was logged; the call returns [undefined] exactly when the warning
    is [StreamLonger]. A call which does not end within [fuel] turns of
    [while (true)] gives [None]. *)
Definition readerLZWOutputIndexStream (fuel : nat)
    (code_stream : list Z) (p0 : Z) (output : list Z) (output_length : Z)
    : option (list Z * option warning) :=
  match buf_get code_stream p0 with
  | None => nan_loop fuel output_length 0 output
  | Some min_code_size =>
      let cur_code_size0 := min_code_size + 1 in
      loop code_stream min_code_size output_length fuel
        (Bits (p0 + 2) (buf_get code_stream (p0 + 1)) 0 0)
        (Dict cur_code_size0 (JS.shl 1 cur_code_size0 - 1)
              (eoi_code min_code_size + 1) None (new_Int32Array 4096))
        0 output
  end.

End Decoder.

(** ** The container parser and the blitters of [reader.ts] *)

Module Reader.

Record Frame : Type := {
  x : Z;
  y : Z;
  width : Z;
  height : Z;
  has_local_palette : bool;
  palette_offset : option Z;
  palette_size : option Z;
  data_offset : Z;
  data_length : Z;
  transparent_index : option Z;
  interlaced : bool;
  delay : Z;
  disposal : Z
}.

(** The fields of a [Reader]. *)
Record reader : Type := {
  frames : list Frame;
  canvas_width : Z;
  canvas_height : Z;
  loop_count : option Z;
  buffer : list Z
}.

(** The variables of the block loop of the constructor. [frames] and
    [loop_count] are the fields of [this]. *)
Record parse_state : Type := Parse {
  ps_p : Z;
  ps_no_eof : bool;
  ps_delay : Z;
  ps_transparent_index : option Z;
  ps_disposal : Z;
  ps_frames : list Frame;
  ps_loop_count : option Z
}.

Section Parse.
Variable buf : list Z.

(** [buf[i] === v] *)
Definition byte_is (i v : Z) : bool := bool_decide (buf_get buf i = Some v).

(** [buf[i] | buf[i + 1] << 8] *)
Definition u16 (i : Z) : Z :=
  JS.or (num (buf_get buf i)) (JS.shl (num (buf_get buf (i + 1))) 8).

(** [while (true) { const block_size = buf[p++]; ... p += block_size }]:
    the position after the terminator. [None] when the fuel is used up. *)
Fixpoint skip_subblocks (fuel : nat) (p : Z) : option (outcome Z) :=
  match fuel with
  | O => None
  | S fuel' =>
      match buf_get buf p with
      | None => Some (Throw InvalidBlockSize)
      | Some block_size =>
          if negb (0 <=? block_size) then Some (Throw InvalidBlockSize)
          else if block_size =? 0 then Some (Return (p + 1))
          else skip_subblocks fuel' (p + 1 + block_size)
      end
  end.

(** Every turn of a sub-block scan reads a byte further on in the buffer. *)
Definition scan_fuel : nat := S (length buf).

Definition header_ok : bool :=
  byte_is 0 0x47 && byte_is 1 0x49 && byte_is 2 0x46 && byte_is 3 0x38
  && match buf_get buf 4 with
     | Some b => JS.and (b + 1) 0xFD =? 0x38
     | None => false
     end
  && byte_is 5 0x61.

(** The test of the application extension, with [p] at the block size. *)
Definition netscape_test (p : Z) : bool :=
  negb (byte_is p 0x0B)
  || (byte_is (p + 1) 0x4E && byte_is (p + 2) 0x45 && byte_is (p + 3) 0x54
      && byte_is (p + 4) 0x53 && byte_is (p + 5) 0x43 && byte_is (p + 6) 0x41
      && byte_is (p + 7) 0x50 && byte_is (p + 8) 0x45 && byte_is (p + 9) 0x32
      && byte_is (p + 10) 0x2E && byte_is (p + 11) 0x30
      && byte_is (p + 12) 0x03 && byte_is (p + 13) 0x01 && byte_is (p + 16) 0).

Definition set_p (st : parse_state) (p : Z) : parse_state :=
  Parse p (ps_no_eof st) (ps_delay st) (ps_transparent_index st) (ps_disposal st)
        (ps_frames st) (ps_loop_count st).

Definition skip_to (st : parse_state) (r : option (outcome Z))
    : option (outcome parse_state) :=
  match r with
  | Some (Return p) => Some (Return (set_p st p))
  | Some (Throw e) => Some (Throw e)
  | None => None
  end.

(** [case 0xFF], entered with [p] at the block size. *)
Definition application_extension (st : parse_state) (p : Z)
    : option (outcome parse_state) :=
  if netscape_test p then
    Some (Return (Parse (p + 17) (ps_no_eof st) (ps_delay st)
                        (ps_transparent_index st) (ps_disposal st) (ps_frames st)
                        (Some (u16 (p + 14)))))
  else skip_to st (skip_subblocks scan_fuel (p + 12)).

(** [case 0xF9], entered with [p] at the block size. *)
Definition graphics_control_extension (st : parse_state) (p : Z)
    : option (outcome parse_state) :=
  if negb (byte_is p 0x4) || negb (byte_is (p + 5) 0)
  then Some (Throw InvalidGraphicsExtension)
  else
    let pf1 := num (buf_get buf (p + 1)) in
    let delay := u16 (p + 2) in
    let transparent_index :=
      if JS.and pf1 1 =? 0 then None else buf_get buf (p + 4) in
    let disposal := JS.and (JS.shr pf1 2) 0x7 in
    Some (Return (Parse (p + 6) (ps_no_eof st) delay transparent_index disposal
                        (ps_frames st) (ps_loop_count st))).

(** [case 0x2C], entered with [p] after the separator. *)
Definition image_descriptor (global_palette_offset global_palette_size : option Z)
    (st : parse_state) (p : Z) : option (outcome parse_state) :=
  let x := u16 p in
  let y := u16 (p + 2) in
  let w := u16 (p + 4) in
  let h := u16 (p + 6) in
  let pf2 := num (buf_get buf (p + 8)) in
  let p := p + 9 in
  let local_palette_flag := JS.shr pf2 7 in
  let interlace_flag := JS.and (JS.shr pf2 6) 1 in
  let num_local_colors_pow2 := JS.and pf2 0x7 in
  let num_local_colors := JS.shl 1 (num_local_colors_pow2 + 1) in
  let data_offset := p in
  let '(has_local_palette, palette_offset, palette_size, p) :=
    if JS.truthy local_palette_flag
    then (true, Some p, Some num_local_colors, p + num_local_colors * 3)
    else (false, global_palette_offset, global_palette_size, p) in
  let p := p + 1 in
  match skip_subblocks scan_fuel p with
  | Some (Return p) =>
      let frame :=
        {| x := x; y := y; width := w; height := h;
           has_local_palette := has_local_palette;
           palette_offset := palette_offset;
           palette_size := palette_size;
           data_offset := data_offset;
           data_length := p - data_offset;
           transparent_index := ps_transparent_index st;
           interlaced := JS.truthy interlace_flag;
           delay := ps_delay st;
           disposal := ps_disposal st |} in
      Some (Return (Parse p (ps_no_eof st) (ps_delay st) (ps_transparent_index st)
                          (ps_disposal st) (ps_frames st ++ [frame])
                          (ps_loop_count st)))
  | Some (Throw e) => Some (Throw e)
  | None => None
  end.

(** One turn of the block loop: [switch (buf[p++])]. *)
Definition block (global_palette_offset global_palette_size : option Z)
    (st : parse_state) : option (outcome parse_state) :=
  let p := ps_p st in
  match buf_get buf p with
  | Some 0x21 =>
      match buf_get buf (p + 1) with
      | Some 0xFF => application_extension st (p + 2)
      | Some 0xF9 => graphics_control_extension st (p + 2)
      | Some 0x01 | Some 0xFE => skip_to st (skip_subblocks scan_fuel (p + 2))
      | label => Some (Throw (UnknownGraphicControlLabel label))
      end
  | Some 0x2C => image_descriptor global_palette_offset global_palette_size st (p + 1)
  | Some 0x3B =>
      Some (Return (Parse (p + 1) false (ps_delay st) (ps_transparent_index st)
                          (ps_disposal st) (ps_frames st) (ps_loop_count st)))
  | tag => Some (Throw (UnknownGifBlock tag))
  end.

(** [while (no_eof && p < buf.length)] *)
Fixpoint blocks (fuel : nat) (global_palette_offset global_palette_size : option Z)
    (st : parse_state) : option (outcome parse_state) :=
  match fuel with
  | O => None
  | S fuel' =>
      if ps_no_eof st && (ps_p st <? Z.of_nat (length buf)) then
        match block global_palette_offset global_palette_size st with
        | Some (Return st1) =>
            blocks fuel' global_palette_offset global_palette_size st1
        | r => r
        end
      else Some (Return st)
  end.

(** [new Reader(buf)]. Every turn of the block loop reads at least one byte
    inside the buffer, which bounds the turns by its length. *)
Definition Reader : option (outcome reader) :=
  if negb header_ok then Some (Throw InvalidHeader)
  else
    let width := u16 6 in
    let height := u16 8 in
    let pf0 := num (buf_get buf 10) in
    let global_palette_flag := JS.shr pf0 7 in
    let num_global_colors_pow2 := JS.and pf0 0x7 in
    let num_global_colors := JS.shl 1 (num_global_colors_pow2 + 1) in
    (* six bytes of header, [width], [height], [pf0], and one [buf[p++]]
       commented as the pixel aspect ratio *)
    let p := 12 in
    let '(global_palette_offset, global_palette_size, p) :=
      if JS.truthy global_palette_flag
      then (Some p, Some num_global_colors, p + num_global_colors * 3)
      else (None, None, p) in
    match blocks scan_fuel global_palette_offset global_palette_size
                 (Parse p true 0 None 0 [] None) with
    | Some (Return st) =>
        Some (Return {| frames := ps_frames st;
                        canvas_width := width;
                        canvas_height := height;
                        loop_count := ps_loop_count st;
                        buffer := buf |})
    | Some (Throw e) => Some (Throw e)
    | None => None
    end.

End Parse.

Definition numFrames (r : reader) : Z := Z.of_nat (length (frames r)).

Definition getLoopCount (r : reader) : option Z := loop_count r.

Definition frameInfo (r : reader) (frame_num : Z) : outcome Frame :=
  if (frame_num <? 0) || (Z.of_nat (length (frames r)) <=? frame_num)
  then Throw FrameIndexOutOfRange
  else match frames r !! Z.to_nat frame_num with
       | Some f => Return f
       | None => Throw FrameIndexOutOfRange
       end.

(** The variables of the pixel loop of the blitters. *)
Record blit : Type := Blit {
  op : Z;
  xleft : Z;
  scanstride : Z;
  interlaceskip : Z;
  pixels : list Z
}.

Inductive channel_order : Type := RGBA | BGRA.

Section Blit.
Variable r : reader.
Variable frame : Frame.
Variable order : channel_order.
Variable palette_offset : Z.
Variable trans : Z.

Definition framewidth : Z := width frame.
Definition framestride : Z := canvas_width r - framewidth.
Definition opbeg : Z := ((y frame * canvas_width r) + x frame) * 4.
Definition opend : Z := ((y frame + height frame) * canvas_width r + x frame) * 4.

(** The start of a scan line: [if (xleft === 0) { ... }]. *)
Definition new_scanline (s : blit) : blit :=
  if xleft s =? 0 then
    let op1 := op s + scanstride s in
    if opend <=? op1 then
      Blit (opbeg + (framewidth + framestride) * JS.shl (interlaceskip s) 1)
           framewidth
           (framestride * 4 + canvas_width r * 4 * (interlaceskip s - 1))
           (JS.shr (interlaceskip s) 1)
           (pixels s)
    else Blit op1 framewidth (scanstride s) (interlaceskip s) (pixels s)
  else s.

(** The body of the pixel loop for one index of the index stream. *)
Definition blit_pixel (s : blit) (index : Z) : blit :=
  let s1 := new_scanline s in
  if index =? trans then
    Blit (op s1 + 4) (xleft s1 - 1) (scanstride s1) (interlaceskip s1) (pixels s1)
  else
    let cr := num (buf_get (buffer r) (palette_offset + index * 3)) in
    let cg := num (buf_get (buffer r) (palette_offset + index * 3 + 1)) in
    let cb := num (buf_get (buffer r) (palette_offset + index * 3 + 2)) in
    let '(c0, c2) := match order with RGBA => (cr, cb) | BGRA => (cb, cr) end in
    let px := buf_set (buf_set (buf_set (buf_set (pixels s1)
                (op s1) c0) (op s1 + 1) cg) (op s1 + 2) c2) (op s1 + 3) 255 in
    Blit (op s1 + 4) (xleft s1 - 1) (scanstride s1) (interlaceskip s1) px.

Definition blit_init (px : list Z) : blit :=
  Blit opbeg framewidth
       (if interlaced frame
        then framestride * 4 + canvas_width r * 4 * 7
        else framestride * 4)
       8 px.

Definition blit_all (index_stream : list Z) (px : list Z) : list Z :=
  pixels (fold_left blit_pixel index_stream (blit_init px)).

End Blit.

(** The index stream of a frame, as both blitters obtain it. *)
Definition decode_frame (fuel : nat) (r : reader) (frame : Frame) : option (list Z) :=
  let num_pixels := width frame * height frame in
  let index_stream := replicate (Z.to_nat num_pixels) 0 in
  match Decoder.readerLZWOutputIndexStream fuel (buffer r) (data_offset frame)
          index_stream num_pixels with
  | Some (index_stream1, _) => Some index_stream1
  | None => None
  end.

(** [decodeAndBlitFrameRGBA(frame_num, pixels)]: the contents of [pixels]
    after the call and its outcome; [None] when the decoder does not end
    within [fuel] turns. *)
Definition decodeAndBlitFrameRGBA (fuel : nat) (r : reader) (frame_num : Z)
    (px : list Z) : option (list Z * outcome unit) :=
  match frameInfo r frame_num with
  | Throw e => Some (px, Throw e)
  | Return frame =>
      match decode_frame fuel r frame with
      | None => None
      | Some index_stream =>
          match palette_offset frame with
          | None => Some (px, Throw NoPaletteForFrame)
          | Some palette_offset =>
              let trans := default 256 (transparent_index frame) in
              Some (blit_all r frame RGBA palette_offset trans index_stream px,
                    Return tt)
          end
      end
  end.

(** In [decodeAndBlitFrameBGRA] the palette is looked for inside the pixel
    loop, at the first index that is not transparent. *)
Definition decodeAndBlitFrameBGRA (fuel : nat) (r : reader) (frame_num : Z)
    (px : list Z) : option (list Z * outcome unit) :=
  match frameInfo r frame_num with
  | Throw e => Some (px, Throw e)
  | Return frame =>
      match decode_frame fuel r frame with
      | None => None
      | Some index_stream =>
          let trans := default 256 (transparent_index frame) in
          match palette_offset frame with
          | None =>
              if forallb (λ index, index =? trans) index_stream
              then Some (px, Return tt)
              else Some (px, Throw NoPaletteForFrame)
          | Some palette_offset =>
              Some (blit_all r frame BGRA palette_offset trans index_stream px,
                    Return tt)
          end
      end
  end.

End Reader.


(** * The class [Writer]

    The second writer of the package: the class [Writer] with its private
    methods, and [writerOutputLZWCodeStream]. The options are the types of
    [GifWriter]. *)

Module WriterClass.

(** The fields of a [Writer]. *)
Record state : Type := State {
  buffer : list Z;
  width : Z;
  height : Z;
  position : Z;
  ended : bool;
  globalPalette : option (list Z)
}.

(** Statements of a method: they change the fields and complete with a
    value or throw. *)
Definition M (A : Type) : Type := state → state * outcome A.

#[global] Instance M_ret : MRet M := λ A a s, (s, Return a).
#[global] Instance M_bind : MBind M := λ A B f c s,
  match c s with
  | (s1, Return a) => f a s1
  | (s1, Throw e) => (s1, Throw e)
  end.

Definition throw {A : Type} (e : error) : M A := λ s, (s, Throw e).

Definition throw_if (c : bool) (e : error) : M unit :=
  if c then throw e else mret tt.

(** [this.buffer[this.position++] = v] *)
Definition store (v : Z) : M unit := λ s,
  (State (buf_set (buffer s) (position s) v) (width s) (height s)
         (position s + 1) (ended s) (globalPalette s),
   Return tt).

Fixpoint store_all (vs : list Z) : M unit :=
  match vs with
  | [] => mret tt
  | v :: rest => store v;; store_all rest
  end.

(** [writerOutputLZWCodeStream(buf, p, min_code_size, index_stream)]: the
    text of the function is, statement by statement, the text of
    [GifWriterOutputLZWCodeStream]. *)
Definition writerOutputLZWCodeStream
    (buf0 : list Z) (p0 : Z) (min_code_size : Z) (index_stream : list Z)
    : list Z * Z :=
  Encoder.finish min_code_size
    (fold_left (Encoder.step min_code_size) (tail index_stream)
               (Encoder.init min_code_size buf0 p0 index_stream)).

Definition checkPaletteAndNumColors (palette : list Z) : M Z :=
  let num_colors := Z.of_nat (length palette) in
  if (num_colors <? 2) || (256 <? num_colors)
     || JS.truthy (JS.and num_colors (num_colors - 1))
  then throw InvalidColorLength
  else mret num_colors.

Definition writeHeader : M unit :=
  store_all [0x47; 0x49; 0x46; 0x38; 0x39; 0x61].

Definition writeLogicalScreenDescriptor (options : Writer.WriterOptions) : M unit :=
  λ s,
  ('(gp_num_colors_pow2, background) ←
     match globalPalette s with
     | Some gp =>
         gp_num_colors ← checkPaletteAndNumColors gp;
         (* [while (gp_num_colors >>= 1) ++gp_num_colors_pow2] *)
         let gp_num_colors_pow2 := Writer.shift_count 32 gp_num_colors 0 in
         let gp_num_colors := JS.shl 1 gp_num_colors_pow2 in
         let gp_num_colors_pow2 := gp_num_colors_pow2 - 1 in
         match Writer.background options with
         | Some background =>
             throw_if (gp_num_colors <=? background) BackgroundOutOfRange;;
             throw_if (background =? 0) BackgroundZero;;
             mret (gp_num_colors_pow2, background)
         | None => mret (gp_num_colors_pow2, 0)
         end
     | None => mret (0, 0)
     end;
   store (JS.and (width s) 0xFF);;
   store (JS.and (JS.shr (width s) 8) 0xFF);;
   store (JS.and (height s) 0xFF);;
   store (JS.and (JS.shr (height s) 8) 0xFF);;
   store (JS.or (match globalPalette s with Some _ => 0x80 | None => 0 end)
                gp_num_colors_pow2);;
   store background;;
   store 0) s.

(** The loop over a palette: three bytes per colour. *)
Fixpoint store_colors (palette : list Z) : M unit :=
  match palette with
  | [] => mret tt
  | rgb :: rest =>
      store (JS.and (JS.shr rgb 16) 0xFF);;
      store (JS.and (JS.shr rgb 8) 0xFF);;
      store (JS.and rgb 0xFF);;
      store_colors rest
  end.

Definition writeGlobalColorTable : M unit := λ s,
  match globalPalette s with
  | Some gp => store_colors gp s
  | None => (s, Return tt)
  end.

Definition writeNetscapeLoopingExtension (loopCount : option Z) : M unit :=
  match loopCount with
  | Some loopCount =>
      throw_if ((loopCount <? 0) || (65535 <? loopCount)) LoopCountInvalid;;
      store_all [0x21; 0xFF; 0x0B;
                 0x4E; 0x45; 0x54; 0x53; 0x43; 0x41; 0x50; 0x45; 0x32; 0x2E; 0x30;
                 0x03; 0x01;
                 JS.and loopCount 0xFF; JS.and (JS.shr loopCount 8) 0xFF;
                 0x00]
  | None => mret tt
  end.

(** The statements of the constructor after the assignments to the
    fields. *)
Definition constructor_body (width height : Z) (options : Writer.WriterOptions)
    : M unit :=
  throw_if ((width <=? 0) || (height <=? 0) || (65535 <? width) || (65535 <? height))
           WidthHeightInvalid;;
  writeHeader;;
  writeLogicalScreenDescriptor options;;
  writeGlobalColorTable;;
  writeNetscapeLoopingExtension (Writer.loop options).

(** [new Writer(buf, width, height, options)]: the fields at the end of the
    constructor, or at the point where it threw. *)
Definition new_Writer (buf : list Z) (width height : Z)
    (options : Writer.WriterOptions) : state * outcome unit :=
  constructor_body width height options
    (State buf width height 0 false (Writer.palette options)).

(** [addFrame(x, y, width, height, indexedPixels, options)]; an option may
    be [null]. *)
Definition addFrame (x y w h : Z) (indexedPixels : list Z)
    (options : Writer.NullableFrameOptions) : M Z :=
  ((λ s, if ended s
         then (State (buffer s) (width s) (height s) (position s - 1) false
                     (globalPalette s), Return tt)
         else (s, Return tt)) : M unit);;
  throw_if ((x <? 0) || (y <? 0) || (65535 <? x) || (65535 <? y)) XYInvalid;;
  throw_if ((w <=? 0) || (h <=? 0) || (65535 <? w) || (65535 <? h)) WidthHeightInvalid;;
  throw_if (Z.of_nat (length indexedPixels) <? w * h) NotEnoughPixels;;
  s ← ((λ s, (s, Return s)) : M state);
  (* [options.palette !== undefined && options.palette !== null] *)
  let usingLocalPalette :=
    match Writer.null_palette options with Writer.Given _ => true | _ => false end in
  match (match Writer.null_palette options with
         | Writer.Given palette => Some palette
         | _ => globalPalette s
         end) with
  | None => throw NoPalette
  | Some palette =>
      numColors ← checkPaletteAndNumColors palette;
      let minCodeSize := Writer.shift_count 32 numColors 0 in
      let numColors := JS.shl 1 minCodeSize in
      (* [options.delay ?? 0] *)
      let delay := match Writer.null_delay options with
                   | Writer.Given delay => delay
                   | _ => 0
                   end in
      (* [options.disposal ?? 0] *)
      let disposal := match Writer.null_disposal options with
                      | Writer.Given disposal => disposal
                      | _ => 0
                      end in
      throw_if ((disposal <? 0) || (3 <? disposal)) DisposalOutOfRange;;
      '(useTransparency, transparentIndex) ←
        match Writer.null_transparent options with
        | Writer.Given transparentIndex =>
            throw_if ((transparentIndex <? 0) || (numColors <=? transparentIndex))
                     TransparentIndexInvalid;;
            mret (true, transparentIndex)
        | _ => mret (false, 0)
        end;
      (if negb (disposal =? 0) || useTransparency || negb (delay =? 0) then
         store_all [0x21; 0xF9; 4;
                    JS.or (JS.shl disposal 2) (if useTransparency then 1 else 0);
                    JS.and delay 0xFF; JS.and (JS.shr delay 8) 0xFF;
                    transparentIndex;
                    0]
       else mret tt);;
      store_all [0x2C;
                 JS.and x 0xFF; JS.and (JS.shr x 8) 0xFF;
                 JS.and y 0xFF; JS.and (JS.shr y 8) 0xFF;
                 JS.and w 0xFF; JS.and (JS.shr w 8) 0xFF;
                 JS.and h 0xFF; JS.and (JS.shr h 8) 0xFF;
                 if usingLocalPalette then JS.or 0x80 (minCodeSize - 1) else 0];;
      (if usingLocalPalette then store_colors palette else mret tt);;
      ((λ s,
          let '(buf1, p1) :=
            writerOutputLZWCodeStream (buffer s) (position s)
              (if minCodeSize <? 2 then 2 else minCodeSize) indexedPixels in
          (State buf1 (width s) (height s) p1 (ended s) (globalPalette s),
           Return p1)) : M Z)
  end.

(** [end()] *)
Definition end_ : M Z := λ s,
  if ended s then (s, Return (position s))
  else
    (State (buf_set (buffer s) (position s) 0x3B) (width s) (height s)
           (position s + 1) true (globalPalette s),
     Return (position s + 1)).

Definition getOutputBuffer : M (list Z) := λ s, (s, Return (buffer s)).
Definition setOutputBuffer (v : list Z) : M unit := λ s,
  (State v (width s) (height s) (position s) (ended s) (globalPalette s), Return tt).
Definition getOutputBufferPosition : M Z := λ s, (s, Return (position s)).
Definition setOutputBufferPosition (v : Z) : M unit := λ s,
  (State (buffer s) (width s) (height s) v (ended s) (globalPalette s), Return tt).

End WriterClass.


(** * Facts about the JavaScript operators on small operands *)

Module JSFacts.

Lemma to_int32_small x : - 2 ^ 31 ≤ x < 2 ^ 31 → JS.to_int32 x = x.
Proof.
  intros H. unfold JS.to_int32. rewrite Z.mod_small by lia. lia.
Qed.

Lemma to_int32_range x : - 2 ^ 31 ≤ JS.to_int32 x < 2 ^ 31.
Proof.
  unfold JS.to_int32.
  pose proof (Z.mod_pos_bound (x + 2 ^ 31) (2 ^ 32) ltac:(lia)). lia.
Qed.

Lemma to_int32_mod x n : 0 ≤ n ≤ 32 → JS.to_int32 x mod 2 ^ n = x mod 2 ^ n.
Proof.
  intros Hn. unfold JS.to_int32.
  rewrite (Z.mod_eq (x + 2 ^ 31) (2 ^ 32)) by lia.
  replace (2 ^ 32) with (2 ^ (32 - n) * 2 ^ n)
    by (rewrite <- Z.pow_add_r by lia; f_equal; lia).
  set (q := (x + 2 ^ 31) / (2 ^ (32 - n) * 2 ^ n)).
  replace (x + 2 ^ 31 - 2 ^ (32 - n) * 2 ^ n * q - 2 ^ 31)
    with (x + (- (2 ^ (32 - n) * q)) * 2 ^ n) by ring.
  apply Z_mod_plus_full.
Qed.

Lemma and_ones a n : 0 ≤ n ≤ 31 → JS.and a (2 ^ n - 1) = a mod 2 ^ n.
Proof.
  intros Hn. unfold JS.and.
  assert (0 < 2 ^ n ≤ 2 ^ 31) by (split; [lia | apply Z.pow_le_mono_r; lia]).
  rewrite (to_int32_small (2 ^ n - 1)) by lia.
  replace (2 ^ n - 1) with (Z.ones n) by (rewrite Z.ones_equiv; lia).
  rewrite Z.land_ones by lia. apply to_int32_mod. lia.
Qed.

Lemma and_255 a : JS.and a 0xFF = a mod 256.
Proof. apply (and_ones a 8). lia. Qed.

Lemma and_small a b :
  0 ≤ a < 2 ^ 31 → 0 ≤ b < 2 ^ 31 → JS.and a b = Z.land a b.
Proof. intros. unfold JS.and. rewrite !to_int32_small by lia. done. Qed.

Lemma or_small a b :
  0 ≤ a < 2 ^ 31 → 0 ≤ b < 2 ^ 31 → JS.or a b = Z.lor a b.
Proof. intros. unfold JS.or. rewrite !to_int32_small by lia. done. Qed.

Lemma shl_small a n :
  0 ≤ a → 0 ≤ n < 32 → a * 2 ^ n < 2 ^ 31 → JS.shl a n = a * 2 ^ n.
Proof.
  intros Ha Hn Hlt. unfold JS.shl.
  assert (1 ≤ 2 ^ n) by lia.
  rewrite (Z.mod_small n) by lia.
  rewrite (to_int32_small a) by nia.
  rewrite Z.shiftl_mul_pow2 by lia.
  apply to_int32_small. nia.
Qed.

Lemma shr_small a n :
  - 2 ^ 31 ≤ a < 2 ^ 31 → 0 ≤ n < 32 → JS.shr a n = a / 2 ^ n.
Proof.
  intros Ha Hn. unfold JS.shr.
  rewrite (Z.mod_small n) by lia.
  rewrite to_int32_small by lia.
  apply Z.shiftr_div_pow2. lia.
Qed.

(** Bits that do not overlap add up. *)
Lemma lor_add_disjoint a c n :
  0 ≤ a < 2 ^ n → 0 ≤ n → 0 ≤ c → Z.lor a (c * 2 ^ n) = a + c * 2 ^ n.
Proof.
  intros Ha Hn Hc.
  rewrite <- Z.shiftl_mul_pow2 by lia.
  rewrite <- Z.lxor_lor, <- Z.add_nocarry_lxor; try done.
  all: apply Z.bits_inj'; intros i Hi; rewrite Z.land_spec, Z.bits_0.
  all: destruct (Z.lt_ge_cases i n) as [Hlt|Hge].
  all: try (rewrite (Z.shiftl_spec_low c n i) by lia; apply andb_false_r).
  all: assert (Z.testbit a i = false) as ->; [|done].
  all: destruct (Z.eq_dec a 0) as [->|]; [apply Z.bits_0|].
  all: apply Z.bits_above_log2; [lia|].
  all: apply Z.log2_lt_pow2; [lia|].
  all: eapply Z.lt_le_trans; [apply Ha|]; apply Z.pow_le_mono_r; lia.
Qed.

Lemma or_add_disjoint a c n :
  0 ≤ a < 2 ^ n → 0 ≤ n → 0 ≤ c → a + c * 2 ^ n < 2 ^ 31 →
  JS.or a (c * 2 ^ n) = a + c * 2 ^ n.
Proof.
  intros Ha Hn Hc Hlt.
  assert (1 ≤ 2 ^ n) by lia.
  rewrite or_small by nia. by apply lor_add_disjoint.
Qed.

Lemma or_comm a b : JS.or a b = JS.or b a.
Proof. unfold JS.or. apply Z.lor_comm. Qed.

(** [prefix << 8 | k], the key of the encoder and the entry of the decoder. *)
Lemma key_eq pc k :
  0 ≤ pc < 4096 → 0 ≤ k < 256 → JS.or (JS.shl pc 8) k = pc * 256 + k.
Proof.
  intros Hpc Hk. rewrite shl_small by lia. change (2 ^ 8) with 256.
  rewrite or_comm. change 256 with (2 ^ 8).
  rewrite or_add_disjoint by lia. lia.
Qed.

Lemma truthy_true a : JS.truthy a = true ↔ a ≠ 0.
Proof. unfold JS.truthy. rewrite negb_true_iff. apply Z.eqb_neq. Qed.

End JSFacts.

(** * Facts about buffers *)

Lemma buf_set_length buf i v : length (buf_set buf i v) = length buf.
Proof. unfold buf_set. destruct (i <? 0); [done|]. apply length_insert. Qed.

Lemma buf_get_set_eq buf i v :
  0 ≤ i < Z.of_nat (length buf) → buf_get (buf_set buf i v) i = Some (v mod 256).
Proof.
  intros Hi. unfold buf_get, buf_set.
  destruct (i <? 0) eqn:E; [lia|].
  apply list_lookup_insert_eq. lia.
Qed.

Lemma buf_get_set_ne buf i j v :
  i ≠ j → buf_get (buf_set buf i v) j = buf_get buf j.
Proof.
  intros Hne. unfold buf_get, buf_set.
  destruct (j <? 0) eqn:Ej; [done|]. destruct (i <? 0) eqn:Ei; [done|].
  apply list_lookup_insert_ne. lia.
Qed.

Lemma buf_set_set buf i v w : buf_set (buf_set buf i v) i w = buf_set buf i w.
Proof.
  unfold buf_set. destruct (i <? 0); [done|]. apply list_insert_insert_eq.
Qed.

Lemma buf_get_Some_lt buf i v : buf_get buf i = Some v → 0 ≤ i < Z.of_nat (length buf).
Proof.
  unfold buf_get. destruct (i <? 0) eqn:E; [done|].
  intros H%lookup_lt_Some. lia.
Qed.

Lemma buf_get_lt_is_Some buf i : 0 ≤ i < Z.of_nat (length buf) → is_Some (buf_get buf i).
Proof.
  intros Hi. unfold buf_get. destruct (i <? 0) eqn:E; [lia|].
  apply lookup_lt_is_Some. lia.
Qed.

Lemma buf_get_ge buf i : Z.of_nat (length buf) ≤ i → buf_get buf i = None.
Proof.
  intros Hi. unfold buf_get. destruct (i <? 0) eqn:E; [done|].
  apply lookup_ge_None. lia.
Qed.


(** * The container writer *)

Module WriterFacts.
Import Writer.

#[local] Arguments JS.and : simpl never.
#[local] Arguments JS.or : simpl never.
#[local] Arguments JS.shl : simpl never.
#[local] Arguments JS.shr : simpl never.
#[local] Arguments buf_set : simpl never.
#[local] Arguments buf_get : simpl never.
#[local] Arguments Z.mul : simpl never.
#[local] Arguments Z.add : simpl never.
#[local] Arguments Z.sub : simpl never.

Ltac munfold :=
  unfold mbind, M_bind, mret, M_ret, throw_if, throw in *.

(** ** Palette sizes *)

Definition pow2_sizes : list Z := [2; 4; 8; 16; 32; 64; 128; 256].

Definition palette_size_ok (n : Z) : bool :=
  negb ((n <? 2) || (256 <? n) || JS.truthy (JS.and n (n - 1))).

Lemma palette_size_ok_spec n : palette_size_ok n = true ↔ n ∈ pow2_sizes.
Proof.
  split.
  - intros H.
    assert (2 ≤ n ≤ 256) as Hn.
    { unfold palette_size_ok in H.
      destruct (n <? 2) eqn:E1; [done|]. destruct (256 <? n) eqn:E2; [done|]. lia. }
    assert (Hall : forallb (λ k, negb (palette_size_ok k) || bool_decide (k ∈ pow2_sizes))
                     (seqZ 2 255) = true) by (vm_compute; reflexivity).
    rewrite forallb_forall in Hall.
    assert (In n (seqZ 2 255)) as Hin by (apply list_elem_of_In, elem_of_seqZ; lia).
    apply Hall in Hin. rewrite H in Hin.
    by apply bool_decide_eq_true in Hin.
  - intros H. unfold pow2_sizes in H.
    repeat (apply elem_of_cons in H as [->|H]; [vm_compute; reflexivity|]).
    by apply elem_of_nil in H.
Qed.

Lemma log2_by_shifts_pow2 n :
  n ∈ pow2_sizes →
  JS.shl 1 (log2_by_shifts n) = n ∧ 1 ≤ log2_by_shifts n ≤ 8
  ∧ 2 ^ log2_by_shifts n = n.
Proof.
  intros H. unfold pow2_sizes in H.
  repeat (apply elem_of_cons in H as [->|H]; [vm_compute; intuition congruence|]).
  by apply elem_of_nil in H.
Qed.

Lemma check_palette_Return pal st st' n :
  check_palette_and_num_colors pal st = (st', Return n) →
  st' = st ∧ n = Z.of_nat (length pal) ∧ n ∈ pow2_sizes.
Proof.
  unfold check_palette_and_num_colors. intros H.
  pose proof (palette_size_ok_spec (Z.of_nat (length pal))) as Hs.
  unfold palette_size_ok in Hs.
  destruct (_ || _ || _) eqn:E; munfold; simplify_eq.
  split_and!; [done..|]. by apply Hs.
Qed.

Lemma check_palette_Throw pal st st' e :
  check_palette_and_num_colors pal st = (st', Throw e) →
  st' = st ∧ e = InvalidColorLength.
Proof.
  unfold check_palette_and_num_colors. intros H.
  destruct (_ || _ || _); munfold; by simplify_eq.
Qed.

Lemma check_palette_valid pal st :
  Z.of_nat (length pal) ∈ pow2_sizes →
  check_palette_and_num_colors pal st = (st, Return (Z.of_nat (length pal))).
Proof.
  intros H%palette_size_ok_spec. unfold check_palette_and_num_colors.
  unfold palette_size_ok in H. apply negb_true_iff in H. by rewrite H.
Qed.


(** ** Actions that only append *)

(** The action moves the cursor forward and keeps the length of the buffer,
    the bytes below the cursor, [ended] and the global palette. *)
Definition appends {A : Type} (c : M A) : Prop :=
  ∀ st st' r, c st = (st', r) →
    p st ≤ p st' ∧ length (buf st') = length (buf st)
    ∧ (∀ i, i < p st → buf_get (buf st') i = buf_get (buf st) i)
    ∧ ended st' = ended st ∧ global_palette st' = global_palette st.

(** The action leaves the state alone. *)
Definition pure_action {A : Type} (c : M A) : Prop :=
  ∀ st st' r, c st = (st', r) → st' = st.

Lemma pure_appends {A} (c : M A) : pure_action c → appends c.
Proof. intros H st st' r Hc. apply H in Hc as ->. split_and!; auto; lia. Qed.

Lemma pure_ret {A} (a : A) : pure_action (mret a).
Proof. intros st st' r H. munfold. by simplify_eq. Qed.

Lemma pure_throw {A} e : pure_action (@throw A e).
Proof. intros st st' r H. munfold. by simplify_eq. Qed.

Lemma pure_throw_if c e : pure_action (throw_if c e).
Proof. destruct c; [apply pure_throw | apply pure_ret]. Qed.

Lemma pure_bind {A B} (c : M A) (f : A → M B) :
  pure_action c → (∀ a, pure_action (f a)) → pure_action (c ≫= f).
Proof.
  intros Hc Hf st st' r H. munfold.
  destruct (c st) as [st1 [a|e]] eqn:E.
  - apply Hc in E as ->. by apply Hf in H.
  - apply Hc in E as ->. by simplify_eq.
Qed.

Lemma pure_check_palette pal : pure_action (check_palette_and_num_colors pal).
Proof.
  intros st st' r H. unfold check_palette_and_num_colors in H.
  destruct (_ || _ || _); munfold; by simplify_eq.
Qed.

Lemma pure_global_table_fields o : pure_action (global_table_fields o).
Proof.
  unfold global_table_fields. destruct (palette o); [|apply pure_ret].
  apply pure_bind; [apply pure_check_palette|]. intros n.
  destruct (background o); [|apply pure_ret].
  repeat (apply pure_bind; [apply pure_throw_if|]; intros _). apply pure_ret.
Qed.

Lemma pure_transparency o n : pure_action (transparency o n).
Proof.
  unfold transparency. destruct (transparent o); [|apply pure_ret].
  apply pure_bind; [apply pure_throw_if|]; intros _. apply pure_ret.
Qed.

Lemma appends_bind {A B} (c : M A) (f : A → M B) :
  appends c → (∀ a, appends (f a)) → appends (c ≫= f).
Proof.
  intros Hc Hf st st' r H. munfold.
  destruct (c st) as [st1 [a|e]] eqn:E.
  - apply Hc in E as (? & ? & Hb1 & ? & ?). apply Hf in H as (? & ? & Hb2 & ? & ?).
    split_and!; [lia|congruence| |congruence..].
    intros i Hi. rewrite Hb2 by lia. by apply Hb1.
  - simplify_eq. by apply Hc in E.
Qed.

Lemma appends_put_byte v : appends (put_byte v).
Proof.
  intros st st' r H. unfold put_byte in H. simplify_eq. simpl.
  split_and!; [lia|apply buf_set_length| |done..].
  intros i Hi. apply buf_get_set_ne. lia.
Qed.

Lemma appends_put_bytes vs : appends (put_bytes vs).
Proof.
  induction vs as [|v vs IH]; simpl.
  - apply pure_appends, pure_ret.
  - apply appends_bind; [apply appends_put_byte | done].
Qed.

Lemma appends_write_color_table pal : appends (write_color_table pal).
Proof.
  induction pal as [|rgb pal IH]; simpl.
  - apply pure_appends, pure_ret.
  - repeat (apply appends_bind; [apply appends_put_byte | intros _]). done.
Qed.

Lemma appends_netscape_block l : appends (netscape_block l).
Proof.
  unfold netscape_block. destruct l; [|apply pure_appends, pure_ret].
  apply appends_bind; [apply pure_appends, pure_throw_if | intros _].
  apply appends_put_bytes.
Qed.

(** What [put_bytes] leaves behind. *)
Fixpoint store_bytes (buf : list Z) (p : Z) (vs : list Z) : list Z :=
  match vs with
  | [] => buf
  | v :: rest => store_bytes (buf_set buf p v) (p + 1) rest
  end.

Lemma put_bytes_eq vs st :
  put_bytes vs st =
  (Build_writer (store_bytes (buf st) (p st) vs) (p st + Z.of_nat (length vs))
                (ended st) (global_palette st), Return tt).
Proof.
  revert st. induction vs as [|v vs IH]; intros st; simpl.
  - munfold. destruct st; simpl. do 2 f_equal. lia.
  - munfold. unfold put_byte at 1. rewrite IH. simpl. do 2 f_equal. lia.
Qed.

Definition header_bytes : list Z := [0x47; 0x49; 0x46; 0x38; 0x39; 0x61].

(** The rest of the constructor, after the header. *)
Definition after_header (width height : Z) (options : WriterOptions) : M unit :=
  '(gp_num_colors_pow2, background) ← global_table_fields options;
  put_byte (JS.and width 0xFF);;
  put_byte (JS.and (JS.shr width 8) 0xFF);;
  put_byte (JS.and height 0xFF);;
  put_byte (JS.and (JS.shr height 8) 0xFF);;
  put_byte (JS.or (match palette options with Some _ => 0x80 | None => 0 end)
                  gp_num_colors_pow2);;
  put_byte background;;
  put_byte 0;;
  match palette options with
  | Some gp => write_color_table gp
  | None => mret tt
  end;;
  netscape_block (loop options).

Lemma appends_after_header w h o : appends (after_header w h o).
Proof.
  unfold after_header.
  apply appends_bind; [apply pure_appends, pure_global_table_fields|].
  intros [a b].
  repeat (apply appends_bind; [apply appends_put_byte | intros _]).
  apply appends_bind; [|intros _; apply appends_netscape_block].
  destruct (palette o); [apply appends_write_color_table | apply pure_appends, pure_ret].
Qed.

Definition dims_invalid (width height : Z) : bool :=
  (width <=? 0) || (height <=? 0) || (65535 <? width) || (65535 <? height).

Lemma bind_eq {A B} (c : M A) (f : A → M B) st :
  (c ≫= f) st =
  match c st with
  | (st1, Return a) => f a st1
  | (st1, Throw e) => (st1, Throw e)
  end.
Proof. reflexivity. Qed.

Lemma throw_if_eq c e st :
  throw_if c e st = if c then (st, Throw e) else (st, Return tt).
Proof. by destruct c. Qed.

Lemma put_byte_bind {B} v (k : M B) st :
  (put_byte v;; k) st =
  k (Build_writer (buf_set (buf st) (p st) v) (p st + 1) (ended st) (global_palette st)).
Proof. reflexivity. Qed.

Lemma GifWriter_unfold buf0 w h o :
  GifWriter buf0 w h o =
  if dims_invalid w h then (Build_writer buf0 0 false (palette o), Throw WidthHeightInvalid)
  else after_header w h o
         (Build_writer (store_bytes buf0 0 header_bytes) 6 false (palette o)).
Proof.
  unfold GifWriter.
  change (constructor_body w h o)
    with (throw_if (dims_invalid w h) WidthHeightInvalid;;
          put_bytes header_bytes;; after_header w h o).
  rewrite bind_eq, throw_if_eq. destruct (dims_invalid w h); [done|].
  rewrite bind_eq, put_bytes_eq. reflexivity.
Qed.

(** ** The constructor *)

Lemma global_table_fields_no_palette o st :
  palette o = None → global_table_fields o st = (st, Return (0, 0)).
Proof. intros H. unfold global_table_fields. by rewrite H. Qed.

Lemma global_table_fields_background o pal bg st :
  palette o = Some pal → background o = Some bg →
  Z.of_nat (length pal) ∈ pow2_sizes →
  global_table_fields o st =
  if Z.of_nat (length pal) <=? bg then (st, Throw BackgroundOutOfRange)
  else if bg =? 0 then (st, Throw BackgroundZero)
  else (st, Return (log2_by_shifts (Z.of_nat (length pal)) - 1, bg)).
Proof.
  intros Hp Hb Hn. unfold global_table_fields. rewrite Hp, Hb.
  rewrite bind_eq, check_palette_valid by done.
  destruct (log2_by_shifts_pow2 _ Hn) as (-> & _ & _).
  rewrite bind_eq, throw_if_eq. destruct (_ <=? bg); [done|].
  rewrite bind_eq, throw_if_eq. by destruct (bg =? 0).
Qed.

Lemma global_table_fields_Throw o st st' e :
  global_table_fields o st = (st', Throw e) →
  st' = st ∧ ∃ pal, palette o = Some pal ∧
    (e = InvalidColorLength ∧ Z.of_nat (length pal) ∉ pow2_sizes
     ∨ Z.of_nat (length pal) ∈ pow2_sizes ∧ ∃ bg, background o = Some bg ∧
         (e = BackgroundOutOfRange ∧ Z.of_nat (length pal) ≤ bg
          ∨ e = BackgroundZero ∧ bg = 0)).
Proof.
  intros H. split; [by apply pure_global_table_fields in H|].
  unfold global_table_fields in H.
  destruct (palette o) as [pal|] eqn:Hp; [|munfold; by simplify_eq].
  exists pal. split; [done|].
  rewrite bind_eq in H.
  destruct (check_palette_and_num_colors pal st) as [st1 [n|e1]] eqn:Hc.
  - apply check_palette_Return in Hc as (-> & -> & Hn). right. split; [done|].
    destruct (log2_by_shifts_pow2 _ Hn) as (Hs & _ & _). rewrite Hs in H.
    destruct (background o) as [bg|]; [|munfold; by simplify_eq].
    exists bg. split; [done|].
    rewrite bind_eq, throw_if_eq in H.
    destruct (_ <=? bg) eqn:E1; [simplify_eq; left; split; [done|lia]|].
    rewrite bind_eq, throw_if_eq in H.
    destruct (bg =? 0) eqn:E2; [simplify_eq; right; split; [done|lia]|].
    munfold. by simplify_eq.
  - pose proof Hc as Hc'.
    apply check_palette_Throw in Hc as (-> & ->). simplify_eq. left. split; [done|].
    intros Hn. rewrite check_palette_valid in Hc' by done. simplify_eq.
Qed.

Lemma write_color_table_Return pal st :
  ∃ st', write_color_table pal st = (st', Return tt).
Proof.
  revert st. induction pal as [|rgb pal IH]; intros st; simpl.
  - by eexists.
  - rewrite !bind_eq. unfold put_byte. apply IH.
Qed.

(** Without the [loop] option. *)
Definition no_loop (o : WriterOptions) : WriterOptions :=
  {| palette := palette o; loop := None; background := background o |}.

(** How the part of the constructor after the header can throw: on the
    palette or the background before anything more is written, or on the
    loop count when all but the looping block is written. *)
Lemma after_header_Throw w h o st st' e :
  after_header w h o st = (st', Throw e) →
  (st' = st ∧ e ∈ [InvalidColorLength; BackgroundOutOfRange; BackgroundZero])
  ∨ (e = LoopCountInvalid ∧ after_header w h (no_loop o) st = (st', Return tt)).
Proof.
  unfold after_header. rewrite !bind_eq.
  replace (global_table_fields (no_loop o) st) with (global_table_fields o st)
    by reflexivity.
  destruct (global_table_fields o st) as [st1 [[a b]|e1]] eqn:Hg.
  - apply pure_global_table_fields in Hg as ->.
    rewrite !put_byte_bind. cbn [buf p ended global_palette].
    set (st7 := Build_writer _ _ _ _).
    replace (palette (no_loop o)) with (palette o) by reflexivity.
    rewrite !bind_eq.
    assert (∃ st8, match palette o with
                   | Some gp => write_color_table gp
                   | None => mret tt
                   end st7 = (st8, Return tt)) as [st8 ->].
    { destruct (palette o); [apply write_color_table_Return | by eexists]. }
    simpl. unfold netscape_block.
    destruct (loop o) as [l|]; [|munfold; intros; simplify_eq].
    rewrite bind_eq, throw_if_eq. destruct (_ || _).
    + intros ?. simplify_eq. right. done.
    + rewrite put_bytes_eq. intros; simplify_eq.
  - intros ?. simplify_eq.
    apply global_table_fields_Throw in Hg as (-> & pal & _ & H).
    left. split; [done|].
    destruct H as [[-> _]|(_ & bg & _ & [[-> _]|[-> _]])]; repeat constructor.
Qed.

(** ** Adding a frame: validation first, then the bytes *)

(** What [addFrame] has settled once its checks are passed. *)
Record plan : Type := Plan {
  using_local_palette : bool;
  plan_palette : list Z;
  min_code_size : Z;
  plan_disposal : Z;
  plan_delay : Z;
  use_transparency : bool;
  transparent_index : Z
}.

Definition xy_invalid (x y : Z) : bool :=
  (x <? 0) || (y <? 0) || (65535 <? x) || (65535 <? y).

Definition disposal_invalid (d : Z) : bool := (d <? 0) || (3 <? d).

Definition effective_palette (gp : option (list Z)) (opts : FrameOptions)
    : option (list Z) :=
  match frame_palette opts with
  | Some pal => Some pal
  | None => gp
  end.

(** The checks of [addFrame], in the order of the source. *)
Definition validate (gp : option (list Z)) (x y w h : Z) (npixels : nat)
    (opts : FrameOptions) : outcome plan :=
  if xy_invalid x y then Throw XYInvalid
  else if dims_invalid w h then Throw WidthHeightInvalid
  else if Z.of_nat npixels <? w * h then Throw NotEnoughPixels
  else match effective_palette gp opts with
  | None => Throw NoPalette
  | Some pal =>
      if negb (palette_size_ok (Z.of_nat (length pal))) then Throw InvalidColorLength
      else
        let mcs := log2_by_shifts (Z.of_nat (length pal)) in
        let d := default 0 (disposal opts) in
        if disposal_invalid d then Throw DisposalOutOfRange
        else
          let mk := Plan (bool_decide (is_Some (frame_palette opts))) pal mcs d
                         (default 0 (delay opts)) in
          match transparent opts with
          | Some t =>
              if (t <? 0) || (JS.shl 1 mcs <=? t) then Throw TransparentIndexInvalid
              else Return (mk true t)
          | None => Return (mk false 0)
          end
  end.

(** The bytes of a frame. *)
Definition write_frame (x y w h : Z) (indexed_pixels : list Z) (pl : plan) : M Z :=
  graphics_control_extension (plan_disposal pl) (plan_delay pl)
    (use_transparency pl) (transparent_index pl);;
  image_descriptor x y w h (using_local_palette pl) (min_code_size pl);;
  (if using_local_palette pl then write_color_table (plan_palette pl) else mret tt);;
  output_lzw (if min_code_size pl <? 2 then 2 else min_code_size pl) indexed_pixels;;
  get_p.

(** The state in which [addFrame] works: a finished stream is taken up
    again at its trailer. *)
Definition resumed (st : writer) : writer :=
  if ended st then Build_writer (buf st) (p st - 1) false (global_palette st)
  else st.

Lemma global_palette_resumed st : global_palette (resumed st) = global_palette st.
Proof. unfold resumed. by destruct (ended st). Qed.

Lemma addFrame_eq x y w h idx opts st :
  addFrame x y w h idx opts st =
  match validate (global_palette st) x y w h (length idx) opts with
  | Throw e => (resumed st, Throw e)
  | Return pl => write_frame x y w h idx pl (resumed st)
  end.
Proof.
  unfold addFrame. rewrite bind_eq.
  replace (un_end st) with (resumed st, Return tt)
    by (unfold un_end, resumed; by destruct (ended st)).
  rewrite <- (global_palette_resumed st). generalize (resumed st). clear st.
  intros st. unfold validate.
  rewrite bind_eq, throw_if_eq. fold (xy_invalid x y).
  destruct (xy_invalid x y); [done|].
  rewrite bind_eq, throw_if_eq. fold (dims_invalid w h).
  destruct (dims_invalid w h); [done|].
  rewrite bind_eq, throw_if_eq.
  destruct (_ <? w * h); [done|].
  rewrite bind_eq. unfold effective_palette.
  destruct (match frame_palette opts with Some _ => _ | None => _ end)
    as [pal|]; [|done].
  rewrite bind_eq. unfold check_palette_and_num_colors, palette_size_ok.
  rewrite negb_involutive.
  destruct (_ || _ || _); [done|]. unfold mret at 1, M_ret at 1.
  rewrite bind_eq, throw_if_eq. fold (disposal_invalid (default 0 (disposal opts))).
  destruct (disposal_invalid _); [done|].
  rewrite bind_eq. unfold transparency.
  destruct (transparent opts) as [t|]; [|done].
  rewrite bind_eq, throw_if_eq. by destruct (_ || _).
Qed.

Lemma write_frame_Return x y w h idx pl st :
  ∃ st', write_frame x y w h idx pl st = (st', Return (p st'))
         ∧ ended st' = ended st ∧ global_palette st' = global_palette st.
Proof.
  unfold write_frame. rewrite bind_eq.
  assert (∃ st1, graphics_control_extension (plan_disposal pl) (plan_delay pl)
                   (use_transparency pl) (transparent_index pl) st
                 = (st1, Return tt)
                 ∧ ended st1 = ended st ∧ global_palette st1 = global_palette st)
    as (st1 & -> & He1 & Hg1).
  { unfold graphics_control_extension.
    destruct (_ || _ || _); [rewrite put_bytes_eq|]; by eexists. }
  unfold image_descriptor. rewrite bind_eq, put_bytes_eq, bind_eq.
  set (st2 := Build_writer _ _ _ _).
  assert (∃ st3, (if using_local_palette pl
                  then write_color_table (plan_palette pl) else mret tt) st2
                 = (st3, Return tt)
                 ∧ ended st3 = ended st ∧ global_palette st3 = global_palette st)
    as (st3 & -> & He3 & Hg3).
  { destruct (using_local_palette pl); [|by eexists].
    destruct (write_color_table_Return (plan_palette pl) st2) as [st3 H3].
    exists st3. split; [done|].
    apply appends_write_color_table in H3 as (_ & _ & _ & -> & ->). done. }
  rewrite bind_eq. unfold output_lzw.
  destruct (Encoder.GifWriterOutputLZWCodeStream _ _ _ _) as [b1 p1].
  by eexists.
Qed.

(** The state with one byte stored at the cursor, which stays. *)
Definition poke (st : writer) (v : Z) : writer :=
  Build_writer (buf_set (buf st) (p st) v) (p st) (ended st) (global_palette st).

Lemma put_bytes_poke v0 vs st v :
  put_bytes (v0 :: vs) (poke st v) = put_bytes (v0 :: vs) st.
Proof. rewrite !put_bytes_eq. simpl. by rewrite buf_set_set. Qed.

(** A frame starts with a byte at the cursor: what was there is lost. *)
Lemma write_frame_poke x y w h idx pl st v :
  write_frame x y w h idx pl (poke st v) = write_frame x y w h idx pl st.
Proof.
  unfold write_frame. rewrite !(bind_eq (graphics_control_extension _ _ _ _)).
  unfold graphics_control_extension.
  destruct (_ || _ || _).
  - by rewrite put_bytes_poke.
  - unfold mret at 1 3, M_ret. unfold image_descriptor.
    rewrite !(bind_eq (put_bytes _)). by rewrite put_bytes_poke.
Qed.

Lemma addFrame_Throw x y w h idx opts st st' e :
  addFrame x y w h idx opts st = (st', Throw e) →
  st' = resumed st ∧ validate (global_palette st) x y w h (length idx) opts = Throw e.
Proof.
  rewrite addFrame_eq. destruct (validate _ _ _ _ _ _ _) as [pl|e1].
  - destruct (write_frame_Return x y w h idx pl (resumed st)) as (st2 & -> & _). done.
  - intros ?. by simplify_eq.
Qed.

Lemma log2_by_shifts_log2 n : n ∈ pow2_sizes → log2_by_shifts n = Z.log2 n.
Proof.
  intros H. unfold pow2_sizes in H.
  repeat (apply elem_of_cons in H as [->|H]; [vm_compute; reflexivity|]).
  by apply elem_of_nil in H.
Qed.

(** When every check of [addFrame] passes. *)
Lemma validate_Return gp x y w h npixels opts pal :
  0 ≤ x ≤ 65535 → 0 ≤ y ≤ 65535 → 0 < w ≤ 65535 → 0 < h ≤ 65535 →
  w * h ≤ Z.of_nat npixels →
  effective_palette gp opts = Some pal →
  Z.of_nat (length pal) ∈ pow2_sizes →
  0 ≤ default 0 (disposal opts) ≤ 3 →
  (∀ t, transparent opts = Some t → 0 ≤ t < Z.of_nat (length pal)) →
  ∃ pl, validate gp x y w h npixels opts = Return pl
        ∧ min_code_size pl = Z.log2 (Z.of_nat (length pal)).
Proof.
  intros Hx Hy Hw Hh Hn Hpal Hsz Hd Ht. unfold validate.
  replace (xy_invalid x y) with false
    by (symmetry; unfold xy_invalid; repeat (apply orb_false_intro); lia).
  replace (dims_invalid w h) with false
    by (symmetry; unfold dims_invalid; repeat (apply orb_false_intro); lia).
  replace (Z.of_nat npixels <? w * h) with false by (symmetry; lia).
  rewrite Hpal.
  replace (palette_size_ok _) with true by (symmetry; by apply palette_size_ok_spec).
  simpl negb. cbv iota.
  replace (disposal_invalid _) with false
    by (symmetry; unfold disposal_invalid; apply orb_false_intro; lia).
  destruct (log2_by_shifts_pow2 _ Hsz) as (Hs & _ & _).
  destruct (transparent opts) as [t|].
  - specialize (Ht t eq_refl). rewrite Hs.
    replace ((t <? 0) || (_ <=? t)) with false
      by (symmetry; apply orb_false_intro; lia).
    eexists. split; [done|]. simpl. by apply log2_by_shifts_log2.
  - eexists. split; [done|]. simpl. by apply log2_by_shifts_log2.
Qed.

End WriterFacts.

(** * The encoder reads its input through the code mask *)

Module EncoderMask.
Import Encoder.

Lemma clear_code_eq m : 0 ≤ m ≤ 30 → clear_code m = 2 ^ m.
Proof.
  intros Hm. unfold clear_code.
  assert (2 ^ m ≤ 2 ^ 30) by (apply Z.pow_le_mono_r; lia).
  rewrite JSFacts.shl_small; lia.
Qed.

Lemma and_code_mask m x : 0 ≤ m ≤ 30 → JS.and x (code_mask m) = x mod 2 ^ m.
Proof.
  intros Hm. unfold code_mask. rewrite clear_code_eq by done.
  apply JSFacts.and_ones. lia.
Qed.

Lemma step_mask m st x : 0 ≤ m ≤ 30 → step m st (x mod 2 ^ m) = step m st x.
Proof.
  intros Hm. unfold step. rewrite !and_code_mask by done.
  by rewrite Z.mod_mod by lia.
Qed.

Lemma fold_step_mask m l st :
  0 ≤ m ≤ 30 →
  fold_left (step m) (map (λ x, x mod 2 ^ m) l) st = fold_left (step m) l st.
Proof.
  intros Hm. revert st. induction l as [|x l IH]; intros st; simpl; [done|].
  by rewrite step_mask, IH.
Qed.

Lemma init_mask m buf0 p0 l :
  0 ≤ m ≤ 30 → init m buf0 p0 (map (λ x, x mod 2 ^ m) l) = init m buf0 p0 l.
Proof.
  intros Hm. unfold init. f_equal. rewrite !and_code_mask by done.
  destruct l as [|x l]; simpl; [done|]. by rewrite Z.mod_mod by lia.
Qed.

(** The code stream only depends on the input modulo [2 ^ min_code_size]. *)
Lemma output_mask m buf0 p0 l :
  0 ≤ m ≤ 30 →
  GifWriterOutputLZWCodeStream buf0 p0 m (map (λ x, x mod 2 ^ m) l)
  = GifWriterOutputLZWCodeStream buf0 p0 m l.
Proof.
  intros Hm. unfold GifWriterOutputLZWCodeStream.
  rewrite init_mask by done. f_equal.
  destruct l as [|x l]; simpl; [done|]. by apply fold_step_mask.
Qed.

End EncoderMask.

Module WriterMask.
Import Writer WriterFacts.

Lemma write_frame_mask x y w h idx pl st :
  let m := if min_code_size pl <? 2 then 2 else min_code_size pl in
  0 ≤ m ≤ 30 →
  write_frame x y w h (map (λ i, i mod 2 ^ m) idx) pl st
  = write_frame x y w h idx pl st.
Proof.
  intros m Hm. unfold write_frame.
  rewrite !(bind_eq (graphics_control_extension _ _ _ _)).
  destruct (graphics_control_extension _ _ _ _ st) as [st1 [[]|e]]; [|done].
  rewrite !(bind_eq (image_descriptor _ _ _ _ _ _)).
  destruct (image_descriptor _ _ _ _ _ _ st1) as [st2 [[]|e]]; [|done].
  set (tbl := if using_local_palette pl then _ else _).
  rewrite !(bind_eq tbl).
  destruct (tbl st2) as [st3 [[]|e]]; [|done].
  rewrite !(bind_eq (output_lzw _ _)). unfold output_lzw. fold m.
  by rewrite EncoderMask.output_mask.
Qed.

End WriterMask.


(** * The container parser *)

Module ReaderFacts.
Import Reader.

#[local] Arguments JS.and : simpl never.
#[local] Arguments JS.or : simpl never.
#[local] Arguments JS.shl : simpl never.
#[local] Arguments JS.shr : simpl never.
#[local] Arguments buf_get : simpl never.

Definition is_byte (b : Z) : Prop := 0 ≤ b < 256.

Definition GIF87a : list Z := [0x47; 0x49; 0x46; 0x38; 0x37; 0x61].
Definition GIF89a : list Z := [0x47; 0x49; 0x46; 0x38; 0x39; 0x61].

(** The version test [(b + 1 & 0xFD) === 0x38] lets the digits 7 and 9
    through and no other byte. *)
Lemma version_digit b :
  is_byte b → (JS.and (b + 1) 0xFD =? 0x38) = bool_decide (b = 0x37 ∨ b = 0x39).
Proof.
  intros Hb.
  assert (Hall : forallb (λ b, Bool.eqb (JS.and (b + 1) 0xFD =? 0x38)
                                 (bool_decide (b = 0x37 ∨ b = 0x39)))
                   (seqZ 0 256) = true) by (vm_compute; reflexivity).
  rewrite forallb_forall in Hall.
  apply eqb_prop, Hall, list_elem_of_In, elem_of_seqZ. unfold is_byte in Hb. lia.
Qed.

Lemma byte_is_true buf i v : byte_is buf i v = true ↔ buf_get buf i = Some v.
Proof. unfold byte_is. apply bool_decide_eq_true. Qed.

Lemma buf_get_nat (buf : list Z) (n : nat) : buf_get buf (Z.of_nat n) = buf !! n.
Proof.
  unfold buf_get. destruct (Z.ltb_spec (Z.of_nat n) 0); [lia|]. by rewrite Nat2Z.id.
Qed.

Lemma header_ok_spec buf :
  Forall is_byte buf →
  header_ok buf = true ↔ take 6 buf = GIF87a ∨ take 6 buf = GIF89a.
Proof.
  intros Hbytes. unfold header_ok.
  rewrite !andb_true_iff, !byte_is_true.
  change (buf_get buf 0) with (buf_get buf (Z.of_nat 0)).
  change (buf_get buf 1) with (buf_get buf (Z.of_nat 1)).
  change (buf_get buf 2) with (buf_get buf (Z.of_nat 2)).
  change (buf_get buf 3) with (buf_get buf (Z.of_nat 3)).
  change (buf_get buf 4) with (buf_get buf (Z.of_nat 4)).
  change (buf_get buf 5) with (buf_get buf (Z.of_nat 5)).
  rewrite !buf_get_nat.
  destruct buf as [|b0 [|b1 [|b2 [|b3 [|b4 [|b5 rest]]]]]]; simpl;
    try (split; [intros (((((?&?)&?)&?)&?)&?); done | intros [?|?]; done]).
  assert (is_byte b4) as Hb4.
  { rewrite Forall_forall in Hbytes. apply Hbytes. set_solver. }
  rewrite (version_digit b4 Hb4), bool_decide_eq_true.
  unfold GIF87a, GIF89a. split.
  - intros (((((?&?)&?)&?)&[?|?])&?); simplify_eq; auto.
  - intros [?|?]; simplify_eq; split_and!; auto.
Qed.

(** The constructor throws the header error exactly on a bad header. *)
Lemma blocks_not_InvalidHeader buf fuel gpo gps st :
  blocks buf fuel gpo gps st ≠ Some (Throw InvalidHeader).
Proof.
  revert st. induction fuel as [|fuel IH]; intros st; simpl; [done|].
  destruct (_ && _); [|done].
  destruct (block buf gpo gps st) as [[st1|e]|] eqn:Hb; [apply IH| |done].
  intros ?. simplify_eq. revert Hb. unfold block.
  assert (Hskip : ∀ f q, skip_subblocks buf f q ≠ Some (Throw InvalidHeader)).
  { induction f as [|f IHf]; intros q; simpl; [done|].
    destruct (buf_get buf q); [|done].
    destruct (negb _); [done|]. destruct (_ =? 0); [done|]. apply IHf. }
  assert (Hskip_to : ∀ q, skip_to st (skip_subblocks buf (scan_fuel buf) q)
                          ≠ Some (Throw InvalidHeader)).
  { intros q Hq. unfold skip_to in Hq.
    destruct (skip_subblocks _ _ _) as [[?|?]|] eqn:E; simplify_eq.
    by apply Hskip in E. }
  repeat case_match; try done; try apply Hskip_to.
  - unfold application_extension. case_match; [done|apply Hskip_to].
  - unfold graphics_control_extension. by case_match.
  - unfold image_descriptor. repeat case_match; try done.
    all: intros ?; simplify_eq; eapply Hskip; eauto.
Qed.

Lemma Reader_InvalidHeader buf :
  Reader buf = Some (Throw InvalidHeader) ↔ header_ok buf = false.
Proof.
  unfold Reader. destruct (header_ok buf); cbn [negb]; [|done].
  split; [|done]. intros H. exfalso. revert H.
  destruct (JS.truthy _); cbv beta iota zeta.
  all: destruct (blocks _ _ _ _ _) as [[?|?]|] eqn:E; try done.
  all: intros ?; simplify_eq; by apply blocks_not_InvalidHeader in E.
Qed.

(** ** The constructor always ends *)

Lemma skip_subblocks_total buf fuel p :
  0 ≤ p → Z.max 0 (Z.of_nat (length buf) - p) < Z.of_nat fuel →
  ∃ r, skip_subblocks buf fuel p = Some r ∧ ∀ q, r = Return q → p < q.
Proof.
  revert p. induction fuel as [|fuel IH]; intros p Hp Hf; [lia|]. simpl.
  destruct (buf_get buf p) as [b|] eqn:Hb; [|by eexists].
  apply buf_get_Some_lt in Hb.
  destruct (Z.leb_spec 0 b); simpl; [|by eexists].
  destruct (Z.eqb_spec b 0).
  - eexists. split; [done|]. intros q ?. simplify_eq. lia.
  - destruct (IH (p + 1 + b)) as (r & -> & Hr); [lia..|].
    eexists. split; [done|]. intros q ->. specialize (Hr q eq_refl). lia.
Qed.

Lemma scan_total buf p :
  0 ≤ p →
  ∃ r, skip_subblocks buf (scan_fuel buf) p = Some r ∧ ∀ q, r = Return q → p < q.
Proof. intros Hp. apply skip_subblocks_total; [done|]. unfold scan_fuel. lia. Qed.

Lemma num_colors_pos pf : 0 < JS.shl 1 (JS.and pf 0x7 + 1).
Proof.
  change 0x7 with (2 ^ 3 - 1). rewrite (JSFacts.and_ones pf 3) by lia.
  pose proof (Z.mod_pos_bound pf (2 ^ 3) ltac:(lia)) as Hm.
  assert (2 ^ (pf mod 2 ^ 3 + 1) ≤ 2 ^ 8) by (apply Z.pow_le_mono_r; lia).
  assert (0 < 2 ^ (pf mod 2 ^ 3 + 1)) by (apply Z.pow_pos_nonneg; lia).
  rewrite JSFacts.shl_small; lia.
Qed.

Lemma block_total buf gpo gps st :
  0 ≤ ps_p st →
  ∃ r, block buf gpo gps st = Some r ∧ ∀ st1, r = Return st1 → ps_p st < ps_p st1.
Proof.
  intros Hp. unfold block.
  assert (Hskip : ∀ q, ps_p st < q →
            ∃ r, skip_to st (skip_subblocks buf (scan_fuel buf) q) = Some r
                 ∧ ∀ st1, r = Return st1 → ps_p st < ps_p st1).
  { intros q Hq. destruct (scan_total buf q) as (r & -> & Hr); [lia|].
    destruct r as [q1|e]; simpl; eexists; (split; [done|]); intros st1 ?; simplify_eq.
    specialize (Hr q1 eq_refl). simpl. lia. }
  repeat case_match; try (by eexists); try (apply Hskip; lia).
  all: lazymatch goal with
       | |- context [application_extension] =>
           unfold application_extension; case_match; [|apply Hskip; lia];
           eexists; split; [done|]; intros st1 ?; simplify_eq; simpl; lia
       | |- context [graphics_control_extension] =>
           unfold graphics_control_extension; case_match; [by eexists|];
           eexists; split; [done|]; intros st1 ?; simplify_eq; simpl; lia
       | |- context [image_descriptor] => idtac
       | |- _ => eexists; split; [done|]; intros st1 ?; simplify_eq; simpl; lia
       end.
  unfold image_descriptor.
  set (nlc := JS.shl 1 _). assert (0 < nlc) by apply num_colors_pos.
  destruct (JS.truthy _).
  - destruct (scan_total buf (ps_p st + 1 + 9 + nlc * 3 + 1)) as (r & -> & Hr); [lia|].
    destruct r as [q1|e]; eexists; (split; [done|]); intros st1 ?; simplify_eq.
    specialize (Hr q1 eq_refl). simpl. lia.
  - destruct (scan_total buf (ps_p st + 1 + 9 + 1)) as (r & -> & Hr); [lia|].
    destruct r as [q1|e]; eexists; (split; [done|]); intros st1 ?; simplify_eq.
    specialize (Hr q1 eq_refl). simpl. lia.
Qed.

Lemma blocks_total buf fuel gpo gps st :
  0 ≤ ps_p st → Z.max 0 (Z.of_nat (length buf) - ps_p st) < Z.of_nat fuel →
  is_Some (blocks buf fuel gpo gps st).
Proof.
  revert st. induction fuel as [|fuel IH]; intros st Hp Hf; [lia|]. simpl.
  destruct (ps_no_eof st); simpl; [|done].
  destruct (Z.ltb_spec (ps_p st) (Z.of_nat (length buf))); [|done].
  destruct (block_total buf gpo gps st Hp) as (r & -> & Hr).
  destruct r as [st1|e]; [|done].
  specialize (Hr st1 eq_refl). apply IH; lia.
Qed.

(** [new Reader(buf)] returns or throws: the fuel of the model is never
    used up. *)
Lemma Reader_total buf : is_Some (Reader buf).
Proof.
  unfold Reader. destruct (negb _); [done|].
  set (n := JS.shl 1 _). assert (0 < n) by apply num_colors_pos.
  destruct (JS.truthy _); cbv beta iota zeta.
  - destruct (blocks_total buf (scan_fuel buf) (Some 12) (Some n)
                (Parse (12 + n * 3) true 0 None 0 [] None)) as [r ->].
    + simpl. lia.
    + unfold scan_fuel. simpl. lia.
    + by destruct r.
  - destruct (blocks_total buf (scan_fuel buf) None None
                (Parse 12 true 0 None 0 [] None)) as [r ->].
    + simpl. lia.
    + unfold scan_fuel. simpl. lia.
    + by destruct r.
Qed.

End ReaderFacts.


(** * Code streams as numbers *)

(** A code stream is a list of codes with their widths. Packed with the
    first code in the lowest bits it is a number: [bits_val]. *)

Module Bits.

Definition bits_len (l : list (Z * Z)) : Z :=
  fold_right (λ cw acc, cw.2 + acc) 0 l.

Definition bits_val (l : list (Z * Z)) : Z :=
  fold_right (λ cw acc, cw.1 + 2 ^ cw.2 * acc) 0 l.

(** Every code fits its width. *)
Definition fits (l : list (Z * Z)) : Prop :=
  Forall (λ cw, 0 ≤ cw.2 ∧ 0 ≤ cw.1 < 2 ^ cw.2) l.

(** Byte [j] of a number. *)
Definition byte_of (B j : Z) : Z := (B / 2 ^ (8 * j)) mod 256.

Lemma bits_len_app l1 l2 : bits_len (l1 ++ l2) = bits_len l1 + bits_len l2.
Proof. induction l1 as [|[c w] l1 IH]; simpl; [done|]. rewrite IH. lia. Qed.

Lemma bits_len_nonneg l : fits l → 0 ≤ bits_len l.
Proof.
  induction 1 as [|[c w] l [Hw Hc] _ IH]; simpl in *; lia.
Qed.

Lemma bits_val_bound l : fits l → 0 ≤ bits_val l < 2 ^ bits_len l.
Proof.
  induction 1 as [|[c w] l [Hw Hc] Hl IH]; simpl in *; [lia|].
  pose proof (bits_len_nonneg l Hl).
  rewrite Z.pow_add_r by lia.
  assert (0 < 2 ^ w) by (apply Z.pow_pos_nonneg; lia).
  nia.
Qed.

Lemma bits_val_app l1 l2 :
  fits l1 → bits_val (l1 ++ l2) = bits_val l1 + 2 ^ bits_len l1 * bits_val l2.
Proof.
  induction 1 as [|[c w] l1 [Hw Hc] Hl IH]; simpl in *; [lia|].
  pose proof (bits_len_nonneg l1 Hl).
  rewrite IH, Z.pow_add_r by lia. ring.
Qed.

Lemma fits_app l1 l2 : fits l1 → fits l2 → fits (l1 ++ l2).
Proof. apply Forall_app_2. Qed.

(** What is left of the stream after its first codes. *)
Lemma bits_val_drop l1 l2 :
  fits l1 → bits_val (l1 ++ l2) / 2 ^ bits_len l1 = bits_val l2.
Proof.
  intros H1. rewrite bits_val_app by done.
  pose proof (bits_val_bound l1 H1). pose proof (bits_len_nonneg l1 H1).
  assert (0 < 2 ^ bits_len l1) by (apply Z.pow_pos_nonneg; lia).
  rewrite Z.mul_comm, Z.div_add by lia.
  rewrite Z.div_small by lia. lia.
Qed.

(** ** Arithmetic of the bit accumulators *)

Lemma pow2_pos n : 0 ≤ n → 0 < 2 ^ n.
Proof. intros. apply Z.pow_pos_nonneg; lia. Qed.

Lemma pow2_le a b : 0 ≤ a ≤ b → 2 ^ a ≤ 2 ^ b.
Proof. intros. apply Z.pow_le_mono_r; lia. Qed.

Lemma pow2_lt a b : 0 ≤ a < b → 2 ^ a < 2 ^ b.
Proof. intros. apply Z.pow_lt_mono_r; lia. Qed.

Lemma div_pow2_add V a b :
  0 ≤ a → 0 ≤ b → V / 2 ^ (a + b) = V / 2 ^ a / 2 ^ b.
Proof.
  intros Ha Hb. rewrite Z.pow_add_r by lia.
  pose proof (pow2_pos a Ha). pose proof (pow2_pos b Hb).
  rewrite Z.div_div; [done|lia..].
Qed.

(** Adding a code above the bits written so far. *)
Lemma add_code_div B c T n :
  0 ≤ n → 8 * n ≤ T →
  (B + c * 2 ^ T) / 2 ^ (8 * n) = B / 2 ^ (8 * n) + c * 2 ^ (T - 8 * n).
Proof.
  intros Hn HT.
  replace (2 ^ T) with (2 ^ (T - 8 * n) * 2 ^ (8 * n))
    by (rewrite <- Z.pow_add_r by lia; f_equal; lia).
  rewrite Z.mul_assoc, Z.div_add; [done|].
  pose proof (pow2_pos (8 * n)). lia.
Qed.

Lemma byte_of_add_code B c T j :
  0 ≤ j → 8 * (j + 1) ≤ T → byte_of (B + c * 2 ^ T) j = byte_of B j.
Proof.
  intros Hj HT. unfold byte_of.
  rewrite add_code_div by lia.
  replace (2 ^ (T - 8 * j)) with (2 ^ (T - 8 * j - 8) * 256)
    by (change 256 with (2 ^ 8); rewrite <- Z.pow_add_r by lia; f_equal; lia).
  rewrite Z.mul_assoc. apply Z_mod_plus_full.
Qed.

Lemma byte_of_next B n :
  0 ≤ n → B / 2 ^ (8 * n) / 256 = B / 2 ^ (8 * (n + 1)).
Proof.
  intros Hn. replace (8 * (n + 1)) with (8 * n + 8) by lia.
  rewrite div_pow2_add by lia. done.
Qed.

Lemma div_small_iff_lt B T n :
  0 ≤ B < 2 ^ T → 0 ≤ 8 * n ≤ T → 0 ≤ B / 2 ^ (8 * n) < 2 ^ (T - 8 * n).
Proof.
  intros HB Hn. pose proof (pow2_pos (8 * n)).
  split; [apply Z.div_pos; lia|].
  apply Z.div_lt_upper_bound; [lia|].
  rewrite <- Z.pow_add_r by lia. replace (8 * n + (T - 8 * n)) with T by lia. lia.
Qed.

(** Reading one more byte into the accumulator of the decoder. *)
Lemma read_byte_acc V s :
  0 ≤ s → V mod 2 ^ s + (V / 2 ^ s) mod 256 * 2 ^ s = V mod 2 ^ (s + 8).
Proof.
  intros Hs. rewrite Z.pow_add_r by lia. change (2 ^ 8) with 256.
  pose proof (pow2_pos s Hs).
  rewrite Z.rem_mul_r by lia. lia.
Qed.

(** Taking a code of [w] bits out of an accumulator of [s] bits. *)
Lemma take_code_mod V s w : 0 ≤ w ≤ s → (V mod 2 ^ s) mod 2 ^ w = V mod 2 ^ w.
Proof.
  intros Hw. replace s with (w + (s - w)) by lia.
  rewrite Z.pow_add_r by lia.
  pose proof (pow2_pos w). pose proof (pow2_pos (s - w)).
  rewrite Z.rem_mul_r by lia.
  rewrite (Z.mul_comm (2 ^ w)), Z_mod_plus_full. apply Z.mod_mod. lia.
Qed.

Lemma take_code_div V s w :
  0 ≤ w ≤ s → (V mod 2 ^ s) / 2 ^ w = (V / 2 ^ w) mod 2 ^ (s - w).
Proof.
  intros Hw. replace s with (w + (s - w)) at 1 by lia.
  rewrite Z.pow_add_r by lia.
  pose proof (pow2_pos w). pose proof (pow2_pos (s - w)).
  rewrite Z.rem_mul_r by lia.
  rewrite (Z.mul_comm (2 ^ w)), Z.div_add by lia.
  rewrite Z.div_small by (apply Z.mod_pos_bound; lia). lia.
Qed.

End Bits.


(** * The bit packer and the sub-blocks of the encoder *)

Module PackerFacts.
Import Encoder Bits.

#[local] Arguments JS.and : simpl never.
#[local] Arguments JS.or : simpl never.
#[local] Arguments JS.shl : simpl never.
#[local] Arguments JS.shr : simpl never.
#[local] Arguments buf_set : simpl never.
#[local] Arguments buf_get : simpl never.

Ltac zlia := Z.div_mod_to_equations; lia.

(** Where data byte [j] and the length byte of sub-block [b] are, for a
    code stream that starts at [p0]. *)
Definition data_pos (p0 j : Z) : Z := p0 + 2 + j + j / 255.
Definition len_pos (p0 b : Z) : Z := p0 + 1 + 256 * b.

Lemma data_pos_lt p0 i j : 0 ≤ i < j → data_pos p0 i < data_pos p0 j.
Proof. unfold data_pos. intros. zlia. Qed.

Lemma len_pos_ne_data p0 b j : 0 ≤ j → len_pos p0 b ≠ data_pos p0 j.
Proof. unfold data_pos, len_pos. intros. zlia. Qed.

Lemma len_pos_lt_data p0 b j : 0 ≤ j → 0 ≤ b ≤ j / 255 → len_pos p0 b < data_pos p0 j.
Proof. unfold data_pos, len_pos. intros. zlia. Qed.

(** The packer has put the first [n] bytes of the number [B] into the
    buffer of length [L] and holds the rest of [B] in [cur]. *)
Record stored (L : nat) (buf0 : list Z) (p0 B n : Z) (s : packer) : Prop := {
  st_start : 0 ≤ p0;
  st_count : 0 ≤ n;
  st_value : 0 ≤ B;
  st_length : length (buf s) = L;
  st_pos : p s = data_pos p0 n;
  st_room : p s ≤ Z.of_nat L;
  st_sub : cur_subblock s = len_pos p0 (n / 255);
  st_cur : cur s = B / 2 ^ (8 * n);
  st_data : ∀ j, 0 ≤ j < n → buf_get (buf s) (data_pos p0 j) = Some (byte_of B j);
  st_lens : ∀ b, 0 ≤ b < n / 255 → buf_get (buf s) (len_pos p0 b) = Some 255;
  st_below : ∀ i, i ≤ p0 → buf_get (buf s) i = buf_get buf0 i
}.

Lemma emit_byte_p s : p s < p (emit_byte s).
Proof. unfold emit_byte. case_match; simpl; lia. Qed.

Lemma emit_byte_shift s : cur_shift (emit_byte s) = cur_shift s - 8.
Proof. unfold emit_byte. by case_match. Qed.

Lemma emit_bytes_loop_p fuel bs s : p s ≤ p (emit_bytes_loop fuel bs s).
Proof.
  revert s. induction fuel as [|fuel IH]; intros s; simpl; [lia|].
  case_match; [|lia]. pose proof (emit_byte_p s). specialize (IH (emit_byte s)). lia.
Qed.

Lemma emit_byte_stored L buf0 p0 B n s :
  stored L buf0 p0 B n s → cur s < 2 ^ 31 →
  p (emit_byte s) ≤ Z.of_nat L →
  stored L buf0 p0 B (n + 1) (emit_byte s).
Proof.
  intros [Hp0 Hn HB Hlen st_p0 Hroom0 st_sub0 st_cur0 st_data0 st_lens0 st_below0]
         Hcur Hroom.
  pose proof (emit_byte_p s) as Hp.
  assert (0 ≤ cur s).
  { rewrite st_cur0. apply Z.div_pos; [lia|]. apply pow2_pos. lia. }
  assert (0 ≤ p s < Z.of_nat (length (buf s))) as Hin
    by (rewrite st_p0 in *; unfold data_pos in *; zlia).
  assert (Hwr : buf_get (buf_set (buf s) (p s) (JS.and (cur s) 255)) (p s)
                = Some (byte_of B n)).
  { rewrite buf_get_set_eq by done. rewrite JSFacts.and_255, Z.mod_mod by lia.
    unfold byte_of. by rewrite st_cur0. }
  assert (Hcur' : JS.shr (cur s) 8 = B / 2 ^ (8 * (n + 1))).
  { rewrite JSFacts.shr_small by lia. change (2 ^ 8) with 256.
    rewrite st_cur0. apply byte_of_next. lia. }
  unfold emit_byte in *.
  destruct (Z.eqb_spec (p s + 1) (cur_subblock s + 256)) as [Heq|Hne]; simpl in *.
  - assert ((n + 1) / 255 = n / 255 + 1) as Hdiv
      by (rewrite st_p0, st_sub0 in Heq; unfold data_pos, len_pos in Heq; zlia).
    constructor; simpl; try done; try lia.
    + by rewrite !buf_set_length.
    + rewrite st_p0. unfold data_pos. rewrite Hdiv. lia.
    + rewrite Hdiv, Heq, st_sub0. unfold len_pos. lia.
    + intros j Hj. rewrite buf_get_set_ne
        by (rewrite st_sub0; apply len_pos_ne_data; lia).
      destruct (Z.eq_dec j n) as [->|]; [by rewrite <- st_p0|].
      rewrite buf_get_set_ne by (rewrite st_p0; apply not_eq_sym, Z.lt_neq, data_pos_lt; lia).
      apply st_data0. lia.
    + intros b Hb. rewrite Hdiv in Hb.
      destruct (Z.eq_dec b (n / 255)) as [->|].
      * rewrite <- st_sub0. rewrite buf_get_set_eq; [done|].
        rewrite buf_set_length. rewrite st_sub0, st_p0 in *.
        unfold len_pos, data_pos in *. zlia.
      * rewrite buf_get_set_ne by (rewrite st_sub0; unfold len_pos; lia).
        rewrite buf_get_set_ne
          by (rewrite st_p0; apply not_eq_sym, len_pos_ne_data; lia).
        apply st_lens0. lia.
    + intros i Hi. rewrite !buf_get_set_ne; [by apply st_below0|..].
      * rewrite st_p0. unfold data_pos. zlia.
      * rewrite st_sub0. unfold len_pos. zlia.
  - assert ((n + 1) / 255 = n / 255) as Hdiv
      by (rewrite st_p0, st_sub0 in Hne; unfold data_pos, len_pos in Hne; zlia).
    constructor; simpl; try done; try lia.
    + by rewrite !buf_set_length.
    + rewrite st_p0. unfold data_pos. rewrite Hdiv. lia.
    + by rewrite Hdiv.
    + intros j Hj.
      destruct (Z.eq_dec j n) as [->|]; [by rewrite <- st_p0|].
      rewrite buf_get_set_ne by (rewrite st_p0; apply not_eq_sym, Z.lt_neq, data_pos_lt; lia).
      apply st_data0. lia.
    + intros b Hb. rewrite Hdiv in Hb.
      rewrite buf_get_set_ne
        by (rewrite st_p0; apply not_eq_sym, len_pos_ne_data; lia).
      by apply st_lens0.
    + intros i Hi. rewrite !buf_get_set_ne; [by apply st_below0|].
      rewrite st_p0. unfold data_pos. zlia.
Qed.

(** The packer is in step with a stream [B] of [T] bits: the full bytes
    are in the buffer, fewer than 8 bits wait in [cur]. *)
Definition packed (L : nat) (buf0 : list Z) (p0 B T : Z) (s : packer) : Prop :=
  stored L buf0 p0 B (T / 8) s ∧ 0 ≤ T ∧ B < 2 ^ T ∧ cur_shift s = T mod 8.

Lemma emit_bytes_loop_8 L buf0 p0 B T fuel : ∀ n s,
  stored L buf0 p0 B n s →
  B < 2 ^ T → cur_shift s = T - 8 * n → 0 ≤ T - 8 * n < 31 →
  T - 8 * n ≤ Z.of_nat fuel →
  p (emit_bytes_loop fuel 8 s) ≤ Z.of_nat L →
  stored L buf0 p0 B (T / 8) (emit_bytes_loop fuel 8 s)
  ∧ cur_shift (emit_bytes_loop fuel 8 s) = T mod 8.
Proof.
  induction fuel as [|fuel IH]; intros n s Hst HB Hsh Hr Hfuel Hroom; simpl in *.
  - assert (T / 8 = n) as -> by zlia. split; [done|]. zlia.
  - destruct (Z.leb_spec 8 (cur_shift s)).
    + apply (IH (n + 1)); try done; try lia.
      * apply emit_byte_stored; [done| |].
        -- rewrite (st_cur _ _ _ _ _ _ Hst).
           pose proof (st_value _ _ _ _ _ _ Hst). pose proof (st_count _ _ _ _ _ _ Hst).
           pose proof (div_small_iff_lt B T n ltac:(lia) ltac:(lia)).
           pose proof (pow2_le (T - 8 * n) 31 ltac:(lia)). lia.
        -- pose proof (emit_bytes_loop_p fuel 8 (emit_byte s)). lia.
      * rewrite emit_byte_shift. lia.
    + assert (T / 8 = n) as -> by zlia. split; [done|]. zlia.
Qed.

Lemma emit_code_p w c s : p s ≤ p (emit_code w c s).
Proof. unfold emit_code, emit_bytes_to_buffer. apply (emit_bytes_loop_p _ _ (Packer _ _ _ _ _)). Qed.

(** A code of [w] bits goes onto the stream. *)
Lemma emit_code_packed L buf0 p0 B T w c s :
  packed L buf0 p0 B T s →
  0 ≤ c < 2 ^ w → 1 ≤ w ≤ 12 →
  p (emit_code w c s) ≤ Z.of_nat L →
  packed L buf0 p0 (B + c * 2 ^ T) (T + w) (emit_code w c s).
Proof.
  intros (Hst & HT & HB & Hsh) Hc Hw Hroom.
  pose proof Hst as [Hp0 Hn HB0 Hlen Hp Hroom0 Hsub Hcur Hdata Hlens Hbelow].
  assert (8 * (T / 8) ≤ T ∧ T - 8 * (T / 8) = T mod 8 ∧ 0 ≤ T mod 8 < 8) as (Hn8 & Hm8 & Hm) by zlia.
  pose proof (div_small_iff_lt B T (T / 8) ltac:(lia) ltac:(lia)) as Hcb.
  rewrite Hm8 in Hcb.
  pose proof (pow2_pos T HT). pose proof (pow2_pos (T mod 8) ltac:(lia)).
  pose proof (pow2_le (T mod 8) 7 ltac:(lia)).
  pose proof (pow2_le w 12 ltac:(lia)).
  assert (c * 2 ^ (T mod 8) < 2 ^ 12 * 2 ^ 7) by nia.
  assert (Hor : JS.or (cur s) (JS.shl c (cur_shift s))
                = (B + c * 2 ^ T) / 2 ^ (8 * (T / 8))).
  { rewrite Hsh, JSFacts.shl_small by lia.
    rewrite Hcur in *. rewrite JSFacts.or_add_disjoint by lia.
    rewrite add_code_div by lia. by rewrite Hm8. }
  unfold emit_code, emit_bytes_to_buffer in *.
  set (s1 := Packer _ _ _ _ _) in *.
  assert (stored L buf0 p0 (B + c * 2 ^ T) (T / 8) s1) as Hst1.
  { constructor; simpl; try done; try nia.
    intros j Hj. rewrite byte_of_add_code by lia. by apply Hdata. }
  assert (B + c * 2 ^ T < 2 ^ (T + w)) as HB1.
  { rewrite Z.pow_add_r by lia. nia. }
  destruct (emit_bytes_loop_8 L buf0 p0 (B + c * 2 ^ T) (T + w)
              (Z.to_nat (cur_shift s1)) (T / 8) s1) as [Hr1 Hr2];
    try done; simpl; try lia.
  split_and!; try done; lia.
Qed.

Lemma emit_inline_loop_eq fuel s : emit_inline_loop fuel s = emit_bytes_loop fuel 8 s.
Proof. revert s. induction fuel as [|fuel IH]; intros s; simpl; [done|]. by rewrite IH. Qed.

(** The inlined copy is [emit_code]. *)
Lemma emit_inline_eq w c s : emit_inline w c s = emit_code w c s.
Proof. unfold emit_inline, emit_code, emit_bytes_to_buffer. apply emit_inline_loop_eq. Qed.

(** ** The end of the stream *)

(** A finished code stream of [N] data bytes, the bytes of [B], in
    sub-blocks from [p0 + 1] on. *)
Record framed (buf : list Z) (p0 B N : Z) : Prop := {
  fr_data : ∀ j, 0 ≤ j < N → buf_get buf (data_pos p0 j) = Some (byte_of B j);
  fr_lens : ∀ b, 0 ≤ b < N / 255 → buf_get buf (len_pos p0 b) = Some 255;
  fr_last : buf_get buf (len_pos p0 (N / 255)) = Some (N mod 255);
  fr_term : N mod 255 ≠ 0 → buf_get buf (data_pos p0 N) = Some 0
}.

Lemma emit_bytes_loop_stop fuel bs s :
  cur_shift s < bs → emit_bytes_loop fuel bs s = s.
Proof. intros H. destruct fuel; simpl; [done|]. case_match; [lia|done]. Qed.

(** The flush puts the last bits out, in a byte of their own. *)
Lemma flush_stored L buf0 p0 B T s :
  packed L buf0 p0 B T s →
  p (emit_bytes_to_buffer 1 s) ≤ Z.of_nat L →
  stored L buf0 p0 B ((T + 7) / 8) (emit_bytes_to_buffer 1 s).
Proof.
  intros (Hst & HT & HB & Hsh) Hroom. unfold emit_bytes_to_buffer in *.
  assert (0 ≤ T mod 8 < 8) as Hm by zlia.
  destruct (Z.to_nat (cur_shift s)) as [|fuel] eqn:Hf; simpl in *.
  - assert ((T + 7) / 8 = T / 8) as -> by zlia. done.
  - destruct (Z.leb_spec 1 (cur_shift s)); [|lia].
    rewrite emit_bytes_loop_stop in * by (rewrite emit_byte_shift; lia).
    assert ((T + 7) / 8 = T / 8 + 1) as -> by zlia.
    apply emit_byte_stored; [done| |done].
    rewrite (st_cur _ _ _ _ _ _ Hst).
    pose proof (st_value _ _ _ _ _ _ Hst).
    assert (8 * (T / 8) ≤ T ∧ T - 8 * (T / 8) = T mod 8) as [? Hm8] by zlia.
    pose proof (div_small_iff_lt B T (T / 8) ltac:(lia) ltac:(lia)).
    pose proof (pow2_le (T - 8 * (T / 8)) 31 ltac:(lia)). lia.
Qed.

(** The length of the last sub-block and the terminator. *)
Lemma close_framed L buf0 p0 B N s :
  stored L buf0 p0 B N s →
  let r := if cur_subblock s + 1 =? p s
           then (buf_set (buf s) (cur_subblock s) 0, p s)
           else (buf_set (buf_set (buf s) (cur_subblock s)
                                  (p s - cur_subblock s - 1)) (p s) 0,
                 p s + 1) in
  r.2 ≤ Z.of_nat L →
  framed r.1 p0 B N ∧ length r.1 = L
  ∧ (∀ i, i ≤ p0 → buf_get r.1 i = buf_get buf0 i)
  ∧ p s ≤ r.2.
Proof.
  intros [Hp0 Hn HB0 Hlen Hp Hroom0 Hsub Hcur Hdata Hlens Hbelow] r Hroom.
  subst r.
  destruct (Z.eqb_spec (cur_subblock s + 1) (p s)) as [Heq|Hne]; simpl in *.
  - assert (N mod 255 = 0) as Hmod
      by (rewrite Hp, Hsub in Heq; unfold data_pos, len_pos in Heq; zlia).
    split_and!; [constructor| | |lia].
    + intros j Hj. rewrite buf_get_set_ne
        by (rewrite Hsub; apply len_pos_ne_data; lia). by apply Hdata.
    + intros b Hb. rewrite buf_get_set_ne by (rewrite Hsub; unfold len_pos; lia).
      by apply Hlens.
    + rewrite <- Hsub, Hmod. rewrite buf_get_set_eq; [done|].
      rewrite Hlen. rewrite Hsub in *. unfold len_pos in *. zlia.
    + done.
    + by rewrite buf_set_length.
    + intros i Hi. rewrite buf_get_set_ne; [by apply Hbelow|].
      rewrite Hsub. unfold len_pos. zlia.
  - assert (N mod 255 ≠ 0 ∧ p s - cur_subblock s - 1 = N mod 255) as [Hmod Hlast]
      by (rewrite Hp, Hsub in *; unfold data_pos, len_pos in *; zlia).
    assert (0 ≤ N mod 255 < 255) by zlia.
    split_and!; [constructor| | |lia].
    + intros j Hj. rewrite buf_get_set_ne
        by (rewrite Hp; apply not_eq_sym, Z.lt_neq, data_pos_lt; lia).
      rewrite buf_get_set_ne by (rewrite Hsub; apply len_pos_ne_data; lia).
      by apply Hdata.
    + intros b Hb.
      rewrite buf_get_set_ne by (rewrite Hp; apply not_eq_sym, len_pos_ne_data; lia).
      rewrite buf_get_set_ne by (rewrite Hsub; unfold len_pos; lia).
      by apply Hlens.
    + rewrite buf_get_set_ne by (rewrite Hp; apply not_eq_sym, len_pos_ne_data; lia).
      rewrite <- Hsub, Hlast. rewrite buf_get_set_eq; [by rewrite Z.mod_small by lia|].
      rewrite Hlen. rewrite Hsub, Hp in *. unfold len_pos, data_pos in *. zlia.
    + intros _. rewrite <- Hp. rewrite buf_get_set_eq; [done|].
      rewrite buf_set_length, Hlen. rewrite Hp in *. unfold data_pos in *. zlia.
    + by rewrite !buf_set_length.
    + intros i Hi. rewrite !buf_get_set_ne; [by apply Hbelow|..].
      * rewrite Hsub. unfold len_pos. zlia.
      * rewrite Hp. unfold data_pos. zlia.
Qed.

End PackerFacts.


(** * The bit source of the decoder *)

Module UnpackerFacts.
Import Decoder Bits PackerFacts.

#[local] Arguments JS.and : simpl never.
#[local] Arguments JS.or : simpl never.
#[local] Arguments JS.shl : simpl never.
#[local] Arguments JS.shr : simpl never.
#[local] Arguments buf_set : simpl never.
#[local] Arguments buf_get : simpl never.

(** The bit source has taken [j] bytes of the [N] data bytes of [B] and has
    given out [t] bits. *)
Record synced (p0 B N t j : Z) (b : bits) : Prop := {
  sy_bytes : 0 ≤ j ≤ N;
  sy_bits : 0 ≤ t ≤ 8 * j;
  sy_shift : cur_shift b = 8 * j - t;
  sy_cur : cur b = (B / 2 ^ t) mod 2 ^ (8 * j - t);
  sy_pos : j < N → p b = data_pos p0 j;
  sy_sub : subblock_size b = Some (Z.min (255 - j mod 255) (N - j))
}.

Lemma read_byte_last buf b :
  subblock_size b = Some 1 →
  read_byte buf b =
  Bits (p b + 1 + 1) (buf_get buf (p b + 1))
       (JS.or (cur b) (JS.shl (num (buf_get buf (p b))) (cur_shift b)))
       (cur_shift b + 8).
Proof. intros H. unfold read_byte. by rewrite H. Qed.

Lemma read_byte_inner buf b n :
  subblock_size b = Some n → n ≠ 1 →
  read_byte buf b =
  Bits (p b + 1) (Some (n - 1))
       (JS.or (cur b) (JS.shl (num (buf_get buf (p b))) (cur_shift b)))
       (cur_shift b + 8).
Proof.
  intros H Hn. unfold read_byte. rewrite H.
  destruct n as [|[q|q|]|]; done.
Qed.

Lemma read_byte_synced buf p0 B N t j b :
  framed buf p0 B N → synced p0 B N t j b → j < N → cur_shift b < 16 →
  synced p0 B N t (j + 1) (read_byte buf b).
Proof.
  intros [Hdata Hlens Hlast Hterm] [Hj Ht Hsh Hcur Hpos Hsub] HjN H16.
  specialize (Hpos HjN).
  assert (Hcur' : JS.or (cur b) (JS.shl (num (buf_get buf (p b))) (cur_shift b))
                  = (B / 2 ^ t) mod 2 ^ (8 * (j + 1) - t)).
  { rewrite Hpos, Hdata by lia. simpl. unfold byte_of.
    replace (8 * j) with (t + (8 * j - t)) at 1 by lia.
    rewrite div_pow2_add by lia.
    set (V := B / 2 ^ t) in *. set (s := 8 * j - t) in *.
    pose proof (pow2_pos s ltac:(lia)). pose proof (pow2_le s 15 ltac:(lia)).
    pose proof (Z.mod_pos_bound V (2 ^ s) ltac:(lia)).
    pose proof (Z.mod_pos_bound (V / 2 ^ s) 256 ltac:(lia)).
    rewrite Hsh, Hcur.
    rewrite JSFacts.shl_small by nia.
    rewrite JSFacts.or_add_disjoint by nia.
    rewrite read_byte_acc by lia. f_equal. f_equal. lia. }
  set (n := Z.min (255 - j mod 255) (N - j)) in *.
  assert (1 ≤ n) by (unfold n; zlia).
  destruct (Z.eq_dec n 1) as [Hn1|Hn1].
  - rewrite Hn1 in Hsub. rewrite (read_byte_last _ _ Hsub), Hcur'.
    constructor; simpl; try lia.
    + intros Hlt. rewrite Hpos. unfold n, data_pos in *. zlia.
    + rewrite Hpos.
      destruct (Z.eq_dec (j + 1) N) as [HN|HN].
      * replace (Z.min _ _) with 0 by zlia.
        destruct (Z.eq_dec (N mod 255) 0) as [Hm|Hm].
        -- replace (data_pos p0 j + 1) with (len_pos p0 (N / 255))
             by (unfold data_pos, len_pos; zlia).
           by rewrite Hlast, Hm.
        -- replace (data_pos p0 j + 1) with (data_pos p0 N)
             by (unfold data_pos; zlia).
           by apply Hterm.
      * replace (data_pos p0 j + 1) with (len_pos p0 ((j + 1) / 255))
          by (unfold n, data_pos, len_pos in *; zlia).
        destruct (Z.eq_dec ((j + 1) / 255) (N / 255)) as [Hb|Hb].
        -- rewrite Hb, Hlast. f_equal. unfold n in *. zlia.
        -- rewrite Hlens by (unfold n in *; zlia). f_equal. unfold n in *. zlia.
  - rewrite (read_byte_inner _ _ _ Hsub Hn1), Hcur'.
    constructor; simpl; try lia.
    + intros _. rewrite Hpos. unfold n, data_pos in *. zlia.
    + f_equal. unfold n in *. zlia.
Qed.

Lemma fill_synced buf p0 B N t fuel : ∀ j b,
  framed buf p0 B N → synced p0 B N t j b →
  16 - cur_shift b ≤ Z.of_nat fuel →
  ∃ j', synced p0 B N t j' (fill_loop fuel buf b)
        ∧ (16 ≤ cur_shift (fill_loop fuel buf b) ∨ j' = N)
        ∧ cur_shift b ≤ cur_shift (fill_loop fuel buf b)
        ∧ (cur_shift (fill_loop fuel buf b) < 24 ∨ fill_loop fuel buf b = b).
Proof.
  induction fuel as [|fuel IH]; intros j b Hfr Hsy Hfuel; simpl.
  - exists j. split_and!; [done|left; lia|lia|by right].
  - destruct (Z.ltb_spec (cur_shift b) 16) as [Hlt|Hge].
    + pose proof Hsy as [Hj Ht Hsh Hcur Hpos Hsub].
      destruct (Z.eq_dec j N) as [->|HjN].
      * rewrite Hsub. replace (Z.min _ _) with 0 by zlia.
        exists N. split_and!; [done|by right|lia|by right].
      * assert (synced p0 B N t (j + 1) (read_byte buf b)) as Hsy1
          by (apply read_byte_synced; try done; lia).
        assert (cur_shift (read_byte buf b) = cur_shift b + 8) as Hsh1
          by (rewrite (sy_shift _ _ _ _ _ _ Hsy1), Hsh; lia).
        destruct (IH (j + 1) (read_byte buf b) Hfr Hsy1) as (j' & Hs' & Hor & Hle & Hlt');
          [lia|].
        assert (fill_loop fuel buf (read_byte buf b)
                = match subblock_size b with
                  | Some 0 => b
                  | _ => fill_loop fuel buf (read_byte buf b)
                  end) as <-.
        { rewrite Hsub. assert (1 ≤ Z.min (255 - j mod 255) (N - j)) by zlia.
          by destruct (Z.min _ _). }
        exists j'. split_and!; [done|done|lia|].
        destruct Hlt' as [?|Heq]; [by left|]. left. rewrite Heq. lia.
    + exists j. split_and!; [done|left; lia|lia|by right].
Qed.

(** What the body of the decoding loop does with the next [w] bits. *)
Lemma body_synced buf m total p0 B N t j b d op out :
  framed buf p0 B N → synced p0 B N t j b →
  cur_shift b < 24 →
  1 ≤ cur_code_size d ≤ 12 → code_mask d = 2 ^ cur_code_size d - 1 →
  let w := cur_code_size d in
  let c := (B / 2 ^ t) mod 2 ^ w in
  (t + w ≤ 8 * N →
   ∃ j' b2, synced p0 B N (t + w) j' b2 ∧ cur_shift b2 < 24 ∧
     body buf m total b d op out =
     if c =? clear_code m then
       Continue b2 (Dict (m + 1) (JS.shl 1 (m + 1) - 1) (eoi_code m + 1) None
                         (code_table d)) op out
     else if c =? eoi_code m then Break op out
     else emit_string m total c b2 d op out)
  ∧ (body buf m total b d op out = Break op out
     ∨ ∃ j' b2, synced p0 B N (t + w) j' b2 ∧ cur_shift b2 < 24 ∧
         body buf m total b d op out =
         if c =? clear_code m then
           Continue b2 (Dict (m + 1) (JS.shl 1 (m + 1) - 1) (eoi_code m + 1) None
                             (code_table d)) op out
         else if c =? eoi_code m then Break op out
         else emit_string m total c b2 d op out).
Proof.
  intros Hfr Hsy H24 Hw Hmask w c.
  pose proof Hsy as [Hj Ht Hsh Hcur Hpos Hsub].
  destruct (fill_synced buf p0 B N t (Z.to_nat (16 - cur_shift b)) j b Hfr Hsy)
    as (j' & Hsy' & Hor & Hle & Hlt); [lia|].
  fold (fill buf b) in *. set (b1 := fill buf b) in *.
  assert (cur_shift b1 < 24) as H24' by (destruct Hlt as [?| ->]; lia).
  pose proof Hsy' as [Hj' Ht' Hsh' Hcur' Hpos' Hsub'].
  assert (Hgo : w ≤ cur_shift b1 →
    ∃ j' b2, synced p0 B N (t + w) j' b2 ∧ cur_shift b2 < 24 ∧
      body buf m total b d op out =
      if c =? clear_code m then
        Continue b2 (Dict (m + 1) (JS.shl 1 (m + 1) - 1) (eoi_code m + 1) None
                          (code_table d)) op out
      else if c =? eoi_code m then Break op out
      else emit_string m total c b2 d op out).
  { intros Hwle.
    exists j', (Bits (p b1) (subblock_size b1) (JS.shr (cur b1) (cur_code_size d))
                     (cur_shift b1 - cur_code_size d)).
    assert (JS.and (cur b1) (code_mask d) = c) as Hcode.
    { rewrite Hmask, JSFacts.and_ones by lia. rewrite Hcur'.
      apply take_code_mod. unfold w. lia. }
    pose proof (pow2_pos (8 * j' - t) ltac:(lia)).
    pose proof (pow2_le (8 * j' - t) 23 ltac:(lia)).
    pose proof (Z.mod_pos_bound (B / 2 ^ t) (2 ^ (8 * j' - t)) ltac:(lia)).
    split_and!.
    - constructor; simpl; try done; try (unfold w; lia).
      rewrite JSFacts.shr_small by (rewrite ?Hcur'; lia).
      rewrite Hcur'. rewrite take_code_div by lia.
      unfold w. rewrite <- div_pow2_add by lia. f_equal. f_equal. lia.
    - simpl. lia.
    - unfold body. fold b1.
      destruct (Z.ltb_spec (cur_shift b1) (cur_code_size d)); [unfold w in *; lia|].
      by rewrite Hcode. }
  split.
  - intros Hroom. apply Hgo. destruct Hor as [?| ->]; [unfold w in *; lia|]. lia.
  - destruct (Z.lt_ge_cases (cur_shift b1) w) as [Hlt'|Hge].
    + left. unfold body. fold b1.
      destruct (Z.ltb_spec (cur_shift b1) (cur_code_size d)); [done|unfold w in *; lia].
    + right. by apply Hgo.
Qed.

End UnpackerFacts.


(** * The dictionary of the codec *)

Module DictFacts.
Import Bits.

#[local] Arguments JS.and : simpl never.
#[local] Arguments JS.or : simpl never.
#[local] Arguments JS.shl : simpl never.
#[local] Arguments JS.shr : simpl never.
#[local] Arguments buf_set : simpl never.
#[local] Arguments buf_get : simpl never.

(** An entry of the dictionary: the code of its prefix, its last symbol
    and, as a ghost, the string it stands for. Entry [j] has the code
    [2 ^ m + 2 + j]. *)
Abbreviation entry := (Z * Z * list Z)%type.

Section Dict.
Variable m : Z.
Hypothesis Hm : 2 ≤ m ≤ 8.

Definition CC : Z := 2 ^ m.
Definition EOI : Z := CC + 1.
Definition FIRST : Z := CC + 2.

Lemma CC_bounds : 4 ≤ CC ≤ 256.
Proof.
  unfold CC. pose proof (pow2_le 2 m ltac:(lia)). pose proof (pow2_le m 8 ltac:(lia)).
  change (2 ^ 2) with 4 in *. change (2 ^ 8) with 256 in *. lia.
Qed.

(** The string of a code. *)
Definition str (G : list entry) (c : Z) : list Z :=
  if c <? CC then [c]
  else if c <? FIRST then []
  else match G !! Z.to_nat (c - FIRST) with
       | Some (_, _, s) => s
       | None => []
       end.

(** A code below [n] that is neither the clear code nor the end code. *)
Definition valid_code (n c : Z) : Prop := 0 ≤ c < n ∧ c ≠ CC ∧ c ≠ EOI.

Definition wf_dict (G : list entry) : Prop :=
  ∀ j pc k s, G !! j = Some (pc, k, s) →
    0 ≤ k < CC ∧ valid_code (FIRST + Z.of_nat j) pc ∧ s = str G pc ++ [k].

Lemma str_literal (G : list entry) c : c < CC → str G c = [c].
Proof. intros H. unfold str. by destruct (Z.ltb_spec c CC); [|lia]. Qed.

Lemma str_entry (G : list entry) j pc k s :
  G !! j = Some (pc, k, s) → str G (FIRST + Z.of_nat j) = s.
Proof.
  intros H. unfold str, FIRST. destruct (Z.ltb_spec (CC + 2 + Z.of_nat j) CC); [lia|].
  destruct (Z.ltb_spec (CC + 2 + Z.of_nat j) (CC + 2)); [lia|].
  replace (Z.to_nat (CC + 2 + Z.of_nat j - (CC + 2))) with j by lia. by rewrite H.
Qed.

(** A valid code is a literal or has an entry. *)
Lemma valid_code_cases (G : list entry) n c :
  valid_code n c → n ≤ FIRST + Z.of_nat (length G) →
  c < CC ∨ ∃ j pc k s, c = FIRST + Z.of_nat j ∧ Z.of_nat j < n - FIRST
                       ∧ G !! j = Some (pc, k, s).
Proof.
  intros (Hc & H1 & H2) Hn. unfold EOI, FIRST in *.
  destruct (Z.lt_ge_cases c CC) as [?|?]; [by left|right].
  destruct (lookup_lt_is_Some_2 G (Z.to_nat (c - (CC + 2)))) as [[[pc k] s] Hs]; [lia|].
  exists (Z.to_nat (c - (CC + 2))), pc, k, s. split_and!; [lia|lia|done].
Qed.

Lemma wf_app (G : list entry) pc k :
  wf_dict G → 0 ≤ k < CC → valid_code (FIRST + Z.of_nat (length G)) pc →
  wf_dict (G ++ [(pc, k, str G pc ++ [k])]).
Proof.
  intros Hwf Hk Hpc.
  assert (Hstr : ∀ c, c < FIRST + Z.of_nat (length G) →
                      str (G ++ [(pc, k, str G pc ++ [k])]) c = str G c).
  { intros c Hc. unfold str. destruct (Z.ltb_spec c CC); [done|].
    destruct (Z.ltb_spec c FIRST); [done|].
    rewrite lookup_app_l; [done|]. lia. }
  intros j pc' k' s' Hj.
  destruct (lookup_app_Some G [(pc, k, str G pc ++ [k])] j (pc', k', s')) as [Hcase _].
  destruct (Hcase Hj) as [Hl|[Hlen Hr]].
  - destruct (Hwf j pc' k' s' Hl) as (? & Hv & ->). split; [done|split; [done|]].
    rewrite Hstr; [done|]. apply lookup_lt_Some in Hl. destruct Hv as [? _]. lia.
  - destruct (j - length G)%nat eqn:E; [|by destruct n]. simpl in Hr. simplify_eq.
    assert (j = length G) as -> by lia.
    split; [done|split; [done|]]. rewrite Hstr; [done|]. destruct Hpc as [? _]. lia.
Qed.

Lemma wf_nil : wf_dict [].
Proof. intros j pc k s H. by rewrite lookup_nil in H. Qed.

(** The strings are not empty and made of symbols below the clear code. *)
Lemma str_valid_fuel (G : list entry) (fuel : nat) : ∀ n c,
  wf_dict G → c < Z.of_nat fuel →
  n ≤ FIRST + Z.of_nat (length G) → valid_code n c →
  str G c ≠ [] ∧ Forall (λ x, 0 ≤ x < CC) (str G c).
Proof.
  induction fuel as [|fuel IH]; intros n c Hwf Hf Hn Hv; [destruct Hv; lia|].
  destruct (valid_code_cases G n c Hv Hn) as [Hlit|(j & pc & k & s & -> & Hj & HG)].
  - rewrite str_literal by done. split; [done|]. constructor; [|done].
    destruct Hv as [? _]. lia.
  - rewrite (str_entry _ _ _ _ _ HG).
    destruct (Hwf j pc k s HG) as (Hk & Hv' & ->).
    destruct (IH (FIRST + Z.of_nat j) pc) as [_ Hall]; [done| | |done|].
    + destruct Hv' as [? _]. lia.
    + apply lookup_lt_Some in HG. lia.
    + split; [by destruct (str G pc)|]. apply Forall_app. split; [done|].
      by constructor.
Qed.

Lemma str_valid (G : list entry) n c :
  wf_dict G → n ≤ FIRST + Z.of_nat (length G) → valid_code n c →
  str G c ≠ [] ∧ Forall (λ x, 0 ≤ x < CC) (str G c).
Proof.
  intros Hwf Hn Hv. apply (str_valid_fuel G (Z.to_nat c + 1) n c); [done| |done..].
  destruct Hv as [? _]. lia.
Qed.

(** ** The table of the decoder *)

Lemma clear_code_CC : Decoder.clear_code m = CC.
Proof.
  unfold Decoder.clear_code, CC. pose proof (pow2_le m 8 ltac:(lia)).
  change (2 ^ 8) with 256 in *. rewrite JSFacts.shl_small; lia.
Qed.

(** The table of the decoder holds the entries of the codes below [n]. *)
Definition table_agrees (G : list entry) (n : Z) (t : list Z) : Prop :=
  length t = 4096%nat ∧ n ≤ FIRST + Z.of_nat (length G) ∧ n ≤ 4096
  ∧ ∀ j pc k s, Z.of_nat j < n - FIRST → G !! j = Some (pc, k, s) →
      buf_get t (FIRST + Z.of_nat j) = Some (pc * 256 + k).

Lemma entry_prefix pc k :
  0 ≤ k < 256 → 0 ≤ pc < 4096 → JS.shr (pc * 256 + k) 8 = pc.
Proof.
  intros Hk Hpc. rewrite JSFacts.shr_small by lia. change (2 ^ 8) with 256.
  rewrite Z.div_add_l by lia. rewrite Z.div_small; lia.
Qed.

Lemma entry_suffix pc k :
  0 ≤ k < 256 → JS.and (pc * 256 + k) 0xFF = k.
Proof.
  intros Hk. rewrite JSFacts.and_255.
  rewrite Z.add_comm, Z_mod_plus_full. apply Z.mod_small. lia.
Qed.

(** The entry of a valid code that is not a literal, as the decoder reads
    it. *)
Lemma table_entry (G : list entry) n t c :
  wf_dict G → table_agrees G n t → valid_code n c → CC ≤ c →
  ∃ j pc k s, c = FIRST + Z.of_nat j ∧ G !! j = Some (pc, k, s)
    ∧ buf_get t c = Some (pc * 256 + k)
    ∧ 0 ≤ k < CC ∧ valid_code c pc ∧ str G c = str G pc ++ [k].
Proof.
  intros Hwf (Hlen & Hn & Hn' & Ht) Hv Hge.
  destruct (valid_code_cases G n c Hv Hn) as [?|(j & pc & k & s & -> & Hj & HG)]; [lia|].
  destruct (Hwf j pc k s HG) as (Hk & Hpc & Hs).
  exists j, pc, k, s.
  split; [done|]. split; [done|]. split; [by apply (Ht j pc k s)|].
  split; [done|]. split; [done|].
  by rewrite (str_entry _ _ _ _ _ HG).
Qed.

Lemma chase_length_ok (G : list entry) n t (fuel : nat) : ∀ c len,
  wf_dict G → table_agrees G n t → valid_code n c → c < Z.of_nat fuel →
  Decoder.chase_length_loop fuel (Decoder.clear_code m) t (Some c) len
  = Some (Some (hd 0 (str G c)), len + Z.of_nat (length (str G c)) - 1).
Proof.
  induction fuel as [|fuel IH]; intros c len Hwf Hag Hv Hf; [destruct Hv; lia|].
  simpl. rewrite clear_code_CC.
  destruct (Z.ltb_spec CC c) as [Hgt|Hle].
  - destruct (table_entry G n t c Hwf Hag Hv) as (j & pc & k & s & Hc & HG & Ht & Hk & Hpc & Hs);
      [lia|].
    rewrite Ht. simpl num. pose proof CC_bounds.
    pose proof Hag as (Hlen & Hn & Hn' & Hall).
    assert (0 ≤ pc < 4096) by (destruct Hpc as [? _]; destruct Hv as [? _]; lia).
    rewrite entry_prefix by lia.
    assert (valid_code n pc) as Hpcn.
    { destruct Hpc as (? & ? & ?), Hv as (? & _). split; [lia|done]. }
    rewrite <- clear_code_CC.
    rewrite (IH pc (len + 1) Hwf Hag Hpcn) by (destruct Hpc as [? _]; lia).
    destruct (str_valid G n pc Hwf Hn Hpcn) as [Hne _].
    rewrite Hs, length_app. simpl length.
    destruct (str G pc); [done|]. simpl. do 2 f_equal. lia.
  - destruct Hv as (? & ? & ?). rewrite str_literal by lia. simpl. do 2 f_equal. lia.
Qed.

(** [out'] is [out] with the string [s] at [op]. *)
Definition written (out out' : list Z) (op : Z) (s : list Z) : Prop :=
  length out' = length out
  ∧ (∀ i : nat, (i < length s)%nat → buf_get out' (op + Z.of_nat i) = s !! i)
  ∧ (∀ z, z < op ∨ op + Z.of_nat (length s) ≤ z → buf_get out' z = buf_get out z).

(** The second chase writes all of the string but its first symbol, from
    the back. *)
Lemma write_back_ok (G : list entry) n t (fuel : nat) : ∀ c bk out,
  wf_dict G → table_agrees G n t → valid_code n c → c < Z.of_nat fuel →
  0 ≤ bk - Z.of_nat (length (str G c)) → bk ≤ Z.of_nat (length out) →
  let out' := Decoder.write_back_loop (length (str G c) - 1) t (Some c) bk out in
  length out' = length out
  ∧ (∀ i : nat, (1 ≤ i < length (str G c))%nat →
       buf_get out' (bk - Z.of_nat (length (str G c)) + Z.of_nat i) = str G c !! i)
  ∧ (∀ z, z ≤ bk - Z.of_nat (length (str G c)) ∨ bk ≤ z →
       buf_get out' z = buf_get out z).
Proof.
  induction fuel as [|fuel IH]; intros c bk out Hwf Hag Hv Hf Hlo Hhi;
    [destruct Hv; lia|].
  destruct (Z.lt_ge_cases c CC) as [Hlit|Hge].
  - rewrite str_literal in * by done. simpl. split_and!; [done| |done].
    intros i Hi. lia.
  - destruct (table_entry G n t c Hwf Hag Hv Hge)
      as (j & pc & k & s & Hc & HG & Ht & Hk & Hpc & Hs).
    pose proof CC_bounds. pose proof Hag as (Hlen & Hn & Hn' & Hall).
    assert (0 ≤ pc < 4096) by (destruct Hpc as [? _]; destruct Hv as [? _]; lia).
    assert (valid_code n pc) as Hpcn.
    { destruct Hpc as (? & ? & ?), Hv as (? & _). split; [lia|done]. }
    destruct (str_valid G n pc Hwf Hn Hpcn) as [Hne _].
    assert (1 ≤ length (str G pc))%nat as HL by (destruct (str G pc); [done|simpl; lia]).
    rewrite Hs in *. rewrite length_app in *. simpl length in *.
    replace (length (str G pc) + 1 - 1)%nat with (S (length (str G pc) - 1)) by lia.
    simpl. rewrite Ht. simpl num.
    rewrite entry_prefix, entry_suffix by lia.
    set (out1 := buf_set out (bk - 1) k).
    destruct (IH pc (bk - 1) out1 Hwf Hag Hpcn) as (Hl1 & Hd1 & Hf1).
    + destruct Hpc as [? _]. lia.
    + lia.
    + unfold out1. rewrite buf_set_length. lia.
    + split_and!.
      * rewrite Hl1. apply buf_set_length.
      * intros i Hi.
        destruct (decide (i = length (str G pc))) as [->|Hne'].
        -- rewrite Hf1 by lia. unfold out1.
           replace (bk - Z.of_nat (length (str G pc) + 1) + Z.of_nat (length (str G pc)))
             with (bk - 1) by lia.
           rewrite buf_get_set_eq by lia.
           rewrite Z.mod_small by lia.
           rewrite lookup_app_r by lia. by rewrite Nat.sub_diag.
        -- rewrite lookup_app_l by lia. rewrite <- Hd1 by lia. f_equal. lia.
      * intros z Hz. rewrite Hf1 by lia. unfold out1.
        apply buf_get_set_ne. lia.
Qed.

(** The dictionary of the decoder after a code with first symbol [k]. *)
Definition dict_after (d : Decoder.dict) (code k : Z) : Decoder.dict :=
  match Decoder.prev_code d with
  | Some prev =>
      if Decoder.next_code d <? 4096 then
        let t1 := Decoder.int32_set (Decoder.code_table d) (Decoder.next_code d)
                                    (JS.or (JS.shl prev 8) k) in
        let next_code1 := Decoder.next_code d + 1 in
        if (Decoder.code_mask d + 1 <=? next_code1) && (Decoder.cur_code_size d <? 12)
        then Decoder.Dict (Decoder.cur_code_size d + 1)
                          (JS.or (JS.shl (Decoder.code_mask d) 1) 1)
                          next_code1 (Some code) t1
        else Decoder.Dict (Decoder.cur_code_size d) (Decoder.code_mask d)
                          next_code1 (Some code) t1
      else Decoder.Dict (Decoder.cur_code_size d) (Decoder.code_mask d)
                        (Decoder.next_code d) (Some code) (Decoder.code_table d)
  | None => Decoder.Dict (Decoder.cur_code_size d) (Decoder.code_mask d)
                         (Decoder.next_code d) (Some code) (Decoder.code_table d)
  end.

Lemma hd_lookup (l : list Z) : (1 ≤ length l)%nat → Some (hd 0 l) = l !! 0%nat.
Proof. destruct l; simpl; [lia|done]. Qed.

(** What the decoder does with a code whose chase starts at the valid code
    [c0]: the code itself, or the previous code when the code is the one
    about to be made. *)
Lemma emit_string_chase (G : list entry) total code c0 b d op out :
  wf_dict G →
  table_agrees G (Decoder.next_code d) (Decoder.code_table d) →
  valid_code (Decoder.next_code d) c0 →
  (if code <? Decoder.next_code d then Some code else Decoder.prev_code d) = Some c0 →
  let s := str G c0 in
  let k := hd 0 s in
  let tail := if decide (c0 = code) then [] else [k] in
  0 ≤ op → Z.of_nat (length out) = total →
  op + Z.of_nat (length (s ++ tail)) ≤ total →
  ∃ out',
    Decoder.emit_string m total code b d op out
    = Decoder.Continue b (dict_after d code k)
                       (op + Z.of_nat (length (s ++ tail))) out'
    ∧ written out out' op (s ++ tail).
Proof.
  intros Hwf Hag Hv Hchase s k tail Hop Hlen Hend.
  pose proof Hag as (Htl & Hn & Hn' & Hall). pose proof CC_bounds.
  destruct (str_valid G _ c0 Hwf Hn Hv) as [Hne Hsym].
  assert (1 ≤ length s)%nat as HL by (unfold s; destruct (str G c0); [done|simpl; lia]).
  assert (0 ≤ k < CC) as Hk.
  { unfold k, s. destruct (str G c0) as [|x l]; [done|]. simpl.
    apply Forall_cons in Hsym as [Hx _]. simpl in Hx. lia. }
  unfold Decoder.emit_string. rewrite Hchase.
  rewrite (chase_length_ok G _ _ 4100 c0 0 Hwf Hag Hv) by (destruct Hv; lia).
  fold s. fold k. simpl num.
  replace (negb (bool_decide (Some c0 = Some code)))
    with (if decide (c0 = code) then false else true)
    by (destruct (decide (c0 = code)) as [->|Hne'];
        [by rewrite bool_decide_eq_true_2
        |rewrite bool_decide_eq_false_2; [done|congruence]]).
  rewrite length_app in *.
  replace (Z.to_nat (0 + Z.of_nat (length s) - 1)) with (length s - 1)%nat by lia.
  set (out1 := buf_set out op k).
  destruct (decide (c0 = code)) as [Heq|Hneq]; subst tail; simpl length in *.
  - destruct (Z.ltb_spec total (op + (0 + Z.of_nat (length s) - 1) + 0)); [lia|].
    destruct (write_back_ok G _ _ 4100 c0 (op + 1 + (0 + Z.of_nat (length s) - 1))
                out1 Hwf Hag Hv) as (Hl & Hd & Hf); fold s.
    + destruct Hv; lia.
    + lia.
    + unfold out1. rewrite buf_set_length. lia.
    + fold s in Hl, Hd, Hf. eexists. split.
      * f_equal. lia.
      * rewrite app_nil_r. unfold written. split_and!.
        -- rewrite Hl. apply buf_set_length.
        -- intros i Hi. destruct i as [|i].
           ++ rewrite Hf by lia. unfold out1.
              replace (op + Z.of_nat 0) with op by lia.
              rewrite buf_get_set_eq by lia. rewrite Z.mod_small by lia.
              by apply hd_lookup.
           ++ rewrite <- Hd by lia. f_equal. lia.
        -- intros z Hz. rewrite Hf by lia. unfold out1. apply buf_get_set_ne. lia.
  - destruct (Z.ltb_spec total (op + (0 + Z.of_nat (length s) - 1) + 1)); [lia|].
    set (bk := op + 1 + (0 + Z.of_nat (length s) - 1)).
    set (out2 := buf_set out1 bk k).
    destruct (write_back_ok G _ _ 4100 c0 bk out2 Hwf Hag Hv) as (Hl & Hd & Hf); fold s.
    + destruct Hv; lia.
    + unfold bk. lia.
    + unfold out2, out1, bk. rewrite !buf_set_length. lia.
    + fold s in Hl, Hd, Hf. eexists. split.
      * f_equal. unfold bk. lia.
      * unfold written. rewrite length_app. simpl length. split_and!.
        -- rewrite Hl. unfold out2, out1. by rewrite !buf_set_length.
        -- intros i Hi. destruct (decide (i = length s)) as [->|Hi'].
           ++ rewrite Hf by (unfold bk; lia). unfold out2.
              replace (op + Z.of_nat (length s)) with bk by (unfold bk; lia).
              rewrite buf_get_set_eq
                by (unfold out1, bk; rewrite buf_set_length; lia).
              rewrite Z.mod_small by lia.
              rewrite lookup_app_r by lia. by rewrite Nat.sub_diag.
           ++ rewrite lookup_app_l by lia. destruct i as [|i].
              ** rewrite Hf by (unfold bk; lia). unfold out2, out1.
                 replace (op + Z.of_nat 0) with op by lia.
                 rewrite buf_get_set_ne by (unfold bk; lia).
                 rewrite buf_get_set_eq by lia. rewrite Z.mod_small by lia.
                 by apply hd_lookup.
              ** rewrite <- Hd by lia. f_equal. unfold bk. lia.
        -- intros z Hz. rewrite Hf by (unfold bk; lia). unfold out2, out1.
           rewrite !buf_get_set_ne; [done|unfold bk; lia..].
Qed.

End Dict.
End DictFacts.


(** * The encoder and its dictionary *)

Module EncoderFacts.
Import Bits PackerFacts DictFacts Encoder.

#[local] Arguments JS.and : simpl never.
#[local] Arguments JS.or : simpl never.
#[local] Arguments JS.shl : simpl never.
#[local] Arguments JS.shr : simpl never.
#[local] Arguments buf_set : simpl never.
#[local] Arguments buf_get : simpl never.

Section Codec.
Variable m : Z.
Hypothesis Hm : 2 ≤ m ≤ 8.

Abbreviation CC := (DictFacts.CC m).
Abbreviation EOI := (DictFacts.EOI m).
Abbreviation FIRST := (DictFacts.FIRST m).

Lemma enc_clear_code : clear_code m = CC.
Proof. apply EncoderMask.clear_code_eq. lia. Qed.

Lemma enc_eoi_code : eoi_code m = EOI.
Proof. unfold eoi_code. by rewrite enc_clear_code. Qed.

(** The table of the encoder is the dictionary [G], the index buffer holds
    a valid code, and the codes made so far fit the code size. *)
Record enc_inv (G : list entry) (st : state) : Prop := {
  ei_next : next_code st = FIRST + Z.of_nat (length G);
  ei_full : next_code st ≤ 4096;
  ei_table : ∀ key c,
    code_table st !! key = Some c ↔
    ∃ j pc k s, G !! j = Some (pc, k, s) ∧ key = pc * 256 + k
                ∧ c = FIRST + Z.of_nat j;
  ei_wf : wf_dict m G;
  ei_ib : valid_code m (next_code st) (ib_code st);
  ei_size : m + 1 ≤ cur_code_size st ≤ 12 ∧ next_code st ≤ 2 ^ cur_code_size st
}.

(** The codes that one turn of the loop puts out. *)
Definition step_codes (st : state) (x : Z) : list (Z * Z) :=
  let k := JS.and x (code_mask m) in
  let cur_key := JS.or (JS.shl (ib_code st) 8) k in
  match code_table st !! cur_key with
  | None =>
      (ib_code st, cur_code_size st)
      :: (if next_code st =? 4096 then [(clear_code m, cur_code_size st)] else [])
  | Some _ => []
  end.

(** The codes that the loop on [xs] and the end of the encoder put out. *)
Fixpoint codes_from (st : state) (xs : list Z) : list (Z * Z) :=
  match xs with
  | [] => [(ib_code st, cur_code_size st); (eoi_code m, cur_code_size st)]
  | x :: xs' => step_codes st x ++ codes_from (step m st x) xs'
  end.

Fixpoint emit_all (codes : list (Z * Z)) (s : packer) : packer :=
  match codes with
  | [] => s
  | (c, w) :: rest => emit_all rest (emit_code w c s)
  end.

Lemma emit_all_app l1 l2 s : emit_all (l1 ++ l2) s = emit_all l2 (emit_all l1 s).
Proof. revert s. induction l1 as [|[c w] l1 IH]; intros s; simpl; [done|]. apply IH. Qed.

Lemma step_pk st x : pk (step m st x) = emit_all (step_codes st x) (pk st).
Proof.
  unfold step, step_codes. destruct (code_table st !! _); [done|].
  rewrite emit_inline_eq. by destruct (next_code st =? 4096).
Qed.

(** The packer of the encoder puts out the codes of [codes_from], flushes
    and closes the last sub-block. *)
Lemma finish_fold_eq xs : ∀ st,
  finish m (fold_left (step m) xs st) =
  let s3 := emit_bytes_to_buffer 1 (emit_all (codes_from st xs) (pk st)) in
  if cur_subblock s3 + 1 =? p s3
  then (buf_set (buf s3) (cur_subblock s3) 0, p s3)
  else (buf_set (buf_set (buf s3) (cur_subblock s3) (p s3 - cur_subblock s3 - 1))
                (p s3) 0, p s3 + 1).
Proof.
  induction xs as [|x xs IH]; intros st; simpl.
  - reflexivity.
  - rewrite IH, emit_all_app, step_pk. reflexivity.
Qed.

(** ** One turn of the loop *)

Lemma symbol_bound x : 0 ≤ x mod CC < CC ∧ CC ≤ 256.
Proof.
  pose proof (CC_bounds m Hm). split; [|lia]. apply Z.mod_pos_bound. lia.
Qed.

Lemma ib_bound G st : enc_inv G st → 0 ≤ ib_code st < 4096.
Proof. intros [? ? _ _ [? _] _]. lia. Qed.

Lemma step_key G st x :
  enc_inv G st →
  JS.or (JS.shl (ib_code st) 8) (JS.and x (code_mask m)) = ib_code st * 256 + x mod CC.
Proof.
  intros Hinv. rewrite EncoderMask.and_code_mask by lia. fold CC.
  pose proof (symbol_bound x). apply JSFacts.key_eq; [by eapply ib_bound|lia].
Qed.

(** Keys of entries are the same only for the same entry. *)
Lemma key_inj pc k pc' k' :
  0 ≤ k < 256 → 0 ≤ k' < 256 → pc * 256 + k = pc' * 256 + k' → pc = pc' ∧ k = k'.
Proof. intros. assert (pc = pc') by lia. lia. Qed.

(** The prefix with the next symbol is in the dictionary: the index buffer
    moves on to its code and nothing is put out. *)
Lemma step_found (G : list entry) st x c :
  enc_inv G st →
  code_table st !! (ib_code st * 256 + x mod CC) = Some c →
  step m st x = State (pk st) (cur_code_size st) (next_code st) (code_table st) c
  ∧ step_codes st x = []
  ∧ enc_inv G (step m st x)
  ∧ str m G c = str m G (ib_code st) ++ [x mod CC].
Proof.
  intros Hinv Hlook. pose proof Hinv as [Hnext Hfull Htable Hwf Hib Hsize].
  unfold step, step_codes. rewrite (step_key G st x Hinv), Hlook.
  split_and!; [done..| |].
  - destruct (proj1 (Htable _ _) Hlook) as (j & pc & k & s & HG & Hkey & ->).
    constructor; simpl; try done.
    apply lookup_lt_Some in HG. pose proof (CC_bounds m Hm).
    unfold valid_code, DictFacts.FIRST, DictFacts.EOI in *. lia.
  - destruct (proj1 (Htable _ _) Hlook) as (j & pc & k & s & HG & Hkey & ->).
    destruct (Hwf j pc k s HG) as (Hk & Hpc & Hs).
    pose proof (symbol_bound x).
    apply key_inj in Hkey as [<- <-]; [|lia..].
    by rewrite (str_entry m _ _ _ _ _ HG).
Qed.

(** The prefix with the next symbol is new and the table has room: the
    code of the prefix is put out and the new entry gets the next code. *)
Lemma step_new (G : list entry) st x :
  enc_inv G st →
  code_table st !! (ib_code st * 256 + x mod CC) = None →
  next_code st ≠ 4096 →
  let size' := if 2 ^ cur_code_size st <=? next_code st
               then cur_code_size st + 1 else cur_code_size st in
  step m st x = State (emit_code (cur_code_size st) (ib_code st) (pk st)) size'
                      (next_code st + 1)
                      (<[ib_code st * 256 + x mod CC := next_code st]> (code_table st))
                      (x mod CC)
  ∧ step_codes st x = [(ib_code st, cur_code_size st)]
  ∧ enc_inv (G ++ [(ib_code st, x mod CC, str m G (ib_code st) ++ [x mod CC])])
            (step m st x).
Proof.
  intros Hinv Hlook Hnot size'. pose proof Hinv as [Hnext Hfull Htable Hwf Hib Hsize].
  pose proof (symbol_bound x) as [Hk HCC]. pose proof (CC_bounds m Hm).
  assert (Hstep : step m st x
            = State (emit_code (cur_code_size st) (ib_code st) (pk st)) size'
                    (next_code st + 1)
                    (<[ib_code st * 256 + x mod CC := next_code st]> (code_table st))
                    (x mod CC)).
  { unfold step. rewrite (step_key G st x Hinv), Hlook, emit_inline_eq.
    destruct (Z.eqb_spec (next_code st) 4096); [done|].
    rewrite EncoderMask.and_code_mask by lia.
    assert (2 ^ cur_code_size st ≤ 2 ^ 12) by (apply pow2_le; lia).
    rewrite JSFacts.shl_small by lia. rewrite Z.mul_1_l. done. }
  split; [done|]. split.
  { unfold step_codes. rewrite (step_key G st x Hinv), Hlook.
    by destruct (Z.eqb_spec (next_code st) 4096). }
  rewrite Hstep. constructor; simpl.
  - rewrite length_app. simpl. lia.
  - lia.
  - intros key c. destruct (decide (key = ib_code st * 256 + x mod CC)) as [->|Hne].
    + rewrite lookup_insert_eq. split.
      * intros ?. simplify_eq.
        exists (length G), (ib_code st), (x mod CC),
               (str m G (ib_code st) ++ [x mod CC]).
        split_and!; [|done|lia]. by rewrite lookup_app_r, Nat.sub_diag by lia.
      * intros (j & pc & k & s & HG & Hkey & ->).
        destruct (decide (j = length G)) as [->|Hj]; [f_equal; lia|].
        exfalso. rewrite lookup_app_l in HG.
        -- assert (code_table st !! (pc * 256 + k) = Some (FIRST + Z.of_nat j)) as Habs
             by (apply Htable; eauto 10).
           rewrite <- Hkey in Habs. congruence.
        -- apply lookup_lt_Some in HG. rewrite length_app in HG. simpl in HG. lia.
    + rewrite lookup_insert_ne by done. rewrite Htable. split.
      * intros (j & pc & k & s & HG & Hkey & ->).
        exists j, pc, k, s. split_and!; [|done..].
        apply lookup_app_l_Some. done.
      * intros (j & pc & k & s & HG & Hkey & ->).
        exists j, pc, k, s. split_and!; [|done..].
        destruct (decide (j = length G)) as [->|Hj].
        -- rewrite lookup_app_r, Nat.sub_diag in HG by lia. simpl in HG. simplify_eq.
        -- rewrite lookup_app_l in HG; [done|].
           apply lookup_lt_Some in HG. rewrite length_app in HG. simpl in HG. lia.
  - apply wf_app; [done|lia|]. by rewrite <- Hnext.
  - unfold valid_code, DictFacts.EOI, DictFacts.FIRST in *. lia.
  - subst size'. destruct (Z.leb_spec (2 ^ cur_code_size st) (next_code st)).
    + assert (next_code st = 2 ^ cur_code_size st) as Heq by lia.
      assert (cur_code_size st < 12).
      { destruct (Z.eq_dec (cur_code_size st) 12) as [E|]; [|lia].
        rewrite E in Heq. change (2 ^ 12) with 4096 in Heq. lia. }
      rewrite Z.pow_add_r by lia. lia.
    + lia.
Qed.

(** The prefix with the next symbol is new and the table is full: the code
    of the prefix and the clear code are put out, the table is emptied and
    the code size is back at [m + 1]. *)
Lemma step_full (G : list entry) st x :
  enc_inv G st →
  code_table st !! (ib_code st * 256 + x mod CC) = None →
  next_code st = 4096 →
  step m st x = State (emit_code (cur_code_size st) (clear_code m)
                         (emit_code (cur_code_size st) (ib_code st) (pk st)))
                      (m + 1) (eoi_code m + 1) ∅ (x mod CC)
  ∧ step_codes st x = [(ib_code st, cur_code_size st); (clear_code m, cur_code_size st)]
  ∧ enc_inv [] (step m st x).
Proof.
  intros Hinv Hlook Hfull'. pose proof Hinv as [Hnext Hfull Htable Hwf Hib Hsize].
  pose proof (symbol_bound x) as [Hk HCC]. pose proof (CC_bounds m Hm).
  assert (Hstep : step m st x
            = State (emit_code (cur_code_size st) (clear_code m)
                       (emit_code (cur_code_size st) (ib_code st) (pk st)))
                    (m + 1) (eoi_code m + 1) ∅ (x mod CC)).
  { unfold step. rewrite (step_key G st x Hinv), Hlook, emit_inline_eq.
    rewrite Hfull'. simpl. by rewrite EncoderMask.and_code_mask by lia. }
  split; [done|]. split.
  { unfold step_codes. rewrite (step_key G st x Hinv), Hlook. by rewrite Hfull'. }
  rewrite Hstep. rewrite enc_eoi_code. constructor; simpl.
  - unfold DictFacts.FIRST, DictFacts.EOI. lia.
  - unfold DictFacts.EOI. lia.
  - intros key c. rewrite lookup_empty. split; [done|].
    intros (j & pc & k & s & HG & _). by rewrite lookup_nil in HG.
  - apply wf_nil.
  - unfold valid_code, DictFacts.EOI, DictFacts.FIRST in *. lia.
  - split; [lia|]. unfold DictFacts.EOI. rewrite Z.pow_add_r by lia.
    unfold DictFacts.CC in *. lia.
Qed.

(** ** The codes fit their widths *)

Definition code_ok (cw : Z * Z) : Prop := 1 ≤ cw.2 ≤ 12 ∧ 0 ≤ cw.1 < 2 ^ cw.2.

Lemma code_ok_fits codes : Forall code_ok codes → fits codes.
Proof. intros H. eapply Forall_impl; [exact H|]. intros [c w] [? ?]; simpl in *. split; [lia|done]. Qed.

Lemma ib_code_ok G st : enc_inv G st → code_ok (ib_code st, cur_code_size st).
Proof.
  intros [Hnext Hfull Htable Hwf Hib Hsize]. unfold code_ok, valid_code in *. simpl. lia.
Qed.

Lemma reserved_code_ok G st c :
  enc_inv G st → c = CC ∨ c = EOI → code_ok (c, cur_code_size st).
Proof.
  intros [Hnext Hfull Htable Hwf Hib Hsize] Hc. pose proof (CC_bounds m Hm).
  assert (2 ^ (m + 1) ≤ 2 ^ cur_code_size st) as Hle by (apply pow2_le; lia).
  rewrite Z.pow_add_r in Hle by lia.
  unfold code_ok, DictFacts.EOI, DictFacts.CC in *. simpl. lia.
Qed.

Lemma enc_inv_init buf0 p0 idx : enc_inv [] (init m buf0 p0 idx).
Proof.
  pose proof (CC_bounds m Hm). unfold init.
  rewrite EncoderMask.and_code_mask, enc_eoi_code by lia. fold CC.
  pose proof (symbol_bound (num (idx !! 0%nat))) as [Hk _].
  constructor; simpl.
  - unfold DictFacts.FIRST, DictFacts.EOI. lia.
  - unfold DictFacts.EOI. lia.
  - intros key c. rewrite lookup_empty. split; [done|].
    intros (j & pc & k & s & HG & _). by rewrite lookup_nil in HG.
  - apply wf_nil.
  - unfold valid_code, DictFacts.EOI, DictFacts.FIRST in *. lia.
  - split; [lia|]. unfold DictFacts.EOI. rewrite Z.pow_add_r by lia.
    unfold DictFacts.CC in *. lia.
Qed.

(** The invariant holds all along the loop, for some dictionary. *)
Lemma step_inv (G : list entry) st x :
  enc_inv G st →
  Forall code_ok (step_codes st x) ∧ ∃ G', enc_inv G' (step m st x).
Proof.
  intros Hinv.
  destruct (code_table st !! (ib_code st * 256 + x mod CC)) as [c|] eqn:Hlook.
  - destruct (step_found G st x c Hinv Hlook) as (_ & -> & Hinv' & _). eauto.
  - destruct (Z.eq_dec (next_code st) 4096) as [Hfull|Hnot].
    + destruct (step_full G st x Hinv Hlook Hfull) as (_ & -> & Hinv').
      split; [|eauto]. repeat constructor; try (by eapply ib_code_ok).
      all: rewrite enc_clear_code; eapply (reserved_code_ok G st); eauto.
    + destruct (step_new G st x Hinv Hlook Hnot) as (_ & -> & Hinv').
      split; [|eauto]. repeat constructor; by eapply ib_code_ok.
Qed.

Lemma codes_from_ok xs : ∀ (G : list entry) st,
  enc_inv G st → Forall code_ok (codes_from st xs).
Proof.
  induction xs as [|x xs IH]; intros G st Hinv; simpl.
  - repeat constructor; try (by eapply ib_code_ok).
    all: rewrite enc_eoi_code; eapply (reserved_code_ok G st); eauto.
  - destruct (step_inv G st x Hinv) as (Hok & G' & Hinv').
    apply Forall_app. split; [done|]. by eapply IH.
Qed.

(** ** The codes in the buffer *)

Lemma emit_all_p codes : ∀ s, p s ≤ p (emit_all codes s).
Proof.
  induction codes as [|[c w] codes IH]; intros s; simpl; [lia|].
  pose proof (emit_code_p w c s). specialize (IH (emit_code w c s)). lia.
Qed.

Lemma emit_all_packed L buf0 p0 codes : ∀ B T s,
  packed L buf0 p0 B T s → Forall code_ok codes →
  p (emit_all codes s) ≤ Z.of_nat L →
  packed L buf0 p0 (B + 2 ^ T * bits_val codes) (T + bits_len codes)
         (emit_all codes s).
Proof.
  induction codes as [|[c w] codes IH]; intros B T s Hpk Hok Hroom; simpl in *.
  - replace (B + 2 ^ T * 0) with B by lia. by replace (T + 0) with T by lia.
  - apply Forall_cons in Hok as [[Hw Hc] Hok]. simpl in *.
    pose proof (emit_all_p codes (emit_code w c s)).
    pose proof Hpk as (_ & HT & _).
    assert (packed L buf0 p0 (B + c * 2 ^ T) (T + w) (emit_code w c s)) as Hpk1
      by (apply emit_code_packed; [done..|lia]).
    specialize (IH _ _ _ Hpk1 Hok Hroom).
    replace (B + 2 ^ T * (c + 2 ^ w * bits_val codes))
      with (B + c * 2 ^ T + 2 ^ (T + w) * bits_val codes)
      by (rewrite Z.pow_add_r by lia; ring).
    by replace (T + (w + bits_len codes)) with (T + w + bits_len codes) by lia.
Qed.

(** All the codes of a call of the encoder. *)
Definition all_codes (buf0 : list Z) (p0 : Z) (idx : list Z) : list (Z * Z) :=
  (clear_code m, m + 1) :: codes_from (init m buf0 p0 idx) (tail idx).

Lemma all_codes_ok buf0 p0 idx : Forall code_ok (all_codes buf0 p0 idx).
Proof.
  constructor; [|eapply codes_from_ok, enc_inv_init].
  pose proof (CC_bounds m Hm). rewrite enc_clear_code.
  unfold code_ok, DictFacts.CC in *. simpl. rewrite Z.pow_add_r by lia. lia.
Qed.

(** The encoder leaves its codes, packed and framed, from [p0] on and
    nothing else below the position it returns. *)
Lemma encoder_framed buf0 p0 idx buf' p' :
  0 ≤ p0 →
  GifWriterOutputLZWCodeStream buf0 p0 m idx = (buf', p') →
  p' ≤ Z.of_nat (length buf0) →
  let codes := all_codes buf0 p0 idx in
  framed buf' p0 (bits_val codes) ((bits_len codes + 7) / 8)
  ∧ buf_get buf' p0 = Some m
  ∧ length buf' = length buf0
  ∧ (∀ i, i < p0 → buf_get buf' i = buf_get buf0 i)
  ∧ p0 + 2 ≤ p'.
Proof.
  intros Hp0 Henc Hroom codes.
  unfold GifWriterOutputLZWCodeStream in Henc. rewrite finish_fold_eq in Henc.
  set (pk0 := Packer (buf_set buf0 p0 m) (p0 + 2) (p0 + 1) 0 0).
  assert (emit_all (codes_from (init m buf0 p0 idx) (tail idx)) (pk (init m buf0 p0 idx))
          = emit_all codes pk0) as Heq by reflexivity.
  rewrite Heq in Henc. clear Heq.
  set (s2 := emit_all codes pk0) in *.
  set (s3 := emit_bytes_to_buffer 1 s2) in *.
  assert (p pk0 ≤ p s2) as Hm1 by apply emit_all_p.
  assert (p s2 ≤ p s3) as Hm2 by apply emit_bytes_loop_p.
  assert (p s3 ≤ p') as Hm3.
  { cbv zeta in Henc. destruct (_ =? _); simplify_eq; lia. }
  simpl in Hm1.
  assert (packed (length buf0) (buf_set buf0 p0 m) p0 0 0 pk0) as Hpk0.
  { split_and!; [|done|done|done].
    change (0 / 8) with 0.
    constructor; simpl; try done; try lia.
    all: first [ apply buf_set_length
               | by (unfold data_pos; change (0 / 255) with 0; lia)
               | by (unfold len_pos; change (0 / 255) with 0; lia)
               | by (change (0 / 8) with 0; change (0 / 255) with 0; intros; lia)
               ]. }
  pose proof (all_codes_ok buf0 p0 idx) as Hok. fold codes in Hok.
  pose proof (emit_all_packed _ _ _ codes 0 0 pk0 Hpk0 Hok ltac:(fold s2; lia)) as Hpk2.
  fold s2 in Hpk2.
  replace (0 + 2 ^ 0 * bits_val codes) with (bits_val codes) in Hpk2 by lia.
  replace (0 + bits_len codes) with (bits_len codes) in Hpk2 by lia.
  pose proof (flush_stored _ _ _ _ _ s2 Hpk2 ltac:(fold s3; lia)) as Hst3.
  fold s3 in Hst3.
  pose proof (close_framed _ _ _ _ _ s3 Hst3) as Hclose.
  cbv zeta in Hclose, Henc. rewrite Henc in Hclose. simpl in Hclose.
  destruct (Hclose Hroom) as (Hfr & Hlen & Hbelow & _).
  split_and!; [done| |done| |lia].
  - rewrite Hbelow by lia. rewrite buf_get_set_eq by lia.
    rewrite Z.mod_small by lia. done.
  - intros i Hi. rewrite Hbelow by lia. apply buf_get_set_ne. lia.
Qed.

End Codec.
End EncoderFacts.


(** * The decoder follows the encoder *)

Module CodecFacts.
Import Bits PackerFacts UnpackerFacts DictFacts EncoderFacts.

#[local] Arguments JS.and : simpl never.
#[local] Arguments JS.or : simpl never.
#[local] Arguments JS.shl : simpl never.
#[local] Arguments JS.shr : simpl never.
#[local] Arguments buf_set : simpl never.
#[local] Arguments buf_get : simpl never.

Lemma int32_set_length t i v : length (Decoder.int32_set t i v) = length t.
Proof. unfold Decoder.int32_set. case_match; [done|]. apply length_insert. Qed.

Lemma int32_get_set_eq t i v :
  0 ≤ i < Z.of_nat (length t) → - 2 ^ 31 ≤ v < 2 ^ 31 →
  buf_get (Decoder.int32_set t i v) i = Some v.
Proof.
  intros Hi Hv. unfold Decoder.int32_set, buf_get.
  destruct (Z.ltb_spec i 0); [lia|].
  rewrite list_lookup_insert_eq by lia. by rewrite JSFacts.to_int32_small.
Qed.

Lemma int32_get_set_ne t i j v :
  0 ≤ j → i ≠ j → buf_get (Decoder.int32_set t i v) j = buf_get t j.
Proof.
  intros Hj Hne. unfold Decoder.int32_set, buf_get.
  destruct (Z.ltb_spec i 0); [done|]. destruct (Z.ltb_spec j 0); [done|].
  apply list_lookup_insert_ne. lia.
Qed.

(** What the output holds from [op] on. *)
Definition holds (out : list Z) (op : Z) (s : list Z) : Prop :=
  ∀ i : nat, (i < length s)%nat → buf_get out (op + Z.of_nat i) = s !! i.

(** [out'] is [out] with [s] from [op] on; nothing below [op] has changed. *)
Definition decoded (out out' : list Z) (op : Z) (s : list Z) : Prop :=
  length out' = length out
  ∧ (∀ z, z < op → buf_get out' z = buf_get out z)
  ∧ holds out' op s.

Lemma written_decoded out out' op s : written out out' op s → decoded out out' op s.
Proof. intros (Hl & Hs & Hz). split_and!; [done| |done]. intros z Hz'. apply Hz. lia. Qed.

Lemma decoded_step out out1 out2 op s1 s2 :
  written out out1 op s1 →
  decoded out1 out2 (op + Z.of_nat (length s1)) s2 →
  decoded out out2 op (s1 ++ s2).
Proof.
  intros (Hl1 & Hs1 & Hz1) (Hl2 & Hz2 & Hs2). split_and!.
  - congruence.
  - intros z Hz. rewrite Hz2 by lia. apply Hz1. lia.
  - intros i Hi. rewrite length_app in Hi.
    destruct (decide (i < length s1)%nat) as [Hlt|Hge].
    + rewrite lookup_app_l by done. rewrite Hz2 by lia. by apply Hs1.
    + rewrite lookup_app_r by lia. rewrite <- (Hs2 (i - length s1)%nat) by lia.
      f_equal. lia.
Qed.

(** An output that holds a whole list is that list. *)
Lemma holds_all out s :
  length out = length s → holds out 0 s → out = s.
Proof.
  intros Hl Hs. apply list_eq. intros i.
  destruct (decide (i < length s)%nat) as [Hlt|Hge].
  - rewrite <- (Hs i Hlt). rewrite Z.add_0_l. unfold buf_get.
    destruct (Z.ltb_spec (Z.of_nat i) 0); [lia|]. by rewrite Nat2Z.id.
  - rewrite !lookup_ge_None_2 by lia. done.
Qed.

(** ** Codes in the stream *)

Lemma bytes_cover L : L ≤ 8 * ((L + 7) / 8).
Proof. Z.div_mod_to_equations. lia. Qed.

Lemma code_at all consumed c w rest :
  fits all → all = consumed ++ (c, w) :: rest →
  (bits_val all / 2 ^ bits_len consumed) mod 2 ^ w = c
  ∧ bits_len consumed + w ≤ 8 * ((bits_len all + 7) / 8).
Proof.
  intros Hfits ->. apply Forall_app in Hfits as [Hc Hr].
  apply Forall_cons in Hr as [[Hw Hcw] Hr]. simpl in *.
  split.
  - rewrite bits_val_drop by done. simpl.
    rewrite Z.mul_comm, Z_mod_plus_full. apply Z.mod_small. done.
  - pose proof (bits_len_nonneg rest Hr). pose proof (bits_len_nonneg consumed Hc).
    rewrite bits_len_app. simpl.
    pose proof (bytes_cover (bits_len consumed + (w + bits_len rest))). lia.
Qed.

(** The last code, read at a width that may be larger than its own. *)
Lemma code_last all consumed c w w' :
  fits all → all = consumed ++ [(c, w)] → w ≤ w' →
  (bits_val all / 2 ^ bits_len consumed) mod 2 ^ w' = c.
Proof.
  intros Hfits -> Hw. apply Forall_app in Hfits as [Hc Hr].
  apply Forall_cons in Hr as [[Hw0 Hcw] _]. simpl in *.
  rewrite bits_val_drop by done. simpl.
  replace (c + 2 ^ w * 0) with c by lia.
  pose proof (pow2_le w w' ltac:(lia)). apply Z.mod_small. lia.
Qed.

Section Codec.
Variable m : Z.
Hypothesis Hm : 2 ≤ m ≤ 8.

Abbreviation CC := (DictFacts.CC m).
Abbreviation EOI := (DictFacts.EOI m).
Abbreviation FIRST := (DictFacts.FIRST m).

(** The decoder is one entry behind the encoder: the entry of the code it
    has just read waits for the first symbol of the next string. *)
Record dec_rel (G : list entry) (st : Encoder.state) (d : Decoder.dict) : Prop := {
  dr_size : Decoder.cur_code_size d = Encoder.cur_code_size st;
  dr_mask : Decoder.code_mask d = 2 ^ Decoder.cur_code_size d - 1;
  dr_table : table_agrees m G (Decoder.next_code d) (Decoder.code_table d);
  dr_prev :
    (Decoder.prev_code d = None ∧ G = [] ∧ Decoder.next_code d = FIRST)
    ∨ ∃ (G0 : list entry) pv k s,
        Decoder.prev_code d = Some pv ∧ G = G0 ++ [(pv, k, s)]
        ∧ Decoder.next_code d = FIRST + Z.of_nat (length G0)
        ∧ k = hd 0 (str m G (Encoder.ib_code st))
}.

Lemma hd_app (s1 s2 : list Z) : s1 ≠ [] → hd 0 (s1 ++ s2) = hd 0 s1.
Proof. by destruct s1. Qed.

(** The waiting entry. *)
Lemma last_entry (G0 : list entry) pv k s :
  wf_dict m (G0 ++ [(pv, k, s)]) →
  0 ≤ k < CC ∧ valid_code m (FIRST + Z.of_nat (length G0)) pv
  ∧ s = str m (G0 ++ [(pv, k, s)]) pv ++ [k]
  ∧ str m (G0 ++ [(pv, k, s)]) (FIRST + Z.of_nat (length G0)) = s
  ∧ str m (G0 ++ [(pv, k, s)]) pv ≠ [].
Proof.
  intros Hwf.
  assert ((G0 ++ [(pv, k, s)]) !! length G0 = Some (pv, k, s)) as Hl.
  { rewrite lookup_app_r by lia. by rewrite Nat.sub_diag. }
  destruct (Hwf _ _ _ _ Hl) as (Hk & Hv & Hs).
  split; [exact Hk|]. split; [exact Hv|]. split; [exact Hs|]. split.
  - by apply (str_entry m _ _ _ _ _ Hl).
  - eapply (str_valid m); [done| |exact Hv]. rewrite length_app. simpl. lia.
Qed.

(** The decoder reads the code of the index buffer: it writes its string. *)
Lemma decode_code (G : list entry) st d b op out total :
  enc_inv m G st → dec_rel G st d →
  0 ≤ op → Z.of_nat (length out) = total →
  let s := str m G (Encoder.ib_code st) in
  op + Z.of_nat (length s) ≤ total →
  ∃ out',
    Decoder.emit_string m total (Encoder.ib_code st) b d op out
    = Decoder.Continue b (dict_after d (Encoder.ib_code st) (hd 0 s))
                       (op + Z.of_nat (length s)) out'
    ∧ written out out' op s.
Proof.
  intros Hinv Hrel Hop Hlen s Hend.
  pose proof Hinv as [Hnext Hfull Htable Hwf Hib Hsize].
  pose proof Hrel as [Hdsize Hdmask Hdtable Hdprev].
  set (ib := Encoder.ib_code st) in *.
  assert (Hnormal : ib < Decoder.next_code d →
    ∃ out',
      Decoder.emit_string m total ib b d op out
      = Decoder.Continue b (dict_after d ib (hd 0 s)) (op + Z.of_nat (length s)) out'
      ∧ written out out' op s).
  { intros Hlt.
    destruct (emit_string_chase m Hm G total ib ib b d op out) as (out' & He & Hw);
      try done.
    - unfold valid_code in *. lia.
    - by destruct (Z.ltb_spec ib (Decoder.next_code d)); [|lia].
    - rewrite decide_True by done. by rewrite app_nil_r.
    - rewrite decide_True in He, Hw by done. rewrite app_nil_r in He, Hw.
      by exists out'. }
  destruct Hdprev as [(Hprev & -> & Hnd)|(G0 & pv & k & s0 & Hprev & -> & Hnd & Hk)].
  - apply Hnormal. simpl in Hnext. unfold valid_code in Hib. lia.
  - rewrite length_app in Hnext. simpl in Hnext.
    destruct (Z.lt_ge_cases ib (Decoder.next_code d)) as [Hlt|Hge]; [by apply Hnormal|].
    assert (ib = FIRST + Z.of_nat (length G0)) as Hibeq
      by (unfold valid_code in Hib; lia).
    destruct (last_entry G0 pv k s0 Hwf) as (Hkb & Hv & Hs0 & Hstr & Hne).
    remember (G0 ++ [(pv, k, s0)]) as G eqn:HG.
    set (sp := str m G pv) in *.
    assert (s = sp ++ [k]) as Hsk by (unfold s; rewrite Hibeq, Hstr; exact Hs0).
    assert (hd 0 s = hd 0 sp) as Hhd by (rewrite Hsk; by apply hd_app).
    assert (hd 0 sp = k) as Hkhd by (unfold s in Hhd; congruence).
    assert (pv ≠ ib) as Hpv by (unfold valid_code in Hv; lia).
    destruct (emit_string_chase m Hm G total ib pv b d op out)
      as (out' & He & Hw); try done.
    + by rewrite Hnd.
    + by destruct (Z.ltb_spec ib (Decoder.next_code d)); [lia|].
    + rewrite decide_False by done. fold sp. rewrite Hkhd, <- Hsk. done.
    + rewrite decide_False in He, Hw by done. fold sp in He, Hw.
      rewrite Hkhd, <- Hsk in He, Hw.
      exists out'. split; [|done]. rewrite He. by rewrite Hhd, Hkhd.
Qed.

Lemma mask_grow w : 1 ≤ w < 12 → JS.or (JS.shl (2 ^ w - 1) 1) 1 = 2 ^ (w + 1) - 1.
Proof.
  intros Hw. pose proof (pow2_le w 12 ltac:(lia)). pose proof (pow2_pos w ltac:(lia)).
  change (2 ^ 12) with 4096 in *.
  rewrite JSFacts.shl_small by lia. rewrite JSFacts.or_comm.
  rewrite (JSFacts.or_add_disjoint 1 (2 ^ w - 1) 1) by (change (2 ^ 1) with 2; lia).
  rewrite Z.pow_add_r by lia. change (2 ^ 1) with 2. lia.
Qed.

Lemma dict_after_length d code k :
  length (Decoder.code_table (dict_after d code k)) = length (Decoder.code_table d).
Proof.
  unfold dict_after. repeat case_match; simpl; try done; apply int32_set_length.
Qed.

Lemma dict_after_running d code k pv :
  Decoder.prev_code d = Some pv → Decoder.next_code d < 4096 →
  Decoder.code_table (dict_after d code k)
  = Decoder.int32_set (Decoder.code_table d) (Decoder.next_code d)
                      (JS.or (JS.shl pv 8) k)
  ∧ Decoder.next_code (dict_after d code k) = Decoder.next_code d + 1.
Proof.
  intros Hprev Hlt. unfold dict_after. rewrite Hprev.
  destruct (Z.ltb_spec (Decoder.next_code d) 4096); [|lia].
  by destruct (_ && _).
Qed.

Lemma dict_after_fresh d code k :
  Decoder.prev_code d = None →
  dict_after d code k
  = Decoder.Dict (Decoder.cur_code_size d) (Decoder.code_mask d)
                 (Decoder.next_code d) (Some code) (Decoder.code_table d).
Proof. intros Hprev. unfold dict_after. by rewrite Hprev. Qed.

Lemma dict_after_prev d code k : Decoder.prev_code (dict_after d code k) = Some code.
Proof. unfold dict_after. by repeat case_match. Qed.

Lemma dec_eoi_code : Decoder.eoi_code m = EOI.
Proof. unfold Decoder.eoi_code. by rewrite (clear_code_CC m Hm). Qed.

(** The code size of the decoder after a code follows that of the encoder. *)
Lemma dict_after_size (G : list entry) st d code k :
  enc_inv m G st → dec_rel G st d →
  let size := Encoder.cur_code_size st in
  let d' := dict_after d code k in
  Decoder.cur_code_size d'
  = (if (2 ^ size <=? Encoder.next_code st) && (size <? 12) then size + 1 else size)
  ∧ Decoder.code_mask d' = 2 ^ Decoder.cur_code_size d' - 1.
Proof.
  intros Hinv Hrel size d'.
  pose proof Hinv as [Hnext Hfull Htable Hwf Hib Hsize].
  pose proof Hrel as [Hdsize Hdmask Hdtable Hdprev].
  pose proof (CC_bounds m Hm) as HCC.
  assert (2 ^ (m + 1) ≤ 2 ^ size) as Hpow by (apply pow2_le; unfold size; lia).
  rewrite Z.pow_add_r in Hpow by lia. change (2 ^ 1) with 2 in Hpow.
  fold size in Hdsize.
  subst d'. unfold dict_after.
  destruct Hdprev as [(Hprev & -> & Hnd)|(G0 & pv & k0 & s0 & Hprev & -> & Hnd & Hk)];
    rewrite Hprev.
  - simpl in *. unfold DictFacts.FIRST, DictFacts.CC in *.
    destruct (Z.leb_spec (2 ^ size) (Encoder.next_code st)); [lia|]. simpl.
    split; [done|]. by rewrite Hdmask.
  - rewrite length_app in Hnext. simpl in Hnext.
    destruct (Z.ltb_spec (Decoder.next_code d) 4096); [|lia].
    rewrite Hdmask, Hdsize.
    replace (2 ^ size - 1 + 1) with (2 ^ size) by lia.
    replace (Decoder.next_code d + 1) with (Encoder.next_code st) by lia.
    destruct ((2 ^ size <=? Encoder.next_code st) && (size <? 12)) eqn:E; simpl.
    + split; [done|]. apply andb_true_iff in E as [_ E].
      apply mask_grow. unfold size in *. lia.
    + done.
Qed.

Lemma dec_rel_fresh st t :
  Encoder.cur_code_size st = m + 1 → length t = 4096%nat →
  dec_rel [] st (Decoder.Dict (m + 1) (JS.shl 1 (m + 1) - 1)
                              (Decoder.eoi_code m + 1) None t).
Proof.
  intros Hsize Hlen. pose proof (CC_bounds m Hm) as HCC.
  pose proof (pow2_le (m + 1) 9 ltac:(lia)) as Hp. change (2 ^ 9) with 512 in Hp.
  constructor; simpl.
  - done.
  - rewrite JSFacts.shl_small by lia. lia.
  - rewrite dec_eoi_code. unfold table_agrees, DictFacts.EOI, DictFacts.FIRST in *.
    simpl. split_and!; [done|lia|lia|]. intros j pc k s Hj. lia.
  - left. rewrite dec_eoi_code. unfold DictFacts.EOI, DictFacts.FIRST. split_and!; [done..|lia].
Qed.

(** Nothing put out: the decoder waits. *)
Lemma dec_rel_found (G : list entry) st d x c :
  enc_inv m G st → dec_rel G st d →
  Encoder.code_table st !! (Encoder.ib_code st * 256 + x mod CC) = Some c →
  dec_rel G (Encoder.step m st x) d.
Proof.
  intros Hinv Hrel Hlook.
  destruct (step_found m Hm G st x c Hinv Hlook) as (Hstep & _ & Hinv' & Hstr).
  pose proof Hinv as [Hnext Hfull Htable Hwf Hib Hsize].
  pose proof Hrel as [Hdsize Hdmask Hdtable Hdprev].
  rewrite Hstep. constructor; simpl; try done.
  destruct Hdprev as [?|(G0 & pv & k0 & s0 & Hprev & HG & Hnd & Hk)]; [by left|right].
  exists G0, pv, k0, s0. split_and!; try done.
  rewrite Hstr, hd_app; [done|].
  eapply (str_valid m); [done| |exact Hib]. lia.
Qed.

(** A code put out, a new entry: the decoder reads the code and writes the
    entry that was waiting. *)
Lemma dec_rel_new (G : list entry) st d x :
  enc_inv m G st → dec_rel G st d →
  Encoder.code_table st !! (Encoder.ib_code st * 256 + x mod CC) = None →
  Encoder.next_code st ≠ 4096 →
  dec_rel (G ++ [(Encoder.ib_code st, x mod CC,
                  str m G (Encoder.ib_code st) ++ [x mod CC])])
          (Encoder.step m st x)
          (dict_after d (Encoder.ib_code st) (hd 0 (str m G (Encoder.ib_code st)))).
Proof.
  intros Hinv Hrel Hlook Hnot.
  destruct (step_new m Hm G st x Hinv Hlook Hnot) as (Hstep & _ & Hinv').
  destruct (dict_after_size G st d (Encoder.ib_code st)
              (hd 0 (str m G (Encoder.ib_code st))) Hinv Hrel) as [Hds Hdm].
  pose proof Hinv as [Hnext Hfull Htable Hwf Hib Hsize].
  pose proof Hrel as [Hdsize Hdmask Hdtable Hdprev].
  pose proof (symbol_bound m Hm x) as [Hx HCC].
  set (ib := Encoder.ib_code st) in *. set (size := Encoder.cur_code_size st) in *.
  set (G' := G ++ [(ib, x mod CC, str m G ib ++ [x mod CC])]) in *.
  assert (hd 0 (str m G' (x mod CC)) = x mod CC) as Hhd
    by (rewrite str_literal by lia; done).
  rewrite Hstep. cbv zeta in Hds |- *.
  constructor; simpl.
  - rewrite Hds. destruct (Z.leb_spec (2 ^ size) (Encoder.next_code st)); simpl; [|done].
    destruct (Z.ltb_spec size 12); [done|].
    pose proof (pow2_le 12 size ltac:(lia)). change (2 ^ 12) with 4096 in *. lia.
  - done.
  - destruct Hdtable as (Htl & Hn & Hn' & Hall).
    destruct Hdprev as [(Hprev & HG & Hnd)|(G0 & pv & k0 & s0 & Hprev & HG & Hnd & Hk)].
    + rewrite dict_after_fresh by done. simpl.
      unfold table_agrees. rewrite Hnd. split_and!; [done|lia| |].
      * unfold DictFacts.FIRST in *. lia.
      * intros j pc k s Hj. lia.
    + rewrite HG, length_app in Hnext. simpl in Hnext.
      destruct (dict_after_running d ib (hd 0 (str m G ib)) pv Hprev ltac:(lia))
        as [-> ->].
      rewrite <- Hk.
      assert (wf_dict m (G0 ++ [(pv, k0, s0)])) as Hwf0 by (by rewrite <- HG).
      destruct (last_entry G0 pv k0 s0 Hwf0) as (Hkb & Hv & _).
      rewrite JSFacts.key_eq by (unfold valid_code in Hv; lia).
      unfold table_agrees. rewrite int32_set_length.
      split_and!; [done| |lia|].
      * unfold G'. rewrite length_app. simpl. lia.
      * intros j pc k s Hj HG'.
        destruct (decide (j = length G0)) as [->|Hne].
        -- unfold G' in HG'. rewrite HG in HG'.
           rewrite lookup_app_l in HG' by (rewrite length_app; simpl; lia).
           rewrite lookup_app_r in HG' by lia. rewrite Nat.sub_diag in HG'.
           simpl in HG'. simplify_eq. rewrite <- Hnd.
           apply int32_get_set_eq; [|unfold valid_code in Hv; lia].
           rewrite Htl. unfold DictFacts.FIRST in *. lia.
        -- rewrite int32_get_set_ne by (unfold DictFacts.FIRST, DictFacts.CC in *; lia).
           apply (Hall j pc k s); [lia|].
           unfold G' in HG'. rewrite lookup_app_l in HG'; [done|].
           rewrite HG, length_app. simpl. lia.
  - right. exists G, ib, (x mod CC), (str m G ib ++ [x mod CC]).
    split_and!; [apply dict_after_prev|done| |by rewrite Hhd].
    destruct Hdprev as [(Hprev & HG & Hnd)|(G0 & pv & k0 & s0 & Hprev & HG & Hnd & Hk)].
    + rewrite dict_after_fresh by done. simpl. rewrite Hnd, HG. simpl. lia.
    + rewrite HG, length_app in Hnext. simpl in Hnext.
      destruct (dict_after_running d ib (hd 0 (str m G ib)) pv Hprev ltac:(lia))
        as [_ ->].
      rewrite HG, length_app; simpl; lia.
Qed.

(** ** The turns of the decoder on the stream of the encoder *)

Lemma loop_S buf total fuel b d op out :
  Decoder.loop buf m total (S fuel) b d op out =
  match Decoder.body buf m total b d op out with
  | Decoder.Continue b1 d1 op1 output1 => Decoder.loop buf m total fuel b1 d1 op1 output1
  | Decoder.Break op1 output1 =>
      Some (output1, if op1 =? total then None else Some Decoder.StreamShorter)
  | Decoder.ReturnVoid output1 => Some (output1, Some Decoder.StreamLonger)
  | Decoder.Diverges => None
  end.
Proof. reflexivity. Qed.

Section Stream.
Variable buf : list Z.
Variable p0 : Z.
Variable all : list (Z * Z).
Variable total : Z.
Hypothesis Hfits : fits all.
Hypothesis Hframed : framed buf p0 (bits_val all) ((bits_len all + 7) / 8).

Abbreviation in_sync := (synced p0 (bits_val all) ((bits_len all + 7) / 8)).

Lemma bits_len_snoc consumed c w :
  bits_len (consumed ++ [(c, w)]) = bits_len consumed + w.
Proof. rewrite bits_len_app. simpl. lia. Qed.

(** The decoder reads the code of the index buffer. *)
Lemma turn_code (G : list entry) st consumed rest j b d op out :
  enc_inv m G st → dec_rel G st d →
  all = consumed ++ (Encoder.ib_code st, Encoder.cur_code_size st) :: rest →
  in_sync (bits_len consumed) j b → Decoder.cur_shift b < 24 →
  0 ≤ op → Z.of_nat (length out) = total →
  op + Z.of_nat (length (str m G (Encoder.ib_code st))) ≤ total →
  ∃ j' b' out',
    in_sync (bits_len (consumed ++ [(Encoder.ib_code st, Encoder.cur_code_size st)])) j' b'
    ∧ Decoder.cur_shift b' < 24
    ∧ Decoder.body buf m total b d op out
      = Decoder.Continue b'
          (dict_after d (Encoder.ib_code st) (hd 0 (str m G (Encoder.ib_code st))))
          (op + Z.of_nat (length (str m G (Encoder.ib_code st)))) out'
    ∧ written out out' op (str m G (Encoder.ib_code st)).
Proof.
  intros Hinv Hrel Hall Hsy H24 Hop Hlen Hend.
  pose proof Hinv as [Hnext Hfull Htable Hwf Hib Hsize].
  pose proof Hrel as [Hdsize Hdmask Hdtable Hdprev].
  destruct (code_at all consumed _ _ rest Hfits Hall) as [Hc Hroom].
  destruct (body_synced buf m total p0 _ _ _ j b d op out Hframed Hsy H24
              ltac:(lia) Hdmask) as [H1 _].
  cbv zeta in H1. rewrite Hdsize, Hc in H1.
  destruct (H1 Hroom) as (j' & b' & Hsy' & H24' & Hbody).
  rewrite (clear_code_CC m Hm), dec_eoi_code in Hbody.
  destruct (Z.eqb_spec (Encoder.ib_code st) CC) as [He|_];
    [unfold valid_code in Hib; lia|].
  destruct (Z.eqb_spec (Encoder.ib_code st) EOI) as [He|_];
    [unfold valid_code in Hib; lia|].
  destruct (decode_code G st d b' op out total Hinv Hrel Hop Hlen Hend)
    as (out' & Hemit & Hw).
  exists j', b', out'. rewrite bits_len_snoc. split_and!; [done|done| |done].
  by rewrite Hbody, Hemit.
Qed.

(** The decoder reads a clear code. *)
Lemma turn_clear consumed w rest j b d op out :
  all = consumed ++ (Encoder.clear_code m, w) :: rest →
  in_sync (bits_len consumed) j b → Decoder.cur_shift b < 24 →
  Decoder.cur_code_size d = w → 1 ≤ w ≤ 12 →
  Decoder.code_mask d = 2 ^ Decoder.cur_code_size d - 1 →
  ∃ j' b',
    in_sync (bits_len (consumed ++ [(Encoder.clear_code m, w)])) j' b'
    ∧ Decoder.cur_shift b' < 24
    ∧ Decoder.body buf m total b d op out
      = Decoder.Continue b'
          (Decoder.Dict (m + 1) (JS.shl 1 (m + 1) - 1) (Decoder.eoi_code m + 1) None
                        (Decoder.code_table d)) op out.
Proof.
  intros Hall Hsy H24 Hdsize Hw Hdmask.
  destruct (code_at all consumed _ _ rest Hfits Hall) as [Hc Hroom].
  destruct (body_synced buf m total p0 _ _ _ j b d op out Hframed Hsy H24
              ltac:(lia) Hdmask) as [H1 _].
  cbv zeta in H1. rewrite Hdsize, Hc in H1.
  destruct (H1 Hroom) as (j' & b' & Hsy' & H24' & Hbody).
  rewrite (clear_code_CC m Hm), (enc_clear_code m Hm), Z.eqb_refl in Hbody.
  exists j', b'. rewrite bits_len_snoc. done.
Qed.

(** The decoder reads the end code, which is the last one and may be
    narrower than the codes the decoder reads by then. *)
Lemma turn_eoi consumed w j b d op out :
  all = consumed ++ [(Encoder.eoi_code m, w)] →
  in_sync (bits_len consumed) j b → Decoder.cur_shift b < 24 →
  1 ≤ w ≤ Decoder.cur_code_size d → Decoder.cur_code_size d ≤ 12 →
  Decoder.code_mask d = 2 ^ Decoder.cur_code_size d - 1 →
  Decoder.body buf m total b d op out = Decoder.Break op out.
Proof.
  intros Hall Hsy H24 Hw Hw' Hdmask.
  pose proof (code_last all consumed _ _ (Decoder.cur_code_size d) Hfits Hall
                ltac:(lia)) as Hc.
  destruct (body_synced buf m total p0 _ _ _ j b d op out Hframed Hsy H24
              ltac:(lia) Hdmask) as [_ [Hb|(j' & b' & _ & _ & Hb)]]; [done|].
  cbv zeta in Hb. rewrite Hc in Hb.
  rewrite (clear_code_CC m Hm), dec_eoi_code, (enc_eoi_code m Hm) in Hb.
  destruct (Z.eqb_spec EOI CC) as [He|_]; [unfold DictFacts.EOI in He; lia|].
  by rewrite Z.eqb_refl in Hb.
Qed.

(** The decoder writes what the encoder has read and will read. *)
Lemma decode_rest xs : ∀ (G : list entry) st consumed j b d op out fuel,
  enc_inv m G st → dec_rel G st d →
  all = consumed ++ codes_from m st xs →
  in_sync (bits_len consumed) j b → Decoder.cur_shift b < 24 →
  0 ≤ op → Z.of_nat (length out) = total →
  op + Z.of_nat (length (str m G (Encoder.ib_code st))) + Z.of_nat (length xs) = total →
  (2 * length xs + 2 ≤ fuel)%nat →
  ∃ out', Decoder.loop buf m total fuel b d op out = Some (out', None)
          ∧ decoded out out' op
              (str m G (Encoder.ib_code st) ++ map (λ x, x mod CC) xs).
Proof.
  induction xs as [|x xs IH];
    intros G st consumed j b d op out fuel Hinv Hrel Hall Hsy H24 Hop Hlen Htot Hfuel.
  - simpl in Hall, Htot.
    destruct fuel as [|[|fuel]]; [simpl in Hfuel; lia..|].
    destruct (turn_code G st consumed _ j b d op out Hinv Hrel Hall Hsy H24 Hop Hlen
                ltac:(lia)) as (j' & b' & out' & Hsy' & H24' & Hbody & Hw).
    destruct (dict_after_size G st d (Encoder.ib_code st)
                (hd 0 (str m G (Encoder.ib_code st))) Hinv Hrel) as [Hds Hdm].
    cbv zeta in Hds.
    pose proof Hinv as [_ _ _ _ _ Hsize].
    exists out'. split.
    + rewrite loop_S, Hbody, loop_S.
      rewrite (turn_eoi (consumed ++ [(Encoder.ib_code st, Encoder.cur_code_size st)])
                 (Encoder.cur_code_size st) j' b').
      * replace (op + Z.of_nat (length (str m G (Encoder.ib_code st)))) with total by lia.
        by rewrite Z.eqb_refl.
      * by rewrite <- app_assoc.
      * done.
      * done.
      * rewrite Hds. destruct (_ && _); lia.
      * rewrite Hds.
        destruct (2 ^ Encoder.cur_code_size st <=? Encoder.next_code st); simpl; [|lia].
        destruct (Z.ltb_spec (Encoder.cur_code_size st) 12); lia.
      * done.
    + simpl. rewrite app_nil_r. by apply written_decoded.
  - simpl in Hall, Htot. pose proof (symbol_bound m Hm x) as [Hx HCC].
    destruct (Encoder.code_table st !! (Encoder.ib_code st * 256 + x mod CC))
      as [c|] eqn:Hlook.
    + destruct (step_found m Hm G st x c Hinv Hlook) as (Hstep & Hcodes & Hinv' & Hstr).
      rewrite Hcodes in Hall. simpl in Hall.
      assert (Encoder.ib_code (Encoder.step m st x) = c) as Hib' by (by rewrite Hstep).
      destruct (IH G (Encoder.step m st x) consumed j b d op out fuel)
        as (out' & Hloop & Hdec); try done.
      * by eapply dec_rel_found.
      * rewrite Hib', Hstr, length_app. simpl. lia.
      * simpl in Hfuel. lia.
      * exists out'. split; [done|]. rewrite Hib', Hstr, <- app_assoc in Hdec. done.
    + pose proof Hinv as [Hnext Hfull _ _ _ Hsize].
      destruct (Z.eq_dec (Encoder.next_code st) 4096) as [H4096|Hnot].
      * destruct (step_full m Hm G st x Hinv Hlook H4096) as (Hstep & Hcodes & Hinv').
        rewrite Hcodes in Hall. simpl in Hall.
        destruct fuel as [|[|fuel]]; [simpl in Hfuel; lia..|].
        destruct (turn_code G st consumed _ j b d op out Hinv Hrel Hall Hsy H24 Hop Hlen
                    ltac:(lia)) as (j' & b' & out' & Hsy' & H24' & Hbody & Hw).
        destruct (dict_after_size G st d (Encoder.ib_code st)
                    (hd 0 (str m G (Encoder.ib_code st))) Hinv Hrel) as [Hds Hdm].
        cbv zeta in Hds.
        assert (Encoder.cur_code_size st = 12) as H12.
        { destruct (Z.lt_ge_cases (Encoder.cur_code_size st) 12) as [Hlt|?]; [|lia].
          pose proof (pow2_lt (Encoder.cur_code_size st) 12 ltac:(lia)).
          change (2 ^ 12) with 4096 in *. lia. }
        rewrite H12 in Hds. simpl in Hds. rewrite andb_false_r in Hds.
        set (d' := dict_after d (Encoder.ib_code st)
                     (hd 0 (str m G (Encoder.ib_code st)))) in *.
        destruct (turn_clear
                    (consumed ++ [(Encoder.ib_code st, Encoder.cur_code_size st)])
                    (Encoder.cur_code_size st) (codes_from m (Encoder.step m st x) xs)
                    j' b' d' (op + Z.of_nat (length (str m G (Encoder.ib_code st)))) out')
          as (j2 & b2 & Hsy2 & H242 & Hbody2); try done.
        { by rewrite <- app_assoc. }
        { lia. }
        { lia. }
        assert (Encoder.ib_code (Encoder.step m st x) = x mod CC) as Hib'
          by (by rewrite Hstep).
        assert (Encoder.cur_code_size (Encoder.step m st x) = m + 1) as Hsz'
          by (by rewrite Hstep).
        assert (length (Decoder.code_table d') = 4096%nat) as Htl.
        { unfold d'. rewrite dict_after_length. by destruct Hrel as [_ _ [? _] _]. }
        destruct (IH [] (Encoder.step m st x)
                    ((consumed ++ [(Encoder.ib_code st, Encoder.cur_code_size st)])
                       ++ [(Encoder.clear_code m, Encoder.cur_code_size st)])
                    j2 b2 _ (op + Z.of_nat (length (str m G (Encoder.ib_code st))))
                    out' fuel Hinv' (dec_rel_fresh _ _ Hsz' Htl))
          as (out2 & Hloop & Hdec); try done.
        { by rewrite <- !app_assoc. }
        { lia. }
        { by destruct Hw as [-> _]. }
        { rewrite Hib', (str_literal m _ (x mod CC)) by lia. simpl. lia. }
        { simpl in Hfuel. lia. }
        exists out2. split.
        -- by rewrite loop_S, Hbody, loop_S, Hbody2.
        -- rewrite Hib', (str_literal m _ (x mod CC)) in Hdec by lia.
           by apply (decoded_step out out' out2).
      * destruct (step_new m Hm G st x Hinv Hlook Hnot) as (Hstep & Hcodes & Hinv').
        rewrite Hcodes in Hall. simpl in Hall.
        destruct fuel as [|fuel]; [simpl in Hfuel; lia|].
        destruct (turn_code G st consumed _ j b d op out Hinv Hrel Hall Hsy H24 Hop Hlen
                    ltac:(lia)) as (j' & b' & out' & Hsy' & H24' & Hbody & Hw).
        assert (Encoder.ib_code (Encoder.step m st x) = x mod CC) as Hib'
          by (by rewrite Hstep).
        destruct (IH _ (Encoder.step m st x)
                    (consumed ++ [(Encoder.ib_code st, Encoder.cur_code_size st)])
                    j' b' _ (op + Z.of_nat (length (str m G (Encoder.ib_code st))))
                    out' fuel Hinv' (dec_rel_new G st d x Hinv Hrel Hlook Hnot))
          as (out2 & Hloop & Hdec); try done.
        { by rewrite <- app_assoc. }
        { lia. }
        { by destruct Hw as [-> _]. }
        { rewrite Hib', (str_literal m _ (x mod CC)) by lia. simpl. lia. }
        { simpl in Hfuel. lia. }
        exists out2. split.
        -- by rewrite loop_S, Hbody.
        -- rewrite Hib', (str_literal m _ (x mod CC)) in Hdec by lia.
           by apply (decoded_step out out' out2).
Qed.

End Stream.

(** At the start the decoder has taken no byte: it is at the first data
    byte and knows the size of the first sub-block. *)
Lemma synced_start buf p0 B N :
  framed buf p0 B N → 0 ≤ N →
  synced p0 B N 0 0 (Decoder.Bits (p0 + 2) (buf_get buf (p0 + 1)) 0 0).
Proof.
  intros [Hdata Hlens Hlast Hterm] HN. constructor; simpl; try lia.
  - change (8 * 0 - 0) with 0. by rewrite Z.mod_1_r.
  - intros _. unfold data_pos. change (0 / 255) with 0. lia.
  - change (0 mod 255) with 0.
    replace (p0 + 1) with (len_pos p0 0) by (unfold len_pos; lia).
    destruct (Z.lt_ge_cases N 255) as [Hlt|Hge].
    + rewrite Z.div_small in Hlast by lia. rewrite Z.mod_small in Hlast by lia.
      rewrite Hlast. f_equal. lia.
    + rewrite Hlens by (Z.div_mod_to_equations; lia). f_equal. lia.
Qed.

(** The decoder gives back what the encoder was given, cut to the code
    size, and logs no warning. *)
Lemma lzw_roundtrip buf0 p0 idx buf' p' output fuel :
  idx ≠ [] → 0 ≤ p0 →
  Encoder.GifWriterOutputLZWCodeStream buf0 p0 m idx = (buf', p') →
  p' ≤ Z.of_nat (length buf0) →
  length output = length idx →
  (2 * length idx + 1 ≤ fuel)%nat →
  Decoder.readerLZWOutputIndexStream fuel buf' p0 output (Z.of_nat (length idx))
  = Some (map (λ x, x mod 2 ^ m) idx, None).
Proof.
  intros Hne Hp0 Henc Hroom Hlen Hfuel.
  destruct (encoder_framed m Hm buf0 p0 idx buf' p' Hp0 Henc Hroom)
    as (Hfr & Hget & _).
  pose proof (all_codes_ok m Hm buf0 p0 idx) as Hok.
  pose proof (code_ok_fits _ Hok) as Hfits.
  set (all := all_codes m buf0 p0 idx) in *.
  pose proof (CC_bounds m Hm) as HCC.
  assert (0 ≤ (bits_len all + 7) / 8) as HN.
  { pose proof (bits_len_nonneg all Hfits). Z.div_mod_to_equations. lia. }
  pose proof (synced_start buf' p0 _ _ Hfr HN) as Hsy.
  destruct idx as [|x0 xs]; [done|].
  unfold Decoder.readerLZWOutputIndexStream. rewrite Hget.
  destruct fuel as [|fuel]; [simpl in Hfuel; lia|].
  pose proof (pow2_le (m + 1) 9 ltac:(lia)) as Hp9. change (2 ^ 9) with 512 in Hp9.
  destruct (turn_clear buf' p0 all (Z.of_nat (length (x0 :: xs))) Hfits Hfr
              [] (m + 1) (codes_from m (Encoder.init m buf0 p0 (x0 :: xs)) xs) 0
              (Decoder.Bits (p0 + 2) (buf_get buf' (p0 + 1)) 0 0)
              (Decoder.Dict (m + 1) (JS.shl 1 (m + 1) - 1) (Decoder.eoi_code m + 1)
                            None (Decoder.new_Int32Array 4096))
              0 output)
    as (j1 & b1 & Hsy1 & H241 & Hbody1); try done.
  { lia. }
  { simpl. rewrite JSFacts.shl_small by lia. lia. }
  simpl Decoder.code_table in Hbody1.
  assert (Encoder.ib_code (Encoder.init m buf0 p0 (x0 :: xs)) = x0 mod CC) as Hib.
  { unfold Encoder.init. simpl. by rewrite EncoderMask.and_code_mask by lia. }
  assert (0 ≤ x0 mod CC < CC) as Hx0 by (apply Z.mod_pos_bound; lia).
  destruct (decode_rest buf' p0 all (Z.of_nat (length (x0 :: xs))) Hfits Hfr xs
              [] (Encoder.init m buf0 p0 (x0 :: xs)) ([] ++ [(Encoder.clear_code m, m + 1)])
              j1 b1 _ 0 output fuel (enc_inv_init m Hm buf0 p0 (x0 :: xs))
              (dec_rel_fresh (Encoder.init m buf0 p0 (x0 :: xs))
                             (Decoder.new_Int32Array 4096) eq_refl eq_refl))
    as (out' & Hloop & Hl & _ & Hholds); try done.
  { by rewrite Hlen. }
  { rewrite Hib, (str_literal m _ (x0 mod CC)) by lia. simpl. lia. }
  { simpl in Hfuel. lia. }
  rewrite loop_S, Hbody1, Hloop. do 2 f_equal.
  rewrite Hib, (str_literal m _ (x0 mod CC)) in Hholds by lia.
  apply holds_all; [|done]. rewrite Hl, Hlen. simpl. by rewrite length_map.
Qed.

(** ** Throughout the encoder loop *)

Lemma fold_inv xs : ∀ (G : list entry) st,
  enc_inv m G st → ∃ G' : list entry, enc_inv m G' (fold_left (Encoder.step m) xs st).
Proof.
  induction xs as [|x xs IH]; intros G st Hinv; simpl; [eauto|].
  destruct (step_inv m Hm G st x Hinv) as (_ & G' & Hinv'). by eapply IH.
Qed.

Lemma enc_inv_table_bound (G : list entry) st key c :
  enc_inv m G st → Encoder.code_table st !! key = Some c →
  FIRST ≤ c < Encoder.next_code st.
Proof.
  intros [Hnext Hfull Htable _ _ _] Hlook.
  destruct (proj1 (Htable key c) Hlook) as (j & pc & k & s & HG & _ & ->).
  apply lookup_lt_Some in HG. lia.
Qed.

(** The turn of the loop that finds the dictionary full. *)
Definition dictionary_full (st : Encoder.state) (x : Z) : bool :=
  let k := JS.and x (Encoder.code_mask m) in
  let cur_key := JS.or (JS.shl (Encoder.ib_code st) 8) k in
  match Encoder.code_table st !! cur_key with
  | None => Encoder.next_code st =? 4096
  | Some _ => false
  end.

(** How often the loop on [xs] finds the dictionary full. *)
Fixpoint mid_stream_clears (st : Encoder.state) (xs : list Z) : nat :=
  match xs with
  | [] => 0
  | x :: xs' =>
      ((if dictionary_full st x then 1 else 0)
       + mid_stream_clears (Encoder.step m st x) xs')%nat
  end.

Lemma dictionary_full_step (G : list entry) st x :
  enc_inv m G st → dictionary_full st x = true →
  Encoder.step m st x
  = Encoder.State
      (Encoder.emit_code (Encoder.cur_code_size st) (Encoder.clear_code m)
         (Encoder.emit_code (Encoder.cur_code_size st) (Encoder.ib_code st)
                            (Encoder.pk st)))
      (m + 1) (Encoder.eoi_code m + 1) ∅ (JS.and x (Encoder.code_mask m)).
Proof.
  intros Hinv Hfull. unfold dictionary_full in Hfull. cbv zeta in Hfull.
  rewrite (step_key m Hm G st x Hinv) in Hfull.
  destruct (Encoder.code_table st !! _) eqn:Hlook; [done|].
  apply Z.eqb_eq in Hfull.
  destruct (step_full m Hm G st x Hinv Hlook Hfull) as (-> & _).
  by rewrite EncoderMask.and_code_mask by lia.
Qed.

End Codec.
End CodecFacts.


(** * The rows of the blitters *)

Module BlitFacts.
Import Reader.

#[local] Arguments JS.and : simpl never.
#[local] Arguments JS.or : simpl never.
#[local] Arguments JS.shl : simpl never.
#[local] Arguments JS.shr : simpl never.
#[local] Arguments buf_set : simpl never.
#[local] Arguments buf_get : simpl never.

Section Rows.
Variable r : reader.
Variable frame : Frame.
Variable order : channel_order.
Variable palette_offset : Z.
Variable trans : Z.

Hypothesis Hwidth : 0 < width frame.
Hypothesis Hcanvas : 0 < canvas_width r.

(** Where row [row] of the frame begins on the canvas, in bytes. *)
Definition row_op (row : Z) : Z :=
  ((y frame + row) * canvas_width r + x frame) * 4.

(** One pixel of colour [index] at [op]; the transparent index leaves the
    canvas as it is. *)
Definition paint (px : list Z) (op index : Z) : list Z :=
  if index =? trans then px
  else
    let cr := num (buf_get (buffer r) (palette_offset + index * 3)) in
    let cg := num (buf_get (buffer r) (palette_offset + index * 3 + 1)) in
    let cb := num (buf_get (buffer r) (palette_offset + index * 3 + 2)) in
    let '(c0, c2) := match order with RGBA => (cr, cb) | BGRA => (cb, cr) end in
    buf_set (buf_set (buf_set (buf_set px op c0) (op + 1) cg) (op + 2) c2) (op + 3) 255.

(** A run of pixels from [op] on. *)
Fixpoint paint_row (px : list Z) (op : Z) (indices : list Z) : list Z :=
  match indices with
  | [] => px
  | index :: rest => paint_row (paint px op index) (op + 4) rest
  end.

(** A pass: the rows of [rows] go to the rows [row], [row + d], ... of the
    frame. *)
Fixpoint paint_rows (px : list Z) (row d : Z) (rows : list (list Z)) : list Z :=
  match rows with
  | [] => px
  | indices :: rest => paint_rows (paint_row px (row_op row) indices) (row + d) d rest
  end.

(** The value of [scanstride] that goes [d] rows down. *)
Definition stride (d : Z) : Z :=
  framestride r frame * 4 + canvas_width r * 4 * (d - 1).

Lemma blit_pixel_eq s index :
  blit_pixel r frame order palette_offset trans s index
  = let s1 := new_scanline r frame s in
    Blit (op s1 + 4) (xleft s1 - 1) (scanstride s1) (interlaceskip s1)
         (paint (pixels s1) (op s1) index).
Proof.
  unfold blit_pixel, paint. cbv zeta.
  destruct (index =? trans); [done|]. by destruct order.
Qed.

Lemma new_scanline_id s : xleft s ≠ 0 → new_scanline r frame s = s.
Proof.
  intros H. unfold new_scanline. by destruct (Z.eqb_spec (xleft s) 0).
Qed.

(** Inside a row. *)
Lemma blit_row indices : ∀ s,
  Z.of_nat (length indices) ≤ xleft s →
  fold_left (blit_pixel r frame order palette_offset trans) indices s
  = Blit (op s + 4 * Z.of_nat (length indices)) (xleft s - Z.of_nat (length indices))
         (scanstride s) (interlaceskip s) (paint_row (pixels s) (op s) indices).
Proof.
  induction indices as [|index rest IH]; intros s Hx.
  - simpl. destruct s; simpl. f_equal; lia.
  - cbn [fold_left paint_row]. rewrite blit_pixel_eq.
    rewrite new_scanline_id by (simpl in Hx; lia). cbv zeta.
    rewrite IH by (simpl in *; lia). simpl. f_equal; lia.
Qed.

(** The first pixel of a row finds the row. *)
Lemma fold_new_scanline indices s :
  indices ≠ [] → xleft (new_scanline r frame s) ≠ 0 →
  fold_left (blit_pixel r frame order palette_offset trans) indices s
  = fold_left (blit_pixel r frame order palette_offset trans) indices
              (new_scanline r frame s).
Proof.
  intros Hne Hx. destruct indices as [|index rest]; [done|].
  cbn [fold_left]. rewrite !blit_pixel_eq.
  by rewrite (new_scanline_id (new_scanline r frame s)).
Qed.

Lemma row_op_lt a b : a < b → row_op a < row_op b.
Proof. intros H. unfold row_op. nia. Qed.

Lemma row_op_le a b : a ≤ b → row_op a ≤ row_op b.
Proof. intros H. unfold row_op. nia. Qed.

Lemma opend_row : opend r frame = row_op (height frame).
Proof. reflexivity. Qed.

Lemma opbeg_row : opbeg r frame = row_op 0.
Proof. unfold opbeg, row_op. f_equal. f_equal. lia. Qed.

Lemma next_row_op row d :
  row_op row + 4 * width frame + stride d = row_op (row + d).
Proof. unfold stride, framestride, framewidth, row_op. ring. Qed.

(** The next row of a pass. *)
Lemma new_scanline_next row d skip px :
  row + d < height frame →
  new_scanline r frame (Blit (row_op row + 4 * width frame) 0 (stride d) skip px)
  = Blit (row_op (row + d)) (width frame) (stride d) skip px.
Proof.
  intros Hlt. unfold new_scanline. simpl. rewrite next_row_op, opend_row.
  pose proof (row_op_lt _ _ Hlt).
  by destruct (Z.leb_spec (row_op (height frame)) (row_op (row + d))); [lia|].
Qed.

(** The step to the next pass. *)
Lemma new_scanline_wrap row d skip px :
  height frame ≤ row + d → skip ∈ [8; 4; 2] →
  new_scanline r frame (Blit (row_op row + 4 * width frame) 0 (stride d) skip px)
  = Blit (row_op (skip / 2)) (width frame) (stride skip) (skip / 2) px.
Proof.
  intros Hge Hskip. unfold new_scanline. simpl. rewrite next_row_op, opend_row.
  pose proof (row_op_le _ _ Hge).
  destruct (Z.leb_spec (row_op (height frame)) (row_op (row + d))); [|lia].
  assert (JS.shl skip 1 = 2 * skip ∧ JS.shr skip 1 = skip / 2 ∧ 2 * (skip / 2) = skip)
    as (-> & -> & Heven).
  { repeat (apply elem_of_cons in Hskip as [->|Hskip]; [by vm_compute|]).
    by apply elem_of_nil in Hskip. }
  set (q := skip / 2) in *.
  assert (opbeg r frame + (framewidth frame + framestride r frame) * (2 * skip)
          = row_op q) as ->; [|done].
  unfold opbeg, framestride, framewidth, row_op. rewrite <- Heven. ring.
Qed.

(** The rows of a pass that stays inside the frame. *)
Lemma pass_blit d skip rows : ∀ row px,
  rows ≠ [] → Forall (λ indices, Z.of_nat (length indices) = width frame) rows →
  0 ≤ d → row + d * (Z.of_nat (length rows) - 1) < height frame →
  fold_left (blit_pixel r frame order palette_offset trans) (concat rows)
            (Blit (row_op row) (width frame) (stride d) skip px)
  = Blit (row_op (row + d * (Z.of_nat (length rows) - 1)) + 4 * width frame) 0
         (stride d) skip (paint_rows px row d rows).
Proof.
  induction rows as [|indices rest IH]; intros row px Hne Hall Hd Hin; [done|].
  apply Forall_cons in Hall as [Hlen Hall]. cbv beta in Hlen.
  cbn [concat paint_rows]. rewrite fold_left_app.
  rewrite (blit_row indices) by (simpl; lia).
  simpl op. simpl xleft. simpl scanstride. simpl interlaceskip. simpl pixels.
  rewrite Hlen, Z.sub_diag.
  destruct rest as [|indices2 rest].
  - replace (row + d * (Z.of_nat (length [indices]) - 1)) with row by (simpl; lia).
    done.
  - assert (row + d < height frame) as Hnext by (simpl length in Hin; nia).
    rewrite fold_new_scanline.
    + rewrite new_scanline_next by done.
      rewrite IH; [|done|done|done|simpl length in *; nia].
      replace (row + d + d * (Z.of_nat (length (indices2 :: rest)) - 1))
        with (row + d * (Z.of_nat (length (indices :: indices2 :: rest)) - 1))
        by (simpl length; lia).
      done.
    + apply Forall_cons in Hall as [Hlen2 _]. cbv beta in Hlen2. cbn [concat].
      destruct indices2; [simpl in Hlen2; lia|done].
    + rewrite new_scanline_next by done. simpl. lia.
Qed.

(** A pass after another one. *)
Lemma next_pass_blit row d skip rows rest px :
  rows ≠ [] → Forall (λ indices, Z.of_nat (length indices) = width frame) rows →
  height frame ≤ row + d → skip ∈ [8; 4; 2] →
  skip / 2 + skip * (Z.of_nat (length rows) - 1) < height frame →
  fold_left (blit_pixel r frame order palette_offset trans) (concat rows ++ rest)
            (Blit (row_op row + 4 * width frame) 0 (stride d) skip px)
  = fold_left (blit_pixel r frame order palette_offset trans) rest
      (Blit (row_op (skip / 2 + skip * (Z.of_nat (length rows) - 1)) + 4 * width frame)
            0 (stride skip) (skip / 2) (paint_rows px (skip / 2) skip rows)).
Proof.
  intros Hne Hall Hge Hskip Hin.
  assert (0 ≤ skip) as Hpos.
  { repeat (apply elem_of_cons in Hskip as [->|Hskip]; [lia|]).
    by apply elem_of_nil in Hskip. }
  rewrite fold_left_app. f_equal.
  rewrite fold_new_scanline.
  - rewrite new_scanline_wrap by done. by apply pass_blit.
  - destruct rows as [|indices rows]; [done|].
    apply Forall_cons in Hall as [Hlen _]. cbv beta in Hlen. cbn [concat].
    destruct indices; [simpl in Hlen; lia|done].
  - rewrite new_scanline_wrap by done. simpl. lia.
Qed.

(** An interlaced frame of one row or of five rows and more: four passes. *)
Lemma interlaced_blit g1 g2 g3 g4 px :
  interlaced frame = true →
  height frame = 1 ∨ 5 ≤ height frame →
  Z.of_nat (length g1) = (height frame + 7) / 8 →
  Z.of_nat (length g2) = (height frame + 3) / 8 →
  Z.of_nat (length g3) = (height frame + 1) / 4 →
  Z.of_nat (length g4) = height frame / 2 →
  Forall (λ indices, Z.of_nat (length indices) = width frame) (g1 ++ g2 ++ g3 ++ g4) →
  blit_all r frame order palette_offset trans (concat (g1 ++ g2 ++ g3 ++ g4)) px
  = paint_rows (paint_rows (paint_rows (paint_rows px 0 8 g1) 4 8 g2) 2 4 g3) 1 2 g4.
Proof.
  intros Hint Hh H1 H2 H3 H4 Hall.
  apply Forall_app in Hall as [Hall1 Hall]. apply Forall_app in Hall as [Hall2 Hall].
  apply Forall_app in Hall as [Hall3 Hall4].
  unfold blit_all, blit_init. rewrite Hint, opbeg_row. unfold framewidth.
  replace (framestride r frame * 4 + canvas_width r * 4 * 7) with (stride 8)
    by (unfold stride; lia).
  assert (g1 ≠ []) as Hne1 by (intros ->; simpl in H1; Z.div_mod_to_equations; lia).
  rewrite concat_app, fold_left_app.
  rewrite pass_blit; [|done|done|lia|Z.div_mod_to_equations; lia].
  destruct Hh as [Hone|Hfive].
  - assert (g2 = []) as -> by (destruct g2; [done|simpl in H2; Z.div_mod_to_equations; lia]).
    assert (g3 = []) as -> by (destruct g3; [done|simpl in H3; Z.div_mod_to_equations; lia]).
    assert (g4 = []) as -> by (destruct g4; [done|simpl in H4; Z.div_mod_to_equations; lia]).
    done.
  - assert (g2 ≠ []) as Hne2 by (intros ->; simpl in H2; Z.div_mod_to_equations; lia).
    assert (g3 ≠ []) as Hne3 by (intros ->; simpl in H3; Z.div_mod_to_equations; lia).
    assert (g4 ≠ []) as Hne4 by (intros ->; simpl in H4; Z.div_mod_to_equations; lia).
    rewrite concat_app.
    rewrite (next_pass_blit _ 8 8 g2); [|done|done| |by repeat constructor|];
      [|Z.div_mod_to_equations; lia|change (8 / 2) with 4; Z.div_mod_to_equations; lia].
    rewrite concat_app. change (8 / 2) with 4.
    rewrite (next_pass_blit _ 8 4 g3); [|done|done| |by repeat constructor|];
      [|Z.div_mod_to_equations; lia|change (4 / 2) with 2; Z.div_mod_to_equations; lia].
    change (4 / 2) with 2.
    rewrite <- (app_nil_r (concat g4)).
    rewrite (next_pass_blit _ 4 2 g4); [|done|done| |by repeat constructor|];
      [|Z.div_mod_to_equations; lia|change (2 / 2) with 1; Z.div_mod_to_equations; lia].
    done.
Qed.

(** A frame that is not interlaced: top to bottom. *)
Lemma natural_blit rows px :
  interlaced frame = false →
  rows ≠ [] → Z.of_nat (length rows) ≤ height frame →
  Forall (λ indices, Z.of_nat (length indices) = width frame) rows →
  blit_all r frame order palette_offset trans (concat rows) px
  = paint_rows px 0 1 rows.
Proof.
  intros Hint Hne Hlen Hall.
  unfold blit_all, blit_init. rewrite Hint, opbeg_row. unfold framewidth.
  replace (framestride r frame * 4) with (stride 1) by (unfold stride; lia).
  rewrite pass_blit; [done..|lia|lia].
Qed.

(** An interlaced frame of two, three or four rows: the second row of the
    stream goes to row 4. *)
Lemma small_interlaced_blit row1 row2 px :
  interlaced frame = true →
  2 ≤ height frame ≤ 4 →
  Z.of_nat (length row1) = width frame → Z.of_nat (length row2) = width frame →
  blit_all r frame order palette_offset trans (row1 ++ row2) px
  = paint_row (paint_row px (row_op 0) row1) (row_op 4) row2.
Proof.
  intros Hint Hh Hl1 Hl2.
  unfold blit_all, blit_init. rewrite Hint, opbeg_row. unfold framewidth.
  replace (framestride r frame * 4 + canvas_width r * 4 * 7) with (stride 8)
    by (unfold stride; lia).
  replace (row1 ++ row2) with (concat [row1] ++ row2)
    by (simpl; by rewrite app_nil_r).
  rewrite fold_left_app.
  rewrite pass_blit; [|done|by apply Forall_singleton|lia|simpl; lia].
  assert (row2 ≠ []) as Hne by (intros ->; simpl in Hl2; lia).
  assert (new_scanline r frame
            (Blit (row_op (0 + 8 * (Z.of_nat (length [row1]) - 1)) + 4 * width frame) 0
                  (stride 8) 8 (paint_rows px 0 8 [row1]))
          = Blit (row_op 4) (width frame) (stride 8) 4 (paint_rows px 0 8 [row1]))
    as Hwrap.
  { rewrite new_scanline_wrap; [done|simpl; lia|by repeat constructor]. }
  rewrite fold_new_scanline; [rewrite Hwrap|done|rewrite Hwrap; simpl; lia].
  rewrite blit_row by (simpl; lia). done.
Qed.

End Rows.
End BlitFacts.


(** * Where the encoder writes and how far it gets *)

Module EncoderBounds.
Import Bits PackerFacts Encoder.

#[local] Arguments JS.and : simpl never.
#[local] Arguments JS.or : simpl never.
#[local] Arguments JS.shl : simpl never.
#[local] Arguments JS.shr : simpl never.
#[local] Arguments buf_set : simpl never.
#[local] Arguments buf_get : simpl never.

Section Within.
Variable buf0 : list Z.
Variable p0 : Z.

(** The packer has only written from [p0] up to its cursor. *)
Record within (s : packer) : Prop := {
  wi_sub : p0 < cur_subblock s < p s;
  wi_length : length (buf s) = length buf0;
  wi_same : ∀ i, i < p0 ∨ p s ≤ i → buf_get (buf s) i = buf_get buf0 i
}.

Lemma within_emit_byte s : within s → within (emit_byte s).
Proof.
  intros [Hsub Hlen Hsame]. unfold emit_byte.
  destruct (Z.eqb_spec (p s + 1) (cur_subblock s + 256)); constructor; simpl.
  - lia.
  - by rewrite !buf_set_length.
  - intros i Hi. rewrite !buf_get_set_ne by lia. apply Hsame. lia.
  - lia.
  - by rewrite buf_set_length.
  - intros i Hi. rewrite buf_get_set_ne by lia. apply Hsame. lia.
Qed.

Lemma within_emit_bytes_loop fuel bs : ∀ s,
  within s → within (emit_bytes_loop fuel bs s).
Proof.
  induction fuel as [|fuel IH]; intros s Hs; simpl; [done|].
  destruct (bs <=? cur_shift s); [|done]. by apply IH, within_emit_byte.
Qed.

Lemma within_emit_code w c s : within s → within (emit_code w c s).
Proof.
  intros [Hsub Hlen Hsame]. unfold emit_code, emit_bytes_to_buffer.
  apply within_emit_bytes_loop. by constructor.
Qed.

Lemma within_step m st x : within (pk st) → within (pk (step m st x)).
Proof.
  intros Hs. unfold step. destruct (code_table st !! _); [done|].
  rewrite emit_inline_eq. destruct (next_code st =? 4096); simpl.
  - by apply within_emit_code, within_emit_code.
  - by apply within_emit_code.
Qed.

Lemma within_fold m xs : ∀ st,
  within (pk st) → within (pk (fold_left (step m) xs st)).
Proof.
  induction xs as [|x xs IH]; intros st Hs; simpl; [done|].
  by apply IH, within_step.
Qed.

Lemma within_init m idx : within (pk (init m buf0 p0 idx)).
Proof.
  unfold init. simpl. apply within_emit_code. constructor; simpl.
  - lia.
  - apply buf_set_length.
  - intros i Hi. apply buf_get_set_ne. lia.
Qed.

(** The encoder keeps the length of the buffer and writes nothing below the
    position it is given nor from the position it returns on. *)
Lemma encoder_within m idx :
  let r := GifWriterOutputLZWCodeStream buf0 p0 m idx in
  length r.1 = length buf0
  ∧ p0 + 2 ≤ r.2
  ∧ ∀ i, i < p0 ∨ r.2 ≤ i → buf_get r.1 i = buf_get buf0 i.
Proof.
  unfold GifWriterOutputLZWCodeStream.
  pose proof (within_fold m (tail idx) _ (within_init m idx)) as Hs.
  set (st := fold_left (step m) (tail idx) (init m buf0 p0 idx)) in *.
  unfold finish.
  assert (within (emit_bytes_to_buffer 1
            (emit_code (cur_code_size st) (eoi_code m)
               (emit_code (cur_code_size st) (ib_code st) (pk st))))) as Hw.
  { unfold emit_bytes_to_buffer. apply within_emit_bytes_loop.
    by apply within_emit_code, within_emit_code. }
  set (s3 := emit_bytes_to_buffer 1 _) in *.
  destruct Hw as [Hsub Hlen Hsame].
  destruct (Z.eqb_spec (cur_subblock s3 + 1) (p s3)); simpl.
  - split_and!; [by rewrite buf_set_length|lia|].
    intros i Hi. rewrite buf_get_set_ne by lia. apply Hsame. lia.
  - split_and!; [by rewrite !buf_set_length|lia|].
    intros i Hi. rewrite !buf_get_set_ne by lia. apply Hsame. lia.
Qed.

End Within.

(** ** The position does not depend on the buffer *)

(** Two packers that differ in their buffers only. *)
Definition same_cursor (s1 s2 : packer) : Prop :=
  p s1 = p s2 ∧ cur_subblock s1 = cur_subblock s2
  ∧ cur s1 = cur s2 ∧ cur_shift s1 = cur_shift s2.

Lemma same_emit_byte s1 s2 :
  same_cursor s1 s2 → same_cursor (emit_byte s1) (emit_byte s2).
Proof.
  intros (Hp & Hs & Hc & Hsh). unfold emit_byte. rewrite Hp, Hs, Hc, Hsh.
  destruct (_ =? _); by repeat split.
Qed.

Lemma same_emit_bytes_loop fuel bs : ∀ s1 s2,
  same_cursor s1 s2 →
  same_cursor (emit_bytes_loop fuel bs s1) (emit_bytes_loop fuel bs s2).
Proof.
  induction fuel as [|fuel IH]; intros s1 s2 Hs; simpl; [done|].
  pose proof Hs as (_ & _ & _ & ->).
  destruct (bs <=? cur_shift s2); [|done]. by apply IH, same_emit_byte.
Qed.

Lemma same_emit_bytes_to_buffer bs s1 s2 :
  same_cursor s1 s2 →
  same_cursor (emit_bytes_to_buffer bs s1) (emit_bytes_to_buffer bs s2).
Proof.
  intros Hs. unfold emit_bytes_to_buffer. pose proof Hs as (_ & _ & _ & ->).
  by apply same_emit_bytes_loop.
Qed.

Lemma same_emit_code w c s1 s2 :
  same_cursor s1 s2 → same_cursor (emit_code w c s1) (emit_code w c s2).
Proof.
  intros (Hp & Hs & Hc & Hsh). unfold emit_code.
  apply same_emit_bytes_to_buffer. simpl. by rewrite Hp, Hs, Hc, Hsh.
Qed.

(** Two states of the loop that differ in their buffers only. *)
Definition same_state (st1 st2 : state) : Prop :=
  same_cursor (pk st1) (pk st2) ∧ cur_code_size st1 = cur_code_size st2
  ∧ next_code st1 = next_code st2 ∧ code_table st1 = code_table st2
  ∧ ib_code st1 = ib_code st2.

Lemma same_step m st1 st2 x :
  same_state st1 st2 → same_state (step m st1 x) (step m st2 x).
Proof.
  intros (Hpk & Hsz & Hn & Ht & Hib). unfold step. rewrite Ht, Hib, Hsz, Hn.
  destruct (code_table st2 !! _); [split; [done|by repeat split]|].
  rewrite !emit_inline_eq. destruct (next_code st2 =? 4096).
  - split; [|by repeat split]. simpl. by apply same_emit_code, same_emit_code.
  - split; [|by repeat split]. simpl. by apply same_emit_code.
Qed.

Lemma same_fold m xs : ∀ st1 st2,
  same_state st1 st2 →
  same_state (fold_left (step m) xs st1) (fold_left (step m) xs st2).
Proof.
  induction xs as [|x xs IH]; intros st1 st2 Hs; simpl; [done|].
  by apply IH, same_step.
Qed.

(** The position that the encoder returns is the same for every buffer. *)
Lemma encoder_position buf1 buf2 p0 m idx :
  (GifWriterOutputLZWCodeStream buf1 p0 m idx).2
  = (GifWriterOutputLZWCodeStream buf2 p0 m idx).2.
Proof.
  unfold GifWriterOutputLZWCodeStream.
  assert (same_state (init m buf1 p0 idx) (init m buf2 p0 idx)) as H0.
  { unfold init. split; [|by repeat split]. simpl. apply same_emit_code.
    by repeat split. }
  pose proof (same_fold m (tail idx) _ _ H0) as (Hpk & Hsz & _ & _ & Hib).
  set (st1 := fold_left _ _ (init m buf1 p0 idx)) in *.
  set (st2 := fold_left _ _ (init m buf2 p0 idx)) in *.
  unfold finish. rewrite Hsz, Hib.
  assert (same_cursor
            (emit_bytes_to_buffer 1
               (emit_code (cur_code_size st2) (eoi_code m)
                  (emit_code (cur_code_size st2) (ib_code st2) (pk st1))))
            (emit_bytes_to_buffer 1
               (emit_code (cur_code_size st2) (eoi_code m)
                  (emit_code (cur_code_size st2) (ib_code st2) (pk st2)))))
    as (Hp & Hs & _ & _).
  { by apply same_emit_bytes_to_buffer, same_emit_code, same_emit_code. }
  rewrite Hp, Hs. by destruct (_ =? _).
Qed.

(** ** The position that the encoder returns *)

Section End.
Import EncoderFacts.
Variable m : Z.
Hypothesis Hm : 2 ≤ m ≤ 8.

(** The data bytes of the codes, and the position after the sub-blocks that
    hold them: a block terminator follows them unless the last sub-block is
    full, for then the length field of the next one is the terminator. *)
Definition data_bytes (buf0 : list Z) (p0 : Z) (idx : list Z) : Z :=
  (bits_len (all_codes m buf0 p0 idx) + 7) / 8.

Definition end_pos (p0 N : Z) : Z :=
  data_pos p0 N + (if N mod 255 =? 0 then 0 else 1).

Lemma data_bytes_pos buf0 p0 idx : 0 < data_bytes buf0 p0 idx.
Proof.
  unfold data_bytes, all_codes. cbn [bits_len fold_right fst snd].
  pose proof (codes_from_ok m Hm (tail idx) [] _ (enc_inv_init m Hm buf0 p0 idx)) as Hok.
  pose proof (bits_len_nonneg _ (code_ok_fits _ Hok)) as Hlen.
  unfold bits_len in Hlen. Z.div_mod_to_equations. lia.
Qed.

Lemma encoder_end buf0 p0 idx buf' p' :
  0 ≤ p0 →
  GifWriterOutputLZWCodeStream buf0 p0 m idx = (buf', p') →
  p' ≤ Z.of_nat (length buf0) →
  p' = end_pos p0 (data_bytes buf0 p0 idx).
Proof.
  intros Hp0 Henc Hroom. unfold data_bytes. set (codes := all_codes m buf0 p0 idx).
  unfold GifWriterOutputLZWCodeStream in Henc. rewrite (finish_fold_eq m) in Henc.
  set (pk0 := Packer (buf_set buf0 p0 m) (p0 + 2) (p0 + 1) 0 0).
  assert (emit_all (codes_from m (init m buf0 p0 idx) (tail idx))
                   (pk (init m buf0 p0 idx))
          = emit_all codes pk0) as Heq by reflexivity.
  rewrite Heq in Henc. clear Heq.
  set (s2 := emit_all codes pk0) in *.
  set (s3 := emit_bytes_to_buffer 1 s2) in *.
  assert (p pk0 ≤ p s2) as Hm1 by apply emit_all_p.
  assert (p s2 ≤ p s3) as Hm2 by apply emit_bytes_loop_p.
  assert (p s3 ≤ p') as Hm3.
  { cbv zeta in Henc. destruct (_ =? _); simplify_eq; lia. }
  simpl in Hm1.
  assert (packed (length buf0) (buf_set buf0 p0 m) p0 0 0 pk0) as Hpk0.
  { split_and!; [|done|done|done].
    change (0 / 8) with 0.
    constructor; simpl; try done; try lia.
    all: first [ apply buf_set_length
               | by (unfold data_pos; change (0 / 255) with 0; lia)
               | by (unfold len_pos; change (0 / 255) with 0; lia)
               | by (change (0 / 8) with 0; change (0 / 255) with 0; intros; lia)
               ]. }
  pose proof (all_codes_ok m Hm buf0 p0 idx) as Hok. fold codes in Hok.
  pose proof (emit_all_packed _ _ _ codes 0 0 pk0 Hpk0 Hok ltac:(fold s2; lia)) as Hpk2.
  fold s2 in Hpk2.
  replace (0 + bits_len codes) with (bits_len codes) in Hpk2 by lia.
  pose proof (flush_stored _ _ _ _ _ s2 Hpk2 ltac:(fold s3; lia)) as Hst3.
  fold s3 in Hst3.
  destruct Hst3 as [_ Hcount _ _ Hpos _ Hsub _ _ _ _].
  set (N := (bits_len codes + 7) / 8) in *.
  cbv zeta in Henc. rewrite Hpos, Hsub in Henc. unfold end_pos.
  unfold data_pos, len_pos in *.
  destruct (Z.eqb_spec (p0 + 1 + 256 * (N / 255) + 1) (p0 + 2 + N + N / 255));
    destruct (Z.eqb_spec (N mod 255) 0); simplify_eq;
    Z.div_mod_to_equations; lia.
Qed.

(** The sub-block scan of the reader, on the sub-blocks of the encoder. *)
Lemma framed_scan_from buf p0 B N (n : nat) : ∀ b fuel,
  framed buf p0 B N → 0 ≤ b → b + Z.of_nat n = N / 255 →
  (n + 2 ≤ fuel)%nat →
  Reader.skip_subblocks buf fuel (len_pos p0 b) = Some (Return (end_pos p0 N)).
Proof.
  induction n as [|n IH]; intros b fuel Hfr Hb Hn Hfuel.
  - destruct Hfr as [_ _ Hlast Hterm].
    replace b with (N / 255) by lia.
    destruct fuel as [|[|fuel]]; [lia..|]. cbn [Reader.skip_subblocks].
    rewrite Hlast. unfold end_pos.
    assert (0 ≤ N mod 255 < 255) as Hmod by (apply Z.mod_pos_bound; lia).
    destruct (Z.leb_spec 0 (N mod 255)); [|lia]. simpl negb. cbv iota.
    destruct (Z.eqb_spec (N mod 255) 0) as [Hz|Hnz].
    + do 2 f_equal. unfold len_pos, data_pos. Z.div_mod_to_equations. lia.
    + replace (len_pos p0 (N / 255) + 1 + N mod 255) with (data_pos p0 N)
        by (unfold len_pos, data_pos; Z.div_mod_to_equations; lia).
      rewrite (Hterm Hnz). simpl. done.
  - destruct fuel as [|fuel]; [lia|]. cbn [Reader.skip_subblocks].
    pose proof Hfr as [_ Hlens _ _]. rewrite Hlens by lia. simpl.
    replace (len_pos p0 b + 1 + 255) with (len_pos p0 (b + 1))
      by (unfold len_pos; lia).
    apply IH; [done|lia|lia|lia].
Qed.

Lemma framed_scan buf p0 B N fuel :
  framed buf p0 B N → 0 ≤ N → (Z.to_nat (N / 255) + 2 ≤ fuel)%nat →
  Reader.skip_subblocks buf fuel (p0 + 1) = Some (Return (end_pos p0 N)).
Proof.
  intros Hfr HN Hfuel.
  replace (p0 + 1) with (len_pos p0 0) by (unfold len_pos; lia).
  apply (framed_scan_from buf p0 B N (Z.to_nat (N / 255))); [done|lia| |done].
  assert (0 ≤ N / 255) by (apply Z.div_pos; lia). lia.
Qed.

(** The reader's scan of the sub-blocks that the encoder has written ends
    at the position that the encoder has returned. *)
Lemma encoder_scan buf0 p0 idx buf' p' :
  0 ≤ p0 →
  GifWriterOutputLZWCodeStream buf0 p0 m idx = (buf', p') →
  p' ≤ Z.of_nat (length buf0) →
  Reader.skip_subblocks buf' (Reader.scan_fuel buf') (p0 + 1) = Some (Return p').
Proof.
  intros Hp0 Henc Hroom.
  destruct (encoder_framed m Hm buf0 p0 idx buf' p' Hp0 Henc Hroom)
    as (Hfr & _ & Hlen & _).
  pose proof (encoder_end buf0 p0 idx buf' p' Hp0 Henc Hroom) as Hend.
  rewrite Hend in Hroom |- *.
  pose proof (data_bytes_pos buf0 p0 idx) as HN. fold (data_bytes buf0 p0 idx) in Hfr.
  set (N := data_bytes buf0 p0 idx) in *.
  eapply framed_scan; [exact Hfr|lia|].
  unfold Reader.scan_fuel. rewrite Hlen.
  unfold end_pos, data_pos in Hroom.
  assert (0 ≤ N / 255 ≤ N) by (Z.div_mod_to_equations; lia).
  destruct (N mod 255 =? 0); lia.
Qed.

(** The codes and their bits. *)
Lemma step_codes_length st x : (length (step_codes m st x) ≤ 2)%nat.
Proof.
  unfold step_codes. destruct (code_table st !! _); [simpl; lia|].
  destruct (_ =? _); simpl; lia.
Qed.

Lemma codes_from_length xs : ∀ st,
  (length (codes_from m st xs) ≤ 2 * length xs + 2)%nat.
Proof.
  induction xs as [|x xs IH]; intros st; simpl; [lia|].
  rewrite length_app. pose proof (step_codes_length st x).
  specialize (IH (step m st x)). lia.
Qed.

Lemma bits_len_le codes :
  Forall code_ok codes → bits_len codes ≤ 12 * Z.of_nat (length codes).
Proof.
  induction 1 as [|[c w] codes [Hw _] _ IH]; simpl in *; lia.
Qed.

(** However long the buffer is, the encoder returns a position that is at
    most about three bytes per index after the one it is given. *)
Lemma encoder_size buf0 p0 idx :
  0 ≤ p0 → idx ≠ [] →
  let n := Z.of_nat (length idx) in
  (GifWriterOutputLZWCodeStream buf0 p0 m idx).2
  ≤ p0 + 3 * n + 5 + (3 * n + 2) / 255.
Proof.
  intros Hp0 Hne n.
  set (p' := (GifWriterOutputLZWCodeStream buf0 p0 m idx).2).
  pose proof (encoder_within buf0 p0 m idx) as (_ & Hge & _). fold p' in Hge.
  set (big := replicate (Z.to_nat p') 0).
  destruct (GifWriterOutputLZWCodeStream big p0 m idx) as [buf'' p''] eqn:Henc.
  assert (p'' = p') as ->.
  { unfold p'. rewrite (encoder_position buf0 big). by rewrite Henc. }
  assert (p' ≤ Z.of_nat (length big)) as Hroom
    by (unfold big; rewrite length_replicate; lia).
  rewrite (encoder_end big p0 idx buf'' p' Hp0 Henc Hroom).
  pose proof (all_codes_ok m Hm big p0 idx) as Hok.
  pose proof (bits_len_le _ Hok) as Hbits.
  pose proof (bits_len_nonneg _ (code_ok_fits _ Hok)) as Hpos.
  assert (Z.of_nat (length (all_codes m big p0 idx)) ≤ 2 * n + 1) as Hcount.
  { unfold all_codes. cbn [length].
    pose proof (codes_from_length (tail idx) (init m big p0 idx)).
    destruct idx as [|x idx]; [done|]. unfold n. simpl length in *. lia. }
  unfold data_bytes, end_pos, data_pos.
  set (L := bits_len (all_codes m big p0 idx)) in *.
  assert ((L + 7) / 8 ≤ 3 * n + 2) as HN by (Z.div_mod_to_equations; lia).
  assert (0 ≤ (L + 7) / 8) as HN0 by (Z.div_mod_to_equations; lia).
  assert ((L + 7) / 8 / 255 ≤ (3 * n + 2) / 255) as Hdiv
    by (apply Z.div_le_mono; lia).
  destruct (_ =? 0); lia.
Qed.

End End.

End EncoderBounds.


(** * What the writer leaves in the buffer *)

Module WriterLayout.
Import Writer WriterFacts.

#[local] Arguments JS.and : simpl never.
#[local] Arguments JS.or : simpl never.
#[local] Arguments JS.shl : simpl never.
#[local] Arguments JS.shr : simpl never.
#[local] Arguments buf_set : simpl never.
#[local] Arguments buf_get : simpl never.

(** ** Bytes stored one after the other *)

Lemma store_bytes_length vs : ∀ buf q, length (store_bytes buf q vs) = length buf.
Proof.
  induction vs as [|v vs IH]; intros buf q; simpl; [done|].
  by rewrite IH, buf_set_length.
Qed.

Lemma store_bytes_app a : ∀ b buf q,
  store_bytes buf q (a ++ b)
  = store_bytes (store_bytes buf q a) (q + Z.of_nat (length a)) b.
Proof.
  induction a as [|v a IH]; intros b buf q; simpl.
  - by rewrite Z.add_0_r.
  - rewrite IH. f_equal. lia.
Qed.

Lemma store_bytes_outside vs : ∀ buf q i,
  i < q ∨ q + Z.of_nat (length vs) ≤ i →
  buf_get (store_bytes buf q vs) i = buf_get buf i.
Proof.
  induction vs as [|v vs IH]; intros buf q i Hi; simpl; [done|].
  rewrite IH by (simpl in Hi; lia). apply buf_get_set_ne. simpl in Hi. lia.
Qed.

Lemma store_bytes_inside vs : ∀ buf q (j : nat) v,
  0 ≤ q → vs !! j = Some v → q + Z.of_nat j < Z.of_nat (length buf) →
  buf_get (store_bytes buf q vs) (q + Z.of_nat j) = Some (v mod 256).
Proof.
  induction vs as [|v0 vs IH]; intros buf q j v Hq Hj Hlen; [done|].
  destruct j as [|j]; simpl in *.
  - simplify_eq. rewrite store_bytes_outside by lia.
    rewrite Z.add_0_r. apply buf_get_set_eq. lia.
  - replace (q + Z.of_nat (S j)) with (q + 1 + Z.of_nat j) by lia.
    apply IH; [lia|done|]. rewrite buf_set_length. lia.
Qed.

Lemma put_bytes_app a b st :
  (put_bytes a;; put_bytes b) st = put_bytes (a ++ b) st.
Proof.
  rewrite bind_eq, !put_bytes_eq. simpl.
  rewrite store_bytes_app, length_app. do 2 f_equal. lia.
Qed.

(** The bytes of a colour table. *)
Definition color_bytes (rgb : Z) : list Z :=
  [JS.and (JS.shr rgb 16) 0xFF; JS.and (JS.shr rgb 8) 0xFF; JS.and rgb 0xFF].

Definition palette_bytes (pal : list Z) : list Z := concat (map color_bytes pal).

Lemma palette_bytes_length pal : length (palette_bytes pal) = (3 * length pal)%nat.
Proof.
  unfold palette_bytes. induction pal as [|rgb pal IH]; simpl; [done|].
  rewrite IH. lia.
Qed.

Lemma write_color_table_eq pal : ∀ st,
  write_color_table pal st = put_bytes (palette_bytes pal) st.
Proof.
  induction pal as [|rgb pal IH]; intros st; [done|].
  cbn [write_color_table palette_bytes map concat color_bytes app put_bytes].
  rewrite !put_byte_bind. apply IH.
Qed.

(** ** Actions that only append, continued *)

Lemma appends_output_lzw m idx : appends (output_lzw m idx).
Proof.
  intros st st' r H. unfold output_lzw in H.
  pose proof (EncoderBounds.encoder_within (buf st) (p st) m idx) as (Hl & Hp & Hs).
  destruct (Encoder.GifWriterOutputLZWCodeStream _ _ _ _) as [b1 p1].
  simplify_eq. simpl in *. split_and!; [lia|done| |done..].
  intros i Hi. apply Hs. lia.
Qed.

Lemma appends_write_frame x y w h idx pl : appends (write_frame x y w h idx pl).
Proof.
  unfold write_frame.
  apply appends_bind; [|intros _].
  { unfold graphics_control_extension.
    destruct (_ || _ || _); [apply appends_put_bytes|apply pure_appends, pure_ret]. }
  apply appends_bind; [apply appends_put_bytes|intros _].
  apply appends_bind; [|intros _].
  { destruct (using_local_palette pl);
      [apply appends_write_color_table|apply pure_appends, pure_ret]. }
  apply appends_bind; [apply appends_output_lzw|intros _].
  apply pure_appends. intros st st' r H. unfold get_p in H. by simplify_eq.
Qed.

(** [addFrame] takes a finished stream up again at its trailer and appends
    from there. *)
Lemma addFrame_appends x y w h idx opts st st' r :
  addFrame x y w h idx opts st = (st', r) →
  p (resumed st) ≤ p st' ∧ length (buf st') = length (buf st)
  ∧ (∀ i, i < p (resumed st) → buf_get (buf st') i = buf_get (buf st) i)
  ∧ ended st' = false ∧ global_palette st' = global_palette st.
Proof.
  rewrite addFrame_eq.
  assert (buf (resumed st) = buf st ∧ ended (resumed st) = false
          ∧ global_palette (resumed st) = global_palette st) as (Hb & He & Hg).
  { unfold resumed. destruct (ended st) eqn:E; by simpl. }
  destruct (validate _ _ _ _ _ _ _) as [pl|e].
  - intros H. apply appends_write_frame in H as (? & ? & ? & ? & ?).
    rewrite Hb in *. split_and!; [done|done|done|congruence|congruence].
  - intros H. simplify_eq. rewrite Hb. split_and!; [lia|done|done|done|done].
Qed.

(** [end()] appends the trailer, once. *)
Lemma end_appends st st' r :
  end_ st = (st', r) →
  p st ≤ p st' ∧ length (buf st') = length (buf st)
  ∧ (∀ i, i < p st → buf_get (buf st') i = buf_get (buf st) i)
  ∧ ended st' = true ∧ global_palette st' = global_palette st
  ∧ (ended st = false → p st' = p st + 1).
Proof.
  unfold end_. destruct (ended st) eqn:E; intros H; simplify_eq; simpl.
  - split_and!; [lia|done..].
  - split_and!; [lia|apply buf_set_length| |done..].
    intros i Hi. apply buf_get_set_ne. lia.
Qed.

(** ** Calls on a writer, one after the other *)

(** The states that calls of [addFrame] and [end] lead to, whether the calls
    return or throw. *)
Inductive session (st0 : writer) : writer → Prop :=
  | session_start : session st0 st0
  | session_addFrame st x y w h idx opts :
      session st0 st → session st0 (addFrame x y w h idx opts st).1
  | session_end st :
      session st0 st → session st0 (end_ st).1.

(** What the calls keep: the bytes below the first cursor, and a cursor
    that stays above it, the trailer of a finished stream apart. *)
Lemma session_keeps st0 st :
  ended st0 = false → session st0 st →
  p st0 ≤ p (resumed st)
  ∧ length (buf st) = length (buf st0)
  ∧ (∀ i, i < p st0 → buf_get (buf st) i = buf_get (buf st0) i)
  ∧ global_palette st = global_palette st0.
Proof.
  intros H0. induction 1 as [|st x y w h idx opts _ IH|st _ IH].
  - unfold resumed. rewrite H0. split_and!; [lia|done..].
  - destruct IH as (Hp & Hl & Hs & Hg).
    destruct (addFrame x y w h idx opts st) as [st' r] eqn:E. simpl.
    apply addFrame_appends in E as (Hp' & Hl' & Hs' & He' & Hg').
    split_and!; [|congruence| |congruence].
    + unfold resumed at 1. rewrite He'. lia.
    + intros i Hi. rewrite Hs' by lia. by apply Hs.
  - destruct IH as (Hp & Hl & Hs & Hg).
    destruct (end_ st) as [st' r] eqn:E. simpl.
    apply end_appends in E as (Hp' & Hl' & Hs' & He' & Hg' & Hnew).
    split_and!; [|congruence| |congruence].
    + unfold resumed in *. rewrite He'. simpl.
      destruct (ended st) eqn:Ee; simpl in *; [lia|]. specialize (Hnew eq_refl). lia.
    + intros i Hi. rewrite Hs'; [by apply Hs|].
      unfold resumed in Hp. destruct (ended st); simpl in Hp; lia.
Qed.

(** ** The constructor *)

(** The low and the high byte of a 16-bit number, as the writer stores
    them. *)
Lemma low_byte v : JS.and v 0xFF = v mod 256.
Proof. apply JSFacts.and_255. Qed.

Lemma high_byte v : 0 ≤ v ≤ 65535 → JS.and (JS.shr v 8) 0xFF = v / 256.
Proof.
  intros Hv. rewrite JSFacts.and_255, JSFacts.shr_small by lia.
  change (2 ^ 8) with 256. apply Z.mod_small. Z.div_mod_to_equations. lia.
Qed.

(** The arguments that the constructor accepts. *)
Definition valid_screen (w h : Z) (o : WriterOptions) : Prop :=
  0 < w ≤ 65535 ∧ 0 < h ≤ 65535
  ∧ (∀ pal, palette o = Some pal →
       Z.of_nat (length pal) ∈ pow2_sizes
       ∧ ∀ bg, background o = Some bg → bg < Z.of_nat (length pal) ∧ bg ≠ 0)
  ∧ (∀ l, loop o = Some l → 0 ≤ l ≤ 65535).

Definition descriptor_bytes (w h : Z) (o : WriterOptions) : list Z :=
  [w mod 256; w / 256; h mod 256; h / 256;
   match palette o with
   | Some pal => 127 + Z.log2 (Z.of_nat (length pal))
   | None => 0
   end;
   match palette o, background o with
   | Some _, Some bg => bg
   | _, _ => 0
   end;
   0].

Definition loop_bytes (o : WriterOptions) : list Z :=
  match loop o with
  | Some l => [0x21; 0xFF; 0x0B;
               0x4E; 0x45; 0x54; 0x53; 0x43; 0x41; 0x50; 0x45; 0x32; 0x2E; 0x30;
               0x03; 0x01; l mod 256; l / 256; 0x00]
  | None => []
  end.

(** The bytes of a stream without frames: header, logical screen
    descriptor, global colour table, looping extension. *)
Definition screen_bytes (w h : Z) (o : WriterOptions) : list Z :=
  header_bytes ++ descriptor_bytes w h o
  ++ match palette o with Some pal => palette_bytes pal | None => [] end
  ++ loop_bytes o.

Lemma screen_bytes_length w h o :
  Z.of_nat (length (screen_bytes w h o))
  = 13 + match palette o with Some pal => 3 * Z.of_nat (length pal) | None => 0 end
    + match loop o with Some _ => 19 | None => 0 end.
Proof.
  unfold screen_bytes, loop_bytes. rewrite !length_app.
  destruct (palette o) as [pal|]; destruct (loop o); simpl;
    rewrite ?palette_bytes_length; lia.
Qed.

Lemma packed_fields_pow2 n :
  n ∈ pow2_sizes → JS.or 0x80 (log2_by_shifts n - 1) = 127 + Z.log2 n.
Proof.
  intros H. unfold pow2_sizes in H.
  repeat (apply elem_of_cons in H as [->|H]; [by vm_compute|]).
  by apply elem_of_nil in H.
Qed.

Lemma global_table_fields_invalid o pal st :
  palette o = Some pal → Z.of_nat (length pal) ∉ pow2_sizes →
  global_table_fields o st = (st, Throw InvalidColorLength).
Proof.
  intros Hp Hn. unfold global_table_fields. rewrite Hp, bind_eq.
  destruct (check_palette_and_num_colors pal st) as [st1 [n|e]] eqn:E.
  - apply check_palette_Return in E as (_ & -> & ?). done.
  - by apply check_palette_Throw in E as (-> & ->).
Qed.

Lemma global_table_fields_plain o pal st :
  palette o = Some pal → background o = None →
  Z.of_nat (length pal) ∈ pow2_sizes →
  global_table_fields o st
  = (st, Return (log2_by_shifts (Z.of_nat (length pal)) - 1, 0)).
Proof.
  intros Hp Hb Hn. unfold global_table_fields. rewrite Hp, Hb.
  by rewrite bind_eq, check_palette_valid.
Qed.

(** The part of the constructor after the checks of the palette and the
    background. *)
Definition write_screen (w h : Z) (o : WriterOptions) (a b : Z) : M unit :=
  put_byte (JS.and w 0xFF);;
  put_byte (JS.and (JS.shr w 8) 0xFF);;
  put_byte (JS.and h 0xFF);;
  put_byte (JS.and (JS.shr h 8) 0xFF);;
  put_byte (JS.or (match palette o with Some _ => 0x80 | None => 0 end) a);;
  put_byte b;;
  put_byte 0;;
  match palette o with
  | Some gp => write_color_table gp
  | None => mret tt
  end;;
  netscape_block (loop o).

Lemma after_header_write_screen w h o st :
  after_header w h o st =
  match global_table_fields o st with
  | (st1, Return (a, b)) => write_screen w h o a b st1
  | (st1, Throw e) => (st1, Throw e)
  end.
Proof.
  unfold after_header. rewrite bind_eq.
  by destruct (global_table_fields o st) as [st1 [[a b]|e]].
Qed.

Lemma write_screen_eq w h o a b st :
  0 ≤ w ≤ 65535 → 0 ≤ h ≤ 65535 →
  JS.or (match palette o with Some _ => 0x80 | None => 0 end) a
  = match palette o with
    | Some pal => 127 + Z.log2 (Z.of_nat (length pal))
    | None => 0
    end →
  b = match palette o, background o with Some _, Some bg => bg | _, _ => 0 end →
  write_screen w h o a b st =
  match loop o with
  | Some l =>
      if (l <? 0) || (65535 <? l)
      then ((put_bytes (descriptor_bytes w h o
                        ++ match palette o with
                           | Some pal => palette_bytes pal
                           | None => []
                           end) st).1, Throw LoopCountInvalid)
      else put_bytes (descriptor_bytes w h o
                      ++ match palette o with
                         | Some pal => palette_bytes pal
                         | None => []
                         end ++ loop_bytes o) st
  | None =>
      put_bytes (descriptor_bytes w h o
                 ++ match palette o with
                    | Some pal => palette_bytes pal
                    | None => []
                    end ++ loop_bytes o) st
  end.
Proof.
  intros Hw Hh Hpacked Hb. unfold write_screen.
  rewrite Hpacked, (high_byte w), (high_byte h), !low_byte by lia.
  change (put_byte (w mod 256);; put_byte (w / 256);; put_byte (h mod 256);;
          put_byte (h / 256);;
          put_byte (match palette o with
                    | Some pal => 127 + Z.log2 (Z.of_nat (length pal))
                    | None => 0
                    end);;
          put_byte b;; put_byte 0;;
          match palette o with
          | Some gp => write_color_table gp
          | None => mret tt
          end;; netscape_block (loop o))
    with (put_byte (w mod 256);; put_byte (w / 256);; put_byte (h mod 256);;
          put_byte (h / 256);;
          put_byte (match palette o with
                    | Some pal => 127 + Z.log2 (Z.of_nat (length pal))
                    | None => 0
                    end);;
          put_byte b;; put_byte 0;;
          (match palette o with
           | Some gp => write_color_table gp
           | None => mret tt
           end;; netscape_block (loop o))).
  rewrite !put_byte_bind. cbn [buf p ended global_palette].
  set (st7 := Build_writer _ _ _ _).
  assert (put_bytes (descriptor_bytes w h o) st = (st7, Return tt)) as Hd.
  { rewrite put_bytes_eq. unfold st7, descriptor_bytes. rewrite <- Hb.
    cbn [store_bytes length]. do 2 f_equal. lia. }
  assert (∀ rest, put_bytes (descriptor_bytes w h o ++ rest) st = put_bytes rest st7)
    as Happ.
  { intros rest. rewrite <- put_bytes_app, bind_eq, Hd. done. }
  rewrite bind_eq.
  assert (match palette o with
          | Some gp => write_color_table gp
          | None => mret tt
          end st7
          = put_bytes match palette o with
                      | Some pal => palette_bytes pal
                      | None => []
                      end st7) as ->.
  { destruct (palette o); [apply write_color_table_eq|done]. }
  set (pb := match palette o with Some pal => palette_bytes pal | None => [] end).
  rewrite !Happ. rewrite (put_bytes_eq pb). unfold netscape_block, loop_bytes.
  destruct (loop o) as [l|].
  - rewrite bind_eq, throw_if_eq.
    destruct ((l <? 0) || (65535 <? l)) eqn:El; [done|].
    apply orb_false_iff in El as [H1 H2].
    rewrite (high_byte l), low_byte by lia.
    rewrite <- put_bytes_app, bind_eq, (put_bytes_eq pb). done.
  - rewrite app_nil_r, (put_bytes_eq pb). done.
Qed.

(** The constructor returns on the valid arguments and on no others, and
    then it has stored the bytes of [screen_bytes] from 0 on. *)
Lemma GifWriter_Return buf0 w h o st :
  GifWriter buf0 w h o = (st, Return tt)
  ↔ valid_screen w h o
    ∧ st = Build_writer (store_bytes buf0 0 (screen_bytes w h o))
                        (Z.of_nat (length (screen_bytes w h o))) false (palette o).
Proof.
  rewrite GifWriter_unfold. unfold valid_screen.
  destruct (dims_invalid w h) eqn:Hdims.
  { split; [done|]. intros [(Hw & Hh & _) _].
    unfold dims_invalid in Hdims. lia. }
  assert (0 < w ≤ 65535 ∧ 0 < h ≤ 65535) as [Hw Hh]
    by (unfold dims_invalid in Hdims; lia).
  set (st6 := Build_writer (store_bytes buf0 0 header_bytes) 6 false (palette o)).
  assert (∀ rest,
            put_bytes rest st6
            = (Build_writer (store_bytes buf0 0 (header_bytes ++ rest))
                 (Z.of_nat (length (header_bytes ++ rest))) false (palette o),
               Return tt)) as Hput.
  { intros rest. rewrite put_bytes_eq, store_bytes_app, length_app. simpl.
    do 2 f_equal. lia. }
  rewrite after_header_write_screen.
  assert (Hgo : ∀ a b,
    JS.or (match palette o with Some _ => 0x80 | None => 0 end) a
    = match palette o with
      | Some pal => 127 + Z.log2 (Z.of_nat (length pal))
      | None => 0
      end →
    b = match palette o, background o with Some _, Some bg => bg | _, _ => 0 end →
    write_screen w h o a b st6 = (st, Return tt)
    ↔ (∀ l, loop o = Some l → 0 ≤ l ≤ 65535)
      ∧ st = Build_writer (store_bytes buf0 0 (screen_bytes w h o))
               (Z.of_nat (length (screen_bytes w h o))) false (palette o)).
  { intros a b Ha Hb. rewrite (write_screen_eq w h o a b st6) by (done || lia).
    unfold screen_bytes.
    destruct (loop o) as [l|] eqn:Hl.
    - destruct ((l <? 0) || (65535 <? l)) eqn:El.
      + split; [done|]. intros [Hr _]. specialize (Hr l eq_refl). lia.
      + rewrite Hput. split.
        * intros ?. simplify_eq. split; [|done]. intros l' ?. simplify_eq. lia.
        * intros [_ ->]. done.
    - rewrite Hput. split.
      + intros ?. simplify_eq. split; [|done]. intros l' ?. simplify_eq.
      + intros [_ ->]. done. }
  destruct (palette o) as [pal|] eqn:Hp.
  - destruct (decide (Z.of_nat (length pal) ∈ pow2_sizes)) as [Hn|Hn].
    + destruct (background o) as [bg|] eqn:Hb.
      * rewrite (global_table_fields_background o pal bg) by done.
        destruct (Z.leb_spec (Z.of_nat (length pal)) bg).
        { split; [done|]. intros [(_ & _ & Hpal & _) _].
          destruct (Hpal pal eq_refl) as [_ Hbg]. specialize (Hbg bg eq_refl). lia. }
        destruct (Z.eqb_spec bg 0).
        { split; [done|]. intros [(_ & _ & Hpal & _) _].
          destruct (Hpal pal eq_refl) as [_ Hbg]. specialize (Hbg bg eq_refl). lia. }
        rewrite Hgo; [|by apply packed_fields_pow2|done].
        split.
        -- intros [Hl ->]. split; [|done]. split; [done|]. split; [done|]. split; [|done].
           intros pal' ?. simplify_eq. split; [done|]. intros bg' ?. simplify_eq. lia.
        -- intros [(_ & _ & _ & Hl) ->]. done.
      * rewrite (global_table_fields_plain o pal) by done.
        rewrite Hgo; [|by apply packed_fields_pow2|done].
        split.
        -- intros [Hl ->]. split; [|done]. split; [done|]. split; [done|]. split; [|done].
           intros pal' ?. simplify_eq. split; [done|]. intros bg' ?. simplify_eq.
        -- intros [(_ & _ & _ & Hl) ->]. done.
    + rewrite (global_table_fields_invalid o pal) by done.
      split; [done|]. intros [(_ & _ & Hpal & _) _].
      by destruct (Hpal pal eq_refl) as [? _].
  - rewrite global_table_fields_no_palette by done.
    rewrite Hgo; [|by vm_compute|done].
    split.
    + intros [Hl ->]. split; [|done]. split; [done|]. split; [done|]. split; [|done].
      intros pal' ?. simplify_eq.
    + intros [(_ & _ & _ & Hl) ->]. done.
Qed.

(** ** A frame *)

(** What [addFrame] has checked when its checks are passed. *)
Lemma validate_inv gp x y w h npixels opts pl :
  validate gp x y w h npixels opts = Return pl →
  0 ≤ x ≤ 65535 ∧ 0 ≤ y ≤ 65535 ∧ 0 < w ≤ 65535 ∧ 0 < h ≤ 65535
  ∧ w * h ≤ Z.of_nat npixels
  ∧ ∃ pal, effective_palette gp opts = Some pal
      ∧ Z.of_nat (length pal) ∈ pow2_sizes
      ∧ 0 ≤ default 0 (disposal opts) ≤ 3
      ∧ (∀ t, transparent opts = Some t → 0 ≤ t < Z.of_nat (length pal))
      ∧ pl = Plan (bool_decide (is_Some (frame_palette opts))) pal
                  (log2_by_shifts (Z.of_nat (length pal)))
                  (default 0 (disposal opts)) (default 0 (delay opts))
                  (bool_decide (is_Some (transparent opts)))
                  (default 0 (transparent opts)).
Proof.
  unfold validate.
  destruct (xy_invalid x y) eqn:Hxy; [done|].
  destruct (dims_invalid w h) eqn:Hwh; [done|].
  destruct (Z.ltb_spec (Z.of_nat npixels) (w * h)); [done|].
  destruct (effective_palette gp opts) as [pal|]; [|done].
  destruct (palette_size_ok (Z.of_nat (length pal))) eqn:Hsz; [|done].
  apply palette_size_ok_spec in Hsz. cbn [negb].
  destruct (disposal_invalid _) eqn:Hd; [done|].
  unfold xy_invalid in Hxy. unfold dims_invalid in Hwh. unfold disposal_invalid in Hd.
  destruct (log2_by_shifts_pow2 _ Hsz) as (Hs & _ & _).
  intros Hpl. split_and!; try lia.
  exists pal. split; [done|]. split; [done|]. split; [lia|].
  destruct (transparent opts) as [t|].
  - rewrite Hs in Hpl.
    destruct (Z.ltb_spec t 0); [done|].
    destruct (Z.leb_spec (Z.of_nat (length pal)) t); [done|].
    simpl in Hpl. simplify_eq. split; [|done]. intros t' ?. simplify_eq. lia.
  - simplify_eq. split; [|done]. intros t' ?. simplify_eq.
Qed.

Definition gce_bytes (pl : plan) : list Z :=
  if negb (plan_disposal pl =? 0) || use_transparency pl || negb (plan_delay pl =? 0)
  then [0x21; 0xF9; 4;
        JS.or (JS.shl (plan_disposal pl) 2) (if use_transparency pl then 1 else 0);
        JS.and (plan_delay pl) 0xFF; JS.and (JS.shr (plan_delay pl) 8) 0xFF;
        transparent_index pl;
        0]
  else [].

Definition image_bytes (x y w h : Z) (pl : plan) : list Z :=
  [0x2C;
   JS.and x 0xFF; JS.and (JS.shr x 8) 0xFF;
   JS.and y 0xFF; JS.and (JS.shr y 8) 0xFF;
   JS.and w 0xFF; JS.and (JS.shr w 8) 0xFF;
   JS.and h 0xFF; JS.and (JS.shr h 8) 0xFF;
   if using_local_palette pl then JS.or 0x80 (min_code_size pl - 1) else 0].

(** The bytes of a frame before its code stream. *)
Definition frame_head (x y w h : Z) (pl : plan) : list Z :=
  gce_bytes pl ++ image_bytes x y w h pl
  ++ (if using_local_palette pl then palette_bytes (plan_palette pl) else []).

(** A frame is its head, stored at the cursor, and the code stream that the
    encoder puts behind it. *)
Lemma write_frame_eq x y w h idx pl st :
  write_frame x y w h idx pl st =
  let head := frame_head x y w h pl in
  let r := Encoder.GifWriterOutputLZWCodeStream
             (store_bytes (buf st) (p st) head) (p st + Z.of_nat (length head))
             (if min_code_size pl <? 2 then 2 else min_code_size pl) idx in
  (Build_writer r.1 r.2 (ended st) (global_palette st), Return r.2).
Proof.
  unfold write_frame.
  assert (∀ (k : M Z),
            (graphics_control_extension (plan_disposal pl) (plan_delay pl)
               (use_transparency pl) (transparent_index pl);;
             image_descriptor x y w h (using_local_palette pl) (min_code_size pl);;
             (if using_local_palette pl then write_color_table (plan_palette pl)
              else mret tt);; k) st
            = k (Build_writer (store_bytes (buf st) (p st) (frame_head x y w h pl))
                              (p st + Z.of_nat (length (frame_head x y w h pl)))
                              (ended st) (global_palette st))) as ->.
  { intros k. rewrite bind_eq.
    assert (graphics_control_extension (plan_disposal pl) (plan_delay pl)
              (use_transparency pl) (transparent_index pl) st
            = put_bytes (gce_bytes pl) st) as ->.
    { unfold graphics_control_extension, gce_bytes. by destruct (_ || _ || _). }
    rewrite put_bytes_eq, bind_eq.
    change (image_descriptor x y w h (using_local_palette pl) (min_code_size pl))
      with (put_bytes (image_bytes x y w h pl)).
    rewrite put_bytes_eq, bind_eq. cbn [buf p ended global_palette].
    assert (∀ s, (if using_local_palette pl then write_color_table (plan_palette pl)
                  else mret tt) s
                 = put_bytes (if using_local_palette pl
                              then palette_bytes (plan_palette pl) else []) s) as ->.
    { intros s. destruct (using_local_palette pl); [apply write_color_table_eq|done]. }
    rewrite put_bytes_eq. cbn [buf p ended global_palette].
    unfold frame_head. rewrite !store_bytes_app, !length_app.
    do 2 f_equal. lia. }
  rewrite bind_eq. unfold output_lzw. cbn [buf p ended global_palette].
  by destruct (Encoder.GifWriterOutputLZWCodeStream _ _ _ _) as [b1 p1].
Qed.

End WriterLayout.


(** * Where the decoder writes *)

Module DecoderBounds.
Import Decoder.

#[local] Arguments JS.and : simpl never.
#[local] Arguments JS.or : simpl never.
#[local] Arguments JS.shl : simpl never.
#[local] Arguments JS.shr : simpl never.
#[local] Arguments buf_set : simpl never.
#[local] Arguments buf_get : simpl never.

(** [out'] has the length of [out] and differs from it between [lo] and
    [hi] at most, both included. *)
Definition changed_within (lo hi : Z) (out out' : list Z) : Prop :=
  length out' = length out
  ∧ ∀ z, z < lo ∨ hi < z → buf_get out' z = buf_get out z.

Lemma changed_refl lo hi out : changed_within lo hi out out.
Proof. by split. Qed.

Lemma changed_trans lo hi out1 out2 out3 :
  changed_within lo hi out1 out2 → changed_within lo hi out2 out3 →
  changed_within lo hi out1 out3.
Proof.
  intros [Hl1 Hz1] [Hl2 Hz2]. split; [congruence|].
  intros z Hz. rewrite Hz2 by done. by apply Hz1.
Qed.

Lemma changed_weaken lo hi lo' hi' out out' :
  lo' ≤ lo → hi ≤ hi' → changed_within lo hi out out' →
  changed_within lo' hi' out out'.
Proof. intros ? ? [Hl Hz]. split; [done|]. intros z Hz'. apply Hz. lia. Qed.

Lemma changed_set lo hi out i v :
  lo ≤ i ≤ hi → changed_within lo hi out (buf_set out i v).
Proof.
  intros Hi. split; [apply buf_set_length|].
  intros z Hz. apply buf_get_set_ne. lia.
Qed.

Lemma chase_length_loop_le fuel clear_code t : ∀ chase len k len',
  chase_length_loop fuel clear_code t chase len = Some (k, len') → len ≤ len'.
Proof.
  induction fuel as [|fuel IH]; intros chase len k len' H; simpl in H; [done|].
  destruct (clear_code <? num chase).
  - apply IH in H. lia.
  - simplify_eq. lia.
Qed.

(** The second chase writes the [n] places below [b]. *)
Lemma write_back_loop_within n t : ∀ chase b out,
  changed_within (b - Z.of_nat n) (b - 1) out (write_back_loop n t chase b out).
Proof.
  induction n as [|n IH]; intros chase b out; simpl write_back_loop.
  - apply changed_refl.
  - eapply changed_trans.
    + apply (changed_set _ _ out (b - 1)). lia.
    + eapply changed_weaken; [| |apply IH]; lia.
Qed.

(** A string is written from [op] on and not beyond [output_length]. *)
Lemma emit_string_within m total code b d op out b' d' op' out' :
  emit_string m total code b d op out = Continue b' d' op' out' →
  op < op' ≤ total + 1 ∧ changed_within op total out out'.
Proof.
  unfold emit_string.
  destruct (chase_length_loop _ _ _ _ _) as [[k len]|] eqn:Hchase; [|done].
  apply chase_length_loop_le in Hchase.
  set (chase_code := if code <? next_code d then Some code else prev_code d).
  set (extra := negb (bool_decide (chase_code = Some code))).
  destruct (Z.ltb_spec total (op + len + (if extra then 1 else 0))) as [|Hle]; [done|].
  intros H.
  assert (op' = (if extra then op + 1 + len + 1 else op + 1 + len)
          ∧ out' = write_back_loop (Z.to_nat len) (code_table d) chase_code
                     (op + 1 + len)
                     (if extra then buf_set (buf_set out op (num k)) (op + 1 + len) (num k)
                      else buf_set out op (num k))) as [-> ->].
  { destruct (prev_code d); [destruct (next_code d <? 4096);
      [destruct (_ && _)|]|]; by simplify_eq. }
  split; [destruct extra; lia|].
  eapply changed_trans; [|eapply changed_weaken; [| |apply write_back_loop_within]];
    [|lia|destruct extra; lia].
  destruct extra.
  - eapply changed_trans; apply changed_set; lia.
  - apply changed_set. lia.
Qed.

Lemma body_within code_stream m total b d op out b' d' op' out' :
  body code_stream m total b d op out = Continue b' d' op' out' →
  op ≤ op' ∧ (op' ≤ total + 1 ∨ op' = op) ∧ changed_within op total out out'.
Proof.
  unfold body. destruct (_ <? cur_code_size d); [done|].
  destruct (_ =? clear_code m).
  - intros H. simplify_eq. split; [lia|]. split; [by right|apply changed_refl].
  - destruct (_ =? eoi_code m); [done|].
    intros H. apply emit_string_within in H as [? ?]. split; [lia|]. split; [left; lia|done].
Qed.

Lemma body_Break code_stream m total b d op out op' out' :
  body code_stream m total b d op out = Break op' out' → out' = out.
Proof.
  unfold body. destruct (_ <? cur_code_size d); [by intros; simplify_eq|].
  destruct (_ =? clear_code m); [done|].
  destruct (_ =? eoi_code m); [by intros; simplify_eq|].
  unfold emit_string. destruct (chase_length_loop _ _ _ _ _) as [[k len]|]; [|done].
  by destruct (_ <? _).
Qed.

Lemma body_ReturnVoid code_stream m total b d op out out' :
  body code_stream m total b d op out = ReturnVoid out' → out' = out.
Proof.
  unfold body. destruct (_ <? cur_code_size d); [done|].
  destruct (_ =? clear_code m); [done|].
  destruct (_ =? eoi_code m); [done|].
  unfold emit_string. destruct (chase_length_loop _ _ _ _ _) as [[k len]|]; [|done].
  destruct (_ <? _); [by intros; simplify_eq|done].
Qed.

Lemma loop_within code_stream m total fuel : ∀ b d op out out' w,
  0 ≤ op →
  loop code_stream m total fuel b d op out = Some (out', w) →
  changed_within 0 total out out'.
Proof.
  induction fuel as [|fuel IH]; intros b d op out out' w Hop H; [done|].
  cbn [loop] in H.
  destruct (body code_stream m total b d op out) as [b1 d1 op1 out1|op1 out1|out1|]
    eqn:Hbody; [| | |done].
  - apply body_within in Hbody as (Hle & _ & Hch).
    eapply changed_trans; [eapply changed_weaken; [| |exact Hch]; lia|].
    eapply IH; [|exact H]. lia.
  - apply body_Break in Hbody as ->. simplify_eq. apply changed_refl.
  - apply body_ReturnVoid in Hbody as ->. simplify_eq. apply changed_refl.
Qed.

(** The call without a code size: zeros from [op] up to [output_length]. *)
Lemma nan_loop_within fuel output_length : ∀ op out out' w,
  0 ≤ op →
  nan_loop fuel output_length op out = Some (out', w) →
  changed_within 0 output_length out out'.
Proof.
  induction fuel as [|fuel IH]; intros op out out' w Hop H; simpl in H; [done|].
  destruct (Z.ltb_spec output_length op).
  - simplify_eq. apply changed_refl.
  - apply IH in H; [|lia].
    eapply changed_trans; [|exact H]. apply changed_set. lia.
Qed.

Lemma nan_loop_zeros fuel output_length : ∀ op out,
  0 ≤ op →
  (Z.to_nat (output_length + 1 - op) < fuel)%nat →
  ∃ out',
    nan_loop fuel output_length op out = Some (out', Some StreamLonger)
    ∧ length out' = length out
    ∧ (∀ i, op ≤ i ≤ output_length → i < Z.of_nat (length out) →
            buf_get out' i = Some 0)
    ∧ (∀ i, i < op ∨ output_length < i → buf_get out' i = buf_get out i).
Proof.
  induction fuel as [|fuel IH]; intros op out Hop Hfuel; [lia|]. simpl.
  destruct (Z.ltb_spec output_length op).
  - exists out. split_and!; [done|done| |done]. intros i Hi. lia.
  - destruct (IH (op + 1) (buf_set out op 0)) as (out' & Hr & Hl & Hz & Hs);
      [lia|lia|].
    exists out'. rewrite buf_set_length in *. split_and!; [done|done| |].
    + intros i Hi Hlen. destruct (decide (i = op)) as [->|Hne].
      * rewrite Hs by lia. rewrite buf_get_set_eq by lia. done.
      * apply Hz; [lia|done].
    + intros i Hi. rewrite Hs by lia. apply buf_get_set_ne. lia.
Qed.

(** Whatever the stream is, a call of the decoder that returns has kept the
    length of [output] and has written to the places [0 .. output_length]
    at most. *)
Lemma decoder_within fuel code_stream p0 output output_length out' w :
  readerLZWOutputIndexStream fuel code_stream p0 output output_length = Some (out', w) →
  changed_within 0 output_length output out'.
Proof.
  unfold readerLZWOutputIndexStream.
  destruct (buf_get code_stream p0) as [m|].
  - apply loop_within. lia.
  - apply nan_loop_within. lia.
Qed.

End DecoderBounds.


(** * What the parser makes of a buffer *)

Module ParserFacts.
Import Reader ReaderFacts.

#[local] Arguments JS.and : simpl never.
#[local] Arguments JS.or : simpl never.
#[local] Arguments JS.shl : simpl never.
#[local] Arguments JS.shr : simpl never.
#[local] Arguments buf_get : simpl never.

(** ** The first block *)

(** Where the block loop starts, and the global palette, as the constructor
    takes them from the packed fields at 10. *)
Definition global_palette_size (buf : list Z) : option Z :=
  let pf0 := num (buf_get buf 10) in
  if JS.truthy (JS.shr pf0 7) then Some (JS.shl 1 (JS.and pf0 0x7 + 1)) else None.

Definition first_block (buf : list Z) : Z :=
  match global_palette_size buf with
  | Some n => 12 + n * 3
  | None => 12
  end.

Definition global_palette_offset (buf : list Z) : option Z :=
  match global_palette_size buf with
  | Some _ => Some 12
  | None => None
  end.

Lemma Reader_blocks buf :
  header_ok buf = true →
  Reader buf =
  match blocks buf (scan_fuel buf) (global_palette_offset buf) (global_palette_size buf)
               (Parse (first_block buf) true 0 None 0 [] None) with
  | Some (Return st) =>
      Some (Return {| frames := ps_frames st;
                      canvas_width := u16 buf 6;
                      canvas_height := u16 buf 8;
                      loop_count := ps_loop_count st;
                      buffer := buf |})
  | Some (Throw e) => Some (Throw e)
  | None => None
  end.
Proof.
  intros Hh. unfold Reader, first_block, global_palette_offset, global_palette_size.
  rewrite Hh. cbn [negb]. cbv zeta. by destruct (JS.truthy _).
Qed.

(** A first byte that is no block tag. *)
Lemma Reader_unknown_block buf t :
  header_ok buf = true →
  buf_get buf (first_block buf) = Some t → t ∉ [0x21; 0x2C; 0x3B] →
  Reader buf = Some (Throw (UnknownGifBlock (Some t))).
Proof.
  intros Hh Ht Hne. rewrite Reader_blocks by done.
  unfold scan_fuel. cbn [blocks ps_no_eof ps_p andb].
  pose proof (buf_get_Some_lt _ _ _ Ht) as Hlt.
  destruct (Z.ltb_spec (first_block buf) (Z.of_nat (length buf))); [|lia].
  unfold block. cbn [ps_p]. rewrite Ht.
  assert (t ≠ 0x21 ∧ t ≠ 0x2C ∧ t ≠ 0x3B) as (H1 & H2 & H3).
  { rewrite !elem_of_cons in Hne. split_and!; intros ->; apply Hne; tauto. }
  clear Hne Hh Ht Hlt.
  repeat case_match; simplify_eq; done.
Qed.

(** A trailer in the first place: no frames. *)
Lemma Reader_trailer_first buf :
  header_ok buf = true →
  buf_get buf (first_block buf) = Some 0x3B →
  Reader buf = Some (Return {| frames := [];
                               canvas_width := u16 buf 6;
                               canvas_height := u16 buf 8;
                               loop_count := None;
                               buffer := buf |}).
Proof.
  intros Hh Ht. rewrite Reader_blocks by done.
  pose proof (buf_get_Some_lt _ _ _ Ht) as Hlt.
  unfold scan_fuel. cbn [blocks ps_no_eof ps_p andb].
  destruct (Z.ltb_spec (first_block buf) (Z.of_nat (length buf))); [|lia].
  unfold block. cbn [ps_p]. rewrite Ht.
  destruct (length buf) as [|n] eqn:Hl; [simpl in Hlt; unfold first_block in *;
    destruct (global_palette_size buf); lia|].
  by cbn [blocks ps_no_eof andb].
Qed.

(** ** The frames *)

Lemma skip_subblocks_Return buf fuel : ∀ p q,
  0 ≤ p → skip_subblocks buf fuel p = Some (Return q) →
  p < q ≤ Z.of_nat (length buf).
Proof.
  induction fuel as [|fuel IH]; intros p q Hp H; [done|]. simpl in H.
  destruct (buf_get buf p) as [b|] eqn:Hb; [|done].
  apply buf_get_Some_lt in Hb.
  destruct (Z.leb_spec 0 b); simpl in H; [|done].
  destruct (Z.eqb_spec b 0).
  - simplify_eq. lia.
  - apply IH in H; lia.
Qed.

Lemma u16_range buf i : Forall is_byte buf → 0 ≤ u16 buf i ≤ 65535.
Proof.
  intros Hb. unfold u16.
  assert (∀ j, 0 ≤ num (buf_get buf j) < 256) as Hnum.
  { intros j. unfold num. destruct (buf_get buf j) as [v|] eqn:E; simpl; [|lia].
    unfold buf_get in E. destruct (j <? 0); [done|].
    rewrite Forall_forall in Hb. apply (Hb v). by eapply list_elem_of_lookup_2. }
  pose proof (Hnum i). pose proof (Hnum (i + 1)).
  rewrite JSFacts.shl_small by lia.
  rewrite (JSFacts.or_add_disjoint (num (buf_get buf i)) (num (buf_get buf (i + 1))) 8)
    by (change (2 ^ 8) with 256; lia).
  change (2 ^ 8) with 256. lia.
Qed.

(** What holds of every frame that the constructor makes: its data lie
    inside the buffer behind the first block, and its palette is the global
    one or, for a frame with a local palette, begins where its data are
    said to begin. *)
Definition frame_ok (buf : list Z) (f : Frame) : Prop :=
  first_block buf + 10 ≤ data_offset f
  ∧ 2 ≤ data_length f
  ∧ data_offset f + data_length f ≤ Z.of_nat (length buf)
  ∧ palette_offset f = (if has_local_palette f then Some (data_offset f)
                        else global_palette_offset buf)
  ∧ palette_size f = (if has_local_palette f
                      then Some (JS.shl 1 (JS.and (num (buf_get buf (data_offset f - 1))) 0x7 + 1))
                      else global_palette_size buf).

Lemma image_descriptor_frames buf st p st1 :
  first_block buf < p →
  12 ≤ first_block buf →
  image_descriptor buf (global_palette_offset buf) (global_palette_size buf) st p
  = Some (Return st1) →
  p < ps_p st1 ∧ ps_no_eof st1 = ps_no_eof st
  ∧ ∃ f, ps_frames st1 = ps_frames st ++ [f] ∧ frame_ok buf f.
Proof.
  intros Hp H12. unfold image_descriptor.
  set (nlc := JS.shl 1 _). assert (0 < nlc) by apply num_colors_pos.
  destruct (JS.truthy _) eqn:Hflag.
  - destruct (skip_subblocks _ _ _) as [[q|e]|] eqn:Hs; [|done..].
    apply skip_subblocks_Return in Hs; [|lia].
    intros ?. simplify_eq. simpl. split; [lia|]. split; [done|].
    eexists. split; [done|]. unfold frame_ok. simpl.
    replace (p + 9 - 1) with (p + 8) by lia.
    split_and!; [lia|lia|lia|done|done].
  - destruct (skip_subblocks _ _ _) as [[q|e]|] eqn:Hs; [|done..].
    apply skip_subblocks_Return in Hs; [|lia].
    intros ?. simplify_eq. simpl. split; [lia|]. split; [done|].
    eexists. split; [done|]. unfold frame_ok. simpl.
    split_and!; [lia|lia|lia|done|done].
Qed.

Lemma block_frames buf st st1 :
  first_block buf ≤ ps_p st → 12 ≤ first_block buf →
  Forall (frame_ok buf) (ps_frames st) →
  block buf (global_palette_offset buf) (global_palette_size buf) st = Some (Return st1) →
  Forall (frame_ok buf) (ps_frames st1).
Proof.
  intros Hp H12 Hall. unfold block.
  assert (Hskip : ∀ q, skip_to st (skip_subblocks buf (scan_fuel buf) q)
                       = Some (Return st1) →
                       Forall (frame_ok buf) (ps_frames st1)).
  { intros q Hq. unfold skip_to in Hq.
    destruct (skip_subblocks _ _ _) as [[?|?]|]; by simplify_eq. }
  repeat case_match; try done; try apply Hskip.
  all: lazymatch goal with
       | |- context [application_extension] =>
           unfold application_extension; case_match; [|apply Hskip];
           intros ?; by simplify_eq
       | |- context [graphics_control_extension] =>
           unfold graphics_control_extension; case_match; [done|];
           intros ?; by simplify_eq
       | |- context [image_descriptor] => idtac
       | |- _ => intros ?; by simplify_eq
       end.
  intros Hd. apply image_descriptor_frames in Hd as (_ & _ & f & -> & Hf); [|lia|done].
  apply Forall_app. split; [done|]. by constructor.
Qed.

Lemma blocks_frames buf fuel : ∀ st st1,
  first_block buf ≤ ps_p st → 12 ≤ first_block buf →
  Forall (frame_ok buf) (ps_frames st) →
  blocks buf fuel (global_palette_offset buf) (global_palette_size buf) st
  = Some (Return st1) →
  Forall (frame_ok buf) (ps_frames st1).
Proof.
  induction fuel as [|fuel IH]; intros st st1 Hp H12 Hall H; [done|].
  simpl in H. destruct (_ && _); [|by simplify_eq].
  destruct (block buf _ _ st) as [[st2|e]|] eqn:Hb; [|done..].
  destruct (block_total buf (global_palette_offset buf) (global_palette_size buf) st
              ltac:(lia)) as (r & Hr & Hmono).
  rewrite Hb in Hr. simplify_eq. specialize (Hmono st2 eq_refl).
  eapply IH; [| |by eapply block_frames|exact H]; lia.
Qed.

Lemma first_block_ge buf : 12 ≤ first_block buf.
Proof.
  unfold first_block, global_palette_size. destruct (JS.truthy _); [|lia].
  pose proof (num_colors_pos (num (buf_get buf 10))). lia.
Qed.

Lemma Reader_frames buf r :
  Reader buf = Some (Return r) →
  buffer r = buf ∧ Forall (frame_ok buf) (frames r).
Proof.
  intros H. destruct (header_ok buf) eqn:Hh;
    [|by apply Reader_InvalidHeader in Hh; rewrite Hh in H].
  rewrite Reader_blocks in H by done.
  destruct (blocks _ _ _ _ _) as [[st|e]|] eqn:Hb; [|done..].
  simplify_eq. simpl. split; [done|].
  eapply blocks_frames; [| | |exact Hb]; [simpl; lia|apply first_block_ge|by constructor].
Qed.

End ParserFacts.


(** * The reader on what the writer has written *)

Module ReadBack.
Import Writer WriterFacts WriterLayout ReaderFacts ParserFacts EncoderFacts.

#[local] Arguments JS.and : simpl never.
#[local] Arguments JS.or : simpl never.
#[local] Arguments JS.shl : simpl never.
#[local] Arguments JS.shr : simpl never.
#[local] Arguments buf_set : simpl never.
#[local] Arguments buf_get : simpl never.

(** ** The whole stream *)

(** The byte that the reader takes for the tag of the first block: the
    logical screen descriptor has seven bytes and the reader steps over six,
    so it is the last byte of what comes before the first block. *)
Definition first_tag (o : WriterOptions) : Z :=
  match palette o with
  | Some pal => default 0 (last pal) mod 256
  | None => 0
  end.

Lemma header_ok_stored buf :
  buf_get buf 0 = Some 0x47 → buf_get buf 1 = Some 0x49 → buf_get buf 2 = Some 0x46 →
  buf_get buf 3 = Some 0x38 → buf_get buf 4 = Some 0x39 → buf_get buf 5 = Some 0x61 →
  Reader.header_ok buf = true.
Proof.
  intros H0 H1 H2 H3 H4 H5. unfold Reader.header_ok, Reader.byte_is.
  rewrite H0, H1, H2, H3, H4, H5. by vm_compute.
Qed.

Lemma palette_bytes_last pal rgb :
  last pal = Some rgb →
  palette_bytes pal !! (3 * length pal - 1)%nat = Some (rgb mod 256).
Proof.
  unfold palette_bytes. induction pal as [|c pal IH]; [done|].
  destruct pal as [|c2 pal].
  - intros Hl. simpl in Hl. simplify_eq. cbn. rewrite low_byte. done.
  - intros Hl. cbn [map concat]. unfold color_bytes at 1.
    replace (3 * length (c :: c2 :: pal) - 1)%nat
      with (3 + (3 * length (c2 :: pal) - 1))%nat by (simpl; lia).
    cbn [app]. simpl lookup. apply IH. done.
Qed.

Lemma global_palette_size_pow2 buf n :
  n ∈ pow2_sizes → buf_get buf 10 = Some (127 + Z.log2 n) →
  global_palette_size buf = Some n.
Proof.
  intros Hn Hb. unfold global_palette_size. rewrite Hb. unfold pow2_sizes in Hn.
  repeat (apply elem_of_cons in Hn as [->|Hn]; [by vm_compute|]).
  by apply elem_of_nil in Hn.
Qed.

Lemma screen_bytes_lookup w h o (j : nat) :
  screen_bytes w h o !! j
  = if decide (j < 6)%nat then header_bytes !! j
    else if decide (j < 13)%nat then descriptor_bytes w h o !! (j - 6)%nat
    else (match palette o with Some pal => palette_bytes pal | None => [] end
          ++ loop_bytes o) !! (j - 13)%nat.
Proof.
  unfold screen_bytes.
  destruct (decide (j < 6)%nat); [by rewrite lookup_app_l by (simpl; lia)|].
  rewrite lookup_app_r by (simpl; lia). change (length header_bytes) with 6%nat.
  destruct (decide (j < 13)%nat); [by rewrite lookup_app_l by (simpl; lia)|].
  rewrite lookup_app_r by (simpl; lia). simpl length. f_equal. lia.
Qed.

(** What the reader finds in a buffer that begins with the bytes of the
    constructor. *)
Lemma screen_first_block buf w h o :
  valid_screen w h o →
  (∀ (j : nat) v, screen_bytes w h o !! j = Some v →
                  buf_get buf (Z.of_nat j) = Some (v mod 256)) →
  Reader.header_ok buf = true
  ∧ buf_get buf (first_block buf) = Some (first_tag o).
Proof.
  intros (Hw & Hh & Hpal & Hloop) Hbuf. split.
  - apply header_ok_stored.
    + exact (Hbuf 0%nat 0x47 eq_refl).
    + exact (Hbuf 1%nat 0x49 eq_refl).
    + exact (Hbuf 2%nat 0x46 eq_refl).
    + exact (Hbuf 3%nat 0x38 eq_refl).
    + exact (Hbuf 4%nat 0x39 eq_refl).
    + exact (Hbuf 5%nat 0x61 eq_refl).
  - unfold first_tag, first_block.
    destruct (palette o) as [pal|] eqn:Hp.
    + destruct (Hpal pal eq_refl) as [Hn _].
      assert (buf_get buf 10 = Some (127 + Z.log2 (Z.of_nat (length pal)))) as H10.
      { change (buf_get buf 10) with (buf_get buf (Z.of_nat 10)).
        rewrite (Hbuf 10%nat (127 + Z.log2 (Z.of_nat (length pal)))).
        - f_equal. apply Z.mod_small.
          unfold pow2_sizes in Hn.
          repeat (apply elem_of_cons in Hn as [->|Hn]; [by vm_compute|]).
          by apply elem_of_nil in Hn.
        - rewrite screen_bytes_lookup. simpl. unfold descriptor_bytes. by rewrite ?Hp. }
      rewrite (global_palette_size_pow2 buf _ Hn H10).
      assert (pal ≠ []) as Hne.
      { intros ->. simpl in Hn. unfold pow2_sizes in Hn.
        repeat (apply elem_of_cons in Hn as [Hn|Hn]; [done|]).
        by apply elem_of_nil in Hn. }
      destruct (last pal) as [rgb|] eqn:Hlast;
        [|by apply last_None in Hlast].
      simpl default.
      replace (12 + Z.of_nat (length pal) * 3)
        with (Z.of_nat (13 + (3 * length pal - 1))) by (destruct pal; [done|simpl; lia]).
      rewrite (Hbuf _ (rgb mod 256)); [by rewrite Z.mod_mod by lia|].
      rewrite screen_bytes_lookup.
      destruct (decide (_ < 6)%nat); [lia|]. destruct (decide (_ < 13)%nat); [lia|].
      rewrite ?Hp. rewrite lookup_app_l.
      * replace (13 + (3 * length pal - 1) - 13)%nat with (3 * length pal - 1)%nat by lia.
        by apply palette_bytes_last.
      * rewrite palette_bytes_length. destruct pal; [done|simpl; lia].
    + assert (buf_get buf 10 = Some 0) as H10.
      { change (buf_get buf 10) with (buf_get buf (Z.of_nat 10)).
        rewrite (Hbuf 10%nat 0); [done|].
        rewrite screen_bytes_lookup. simpl. unfold descriptor_bytes. by rewrite ?Hp. }
      unfold global_palette_size. rewrite H10.
      replace (JS.truthy (JS.shr (num (Some 0)) 7)) with false by (by vm_compute).
      change (buf_get buf 12) with (buf_get buf (Z.of_nat 12)).
      rewrite (Hbuf 12%nat 0); [done|].
      rewrite screen_bytes_lookup. simpl. unfold descriptor_bytes. by rewrite ?Hp.
Qed.

(** Whatever is added to a stream that the constructor has begun in a
    buffer with room for it, the reader takes the byte before the first
    block for a tag. *)
Lemma session_first_block buf0 w h o st0 st :
  GifWriter buf0 w h o = (st0, Return tt) →
  p st0 ≤ Z.of_nat (length buf0) →
  session st0 st →
  Reader.header_ok (buf st) = true
  ∧ buf_get (buf st) (first_block (buf st)) = Some (first_tag o).
Proof.
  intros Hc Hroom Hs. apply GifWriter_Return in Hc as [Hvalid ->].
  cbn [p] in Hroom.
  pose proof (λ H, session_keeps _ st H Hs) as Hkeep.
  destruct (Hkeep eq_refl) as (_ & _ & Hsame & _).
  cbn [p buf] in Hsame.
  apply (screen_first_block _ w h o Hvalid).
  intros j v Hj. pose proof (lookup_lt_Some _ _ _ Hj) as Hlt.
  rewrite Hsame by lia.
  rewrite <- (Z.add_0_l (Z.of_nat j)).
  apply store_bytes_inside; [lia|done|lia].
Qed.

(** ** Block by block *)

(** The buffer holds [bytes] from [q] on. *)
Definition stored_at (buf : list Z) (q : Z) (bytes : list Z) : Prop :=
  ∀ (j : nat) v, bytes !! j = Some v → buf_get buf (q + Z.of_nat j) = Some v.

Lemma stored_at_get buf q bytes (j : nat) v e :
  stored_at buf q bytes → bytes !! j = Some v → e = q + Z.of_nat j →
  buf_get buf e = Some v.
Proof. intros H Hj ->. by apply H. Qed.

Ltac byte_at H :=
  first [ eapply (stored_at_get _ _ _ 0 _ _ H); [reflexivity|lia]
        | eapply (stored_at_get _ _ _ 1 _ _ H); [reflexivity|lia]
        | eapply (stored_at_get _ _ _ 2 _ _ H); [reflexivity|lia]
        | eapply (stored_at_get _ _ _ 3 _ _ H); [reflexivity|lia]
        | eapply (stored_at_get _ _ _ 4 _ _ H); [reflexivity|lia]
        | eapply (stored_at_get _ _ _ 5 _ _ H); [reflexivity|lia]
        | eapply (stored_at_get _ _ _ 6 _ _ H); [reflexivity|lia]
        | eapply (stored_at_get _ _ _ 7 _ _ H); [reflexivity|lia]
        | eapply (stored_at_get _ _ _ 8 _ _ H); [reflexivity|lia]
        | eapply (stored_at_get _ _ _ 9 _ _ H); [reflexivity|lia]
        | eapply (stored_at_get _ _ _ 10 _ _ H); [reflexivity|lia]
        | eapply (stored_at_get _ _ _ 11 _ _ H); [reflexivity|lia]
        | eapply (stored_at_get _ _ _ 12 _ _ H); [reflexivity|lia]
        | eapply (stored_at_get _ _ _ 13 _ _ H); [reflexivity|lia]
        | eapply (stored_at_get _ _ _ 14 _ _ H); [reflexivity|lia]
        | eapply (stored_at_get _ _ _ 15 _ _ H); [reflexivity|lia]
        | eapply (stored_at_get _ _ _ 16 _ _ H); [reflexivity|lia]
        | eapply (stored_at_get _ _ _ 17 _ _ H); [reflexivity|lia]
        | eapply (stored_at_get _ _ _ 18 _ _ H); [reflexivity|lia] ].

(** Two bytes, low and high, read as a number. *)
Lemma u16_bytes buf i lo hi :
  buf_get buf i = Some lo → buf_get buf (i + 1) = Some hi →
  0 ≤ lo < 256 → 0 ≤ hi < 256 →
  Reader.u16 buf i = lo + 256 * hi.
Proof.
  intros Hlo Hhi Hl Hh. unfold Reader.u16. rewrite Hlo, Hhi. simpl num.
  rewrite JSFacts.shl_small by lia.
  rewrite (JSFacts.or_add_disjoint lo hi 8) by (change (2 ^ 8) with 256; lia).
  change (2 ^ 8) with 256. lia.
Qed.

Lemma u16_split buf i v :
  buf_get buf i = Some (v mod 256) → buf_get buf (i + 1) = Some (v / 256) →
  0 ≤ v ≤ 65535 → Reader.u16 buf i = v.
Proof.
  intros Hlo Hhi Hv.
  rewrite (u16_bytes buf i (v mod 256) (v / 256)); try done;
    Z.div_mod_to_equations; lia.
Qed.

(** The looping extension. *)
Lemma loop_block_read buf q l gpo gps st :
  0 ≤ l ≤ 65535 →
  stored_at buf q [0x21; 0xFF; 0x0B;
                   0x4E; 0x45; 0x54; 0x53; 0x43; 0x41; 0x50; 0x45; 0x32; 0x2E; 0x30;
                   0x03; 0x01; l mod 256; l / 256; 0x00] →
  Reader.ps_p st = q →
  Reader.block buf gpo gps st
  = Some (Return (Reader.Parse (q + 19) (Reader.ps_no_eof st) (Reader.ps_delay st)
                    (Reader.ps_transparent_index st) (Reader.ps_disposal st)
                    (Reader.ps_frames st) (Some l))).
Proof.
  intros Hl H Hq. unfold Reader.block. rewrite Hq.
  assert (buf_get buf q = Some 0x21) as -> by byte_at H.
  assert (buf_get buf (q + 1) = Some 0xFF) as -> by byte_at H.
  cbv iota beta. unfold Reader.application_extension.
  assert (Reader.netscape_test buf (q + 2) = true) as ->.
  { unfold Reader.netscape_test. apply orb_true_intro. right.
    rewrite !andb_true_iff, !byte_is_true. repeat split; byte_at H. }
  assert (Reader.u16 buf (q + 2 + 14) = l) as ->.
  { apply u16_split; [byte_at H|byte_at H|done]. }
  do 3 f_equal. lia.
Qed.

(** The packed fields of a graphics control extension. *)
Lemma gce_packed dp (ut : bool) :
  0 ≤ dp ≤ 3 →
  let pf1 := JS.or (JS.shl dp 2) (if ut then 1 else 0) in
  0 ≤ pf1 < 256
  ∧ (JS.and pf1 1 =? 0) = negb ut
  ∧ JS.and (JS.shr pf1 2) 0x7 = dp.
Proof.
  intros Hdp.
  assert (dp = 0 ∨ dp = 1 ∨ dp = 2 ∨ dp = 3) as [-> | [-> | [-> | ->]]] by lia;
    destruct ut; by vm_compute.
Qed.

(** The bytes of a delay: the 16 low bits. *)
Lemma delay_bytes dl :
  JS.and dl 0xFF = dl mod 65536 mod 256
  ∧ JS.and (JS.shr dl 8) 0xFF = dl mod 65536 / 256.
Proof.
  rewrite !JSFacts.and_255. unfold JS.shr. change (8 mod 32) with 8.
  rewrite Z.shiftr_div_pow2 by lia. change (2 ^ 8) with 256.
  pose proof (JSFacts.to_int32_mod dl 16 ltac:(lia)) as H.
  change (2 ^ 16) with 65536 in H.
  split; Z.div_mod_to_equations; lia.
Qed.

(** The graphics control extension. *)
Lemma gce_block_read buf q dp dl (ut : bool) ti gpo gps st :
  0 ≤ dp ≤ 3 → 0 ≤ ti < 256 →
  stored_at buf q [0x21; 0xF9; 4;
                   JS.or (JS.shl dp 2) (if ut then 1 else 0);
                   JS.and dl 0xFF; JS.and (JS.shr dl 8) 0xFF; ti; 0] →
  Reader.ps_p st = q →
  Reader.block buf gpo gps st
  = Some (Return (Reader.Parse (q + 8) (Reader.ps_no_eof st) (dl mod 65536)
                    (if ut then Some ti else None) dp
                    (Reader.ps_frames st) (Reader.ps_loop_count st))).
Proof.
  intros Hdp Hti H Hq. unfold Reader.block. rewrite Hq.
  assert (buf_get buf q = Some 0x21) as -> by byte_at H.
  assert (buf_get buf (q + 1) = Some 0xF9) as -> by byte_at H.
  cbv iota beta. unfold Reader.graphics_control_extension.
  assert (Reader.byte_is buf (q + 2) 4 = true) as ->
    by (apply byte_is_true; byte_at H).
  assert (Reader.byte_is buf (q + 2 + 5) 0 = true) as ->
    by (apply byte_is_true; byte_at H).
  cbn [negb orb]. cbv zeta.
  assert (buf_get buf (q + 2 + 1) = Some (JS.or (JS.shl dp 2) (if ut then 1 else 0)))
    as -> by byte_at H.
  assert (buf_get buf (q + 2 + 4) = Some ti) as -> by byte_at H.
  destruct (gce_packed dp ut Hdp) as (_ & Hflag & Hdisp). cbv zeta in Hflag, Hdisp.
  simpl num. rewrite Hflag, Hdisp.
  destruct (delay_bytes dl) as [Hlo Hhi].
  assert (Reader.u16 buf (q + 2 + 2) = dl mod 65536) as ->.
  { apply u16_split.
    - rewrite <- Hlo. byte_at H.
    - rewrite <- Hhi. byte_at H.
    - pose proof (Z.mod_pos_bound dl 65536). lia. }
  do 3 f_equal; [lia|by destruct ut].
Qed.

(** The image descriptor of a frame without a colour table of its own,
    followed by its code stream. *)
Lemma image_block_read buf q x y w h n gpo gps st :
  0 ≤ x ≤ 65535 → 0 ≤ y ≤ 65535 → 0 ≤ w ≤ 65535 → 0 ≤ h ≤ 65535 →
  stored_at buf q [0x2C; x mod 256; x / 256; y mod 256; y / 256;
                   w mod 256; w / 256; h mod 256; h / 256; 0] →
  Reader.skip_subblocks buf (Reader.scan_fuel buf) (q + 11) = Some (Return n) →
  Reader.ps_p st = q →
  Reader.block buf gpo gps st
  = Some (Return (Reader.Parse n (Reader.ps_no_eof st) (Reader.ps_delay st)
                    (Reader.ps_transparent_index st) (Reader.ps_disposal st)
                    (Reader.ps_frames st ++
                       [ {| Reader.x := x; Reader.y := y;
                            Reader.width := w; Reader.height := h;
                            Reader.has_local_palette := false;
                            Reader.palette_offset := gpo;
                            Reader.palette_size := gps;
                            Reader.data_offset := q + 10;
                            Reader.data_length := n - (q + 10);
                            Reader.transparent_index := Reader.ps_transparent_index st;
                            Reader.interlaced := false;
                            Reader.delay := Reader.ps_delay st;
                            Reader.disposal := Reader.ps_disposal st |} ])
                    (Reader.ps_loop_count st))).
Proof.
  intros Hx Hy Hw Hh H Hscan Hq. unfold Reader.block. rewrite Hq.
  assert (buf_get buf q = Some 0x2C) as -> by byte_at H.
  cbv iota beta. unfold Reader.image_descriptor.
  assert (Reader.u16 buf (q + 1) = x) as ->
    by (apply u16_split; [byte_at H|byte_at H|done]).
  assert (Reader.u16 buf (q + 1 + 2) = y) as ->
    by (apply u16_split; [byte_at H|byte_at H|done]).
  assert (Reader.u16 buf (q + 1 + 4) = w) as ->
    by (apply u16_split; [byte_at H|byte_at H|done]).
  assert (Reader.u16 buf (q + 1 + 6) = h) as ->
    by (apply u16_split; [byte_at H|byte_at H|done]).
  assert (buf_get buf (q + 1 + 8) = Some 0) as -> by byte_at H.
  simpl num. change (JS.truthy (JS.shr 0 7)) with false.
  change (JS.truthy (JS.and (JS.shr 0 6) 1)) with false. cbv iota beta zeta.
  replace (q + 1 + 9 + 1) with (q + 11) by lia. rewrite Hscan.
  replace (q + 1 + 9) with (q + 10) by lia. done.
Qed.

(** ** What [addFrame] leaves in the buffer *)

Lemma stored_at_store_bytes buf q vs :
  0 ≤ q → q + Z.of_nat (length vs) ≤ Z.of_nat (length buf) →
  stored_at (store_bytes buf q vs) q (map (λ v, v mod 256) vs).
Proof.
  intros Hq Hroom j v Hj. rewrite list_lookup_fmap in Hj.
  destruct (vs !! j) as [v0|] eqn:Hv; [|done]. simpl in Hj. simplify_eq.
  apply store_bytes_inside; [done|done|].
  apply lookup_lt_Some in Hv. lia.
Qed.

Lemma stored_at_app buf q a b :
  stored_at buf q (a ++ b) →
  stored_at buf q a ∧ stored_at buf (q + Z.of_nat (length a)) b.
Proof.
  intros H. split; intros j v Hj.
  - apply H. by apply lookup_app_l_Some.
  - replace (q + Z.of_nat (length a) + Z.of_nat j)
      with (q + Z.of_nat (length a + j)) by lia.
    apply H. by rewrite lookup_app_r, Nat.add_comm, Nat.add_sub by lia.
Qed.

(** The code size with which [addFrame] calls the encoder. *)
Definition code_size (pl : plan) : Z :=
  if min_code_size pl <? 2 then 2 else min_code_size pl.

Lemma addFrame_layout x y w h idx opts st st' n :
  addFrame x y w h idx opts st = (st', Return n) →
  0 ≤ p (resumed st) → n ≤ Z.of_nat (length (buf st)) →
  ∃ pl, validate (global_palette st) x y w h (length idx) opts = Return pl
    ∧ 2 ≤ code_size pl ≤ 8
    ∧ p st' = n
    ∧ let q := p (resumed st) in
      let d := q + Z.of_nat (length (frame_head x y w h pl)) in
      stored_at (buf st') q (map (λ v, v mod 256) (frame_head x y w h pl))
      ∧ buf_get (buf st') d = Some (code_size pl)
      ∧ Reader.skip_subblocks (buf st') (Reader.scan_fuel (buf st')) (d + 1)
        = Some (Return n)
      ∧ ∀ output fuel,
          idx ≠ [] → length output = length idx → (2 * length idx + 1 ≤ fuel)%nat →
          Decoder.readerLZWOutputIndexStream fuel (buf st') d output
            (Z.of_nat (length idx))
          = Some (map (λ v, v mod 2 ^ code_size pl) idx, None).
Proof.
  intros Hadd Hq Hroom. rewrite addFrame_eq in Hadd.
  destruct (validate _ _ _ _ _ _ _) as [pl|e] eqn:Hv; [|by simplify_eq].
  exists pl. split; [done|].
  apply validate_inv in Hv as (_ & _ & _ & _ & _ & pal & _ & Hsz & _ & _ & Hpl).
  destruct (log2_by_shifts_pow2 _ Hsz) as (_ & Hmcs & _).
  assert (2 ≤ code_size pl ≤ 8) as Hm.
  { unfold code_size. rewrite Hpl. cbn [min_code_size]. case_match; lia. }
  split; [done|]. clear Hpl.
  rewrite write_frame_eq in Hadd. cbv zeta in Hadd. fold (code_size pl) in Hadd.
  assert (buf (resumed st) = buf st) as Hbuf
    by (unfold resumed; by destruct (ended st)).
  rewrite Hbuf in Hadd.
  set (q := p (resumed st)) in *. set (head := frame_head x y w h pl) in *.
  set (d := q + Z.of_nat (length head)) in *.
  destruct (Encoder.GifWriterOutputLZWCodeStream (store_bytes (buf st) q head) d
              (code_size pl) idx) as [buf' p'] eqn:Henc.
  simpl in Hadd. simplify_eq. cbn [buf p].
  assert (0 ≤ d) as Hd by lia.
  assert (n ≤ Z.of_nat (length (store_bytes (buf st) q head))) as Hroom'
    by (by rewrite store_bytes_length).
  destruct (encoder_framed _ Hm _ _ _ _ _ Hd Henc Hroom')
    as (_ & Hcode & _ & Hlow & Hge).
  split; [done|]. cbv zeta. split_and!; [|done|..].
  - intros j v Hj.
    assert (j < length head)%nat
      by (apply lookup_lt_Some in Hj; by rewrite length_map in Hj).
    rewrite Hlow by lia.
    apply stored_at_store_bytes; [done| |done].
    fold d. rewrite store_bytes_length in Hroom'. lia.
  - by apply (EncoderBounds.encoder_scan _ Hm (store_bytes (buf st) q head) _ idx).
  - intros output fuel Hne Hlen Hfuel.
    by apply (CodecFacts.lzw_roundtrip _ Hm (store_bytes (buf st) q head) _ _ _ n).
Qed.

(** An image descriptor that announces a colour table of [2 ^ k] colours. *)
Lemma local_image_block_read buf q x y w h k n gpo gps st :
  0 ≤ x ≤ 65535 → 0 ≤ y ≤ 65535 → 0 ≤ w ≤ 65535 → 0 ≤ h ≤ 65535 → 1 ≤ k ≤ 8 →
  stored_at buf q [0x2C; x mod 256; x / 256; y mod 256; y / 256;
                   w mod 256; w / 256; h mod 256; h / 256; 127 + k] →
  Reader.skip_subblocks buf (Reader.scan_fuel buf) (q + 10 + 2 ^ k * 3 + 1)
  = Some (Return n) →
  Reader.ps_p st = q →
  Reader.block buf gpo gps st
  = Some (Return (Reader.Parse n (Reader.ps_no_eof st) (Reader.ps_delay st)
                    (Reader.ps_transparent_index st) (Reader.ps_disposal st)
                    (Reader.ps_frames st ++
                       [ {| Reader.x := x; Reader.y := y;
                            Reader.width := w; Reader.height := h;
                            Reader.has_local_palette := true;
                            Reader.palette_offset := Some (q + 10);
                            Reader.palette_size := Some (2 ^ k);
                            Reader.data_offset := q + 10;
                            Reader.data_length := n - (q + 10);
                            Reader.transparent_index := Reader.ps_transparent_index st;
                            Reader.interlaced := false;
                            Reader.delay := Reader.ps_delay st;
                            Reader.disposal := Reader.ps_disposal st |} ])
                    (Reader.ps_loop_count st))).
Proof.
  intros Hx Hy Hw Hh Hk H Hscan Hq. unfold Reader.block. rewrite Hq.
  assert (buf_get buf q = Some 0x2C) as -> by byte_at H.
  cbv iota beta. unfold Reader.image_descriptor.
  assert (Reader.u16 buf (q + 1) = x) as ->
    by (apply u16_split; [byte_at H|byte_at H|done]).
  assert (Reader.u16 buf (q + 1 + 2) = y) as ->
    by (apply u16_split; [byte_at H|byte_at H|done]).
  assert (Reader.u16 buf (q + 1 + 4) = w) as ->
    by (apply u16_split; [byte_at H|byte_at H|done]).
  assert (Reader.u16 buf (q + 1 + 6) = h) as ->
    by (apply u16_split; [byte_at H|byte_at H|done]).
  assert (buf_get buf (q + 1 + 8) = Some (127 + k)) as -> by byte_at H.
  simpl num.
  assert (JS.truthy (JS.shr (127 + k) 7) = true
          ∧ JS.truthy (JS.and (JS.shr (127 + k) 6) 1) = false
          ∧ JS.shl 1 (JS.and (127 + k) 7 + 1) = 2 ^ k) as (-> & -> & ->).
  { assert (k = 1 ∨ k = 2 ∨ k = 3 ∨ k = 4 ∨ k = 5 ∨ k = 6 ∨ k = 7 ∨ k = 8)
      as Hc by lia.
    repeat (destruct Hc as [->|Hc]; [by vm_compute|]). subst k. by vm_compute. }
  cbv iota beta zeta.
  replace (q + 1 + 9 + 2 ^ k * 3 + 1) with (q + 10 + 2 ^ k * 3 + 1) by lia.
  rewrite Hscan. replace (q + 1 + 9) with (q + 10) by lia. done.
Qed.

(** [addFrame] writes at its cursor and below the position it returns. *)
Lemma addFrame_within x y w h idx opts st st' r :
  addFrame x y w h idx opts st = (st', r) →
  ∀ i, i < p (resumed st) ∨ p st' ≤ i → buf_get (buf st') i = buf_get (buf st) i.
Proof.
  intros Hadd. rewrite addFrame_eq in Hadd.
  assert (buf (resumed st) = buf st) as Hbuf
    by (unfold resumed; by destruct (ended st)).
  destruct (validate _ _ _ _ _ _ _) as [pl|e]; [|by simplify_eq; rewrite Hbuf].
  rewrite write_frame_eq in Hadd. cbv zeta in Hadd. rewrite Hbuf in Hadd.
  set (q := p (resumed st)) in *. set (head := frame_head x y w h pl) in *.
  pose proof (EncoderBounds.encoder_within (store_bytes (buf st) q head)
                (q + Z.of_nat (length head))
                (if min_code_size pl <? 2 then 2 else min_code_size pl) idx)
    as (_ & Hge & Hsame). cbv zeta in Hge, Hsame.
  simplify_eq. cbn [buf p]. intros i Hi.
  rewrite Hsame by lia. apply store_bytes_outside. lia.
Qed.

(** The bytes of a frame before its code stream, as they are read. *)
Lemma map_mod_bytes (vs : list Z) :
  Forall (λ v, 0 ≤ v < 256) vs → map (λ v, v mod 256) vs = vs.
Proof.
  induction 1 as [|v vs Hv _ IH]; [done|]. simpl. rewrite IH.
  by rewrite Z.mod_small.
Qed.

Lemma u16_halves v : 0 ≤ v ≤ 65535 → 0 ≤ v mod 256 < 256 ∧ 0 ≤ v / 256 < 256.
Proof. intros. Z.div_mod_to_equations. lia. Qed.

Lemma image_bytes_read x y w h pl :
  0 ≤ x ≤ 65535 → 0 ≤ y ≤ 65535 → 0 ≤ w ≤ 65535 → 0 ≤ h ≤ 65535 →
  1 ≤ min_code_size pl ≤ 8 →
  map (λ v, v mod 256) (image_bytes x y w h pl)
  = [0x2C; x mod 256; x / 256; y mod 256; y / 256;
     w mod 256; w / 256; h mod 256; h / 256;
     if using_local_palette pl then 127 + min_code_size pl else 0].
Proof.
  intros Hx Hy Hw Hh Hk. unfold image_bytes.
  rewrite !high_byte, !low_byte by done.
  assert (JS.or 128 (min_code_size pl - 1) = 127 + min_code_size pl) as ->.
  { assert (min_code_size pl = 1 ∨ min_code_size pl = 2 ∨ min_code_size pl = 3
            ∨ min_code_size pl = 4 ∨ min_code_size pl = 5 ∨ min_code_size pl = 6
            ∨ min_code_size pl = 7 ∨ min_code_size pl = 8) as Hc by lia.
    repeat (destruct Hc as [->|Hc]; [by vm_compute|]). rewrite Hc. by vm_compute. }
  pose proof (u16_halves x Hx). pose proof (u16_halves y Hy).
  pose proof (u16_halves w Hw). pose proof (u16_halves h Hh).
  apply map_mod_bytes. repeat (apply Forall_cons; split; [try lia|]).
  - by destruct (using_local_palette pl); lia.
  - apply Forall_nil_2.
Qed.

Lemma gce_bytes_read pl :
  0 ≤ plan_disposal pl ≤ 3 → 0 ≤ transparent_index pl < 256 →
  map (λ v, v mod 256) (gce_bytes pl) = gce_bytes pl.
Proof.
  intros Hd Ht. apply map_mod_bytes. unfold gce_bytes.
  destruct (_ || _ || _); [|apply Forall_nil_2].
  destruct (gce_packed (plan_disposal pl) (use_transparency pl) Hd) as (Hpf & _).
  cbv zeta in Hpf. rewrite !JSFacts.and_255.
  pose proof (Z.mod_pos_bound (plan_delay pl) 256).
  pose proof (Z.mod_pos_bound (JS.shr (plan_delay pl) 8) 256).
  repeat (apply Forall_cons; split; [lia|]). apply Forall_nil_2.
Qed.

(** A returning [addFrame] leaves the cursor at the position that it
    returns, at least twelve bytes on. *)
Lemma addFrame_advance x y w h idx opts st st' n :
  addFrame x y w h idx opts st = (st', Return n) →
  p st' = n ∧ p (resumed st) + 12 ≤ n.
Proof.
  intros Hadd. rewrite addFrame_eq in Hadd.
  destruct (validate _ _ _ _ _ _ _) as [pl|e]; [|done].
  rewrite write_frame_eq in Hadd. cbv zeta in Hadd.
  pose proof (EncoderBounds.encoder_within
                (store_bytes (buf (resumed st)) (p (resumed st))
                   (frame_head x y w h pl))
                (p (resumed st) + Z.of_nat (length (frame_head x y w h pl)))
                (if min_code_size pl <? 2 then 2 else min_code_size pl) idx)
    as (_ & Hge & _). cbv zeta in Hge.
  assert (10 ≤ Z.of_nat (length (frame_head x y w h pl))) as Hhead.
  { unfold frame_head. rewrite !length_app. simpl. lia. }
  simplify_eq. cbn [p]. split; [done|lia].
Qed.

(** [if (disposal !== 0 || use_transparency || delay !== 0)]: the frames for
    which [addFrame] writes a graphics control extension. *)
Definition writes_extension (opts : FrameOptions) : bool :=
  negb (default 0 (disposal opts) =? 0)
  || bool_decide (is_Some (transparent opts))
  || negb (default 0 (delay opts) =? 0).

(** The parts of a frame in the buffer: extension, image descriptor, colour
    table, code stream. *)
Lemma addFrame_parts x y w h idx opts st st' n :
  addFrame x y w h idx opts st = (st', Return n) →
  let q := p (resumed st) in
  0 ≤ q → n ≤ Z.of_nat (length (buf st)) →
  ∃ pal,
    effective_palette (global_palette st) opts = Some pal
    ∧ Z.of_nat (length pal) ∈ pow2_sizes
    ∧ (0 ≤ x ≤ 65535 ∧ 0 ≤ y ≤ 65535 ∧ 0 < w ≤ 65535 ∧ 0 < h ≤ 65535)
    ∧ w * h ≤ Z.of_nat (length idx)
    ∧ 0 ≤ default 0 (disposal opts) ≤ 3
    ∧ (∀ t, transparent opts = Some t → 0 ≤ t < Z.of_nat (length pal))
    ∧ let k := log2_by_shifts (Z.of_nat (length pal)) in
      let local := bool_decide (is_Some (frame_palette opts)) in
      let g := if writes_extension opts then 8 else 0 in
      let d := q + g + 10 + (if local then 3 * Z.of_nat (length pal) else 0) in
      (writes_extension opts = true →
       stored_at (buf st') q
         [0x21; 0xF9; 4;
          JS.or (JS.shl (default 0 (disposal opts)) 2)
                (if bool_decide (is_Some (transparent opts)) then 1 else 0);
          JS.and (default 0 (delay opts)) 0xFF;
          JS.and (JS.shr (default 0 (delay opts)) 8) 0xFF;
          default 0 (transparent opts); 0])
      ∧ stored_at (buf st') (q + g)
          [0x2C; x mod 256; x / 256; y mod 256; y / 256;
           w mod 256; w / 256; h mod 256; h / 256;
           if local then 127 + k else 0]
      ∧ (local = true →
         stored_at (buf st') (q + g + 10)
           (map (λ v, v mod 256) (palette_bytes pal)))
      ∧ buf_get (buf st') d = Some (if k <? 2 then 2 else k)
      ∧ Reader.skip_subblocks (buf st') (Reader.scan_fuel (buf st')) (d + 1)
        = Some (Return n)
      ∧ ∀ output fuel,
          idx ≠ [] → length output = length idx → (2 * length idx + 1 ≤ fuel)%nat →
          Decoder.readerLZWOutputIndexStream fuel (buf st') d output
            (Z.of_nat (length idx))
          = Some (map (λ v, v mod 2 ^ (if k <? 2 then 2 else k)) idx, None).
Proof.
  intros Hadd q Hq Hroom.
  destruct (addFrame_layout _ _ _ _ _ _ _ _ _ Hadd Hq Hroom)
    as (pl & Hv & Hm & Hp & Hst & Hcode & Hscan & Hdec).
  fold q in Hst, Hcode, Hscan, Hdec.
  apply validate_inv in Hv
    as (Hx & Hy & Hw & Hh & Hn & pal & Hpal & Hsz & Hd & Ht & Hpl).
  exists pal. do 6 (split; [first [done|lia]|]). cbv zeta.
  destruct (log2_by_shifts_pow2 _ Hsz) as (_ & Hk & Hpow).
  set (k := log2_by_shifts (Z.of_nat (length pal))) in *.
  assert (0 ≤ transparent_index pl < 256) as Hti.
  { rewrite Hpl. cbn [transparent_index].
    destruct (transparent opts) as [t|]; simpl; [|lia].
    specialize (Ht t eq_refl).
    assert (Z.of_nat (length pal) ≤ 256); [|lia].
    unfold pow2_sizes in Hsz.
    repeat (apply elem_of_cons in Hsz as [->|Hsz]; [lia|]).
    by apply elem_of_nil in Hsz. }
  assert (gce_bytes pl
          = if writes_extension opts
            then [0x21; 0xF9; 4;
                  JS.or (JS.shl (default 0 (disposal opts)) 2)
                        (if bool_decide (is_Some (transparent opts)) then 1 else 0);
                  JS.and (default 0 (delay opts)) 0xFF;
                  JS.and (JS.shr (default 0 (delay opts)) 8) 0xFF;
                  default 0 (transparent opts); 0]
            else []) as Hg.
  { unfold gce_bytes, writes_extension. by rewrite Hpl. }
  assert (Z.of_nat (length (gce_bytes pl)) = if writes_extension opts then 8 else 0)
    as Hglen by (rewrite Hg; by destruct (writes_extension opts)).
  assert (Z.of_nat (length (frame_head x y w h pl))
          = (if writes_extension opts then 8 else 0) + 10
            + (if bool_decide (is_Some (frame_palette opts))
               then 3 * Z.of_nat (length pal) else 0)) as Hhlen.
  { unfold frame_head. rewrite !length_app, !Nat2Z.inj_add, Hglen.
    rewrite Hpl. cbn [using_local_palette plan_palette].
    destruct (bool_decide _); rewrite ?palette_bytes_length; simpl; lia. }
  unfold frame_head in Hst. rewrite !map_app in Hst.
  apply stored_at_app in Hst as [Hgce Hst].
  apply stored_at_app in Hst as [Himg Hpalb].
  rewrite !length_map in *.
  rewrite gce_bytes_read in Hgce by (done || (rewrite Hpl; done)).
  rewrite image_bytes_read in Himg by (try lia; rewrite Hpl; done).
  rewrite Hglen in Himg, Hpalb.
  assert (code_size pl = if k <? 2 then 2 else k) as Hcs
    by (unfold code_size; by rewrite Hpl).
  rewrite Hcs in Hdec, Hcode.
  replace (q + Z.of_nat (length (frame_head x y w h pl)))
    with (q + (if writes_extension opts then 8 else 0) + 10
          + (if bool_decide (is_Some (frame_palette opts))
             then 3 * Z.of_nat (length pal) else 0)) in * by lia.
  split_and!.
  - intros Hw'. by rewrite Hg, Hw' in Hgce.
  - by rewrite Hpl in Himg.
  - intros Hl. rewrite Hpl in Hpalb. cbn [using_local_palette plan_palette] in Hpalb.
    rewrite Hl in Hpalb. simpl length in Hpalb.
    by replace (q + (if writes_extension opts then 8 else 0) + 10)
      with (q + (if writes_extension opts then 8 else 0) + Z.of_nat 10) by lia.
  - done.
  - done.
  - done.
Qed.

End ReadBack.


(** * From [addFrame] to the pixels *)

Module FrameReadBack.
Import Writer WriterFacts WriterLayout ReaderFacts ParserFacts ReadBack.

(** A frame on the global palette, at the image descriptor that [addFrame]
    has written: the frame that the block loop of the reader finds, and
    the index stream that is decoded for it. *)
Lemma frame_read_back (x y w h : Z) (idx pal : list Z) (opts : FrameOptions)
    (st st' : writer) (n : Z) (gpo gps : option Z) (ps : Reader.parse_state) :
  addFrame x y w h idx opts st = (st', Return n) →
  frame_palette opts = None →
  global_palette st = Some pal →
  Z.of_nat (length idx) = w * h →
  Forall (λ v, 0 ≤ v < Z.of_nat (length pal)) idx →
  0 ≤ (if ended st then p st - 1 else p st) →
  n ≤ Z.of_nat (length (buf st)) →
  Reader.ps_p ps = (if ended st then p st - 1 else p st)
                   + (if writes_extension opts then 8 else 0) →
  let f := {| Reader.x := x; Reader.y := y;
              Reader.width := w; Reader.height := h;
              Reader.has_local_palette := false;
              Reader.palette_offset := gpo;
              Reader.palette_size := gps;
              Reader.data_offset := Reader.ps_p ps + 10;
              Reader.data_length := n - (Reader.ps_p ps + 10);
              Reader.transparent_index := Reader.ps_transparent_index ps;
              Reader.interlaced := false;
              Reader.delay := Reader.ps_delay ps;
              Reader.disposal := Reader.ps_disposal ps |} in
  Reader.block (buf st') gpo gps ps
  = Some (Return (Reader.Parse n (Reader.ps_no_eof ps) (Reader.ps_delay ps)
                    (Reader.ps_transparent_index ps) (Reader.ps_disposal ps)
                    (Reader.ps_frames ps ++ [f]) (Reader.ps_loop_count ps)))
  ∧ ∀ (r : Reader.reader) (fuel : nat),
      Reader.buffer r = buf st' → (2 * length idx + 1 ≤ fuel)%nat →
      Reader.decode_frame fuel r f = Some idx.
Proof.
  intros Hadd Hfp Hgp Hlen Hidx Hq Hroom Hps f.
  assert ((if ended st then p st - 1 else p st) = p (resumed st)) as Hres
    by (unfold resumed; by destruct (ended st)).
  rewrite Hres in Hq, Hps.
  destruct (addFrame_parts _ _ _ _ _ _ _ _ _ Hadd Hq Hroom)
    as (pal' & Hpal & Hsz & (Hx & Hy & Hw & Hh) & _ & _ & _ & Hparts).
  unfold effective_palette in Hpal. rewrite Hfp, Hgp in Hpal. simplify_eq.
  cbv zeta in Hparts. rewrite Hfp in Hparts.
  change (bool_decide (is_Some None)) with false in Hparts.
  destruct Hparts as (_ & Himg & _ & _ & Hscan & Hdec).
  rewrite Z.add_0_r, <- Hps in Hscan, Hdec. rewrite <- Hps in Himg.
  split.
  - apply image_block_read; try done; try lia.
    by replace (Reader.ps_p ps + 11) with (Reader.ps_p ps + 10 + 1) by lia.
  - intros r fuel Hbuf Hfuel. unfold Reader.decode_frame.
    cbn [Reader.width Reader.height Reader.data_offset f]. rewrite Hbuf, <- Hlen.
    rewrite Hdec; [|intros ->; simpl in Hlen; lia
                   |by rewrite length_replicate, Nat2Z.id|done].
    f_equal. destruct (log2_by_shifts_pow2 _ Hsz) as (_ & Hk & Hpow).
    set (k := log2_by_shifts (Z.of_nat (length pal'))) in *.
    assert (Z.of_nat (length pal') ≤ 2 ^ (if k <? 2 then 2 else k)) as Hle.
    { rewrite <- Hpow. apply Z.pow_le_mono_r; [lia|]. case_match; lia. }
    clear -Hidx Hle. induction Hidx as [|v vs Hv _ IH]; [done|].
    simpl. rewrite IH. f_equal. apply Z.mod_small. lia.
Qed.


End FrameReadBack.


(** * The class [Writer] and the function [GifWriter] *)

Module WriterClassFacts.
Import WriterClass.

#[local] Arguments JS.and : simpl never.
#[local] Arguments JS.or : simpl never.
#[local] Arguments JS.shl : simpl never.
#[local] Arguments JS.shr : simpl never.
#[local] Arguments buf_set : simpl never.
#[local] Arguments buf_get : simpl never.
#[local] Arguments Z.mul : simpl never.
#[local] Arguments Z.add : simpl never.
#[local] Arguments Z.sub : simpl never.
#[local] Arguments Z.ltb : simpl never.
#[local] Arguments Z.leb : simpl never.
#[local] Arguments Z.eqb : simpl never.
#[local] Arguments Writer.shift_count : simpl never.

(** The variables of [GifWriter] that correspond to the fields of the
    class. *)
Definition to_writer (s : state) : Writer.writer :=
  Writer.Build_writer (buffer s) (position s) (ended s) (globalPalette s).

(** The method does what the statements of [GifWriter] do, and keeps the
    fields that [GifWriter] does not have. *)
Definition sim {A : Type} (c : M A) (c' : Writer.M A) : Prop :=
  ∀ s, c' (to_writer s) = (to_writer (c s).1, (c s).2)
       ∧ width (c s).1 = width s ∧ height (c s).1 = height s
       ∧ globalPalette (c s).1 = globalPalette s.

Lemma sim_ret {A} (a : A) : sim (mret a) (mret a).
Proof. by intros s. Qed.

Lemma sim_throw {A} e : sim (@throw A e) (@Writer.throw A e).
Proof. by intros s. Qed.

Lemma sim_throw_if c e : sim (throw_if c e) (Writer.throw_if c e).
Proof. destruct c; [apply sim_throw|apply sim_ret]. Qed.

Lemma sim_bind {A B} (c : M A) (c' : Writer.M A) (f : A → M B) (f' : A → Writer.M B) :
  sim c c' → (∀ a, sim (f a) (f' a)) → sim (c ≫= f) (c' ≫= f').
Proof.
  intros Hc Hf s. destruct (Hc s) as (Hc1 & Hw & Hh & Hg).
  unfold mbind, M_bind, Writer.M_bind. rewrite Hc1.
  destruct (c s) as [s1 [a|e]]; simpl in *; [|done].
  destruct (Hf a s1) as (Hf1 & Hw' & Hh' & Hg').
  rewrite Hf1. split_and!; [done|congruence..].
Qed.

Lemma sim_store v : sim (store v) (Writer.put_byte v).
Proof. by intros s. Qed.

Lemma sim_store_all vs : sim (store_all vs) (Writer.put_bytes vs).
Proof.
  induction vs as [|v vs IH]; [apply sim_ret|].
  apply sim_bind; [apply sim_store|by intros _].
Qed.

Lemma sim_store_colors pal : sim (store_colors pal) (Writer.write_color_table pal).
Proof.
  induction pal as [|rgb pal IH]; [apply sim_ret|].
  repeat (apply sim_bind; [apply sim_store|intros _]). done.
Qed.

Lemma sim_check pal :
  sim (checkPaletteAndNumColors pal) (Writer.check_palette_and_num_colors pal).
Proof.
  unfold checkPaletteAndNumColors, Writer.check_palette_and_num_colors.
  destruct (_ || _ || _); [apply sim_throw|apply sim_ret].
Qed.

Lemma sim_netscape l :
  sim (writeNetscapeLoopingExtension l) (Writer.netscape_block l).
Proof.
  destruct l; [|apply sim_ret].
  apply sim_bind; [apply sim_throw_if|intros _]. apply sim_store_all.
Qed.

Lemma sim_end : sim end_ Writer.end_.
Proof. intros s. unfold end_, Writer.end_. simpl. by destruct (ended s). Qed.

(** A method that reads fields is the method for the values of the
    fields. *)
Lemma sim_reading {A} (c : state → M A) (c' : Writer.writer → Writer.M A) :
  (∀ s0, sim (c s0) (c' (to_writer s0))) →
  sim (λ s, c s s) (λ st, c' st st).
Proof. intros H s. apply (H s s). Qed.

Lemma sim_get {B} (f : state → M B) (f' : Writer.writer → Writer.M B) :
  (∀ s0, sim (f s0) (f' (to_writer s0))) →
  sim ((λ s, (s, Return s)) ≫= f) ((λ st, (st, Return st)) ≫= f').
Proof. intros H s. apply (H s s). Qed.

Lemma sim_output_lzw m idx :
  sim (λ s,
         let '(buf1, p1) :=
           writerOutputLZWCodeStream (buffer s) (position s) m idx in
         (State buf1 (width s) (height s) p1 (ended s) (globalPalette s),
          Return p1))
      (Writer.output_lzw m idx;; Writer.get_p).
Proof.
  intros s. unfold mbind, Writer.M_bind, Writer.output_lzw, Writer.get_p.
  unfold writerOutputLZWCodeStream, Encoder.GifWriterOutputLZWCodeStream. simpl.
  by destruct (Encoder.finish _ _) as [buf1 p1].
Qed.

(** ** Options that are [null] *)

(** The options of a frame as the class reads them: [null] is absent. *)
Definition nulls_absent (o : Writer.NullableFrameOptions) : Writer.FrameOptions :=
  let absent {A} (v : Writer.nullable A) : option A :=
    match v with Writer.Given a => Some a | _ => None end in
  {| Writer.frame_palette := absent (Writer.null_palette o);
     Writer.delay := absent (Writer.null_delay o);
     Writer.disposal := absent (Writer.null_disposal o);
     Writer.transparent := absent (Writer.null_transparent o) |}.

(** A delay or a disposal is [null]. *)
Definition has_null (o : Writer.NullableFrameOptions) : bool :=
  match Writer.null_delay o, Writer.null_disposal o with
  | Writer.Null, _ | _, Writer.Null => true
  | _, _ => false
  end.

(** The options of a frame as the closure of [GifWriter] reads them: a
    [null] palette or transparent index is absent; with a [null] delay or
    disposal, which count as 0 but are not 0, the frame is written as with a
    delay whose 16 low bits are 0 but which is not 0, such as 65536. *)
Definition nulls_kept (o : Writer.NullableFrameOptions) : Writer.FrameOptions :=
  let delay := match Writer.null_delay o with Writer.Given d => d | _ => 0 end in
  {| Writer.frame_palette := Writer.frame_palette (nulls_absent o);
     Writer.delay :=
       if has_null o then Some (if delay =? 0 then 65536 else delay)
       else Writer.delay (nulls_absent o);
     Writer.disposal := Writer.disposal (nulls_absent o);
     Writer.transparent := Writer.transparent (nulls_absent o) |}.

Lemma nulls_kept_absent o : has_null o = false → nulls_kept o = nulls_absent o.
Proof. unfold nulls_kept. by intros ->. Qed.

Lemma bind_ext {A B} (c : Writer.M A) (f g : A → Writer.M B) st :
  (∀ a st1, f a st1 = g a st1) → (c ≫= f) st = (c ≫= g) st.
Proof.
  intros H. unfold mbind, Writer.M_bind. by destruct (c st) as [st1 [a|e]].
Qed.

Lemma zero_bytes_65536 :
  JS.and 65536 0xFF = JS.and 0 0xFF
  ∧ JS.and (JS.shr 65536 8) 0xFF = JS.and (JS.shr 0 8) 0xFF.
Proof. by vm_compute. Qed.

(** With the options of [nulls_kept], the closure for options that may be
    [null] is the closure for options that are absent or numbers. *)
Lemma addFrame_nullable_eq x y w h idx o st :
  Writer.addFrame_nullable x y w h idx o st
  = Writer.addFrame x y w h idx (nulls_kept o) st.
Proof.
  unfold Writer.addFrame_nullable, Writer.addFrame.
  do 4 (apply bind_ext; intros _ ?).
  apply bind_ext. intros stc sta. cbv zeta.
  assert (match Writer.null_palette o with
          | Writer.Given pal => Some pal
          | _ => Writer.global_palette stc
          end
          = match Writer.frame_palette (nulls_kept o) with
            | Some pal => Some pal
            | None => Writer.global_palette stc
            end) as -> by (by destruct o as [[| |pal] dl dp tr]).
  destruct (match Writer.frame_palette (nulls_kept o) with
            | Some pal => Some pal
            | None => Writer.global_palette stc
            end) as [pal|]; [|done].
  apply bind_ext. intros n stb.
  assert (num (Writer.unless_undefined (Writer.null_disposal o))
          = default 0 (Writer.disposal (nulls_kept o))) as Hd
    by (by destruct o as [pl dl [| |dp] tr]).
  rewrite Hd. apply bind_ext. intros _ std.
  assert (∀ k, match Writer.null_transparent o with
               | Writer.Given t =>
                   Writer.throw_if ((t <? 0) || (k <=? t)) TransparentIndexInvalid;;
                   mret (true, t)
               | _ => mret (false, 0)
               end = Writer.transparency (nulls_kept o) k) as ->
    by (intros k; by destruct o as [pl dl dp [| |tr]]).
  apply bind_ext. intros [ut ti] ste.
  assert ((match Writer.null_palette o with Writer.Given _ => true | _ => false end)
          = bool_decide (is_Some (Writer.frame_palette (nulls_kept o)))) as ->
    by (by destruct o as [[| |pl] dl dp tr]).
  unfold mbind at 1 5. unfold Writer.M_bind at 1 2.
  assert ((if Writer.is_not_zero (Writer.unless_undefined (Writer.null_disposal o))
              || ut
              || Writer.is_not_zero (Writer.unless_undefined (Writer.null_delay o))
           then
             Writer.put_bytes
               [0x21; 0xF9; 4;
                JS.or (JS.shl (default 0 (Writer.disposal (nulls_kept o))) 2)
                      (if ut then 1 else 0);
                JS.and (num (Writer.unless_undefined (Writer.null_delay o))) 0xFF;
                JS.and (JS.shr (num (Writer.unless_undefined (Writer.null_delay o))) 8)
                       0xFF;
                ti; 0]
           else mret tt) ste
          = Writer.graphics_control_extension
              (default 0 (Writer.disposal (nulls_kept o)))
              (default 0 (Writer.delay (nulls_kept o))) ut ti ste) as ->; [|done].
  unfold Writer.graphics_control_extension.
  destruct zero_bytes_65536 as [Hlo Hhi].
  destruct o as [pl [| |dl] [| |dp] tr]; cbn [nulls_kept nulls_absent has_null
    Writer.null_delay Writer.null_disposal Writer.delay Writer.disposal
    Writer.unless_undefined Writer.is_not_zero num default from_option];
    try reflexivity.
  all: unfold id; change (0 =? 0) with true; cbn [negb orb].
  all: try (change (negb (65536 =? 0)) with true;
            by rewrite ?orb_true_r, ?Hlo, ?Hhi).
  all: destruct (Z.eqb_spec dl 0) as [->|Hne].
  all: try (change (negb (65536 =? 0)) with true;
            change (negb (0 =? 0)) with false;
            by rewrite ?orb_true_r, ?Hlo, ?Hhi).
  all: assert (negb (dl =? 0) = true) as ->
         by (apply negb_true_iff, Z.eqb_neq; done).
  all: by rewrite ?orb_true_r.
Qed.

Lemma sim_addFrame x y w h idx o :
  sim (addFrame x y w h idx o) (Writer.addFrame x y w h idx (nulls_absent o)).
Proof.
  unfold addFrame, Writer.addFrame.
  apply sim_bind; [|intros _].
  { intros s. unfold Writer.un_end. simpl. by destruct (ended s). }
  do 3 (apply sim_bind; [apply sim_throw_if|intros _]).
  apply sim_get. intros s0. cbv zeta.
  assert (match Writer.null_palette o with
          | Writer.Given pal => Some pal
          | _ => globalPalette s0
          end
          = match Writer.frame_palette (nulls_absent o) with
            | Some pal => Some pal
            | None => Writer.global_palette (to_writer s0)
            end) as -> by (by destruct o as [[| |pal] dl dp tr]).
  destruct (match Writer.frame_palette (nulls_absent o) with
            | Some pal => Some pal
            | None => Writer.global_palette (to_writer s0)
            end) as [pal|]; [|apply sim_throw].
  apply sim_bind; [apply sim_check|intros n].
  assert (match Writer.null_disposal o with Writer.Given d => d | _ => 0 end
          = default 0 (Writer.disposal (nulls_absent o))) as ->
    by (by destruct o as [pl dl [| |dp] tr]).
  assert (match Writer.null_delay o with Writer.Given d => d | _ => 0 end
          = default 0 (Writer.delay (nulls_absent o))) as ->
    by (by destruct o as [pl [| |dl] dp tr]).
  assert ((match Writer.null_palette o with Writer.Given _ => true | _ => false end)
          = bool_decide (is_Some (Writer.frame_palette (nulls_absent o)))) as ->
    by (by destruct o as [[| |pl] dl dp tr]).
  apply sim_bind; [apply sim_throw_if|intros _].
  apply sim_bind.
  { unfold Writer.transparency.
    destruct o as [pl dl dp [| |tr]]; cbn [nulls_absent Writer.null_transparent
      Writer.transparent]; try apply sim_ret.
    apply sim_bind; [apply sim_throw_if|intros _]. apply sim_ret. }
  intros [ut ti].
  apply sim_bind; [|intros _].
  { unfold Writer.graphics_control_extension.
    destruct (_ || _ || _); [apply sim_store_all|apply sim_ret]. }
  apply sim_bind; [apply sim_store_all|intros _].
  apply sim_bind; [|intros _].
  { destruct (bool_decide _); [apply sim_store_colors|apply sim_ret]. }
  apply sim_output_lzw.
Qed.

(** ** The constructor *)

Definition sim_at {A : Type} (c : M A) (c' : Writer.M A) (s : state) : Prop :=
  c' (to_writer s) = (to_writer (c s).1, (c s).2)
  ∧ width (c s).1 = width s ∧ height (c s).1 = height s
  ∧ globalPalette (c s).1 = globalPalette s.

Lemma sim_sim_at {A} (c : M A) c' s : sim c c' → sim_at c c' s.
Proof. intros H. apply H. Qed.

Lemma sim_at_bind {A B} (c : M A) (c' : Writer.M A) (f : A → M B)
    (f' : A → Writer.M B) s :
  sim_at c c' s →
  (∀ a s1, width s1 = width s → height s1 = height s →
           globalPalette s1 = globalPalette s → sim_at (f a) (f' a) s1) →
  sim_at (c ≫= f) (c' ≫= f') s.
Proof.
  intros (Hc1 & Hw & Hh & Hg) Hf. unfold sim_at.
  unfold mbind, M_bind, Writer.M_bind. rewrite Hc1.
  destruct (c s) as [s1 [a|e]]; simpl in *; [|done].
  destruct (Hf a s1 Hw Hh Hg) as (Hf1 & Hw' & Hh' & Hg').
  rewrite Hf1. split_and!; [done|congruence..].
Qed.

Lemma sim_at_eq {A} (c d : M A) c' s : c s = d s → sim_at d c' s → sim_at c c' s.
Proof. unfold sim_at. by intros ->. Qed.

Lemma bind_assoc {A B C} (m : M A) (f : A → M B) (g : B → M C) s :
  ((m ≫= f) ≫= g) s = (m ≫= λ a, f a ≫= g) s.
Proof. unfold mbind, M_bind. by destruct (m s) as [s1 [a|e]]. Qed.

Lemma sim_at_table_fields o s :
  globalPalette s = Writer.palette o →
  sim_at
    (match globalPalette s with
     | Some gp =>
         gp_num_colors ← checkPaletteAndNumColors gp;
         let gp_num_colors_pow2 := Writer.shift_count 32 gp_num_colors 0 in
         let gp_num_colors := JS.shl 1 gp_num_colors_pow2 in
         let gp_num_colors_pow2 := gp_num_colors_pow2 - 1 in
         match Writer.background o with
         | Some background =>
             throw_if (gp_num_colors <=? background) BackgroundOutOfRange;;
             throw_if (background =? 0) BackgroundZero;;
             mret (gp_num_colors_pow2, background)
         | None => mret (gp_num_colors_pow2, 0)
         end
     | None => mret (0, 0)
     end)
    (Writer.global_table_fields o) s.
Proof.
  intros ->. apply sim_sim_at. unfold Writer.global_table_fields.
  destruct (Writer.palette o) as [gp|]; [|apply sim_ret].
  apply sim_bind; [apply sim_check|intros n]. cbv zeta.
  destruct (Writer.background o) as [bg|]; [|apply sim_ret].
  do 2 (apply sim_bind; [apply sim_throw_if|intros _]). apply sim_ret.
Qed.

Lemma sim_at_color_table o s :
  globalPalette s = Writer.palette o →
  sim_at writeGlobalColorTable
    (match Writer.palette o with
     | Some gp => Writer.write_color_table gp
     | None => mret tt
     end) s.
Proof.
  intros Hg. unfold sim_at, writeGlobalColorTable. rewrite Hg.
  destruct (Writer.palette o) as [gp|]; [|done].
  destruct (sim_store_colors gp s) as (? & ? & ? & ?). by rewrite <- Hg.
Qed.

Lemma stores_then {B} v1 v2 v3 v4 v5 v6 v7 (k : M B) s :
  ((store v1;; store v2;; store v3;; store v4;; store v5;; store v6;; store v7);; k) s
  = (store v1;; store v2;; store v3;; store v4;; store v5;; store v6;; store v7;; k) s.
Proof. reflexivity. Qed.

Lemma constructor_sim w h o s0 :
  width s0 = w → height s0 = h → globalPalette s0 = Writer.palette o →
  sim_at (constructor_body w h o) (Writer.constructor_body w h o) s0.
Proof.
  intros Hw0 Hh0 Hg0. unfold constructor_body, Writer.constructor_body.
  apply sim_at_bind; [apply sim_sim_at, sim_throw_if|].
  intros _ s1 Hw1 Hh1 Hg1.
  apply sim_at_bind; [apply sim_sim_at, sim_store_all|].
  intros _ s2 Hw2 Hh2 Hg2.
  assert (width s2 = w ∧ height s2 = h ∧ globalPalette s2 = Writer.palette o)
    as (Hw & Hh & Hg) by (split_and!; congruence).
  clear dependent s1. clear dependent s0. unfold writeLogicalScreenDescriptor.
  eapply sim_at_eq; [apply bind_assoc|].
  apply sim_at_bind; [by apply sim_at_table_fields|].
  intros [a b] s3 Hw3 Hh3 Hg3. rewrite Hw, Hh, Hg.
  eapply sim_at_eq; [apply stores_then|].
  assert (globalPalette s3 = Writer.palette o) as Hg' by congruence.
  clear dependent s2.
  do 7 (apply sim_at_bind; [apply sim_sim_at, sim_store|];
        let s' := fresh "s" in let Hgs := fresh "Hg" in
        intros _ s' _ _ Hgs; rewrite Hg' in Hgs;
        clear dependent s3; rename s' into s3; rename Hgs into Hg').
  apply sim_at_bind; [by apply sim_at_color_table|].
  intros _ s4 _ _ _. apply sim_sim_at, sim_netscape.
Qed.

End WriterClassFacts.


(** * The claims about the writer *)

Section WriterClaims.
Import Writer WriterFacts.

(** C4, as stated, fails: without a global palette the [background] option
    is not looked at, so the construction succeeds, even for a background
    of 0. *)
Lemma C4_counterexample :
  snd (GifWriter (replicate 32 0) 1 1
         {| palette := None; loop := None; background := Some 0 |}) = Return tt.
Proof. vm_compute. reflexivity. Qed.

(** C4, amended. When [options.background] is supplied together with a
    global palette, the construction fails with a validation error if the
    background is 0 or is not less than the size of the global palette; when
    no global palette is supplied, the background is ignored: the
    constructor does what it does without the option. *)
Theorem C4_background_validation (buf0 : list Z) (width height bg : Z)
    (loop : option Z) :
  (∀ pal : list Z,
     bg = 0 ∨ Z.of_nat (length pal) ≤ bg →
     ∃ st e,
       GifWriter buf0 width height
         {| palette := Some pal; loop := loop; background := Some bg |}
       = (st, Throw e)
       ∧ e ∈ [WidthHeightInvalid; InvalidColorLength;
              BackgroundOutOfRange; BackgroundZero])
  ∧ GifWriter buf0 width height
      {| palette := None; loop := loop; background := Some bg |}
    = GifWriter buf0 width height
        {| palette := None; loop := loop; background := None |}.
Proof.
  split.
  - intros pal Hbg. rewrite GifWriter_unfold.
    destruct (dims_invalid width height); [eexists _, _; split; [done|repeat constructor]|].
    unfold after_header. rewrite bind_eq.
    set (o := Build_WriterOptions _ _ _). set (st := Build_writer _ _ _ _).
    destruct (palette_size_ok (Z.of_nat (length pal))) eqn:Hok.
    + apply palette_size_ok_spec in Hok.
      rewrite (global_table_fields_background o pal bg) by done.
      destruct (_ <=? bg) eqn:E1; [eexists _, _; split; [done|repeat constructor]|].
      destruct (bg =? 0) eqn:E2; [eexists _, _; split; [done|repeat constructor]|]. lia.
    + unfold global_table_fields. simpl. rewrite bind_eq.
      unfold check_palette_and_num_colors. unfold palette_size_ok in Hok.
      apply negb_false_iff in Hok. rewrite Hok.
      eexists _, _; split; [done|repeat constructor].
  - rewrite !GifWriter_unfold. destruct (dims_invalid width height); [done|].
    unfold after_header. rewrite !bind_eq.
    by rewrite !global_table_fields_no_palette by done.
Qed.

Lemma C4_witness :
  ∃ st e,
    GifWriter (replicate 32 0) 1 1
      {| palette := Some [0; 0xFFFFFF]; loop := None; background := Some 0 |}
    = (st, Throw e)
    ∧ e ∈ [WidthHeightInvalid; InvalidColorLength; BackgroundOutOfRange; BackgroundZero].
Proof.
  apply (proj1 (C4_background_validation (replicate 32 0) 1 1 0 None) [0; 0xFFFFFF]).
  left. reflexivity.
Defined.

(** C9, as stated, fails: a constructor call that throws on the palette
    size has written the header before. *)
Lemma C9_counterexample :
  ∃ st,
    GifWriter (replicate 16 0) 1 1
      {| palette := Some [0; 0; 0]; loop := None; background := None |}
    = (st, Throw InvalidColorLength)
    ∧ buf st ≠ replicate 16 0.
Proof. eexists. split; [vm_compute; reflexivity | vm_compute; discriminate]. Qed.

(** C9, amended. A constructor call that fails on the dimensions has
    written nothing; one that fails on the palette size or on the background
    has written the six header bytes and nothing else; one that fails on the
    loop count has written all that the constructor writes without the
    [loop] option. An [addFrame] that fails with a validation error leaves
    the contents of the buffer as they were; the cursor is as it was, except
    that on a finalized stream it has been moved back over the trailer. *)
Theorem C9_validation_effects :
  (∀ buf0 width height options st e,
     GifWriter buf0 width height options = (st, Throw e) →
     (e = WidthHeightInvalid ∧ buf st = buf0 ∧ p st = 0)
     ∨ (e ∈ [InvalidColorLength; BackgroundOutOfRange; BackgroundZero]
        ∧ buf st = store_bytes buf0 0 [0x47; 0x49; 0x46; 0x38; 0x39; 0x61]
        ∧ p st = 6)
     ∨ (e = LoopCountInvalid
        ∧ GifWriter buf0 width height (no_loop options) = (st, Return tt)))
  ∧ (∀ x y w h indexed_pixels opts st st' e,
       addFrame x y w h indexed_pixels opts st = (st', Throw e) →
       buf st' = buf st
       ∧ p st' = (if ended st then p st - 1 else p st)
       ∧ ended st' = false).
Proof.
  split.
  - intros buf0 width height o st e. rewrite !GifWriter_unfold.
    destruct (dims_invalid width height).
    + intros ?. simplify_eq. by left.
    + intros [[-> He]|[-> H]]%after_header_Throw; right; [left|right]; done.
  - intros x y w h idx opts st st' e [-> _]%addFrame_Throw.
    unfold resumed. by destruct (ended st) eqn:E.
Qed.

Lemma C9_witness :
  let st := Build_writer (replicate 8 0) 3 true None in
  let st' := fst (addFrame 0 0 0 0 [] (Build_FrameOptions None None None None) st) in
  buf st' = buf st ∧ p st' = 2 ∧ ended st' = false.
Proof.
  intros st st'.
  exact (proj2 C9_validation_effects 0 0 0 0 []
           (Build_FrameOptions None None None None) st st' WidthHeightInvalid eq_refl).
Defined.

(** C10. The encoder reads every input index through the mask
    [2 ^ min_code_size - 1]: the code stream of a sequence and that of the
    sequence reduced modulo [2 ^ min_code_size] are the same, whatever the
    values. So [addFrame], whose checks look at the number of pixels only,
    succeeds on indices at or above the palette size and writes what it
    writes for the reduced indices. *)
Theorem C10_encoder_masks_indices :
  (∀ buf0 p0 m index_stream,
     0 ≤ m ≤ 8 →
     Encoder.GifWriterOutputLZWCodeStream buf0 p0 m index_stream
     = Encoder.GifWriterOutputLZWCodeStream buf0 p0 m
         (map (λ i, i mod 2 ^ m) index_stream))
  ∧ (∀ st x y w h indexed_pixels opts pal,
       0 ≤ x ≤ 65535 → 0 ≤ y ≤ 65535 → 0 < w ≤ 65535 → 0 < h ≤ 65535 →
       w * h ≤ Z.of_nat (length indexed_pixels) →
       effective_palette (global_palette st) opts = Some pal →
       Z.of_nat (length pal) ∈ [2; 4; 8; 16; 32; 64; 128; 256] →
       0 ≤ default 0 (disposal opts) ≤ 3 →
       (∀ t, transparent opts = Some t → 0 ≤ t < Z.of_nat (length pal)) →
       let m := Z.max 2 (Z.log2 (Z.of_nat (length pal))) in
       ∃ st' n,
         addFrame x y w h indexed_pixels opts st = (st', Return n)
         ∧ addFrame x y w h (map (λ i, i mod 2 ^ m) indexed_pixels) opts st
           = (st', Return n)).
Proof.
  split.
  - intros buf0 p0 m idx Hm. symmetry. apply EncoderMask.output_mask. lia.
  - intros st x y w h idx opts pal Hx Hy Hw Hh Hn Hpal Hsz Hd Ht m.
    rewrite !addFrame_eq, length_map.
    destruct (validate_Return (global_palette st) x y w h (length idx) opts pal)
      as (pl & -> & Hm); try done.
    destruct (write_frame_Return x y w h idx pl (resumed st)) as (st' & Hw1 & _).
    exists st', (p st'). split; [done|].
    assert (m = if min_code_size pl <? 2 then 2 else min_code_size pl) as ->.
    { rewrite Hm. unfold m. destruct (_ <? 2) eqn:E; lia. }
    rewrite WriterMask.write_frame_mask; [done|].
    rewrite Hm.
    assert (0 ≤ Z.log2 (Z.of_nat (length pal)) ≤ 8); [|destruct (_ <? 2); lia].
    repeat (apply elem_of_cons in Hsz as [->|Hsz]; [vm_compute; split; discriminate|]).
    by apply elem_of_nil in Hsz.
Qed.

Lemma C10_witness :
  let st := Build_writer (replicate 64 0) 13 false (Some [0; 0xFFFFFF]) in
  ∃ st' n,
    addFrame 0 0 2 2 [0; 1; 5; 255] (Build_FrameOptions None None None None) st
    = (st', Return n)
    ∧ addFrame 0 0 2 2 [0; 1; 1; 3] (Build_FrameOptions None None None None) st
      = (st', Return n).
Proof.
  intros st.
  apply (proj2 C10_encoder_masks_indices st 0 0 2 2 [0; 1; 5; 255]
           (Build_FrameOptions None None None None) [0; 0xFFFFFF]);
    simpl; try lia; try done.
  repeat constructor.
Defined.

End WriterClaims.


(** * The claims about the header and the parser *)

Section HeaderClaim.
Import WriterFacts ReaderFacts.

Lemma take_6_eq (l1 l2 : list Z) :
  (∀ i, 0 ≤ i < 6 → buf_get l1 i = buf_get l2 i) → take 6 l1 = take 6 l2.
Proof.
  intros H. apply list_eq. intros i. rewrite !lookup_take.
  case_decide; [|done]. rewrite <- !buf_get_nat. apply H. lia.
Qed.

(** C3. The buffer of a writer that was constructed begins with the six
    bytes of [GIF89a]; the constructor of the reader throws its header error
    on the buffers that begin with neither [GIF87a] nor [GIF89a], and on no
    other buffer. *)
Theorem C3_header_bytes :
  (∀ buf0 width height options st,
     (6 ≤ length buf0)%nat →
     Writer.GifWriter buf0 width height options = (st, Return tt) →
     take 6 (Writer.buf st) = [0x47; 0x49; 0x46; 0x38; 0x39; 0x61])
  ∧ (∀ buf,
       Forall (λ b, 0 ≤ b < 256) buf →
       Reader.Reader buf = Some (Throw InvalidHeader)
       ↔ ¬ (take 6 buf = [0x47; 0x49; 0x46; 0x38; 0x37; 0x61]
            ∨ take 6 buf = [0x47; 0x49; 0x46; 0x38; 0x39; 0x61])).
Proof.
  split.
  - intros buf0 width height o st Hlen. rewrite GifWriter_unfold.
    destruct (dims_invalid width height); [done|].
    intros (_ & _ & Hkeep & _)%appends_after_header. simpl in Hkeep.
    rewrite (take_6_eq _ _ (λ i Hi, Hkeep i (proj2 Hi))).
    destruct buf0 as [|b0 [|b1 [|b2 [|b3 [|b4 [|b5 rest]]]]]]; simpl in Hlen; try lia.
    reflexivity.
  - intros buf Hbytes. rewrite Reader_InvalidHeader.
    rewrite <- (header_ok_spec buf Hbytes). by destruct (Reader.header_ok buf).
Qed.

Lemma C3_witness :
  take 6 (Writer.buf (fst (Writer.GifWriter (replicate 13 0) 1 1
                             (Writer.Build_WriterOptions None None None))))
  = [0x47; 0x49; 0x46; 0x38; 0x39; 0x61].
Proof.
  refine (proj1 C3_header_bytes (replicate 13 0) 1 1
            (Writer.Build_WriterOptions None None None) _ _ _).
  - vm_compute. lia.
  - vm_compute. reflexivity.
Defined.

End HeaderClaim.

Section ParserClaims.
Import Reader ReaderFacts.

Definition header_89a : list Z := [0x47; 0x49; 0x46; 0x38; 0x39; 0x61].

(** The bytes of a frame of one pixel of index 1, without a local palette:
    image descriptor, minimum code size 2 and one sub-block. *)
Definition one_pixel_frame : list Z :=
  [0x2C; 0; 0; 0; 0; 1; 0; 1; 0; 0] ++ [2; 2; 76; 1; 0].

(** A one pixel canvas with a global palette of two colours, as the
    constructor reads it: width, height, packed fields and one more byte,
    then the palette. *)
Definition screen_2_colours : list Z :=
  [1; 0; 1; 0; 0x80; 0] ++ [0; 0; 0; 255; 255; 255].

(** A graphics control extension (disposal 2, transparent index 1, delay
    10) and two frames, the second without an extension of its own. *)
Definition two_frames_one_extension : list Z :=
  header_89a ++ screen_2_colours
  ++ [0x21; 0xF9; 4; 0x09; 10; 0; 1; 0]
  ++ one_pixel_frame ++ one_pixel_frame ++ [0x3B].

(** C5 fails on the code: the variables [delay], [transparent_index] and
    [disposal] are set by a graphics control extension and never set back,
    so the image descriptor case copies them into every later frame. On
    [two_frames_one_extension] the second frame, which has no extension of
    its own, gets delay 10, disposal 2 and transparent index 1. *)
Theorem C5_extension_values_persist :
  (∀ buf gpo gps st p st1,
     image_descriptor buf gpo gps st p = Some (Return st1) →
     ps_delay st1 = ps_delay st
     ∧ ps_disposal st1 = ps_disposal st
     ∧ ps_transparent_index st1 = ps_transparent_index st
     ∧ ∃ f, ps_frames st1 = ps_frames st ++ [f]
            ∧ delay f = ps_delay st ∧ disposal f = ps_disposal st
            ∧ transparent_index f = ps_transparent_index st)
  ∧ ∃ r, Reader two_frames_one_extension = Some (Return r)
         ∧ map (λ f, (delay f, disposal f, transparent_index f)) (frames r)
           = [(10, 2, Some 1); (10, 2, Some 1)].
Proof.
  split.
  - intros buf gpo gps st p st1. unfold image_descriptor.
    destruct (JS.truthy _).
    all: destruct (skip_subblocks _ _ _) as [[q|e]|]; intros ?; simplify_eq.
    all: simpl; split_and!; try done; eexists; split_and!; done.
  - eexists. split; [vm_compute; reflexivity|]. reflexivity.
Qed.

Lemma C5_witness :
  let buf := two_frames_one_extension in
  let st := Parse 26 true 10 (Some 1) 2 [] None in
  ∃ st1, image_descriptor buf (Some 12) (Some 2) st 27 = Some (Return st1)
         ∧ ps_delay st1 = 10.
Proof.
  intros buf st. eexists. split; [vm_compute; reflexivity|].
  refine (proj1 (proj1 C5_extension_values_persist buf (Some 12) (Some 2) st 27 _ _)).
  vm_compute. reflexivity.
Defined.

(** An application extension of block size 3 followed by a comment
    extension and the trailer. *)
Definition foreign_application_extension : list Z :=
  header_89a ++ screen_2_colours
  ++ [0x21; 0xFF; 3; 65; 66; 67; 0]
  ++ [0x21; 0xFE; 8; 7; 7; 7; 7; 7; 7; 5; 1; 0]
  ++ [0x3B].

(** The same application extension followed by a frame. *)
Definition foreign_application_extension_frame : list Z :=
  header_89a ++ screen_2_colours
  ++ [0x21; 0xFF; 3; 65; 66; 67; 0]
  ++ one_pixel_frame ++ [0x3B].

(** An application extension of block size 11 that is not the looping
    extension, followed by a frame. *)
Definition other_application_extension_frame : list Z :=
  header_89a ++ screen_2_colours
  ++ [0x21; 0xFF; 11; 65; 66; 67; 65; 66; 67; 65; 66; 67; 65; 66; 2; 1; 2; 0]
  ++ one_pixel_frame ++ [0x3B].

(** C6 fails on the code: the test of the application extension is
    [buf[p] !== 0x0B || (NETSCAPE2.0 ...)], so every block whose size is not
    0x0B goes the way of the looping extension: the loop count is read at
    [p + 14] and the cursor moves by 17. On [foreign_application_extension]
    the loop count becomes 261 (bytes of the comment that follows); on
    [foreign_application_extension_frame] the frame is lost and the
    constructor throws. An extension of block size 0x0B without the
    signature is skipped by its sub-blocks. *)
Theorem C6_foreign_application_extension :
  (∀ buf st p,
     buf_get buf p ≠ Some 0x0B →
     application_extension buf st p
     = Some (Return (Parse (p + 17) (ps_no_eof st) (ps_delay st)
                           (ps_transparent_index st) (ps_disposal st)
                           (ps_frames st) (Some (u16 buf (p + 14))))))
  ∧ (∃ r, Reader foreign_application_extension = Some (Return r)
          ∧ loop_count r = Some 261)
  ∧ Reader foreign_application_extension_frame
    = Some (Throw (UnknownGifBlock (Some 76)))
  ∧ (∃ r, Reader other_application_extension_frame = Some (Return r)
          ∧ loop_count r = None ∧ length (frames r) = 1%nat).
Proof.
  split_and!.
  - intros buf st p Hp. unfold application_extension, netscape_test.
    replace (byte_is buf p 0x0B) with false; [done|].
    symmetry. unfold byte_is. by apply bool_decide_eq_false.
  - eexists. split; [vm_compute; reflexivity|]. reflexivity.
  - vm_compute. reflexivity.
  - eexists. split; [vm_compute; reflexivity|]. split; reflexivity.
Qed.

Lemma C6_witness :
  let buf := foreign_application_extension in
  let st := Parse 18 true 0 None 0 [] None in
  application_extension buf st 20 = Some (Return (Parse 37 true 0 None 0 [] (Some 261))).
Proof.
  intros buf st.
  refine (proj1 C6_foreign_application_extension buf st 20 _).
  vm_compute. discriminate.
Defined.

End ParserClaims.


(** * The claim about the rows of an interlaced frame *)

Section BlitClaim.
Import Reader BlitFacts.

(** Colour [i] of the palette of the examples, and a canvas one pixel wide
    and eight pixels high with that global palette. *)
Definition colour (i : Z) : list Z := [10 * (i + 1); 20 * (i + 1); 30 * (i + 1)].

Definition screen_8_rows : list Z :=
  [1; 0; 8; 0; 0x82; 0] ++ concat (map colour [0; 1; 2; 3; 4; 5; 6; 7]).

(** A frame of eight rows whose index stream is [0; 1; ...; 7]. *)
Definition frame_8_rows (packed : Z) : list Z :=
  header_89a ++ screen_8_rows
  ++ [0x2C; 0; 0; 0; 0; 1; 0; 8; 0; packed] ++ [3; 6; 8; 33; 67; 101; 39; 1; 0]
  ++ [0x3B].

(** An interlaced frame of two rows whose index stream is [1; 2]. *)
Definition interlaced_2_rows : list Z :=
  header_89a ++ screen_8_rows
  ++ [0x2C; 0; 0; 0; 0; 1; 0; 2; 0; 0x40] ++ [3; 2; 24; 146; 0]
  ++ [0x3B].

(** The canvas after frame 0 is put on [n] zero bytes. *)
Definition blit_of (buf : list Z) (n : nat) : option (list Z) :=
  match Reader buf with
  | Some (Return r) =>
      match decodeAndBlitFrameRGBA 20 r 0 (replicate n 0) with
      | Some (px, Return _) => Some px
      | _ => None
      end
  | _ => None
  end.

(** Row [row] of a canvas one pixel wide. *)
Definition canvas_row (px : list Z) (row : nat) : list Z := take 4 (drop (4 * row) px).

Definition rgba (i : Z) : list Z := colour i ++ [255].

(** C8 fails on the code for the interlaced frames of 2, 3 or 4 rows. The
    blitters go to the next pass by one [if (op >= opend)]: when the first
    row of that pass, row 4, is below the frame as well, it is written all
    the same. So the second row of the stream of such a frame goes to row 4;
    on [interlaced_2_rows] row 1 is never written, and on a canvas of two
    rows the second row is lost. For an interlaced frame of one row, or of
    five rows and more, the rows of the stream go to the rows 0, 8, 16, ...,
    then 4, 12, 20, ..., then 2, 6, 10, ..., then 1, 3, 5, ... of the frame;
    for the frame of eight rows that is 0, 4, 2, 6, 1, 3, 5, 7. Without the
    interlace flag the rows go from top to bottom. *)
Theorem C8_interlace_rows :
  (∀ r frame order palette_offset trans px,
     0 < width frame → 0 < canvas_width r →
     (interlaced frame = true →
      height frame = 1 ∨ 5 ≤ height frame →
      ∀ g1 g2 g3 g4,
        Z.of_nat (length g1) = (height frame + 7) / 8 →
        Z.of_nat (length g2) = (height frame + 3) / 8 →
        Z.of_nat (length g3) = (height frame + 1) / 4 →
        Z.of_nat (length g4) = height frame / 2 →
        Forall (λ indices, Z.of_nat (length indices) = width frame)
               (g1 ++ g2 ++ g3 ++ g4) →
        blit_all r frame order palette_offset trans (concat (g1 ++ g2 ++ g3 ++ g4)) px
        = paint_rows r frame order palette_offset trans
            (paint_rows r frame order palette_offset trans
               (paint_rows r frame order palette_offset trans
                  (paint_rows r frame order palette_offset trans px 0 8 g1)
                  4 8 g2)
               2 4 g3)
            1 2 g4)
     ∧ (interlaced frame = false →
        ∀ rows,
          rows ≠ [] → Z.of_nat (length rows) ≤ height frame →
          Forall (λ indices, Z.of_nat (length indices) = width frame) rows →
          blit_all r frame order palette_offset trans (concat rows) px
          = paint_rows r frame order palette_offset trans px 0 1 rows)
     ∧ (interlaced frame = true →
        2 ≤ height frame ≤ 4 →
        ∀ row1 row2,
          Z.of_nat (length row1) = width frame →
          Z.of_nat (length row2) = width frame →
          blit_all r frame order palette_offset trans (row1 ++ row2) px
          = paint_row r order palette_offset trans
              (paint_row r order palette_offset trans px (row_op r frame 0) row1)
              (row_op r frame 4) row2))
  ∧ (∃ px, blit_of (frame_8_rows 0x40) 32 = Some px
           ∧ map (canvas_row px) [0; 4; 2; 6; 1; 3; 5; 7]%nat
             = map rgba [0; 1; 2; 3; 4; 5; 6; 7])
  ∧ (∃ px, blit_of (frame_8_rows 0) 32 = Some px
           ∧ map (canvas_row px) [0; 1; 2; 3; 4; 5; 6; 7]%nat
             = map rgba [0; 1; 2; 3; 4; 5; 6; 7])
  ∧ (∃ px, blit_of interlaced_2_rows 32 = Some px
           ∧ canvas_row px 0 = rgba 1
           ∧ canvas_row px 1 = [0; 0; 0; 0]
           ∧ canvas_row px 4 = rgba 2)
  ∧ blit_of interlaced_2_rows 8 = Some (rgba 1 ++ [0; 0; 0; 0]).
Proof.
  split_and!.
  - intros r frame order palette_offset trans px Hw HW. split_and!.
    + intros Hint Hh g1 g2 g3 g4. by apply interlaced_blit.
    + intros Hint rows. by apply natural_blit.
    + intros Hint Hh row1 row2. by apply small_interlaced_blit.
  - eexists. split; [vm_compute; reflexivity|]. reflexivity.
  - eexists. split; [vm_compute; reflexivity|]. reflexivity.
  - eexists. split; [vm_compute; reflexivity|]. split_and!; reflexivity.
  - vm_compute. reflexivity.
Qed.

(** The readers and the frames that the constructor makes of
    [frame_8_rows] and of [interlaced_2_rows]. *)
Lemma C8_witness :
  (∃ r frame,
     Reader (frame_8_rows 0x40) = Some (Return r) ∧ frames r = [frame]
     ∧ blit_all r frame RGBA 12 256
         (concat ([[0]] ++ [[1]] ++ [[2]; [3]] ++ [[4]; [5]; [6]; [7]]))
         (replicate 32 0)
       = paint_rows r frame RGBA 12 256
           (paint_rows r frame RGBA 12 256
              (paint_rows r frame RGBA 12 256
                 (paint_rows r frame RGBA 12 256 (replicate 32 0) 0 8 [[0]])
                 4 8 [[1]])
              2 4 [[2]; [3]])
           1 2 [[4]; [5]; [6]; [7]])
  ∧ (∃ r frame,
       Reader interlaced_2_rows = Some (Return r) ∧ frames r = [frame]
       ∧ blit_all r frame RGBA 12 256 ([1] ++ [2]) (replicate 32 0)
         = paint_row r RGBA 12 256
             (paint_row r RGBA 12 256 (replicate 32 0) (row_op r frame 0) [1])
             (row_op r frame 4) [2]).
Proof.
  split.
  - eexists. eexists. split; [vm_compute; reflexivity|]. split; [reflexivity|].
    refine (proj1 (proj1 C8_interlace_rows _ _ RGBA 12 256 (replicate 32 0) _ _)
              _ _ [[0]] [[1]] [[2]; [3]] [[4]; [5]; [6]; [7]] _ _ _ _ _);
      simpl; try lia; try reflexivity.
    repeat constructor.
  - eexists. eexists. split; [vm_compute; reflexivity|]. split; [reflexivity|].
    refine (proj2 (proj2 (proj1 C8_interlace_rows _ _ RGBA 12 256 (replicate 32 0) _ _))
              _ _ [1] [2] _ _); simpl; try lia; reflexivity.
Defined.

End BlitClaim.


(** * The claims about the LZW coder *)

Section CodecClaims.
Import WriterFacts CodecFacts.

(** The row of [gen_block256]: [stream[i] = i & 0x7], 4840 pixels wide. *)
Definition block256_row : list Z := map (λ i, JS.and i 0x7) (seqZ 0 4840).

(** A stream without regularity: the high bytes of a linear congruential
    sequence. *)
Fixpoint noise (n : nat) (seed : Z) : list Z :=
  match n with
  | O => []
  | S n' =>
      (seed / 65536) mod 256
      :: noise n' ((seed * 1103515245 + 12345) mod 2147483648)
  end.

Definition noise_stream : list Z := noise (Z.to_nat 4000) 1.
Definition noise_buffer : list Z := replicate (Z.to_nat 6000) 0.

Lemma noise_length n : ∀ seed, length (noise n seed) = n.
Proof. induction n as [|n IH]; intros seed; simpl; [done|]. by rewrite IH. Qed.

Lemma noise_range n : ∀ seed, Forall (λ i, 0 ≤ i < 2 ^ 8) (noise n seed).
Proof.
  induction n as [|n IH]; intros seed; simpl; constructor; [|apply IH].
  change (2 ^ 8) with 256. apply Z.mod_pos_bound. lia.
Qed.

(** The code size that [addFrame] passes to the encoder. *)
Lemma code_size_of_palette n :
  n ∈ pow2_sizes →
  let m := Z.max 2 (Z.log2 n) in
  (if Writer.log2_by_shifts n <? 2 then 2 else Writer.log2_by_shifts n) = m
  ∧ 2 ≤ m ≤ 8 ∧ n ≤ 2 ^ m.
Proof.
  intros H. unfold pow2_sizes in H.
  repeat (apply elem_of_cons in H as [->|H]; [vm_compute; intuition congruence|]).
  by apply elem_of_nil in H.
Qed.

Lemma map_mod_id m (l : list Z) :
  Forall (λ i, 0 ≤ i < 2 ^ m) l → map (λ x, x mod 2 ^ m) l = l.
Proof.
  induction 1 as [|x l Hx _ IH]; simpl; [done|].
  rewrite IH. f_equal. by apply Z.mod_small.
Qed.

(** C1: the decoder [readerLZWOutputIndexStream], run on what the encoder
    [GifWriterOutputLZWCodeStream] has written for a non-empty index
    sequence with values in [0, palette_size), gives the sequence back and
    logs no warning. The palette size is a power of two from 2 to 256; the
    code size is max(2, log2(palette_size)), which is the one [addFrame]
    passes. The buffer is long enough for what the encoder writes, the
    output array has one place per index, and twice the number of indices
    plus one are enough turns of the decoder loop. *)
Theorem C1_lzw_round_trip :
  ∀ palette_size index_stream buf0 p0 buf' p' output fuel,
    palette_size ∈ [2; 4; 8; 16; 32; 64; 128; 256] →
    index_stream ≠ [] →
    Forall (λ i, 0 ≤ i < palette_size) index_stream →
    let min_code_size := Z.max 2 (Z.log2 palette_size) in
    0 ≤ p0 →
    Encoder.GifWriterOutputLZWCodeStream buf0 p0 min_code_size index_stream
    = (buf', p') →
    p' ≤ Z.of_nat (length buf0) →
    length output = length index_stream →
    (2 * length index_stream + 1 ≤ fuel)%nat →
    (if Writer.log2_by_shifts palette_size <? 2 then 2
     else Writer.log2_by_shifts palette_size) = min_code_size
    ∧ Decoder.readerLZWOutputIndexStream fuel buf' p0 output
        (Z.of_nat (length index_stream))
      = Some (index_stream, None).
Proof.
  intros n idx buf0 p0 buf' p' output fuel Hn Hne Hidx m Hp0 Henc Hroom Hlen Hfuel.
  destruct (code_size_of_palette n Hn) as (Hcs & Hm & Hle). fold m in Hcs, Hm, Hle.
  split; [done|].
  rewrite (lzw_roundtrip m Hm buf0 p0 idx buf' p' output fuel) by done.
  rewrite map_mod_id; [done|].
  eapply Forall_impl; [exact Hidx|]. simpl. intros x Hx. lia.
Qed.

Lemma C1_witness :
  let r := Encoder.GifWriterOutputLZWCodeStream (replicate 16 0) 0 2 [0; 1; 1; 0] in
  r = ([2; 3; 68; 2; 5; 0; 0; 0; 0; 0; 0; 0; 0; 0; 0; 0], 6)
  ∧ Decoder.readerLZWOutputIndexStream 9 r.1 0 [0; 0; 0; 0] 4
    = Some ([0; 1; 1; 0], None).
Proof.
  intros r. split; [by vm_compute|].
  refine (proj2 (C1_lzw_round_trip 2 [0; 1; 1; 0] (replicate 16 0) 0 r.1 r.2
                   [0; 0; 0; 0] 9 _ _ _ _ _ _ _ _)).
  - repeat constructor.
  - done.
  - repeat constructor; lia.
  - lia.
  - by vm_compute.
  - by vm_compute.
  - done.
  - simpl. lia.
Defined.

(** C2, the example of the claim: the row of 4840 pixels that cycles through
    8 indices never fills the dictionary. The encoder ends with 284 as the
    next code and has put out no clear code but the first. *)
Lemma C2_counterexample :
  let st0 := Encoder.init 3 (replicate 300 0) 0 block256_row in
  mid_stream_clears 3 st0 (tail block256_row) = 0%nat
  ∧ Encoder.next_code (fold_left (Encoder.step 3) (tail block256_row) st0) = 284
  ∧ (Encoder.GifWriterOutputLZWCodeStream (replicate 300 0) 0 3 block256_row).2 = 258.
Proof. by vm_compute. Qed.

(** C2: after any number of turns of the encoder loop the next code is at
    most 4096 and every code in the table is at most 4095. The turn that
    finds the dictionary full (the key is not in the table and the next
    code is 4096) puts out the code of the index buffer and the clear code,
    both at the current width, and leaves an empty table, the code size
    min_code_size + 1 and the first free code, before the next index is
    read. A stream on which that has happened is given back by the decoder
    like any other. The row of 4840 pixels cycling through 8 indices is not
    such a stream. *)
Theorem C2_dictionary_full :
  ∀ m buf0 p0 index_stream,
    2 ≤ m ≤ 8 →
    let st0 := Encoder.init m buf0 p0 index_stream in
    (∀ n,
       let st := fold_left (Encoder.step m) (take n (tail index_stream)) st0 in
       Encoder.next_code st ≤ 4096
       ∧ (∀ key c, Encoder.code_table st !! key = Some c → c ≤ 4095)
       ∧ (∀ x, dictionary_full m st x = true →
            Encoder.step m st x
            = Encoder.State
                (Encoder.emit_code (Encoder.cur_code_size st) (Encoder.clear_code m)
                   (Encoder.emit_code (Encoder.cur_code_size st) (Encoder.ib_code st)
                                      (Encoder.pk st)))
                (m + 1) (Encoder.eoi_code m + 1) ∅
                (JS.and x (Encoder.code_mask m))))
    ∧ (∀ buf' p' output fuel,
         (0 < mid_stream_clears m st0 (tail index_stream))%nat →
         Forall (λ i, 0 ≤ i < 2 ^ m) index_stream →
         0 ≤ p0 →
         Encoder.GifWriterOutputLZWCodeStream buf0 p0 m index_stream = (buf', p') →
         p' ≤ Z.of_nat (length buf0) →
         length output = length index_stream →
         (2 * length index_stream + 1 ≤ fuel)%nat →
         Decoder.readerLZWOutputIndexStream fuel buf' p0 output
           (Z.of_nat (length index_stream))
         = Some (index_stream, None)).
Proof.
  intros m buf0 p0 idx Hm st0. split.
  - intros n st.
    destruct (fold_inv m Hm (take n (tail idx)) [] st0
                (EncoderFacts.enc_inv_init m Hm buf0 p0 idx)) as (G & Hinv).
    fold st in Hinv. split_and!.
    + by destruct Hinv.
    + intros key c Hlook.
      pose proof (enc_inv_table_bound m G st key c Hinv Hlook).
      destruct Hinv as [_ ? _ _ _ _]. lia.
    + intros x. by apply (dictionary_full_step m Hm G).
  - intros buf' p' output fuel Hclr Hidx Hp0 Henc Hroom Hlen Hfuel.
    assert (idx ≠ []) as Hne by (intros ->; simpl in Hclr; lia).
    rewrite (lzw_roundtrip m Hm buf0 p0 idx buf' p' output fuel) by done.
    by rewrite map_mod_id.
Qed.

Lemma C2_witness :
  let r := Encoder.GifWriterOutputLZWCodeStream noise_buffer 0 8 noise_stream in
  mid_stream_clears 8 (Encoder.init 8 noise_buffer 0 noise_stream) (tail noise_stream)
  = 1%nat
  ∧ Decoder.readerLZWOutputIndexStream (2 * length noise_stream + 1) r.1 0
      (replicate (length noise_stream) 0) (Z.of_nat (length noise_stream))
    = Some (noise_stream, None).
Proof.
  intros r.
  assert (mid_stream_clears 8 (Encoder.init 8 noise_buffer 0 noise_stream)
            (tail noise_stream) = 1%nat) as Hclr.
  { vm_compute. reflexivity. }
  split; [exact Hclr|].
  refine (proj2 (C2_dictionary_full 8 noise_buffer 0 noise_stream _) r.1 r.2
                (replicate (length noise_stream) 0) (2 * length noise_stream + 1)%nat
                _ _ _ _ _ _ _).
  - lia.
  - rewrite Hclr; apply Nat.lt_0_1.
  - apply noise_range.
  - lia.
  - apply surjective_pairing.
  - apply Z.leb_le; vm_compute; reflexivity.
  - apply length_replicate.
  - apply Nat.le_refl.
Defined.

End CodecClaims.


(** * The claim about the trailer *)

Section TrailerClaim.
Import Writer WriterFacts WriterLayout ReadBack.

(** C7. On a stream that is not finalized [end()] appends the one trailer
    byte 0x3B and returns the new length; a second [end()] changes nothing
    and returns the same length.

    An [addFrame] after [end()] goes back to the place of the trailer and
    appends from there. When it returns, it has done what it does on the
    stream that was never ended: the stream is not finalized any more, the
    cursor is the position returned, at least twelve bytes behind the place
    of the trailer; the bytes below that place and from the new cursor on
    are as they were, and in a buffer with room for the frame the byte of
    the trailer has given way to the first byte of the frame, 0x21 of the
    graphics control extension if the frame has one and 0x2C of the image
    descriptor if not. The [end()] that follows appends one trailer byte at
    the new cursor and returns the position behind it. When the [addFrame]
    throws, it has moved the cursor back to the place of the trailer, the
    stream is not finalized and the buffer is as [end()] left it. It returns
    on the finalized stream for the arguments for which it returns on the
    stream that was never ended. *)
Theorem C7_end_and_un_end (st : writer) :
  ended st = false →
  let st1 := Build_writer (buf_set (buf st) (p st) 0x3B) (p st + 1) true
                          (global_palette st) in
  end_ st = (st1, Return (p st + 1))
  ∧ end_ st1 = (st1, Return (p st + 1))
  ∧ (∀ x y w h idx opts st2 n,
      addFrame x y w h idx opts st1 = (st2, Return n) →
      addFrame x y w h idx opts st = (st2, Return n)
      ∧ p st2 = n
      ∧ end_ st2 = (Build_writer (buf_set (buf st2) n 0x3B) (n + 1) true
                                 (global_palette st2), Return (n + 1))
      ∧ ended st2 = false
      ∧ p st + 12 ≤ n
      ∧ length (buf st2) = length (buf st)
      ∧ (∀ i, i < p st ∨ n ≤ i → buf_get (buf st2) i = buf_get (buf st) i)
      ∧ (0 ≤ p st → n ≤ Z.of_nat (length (buf st)) →
         buf_get (buf st2) (p st)
         = Some (if writes_extension opts then 0x21 else 0x2C)))
  ∧ (∀ x y w h idx opts st2 e,
      addFrame x y w h idx opts st1 = (st2, Throw e) →
      st2 = Build_writer (buf_set (buf st) (p st) 0x3B) (p st) false
                         (global_palette st))
  ∧ (∀ x y w h idx opts,
      (∃ st2 n, addFrame x y w h idx opts st1 = (st2, Return n))
      ↔ (∃ st2 n, addFrame x y w h idx opts st = (st2, Return n))).
Proof.
  intros Hended st1.
  assert (resumed st = st) as Hr by (unfold resumed; by rewrite Hended).
  assert (resumed st1 = poke st 0x3B) as Hr1.
  { unfold resumed, poke, st1. simpl. f_equal; [lia|done]. }
  assert (∀ x y w h idx opts st2 n,
            addFrame x y w h idx opts st1 = (st2, Return n) →
            addFrame x y w h idx opts st = (st2, Return n)) as Hsame.
  { intros x y w h idx opts st2 n H.
    rewrite addFrame_eq in H. rewrite addFrame_eq.
    change (global_palette st1) with (global_palette st) in H.
    rewrite Hr. rewrite Hr1 in H.
    destruct (validate _ _ _ _ _ _ _) as [pl|e]; [|done].
    by rewrite write_frame_poke in H. }
  split_and!.
  - unfold end_. by rewrite Hended.
  - reflexivity.
  - intros x y w h idx opts st2 n H. apply Hsame in H.
    pose proof (addFrame_within _ _ _ _ _ _ _ _ _ H) as Hin.
    pose proof (addFrame_appends _ _ _ _ _ _ _ _ _ H) as (_ & Hlen & _ & He & _).
    pose proof (addFrame_advance _ _ _ _ _ _ _ _ _ H) as [Hp Hn].
    rewrite Hr in Hin, Hn.
    split_and!; try done.
    + unfold end_. by rewrite He, Hp.
    + intros i Hi. apply Hin. rewrite Hp. lia.
    + intros Hq Hroom. rewrite <- Hr in Hq.
      destruct (addFrame_parts _ _ _ _ _ _ _ _ _ H Hq Hroom)
        as (pal & _ & _ & _ & _ & _ & _ & Hparts).
      cbv zeta in Hparts. destruct Hparts as (Hgce & Himg & _).
      rewrite Hr in Hgce, Himg.
      replace (p st) with (p st + Z.of_nat 0) at 1 by lia.
      destruct (writes_extension opts).
      * by apply (Hgce eq_refl).
      * rewrite Z.add_0_r in Himg. by apply Himg.
  - intros x y w h idx opts st2 e H.
    apply addFrame_Throw in H as [-> _]. rewrite Hr1. unfold poke.
    by rewrite Hended.
  - intros x y w h idx opts. rewrite !addFrame_eq.
    change (global_palette st1) with (global_palette st).
    destruct (validate _ _ _ _ _ _ _) as [pl|e].
    + destruct (write_frame_Return x y w h idx pl (resumed st1)) as (sa & Ha & _).
      destruct (write_frame_Return x y w h idx pl (resumed st)) as (sb & Hb & _).
      rewrite Ha, Hb. split; intros _; by eexists _, _.
    + split; intros (? & ? & ?); done.
Qed.

Lemma C7_witness :
  let st := Build_writer (replicate 64 0) 13 false (Some [0; 0xFFFFFF]) in
  let st1 := (end_ st).1 in
  let a := addFrame 0 0 2 2 [0; 1; 1; 0] (Build_FrameOptions None None None None) st1 in
  end_ st = (st1, Return 14)
  ∧ buf_get (buf st1) 13 = Some 0x3B
  ∧ a.2 = Return 29
  ∧ p a.1 = 29
  ∧ ended a.1 = false
  ∧ buf_get (buf a.1) 13 = Some 0x2C
  ∧ end_ a.1 = (Build_writer (buf_set (buf a.1) 29 0x3B) 30 true
                             (global_palette a.1), Return 30).
Proof.
  intros st st1 a.
  destruct (C7_end_and_un_end st eq_refl) as (H1 & _ & H3 & _).
  split; [exact H1|]. split; [vm_compute; reflexivity|].
  split; [vm_compute; reflexivity|].
  destruct (H3 0 0 2 2 [0; 1; 1; 0] (Build_FrameOptions None None None None) a.1 29)
    as (_ & Hp & Hend & He & _ & _ & _ & Hbyte).
  { vm_compute. reflexivity. }
  split; [exact Hp|]. split; [exact He|]. split; [|exact Hend].
  apply Hbyte.
  - vm_compute. discriminate.
  - apply Z.leb_le. vm_compute. reflexivity.
Defined.

End TrailerClaim.


(** * Further properties of the writer and of its encoder *)

Section WriterProperties.
Import Writer WriterFacts WriterLayout.

(** X1. [check_palette_and_num_colors] accepts a palette of 2, 4, 8, 16, 32,
    64, 128 or 256 entries and yields the number of entries; on every other
    length it throws the error of the colour length. The writer is left as
    it was in both cases. *)
Theorem X1_palette_lengths (pal : list Z) (st : writer) :
  check_palette_and_num_colors pal st
  = (st, if bool_decide (Z.of_nat (length pal) ∈ [2; 4; 8; 16; 32; 64; 128; 256])
         then Return (Z.of_nat (length pal))
         else Throw InvalidColorLength).
Proof.
  case_bool_decide as H.
  - by apply check_palette_valid.
  - destruct (check_palette_and_num_colors pal st) as [st' [n|e]] eqn:E.
    + apply check_palette_Return in E as (_ & -> & Hin). by destruct H.
    + by apply check_palette_Throw in E as [-> ->].
Qed.

(** X2. The constructor returns exactly on the arguments of [valid_screen]:
    width and height from 1 to 65535, a global palette of a length that is
    a power of two from 2 to 256, a background that is not 0 and is below
    that length, a loop count from 0 to 65535. It has then stored
    [screen_bytes] from the start of the buffer: header, logical screen
    descriptor, global colour table and looping extension; the cursor is
    behind them and the stream is not finalized. *)
Theorem X2_constructor_result (buf0 : list Z) (w h : Z) (o : WriterOptions)
    (st : writer) :
  GifWriter buf0 w h o = (st, Return tt)
  ↔ valid_screen w h o
    ∧ buf st = store_bytes buf0 0 (screen_bytes w h o)
    ∧ p st = 13
             + match palette o with
               | Some pal => 3 * Z.of_nat (length pal)
               | None => 0
               end
             + match loop o with Some _ => 19 | None => 0 end
    ∧ ended st = false
    ∧ global_palette st = palette o.
Proof.
  rewrite GifWriter_Return, <- (screen_bytes_length w h o). split.
  - intros [Hv ->]. by split_and!.
  - intros (Hv & Hb & Hp & He & Hg). split; [done|].
    destruct st as [b q e g]. simpl in *. by subst.
Qed.

(** X3. Calls of [addFrame] and [end] on a constructed writer, in any
    number and order and whether they return or throw, keep the length of
    the buffer and never change a byte below the place where the constructor
    stopped; the cursor stays at or above that place and the global palette
    stays the one of the constructor. *)
Theorem X3_calls_append (buf0 : list Z) (w h : Z) (o : WriterOptions)
    (st0 st : writer) :
  GifWriter buf0 w h o = (st0, Return tt) →
  session st0 st →
  length (buf st) = length buf0
  ∧ (∀ i, i < p st0 → buf_get (buf st) i = buf_get (buf st0) i)
  ∧ p st0 ≤ p st
  ∧ global_palette st = palette o.
Proof.
  intros Hc Hs. apply GifWriter_Return in Hc as [_ Hst0].
  assert (ended st0 = false) as He by (by subst st0).
  destruct (session_keeps st0 st He Hs) as (Hp & Hl & Hk & Hg).
  split_and!.
  - rewrite Hl, Hst0. apply store_bytes_length.
  - done.
  - unfold resumed in Hp. destruct (ended st); simpl in Hp; lia.
  - rewrite Hg. by subst st0.
Qed.

Lemma X3_witness :
  let buf0 := replicate 64 0 in
  let o := {| palette := Some [0; 0xFFFFFF]; loop := None; background := None |} in
  let st0 := (GifWriter buf0 2 2 o).1 in
  let st := (end_ (addFrame 0 0 2 2 [0; 1; 1; 0]
                     (Build_FrameOptions None None None None) st0).1).1 in
  length (buf st) = length buf0
  ∧ (∀ i, i < p st0 → buf_get (buf st) i = buf_get (buf st0) i)
  ∧ p st0 ≤ p st
  ∧ global_palette st = palette o.
Proof.
  intros buf0 o st0 st.
  apply (X3_calls_append buf0 2 2 o st0 st).
  - vm_compute. reflexivity.
  - apply session_end, session_addFrame, session_start.
Defined.

(** X4. An [addFrame] that returns has written from its cursor, which on a
    finalized stream is the place of the trailer, up to the position that it
    returns, at least twelve bytes: every byte of the buffer outside that
    range is as before, and so is the length of the buffer. The returned
    position is the new cursor. *)
Theorem X4_addFrame_range (x y w h : Z) (idx : list Z) (opts : FrameOptions)
    (st st' : writer) (n : Z) :
  addFrame x y w h idx opts st = (st', Return n) →
  let q := if ended st then p st - 1 else p st in
  p st' = n
  ∧ q + 12 ≤ n
  ∧ length (buf st') = length (buf st)
  ∧ ∀ i, i < q ∨ n ≤ i → buf_get (buf st') i = buf_get (buf st) i.
Proof.
  intros Hadd q.
  assert (q = p (resumed st)) as Hq
    by (unfold q, resumed; by destruct (ended st)).
  pose proof (ReadBack.addFrame_within _ _ _ _ _ _ _ _ _ Hadd) as Hin.
  pose proof (addFrame_appends _ _ _ _ _ _ _ _ _ Hadd) as (_ & Hlen & _).
  rewrite addFrame_eq in Hadd.
  destruct (validate _ _ _ _ _ _ _) as [pl|e]; [|done].
  rewrite write_frame_eq in Hadd. cbv zeta in Hadd.
  pose proof (EncoderBounds.encoder_within
                (store_bytes (buf (resumed st)) (p (resumed st))
                   (frame_head x y w h pl))
                (p (resumed st) + Z.of_nat (length (frame_head x y w h pl)))
                (if min_code_size pl <? 2 then 2 else min_code_size pl) idx)
    as (_ & Hge & _). cbv zeta in Hge.
  assert (10 ≤ Z.of_nat (length (frame_head x y w h pl))) as Hhead.
  { unfold frame_head. rewrite !length_app. simpl. lia. }
  simplify_eq. cbn [p]. split_and!; [done|lia|done|].
  intros i Hi. apply Hin. cbn [p]. lia.
Qed.

Lemma X4_witness :
  let st := Build_writer (replicate 64 0) 20 true (Some [0; 0xFFFFFF]) in
  let r := addFrame 0 0 2 2 [0; 1; 1; 0] (Build_FrameOptions None None None None) st in
  p r.1 = 35 ∧ 19 + 12 ≤ 35 ∧ length (buf r.1) = 64%nat
  ∧ ∀ i, i < 19 ∨ 35 ≤ i → buf_get (buf r.1) i = buf_get (buf st) i.
Proof.
  intros st r.
  apply (X4_addFrame_range 0 0 2 2 [0; 1; 1; 0]
           (Build_FrameOptions None None None None) st r.1 35).
  vm_compute. reflexivity.
Defined.

(** X5. What [addFrame] asks of its arguments, and nothing else: [x] and [y]
    from 0 to 65535, [w] and [h] from 1 to 65535, at least [w * h] pixels,
    a palette, the frame's own or else the global one, of a length that is
    a power of two from 2 to 256, a disposal from 0 to 3 and a transparent
    index inside the palette. The delay is not looked at, nor is the room
    that the buffer has left. *)
Theorem X5_addFrame_accepts (x y w h : Z) (idx : list Z) (opts : FrameOptions)
    (st : writer) :
  (∃ st' n, addFrame x y w h idx opts st = (st', Return n))
  ↔ 0 ≤ x ≤ 65535 ∧ 0 ≤ y ≤ 65535 ∧ 0 < w ≤ 65535 ∧ 0 < h ≤ 65535
    ∧ w * h ≤ Z.of_nat (length idx)
    ∧ ∃ pal,
        match frame_palette opts with
        | Some pal => Some pal
        | None => global_palette st
        end = Some pal
        ∧ Z.of_nat (length pal) ∈ [2; 4; 8; 16; 32; 64; 128; 256]
        ∧ 0 ≤ default 0 (disposal opts) ≤ 3
        ∧ ∀ t, transparent opts = Some t → 0 ≤ t < Z.of_nat (length pal).
Proof.
  split.
  - intros (st' & n & Hadd). rewrite addFrame_eq in Hadd.
    destruct (validate _ _ _ _ _ _ _) as [pl|e] eqn:Hv; [|done].
    apply validate_inv in Hv
      as (Hx & Hy & Hw & Hh & Hn & pal & Hpal & Hsz & Hd & Ht & _).
    split_and!; try lia. by exists pal.
  - intros (Hx & Hy & Hw & Hh & Hn & pal & Hpal & Hsz & Hd & Ht).
    destruct (validate_Return (global_palette st) x y w h (length idx) opts pal)
      as (pl & Hv & _); try done.
    rewrite addFrame_eq, Hv.
    destruct (write_frame_Return x y w h idx pl (resumed st)) as (st' & -> & _).
    by eexists _, _.
Qed.

End WriterProperties.

Section EncoderProperties.
Import Encoder EncoderBounds.

(** X6. The encoder writes only between the position at which it starts and
    the position that it returns, which is at least two further on: the
    buffer keeps its length and every byte outside that range. *)
Theorem X6_encoder_range (buf0 : list Z) (p0 m : Z) (idx : list Z) :
  let r := GifWriterOutputLZWCodeStream buf0 p0 m idx in
  length r.1 = length buf0
  ∧ p0 + 2 ≤ r.2
  ∧ ∀ i, i < p0 ∨ r.2 ≤ i → buf_get r.1 i = buf_get buf0 i.
Proof. apply encoder_within. Qed.

(** X7. The position that the encoder returns depends on the start, the
    code size and the indices only, not on the buffer: it is the same for a
    buffer that is too short, where the bytes written outside are lost. *)
Theorem X7_encoder_position (buf1 buf2 : list Z) (p0 m : Z) (idx : list Z) :
  (GifWriterOutputLZWCodeStream buf1 p0 m idx).2
  = (GifWriterOutputLZWCodeStream buf2 p0 m idx).2.
Proof. apply encoder_position. Qed.

(** X8. The room that a code stream takes: for [n] indices, not more than
    [3 * n + 5 + (3 * n + 2) / 255] bytes from the start. *)
Theorem X8_encoder_size (buf0 : list Z) (p0 m : Z) (idx : list Z) :
  2 ≤ m ≤ 8 → 0 ≤ p0 → idx ≠ [] →
  (GifWriterOutputLZWCodeStream buf0 p0 m idx).2
  ≤ p0 + 3 * Z.of_nat (length idx) + 5 + (3 * Z.of_nat (length idx) + 2) / 255.
Proof. intros Hm Hp0 Hne. by apply (encoder_size m Hm buf0 p0 idx). Qed.

Lemma X8_witness :
  (GifWriterOutputLZWCodeStream [] 0 2 [0; 1; 1; 0]).2
  ≤ 0 + 3 * Z.of_nat 4 + 5 + (3 * Z.of_nat 4 + 2) / 255.
Proof.
  apply (X8_encoder_size [] 0 2 [0; 1; 1; 0]); [lia|lia|discriminate].
Defined.

(** X9. What the encoder writes behind the code size is a chain of data
    sub-blocks closed by a block terminator: the scan of the reader, started
    behind the code size, ends at the position that the encoder returns. *)
Theorem X9_encoder_sub_blocks (buf0 : list Z) (p0 m : Z) (idx : list Z)
    (buf' : list Z) (p' : Z) :
  2 ≤ m ≤ 8 → 0 ≤ p0 →
  GifWriterOutputLZWCodeStream buf0 p0 m idx = (buf', p') →
  p' ≤ Z.of_nat (length buf0) →
  buf_get buf' p0 = Some m
  ∧ Reader.skip_subblocks buf' (Reader.scan_fuel buf') (p0 + 1) = Some (Return p').
Proof.
  intros Hm Hp0 Henc Hroom. split.
  - by destruct (EncoderFacts.encoder_framed m Hm buf0 p0 idx buf' p' Hp0 Henc Hroom)
      as (_ & ? & _).
  - by apply (encoder_scan m Hm buf0 p0 idx).
Qed.

Lemma X9_witness :
  let r := GifWriterOutputLZWCodeStream (replicate 16 0) 3 2 [0; 1; 1; 0] in
  buf_get r.1 3 = Some 2
  ∧ Reader.skip_subblocks r.1 (Reader.scan_fuel r.1) (3 + 1) = Some (Return r.2).
Proof.
  intros r.
  apply (X9_encoder_sub_blocks (replicate 16 0) 3 2 [0; 1; 1; 0] r.1 r.2).
  - lia.
  - lia.
  - apply surjective_pairing.
  - apply Z.leb_le. vm_compute. reflexivity.
Defined.

End EncoderProperties.


(** * Further properties of the reader, and of the reader on the writer's
    streams *)

Section ReaderProperties.
Import Reader ReaderFacts ParserFacts.

(** X10. The constructor of the reader ends on every buffer: it returns a
    reader or throws. The block loop and the scans of sub-blocks inside it
    never take more turns than the buffer has bytes, plus one. *)
Theorem X10_reader_ends (buf : list Z) :
  ∃ o : outcome reader, Reader buf = Some o.
Proof. destruct (Reader_total buf) as [o Ho]. by exists o. Qed.

(** X11. The frames of a reader that was constructed lie inside its buffer:
    the data of a frame begin behind the header, the screen descriptor and an
    image descriptor, have at least the code size and the terminator, and
    end in the buffer. The data offset of a frame with a colour table of its
    own is the offset of that table, not of the code stream behind it; the
    palette of another frame is the global one, at offset 12, if the screen
    descriptor announces one. *)
Theorem X11_frames_inside (buf : list Z) (r : reader) :
  Reader buf = Some (Return r) →
  buffer r = buf
  ∧ Forall (λ f,
      22 ≤ data_offset f
      ∧ 2 ≤ data_length f
      ∧ data_offset f + data_length f ≤ Z.of_nat (length buf)
      ∧ palette_offset f
        = (if has_local_palette f then Some (data_offset f)
           else if JS.truthy (JS.shr (num (buf_get buf 10)) 7) then Some 12
           else None))
     (frames r).
Proof.
  intros H. apply Reader_frames in H as [Hb Hf]. split; [done|].
  eapply Forall_impl; [exact Hf|]. intros f (Ho & Hl & He & Hp & _).
  pose proof (first_block_ge buf). split_and!; [lia|done|done|].
  rewrite Hp. destruct (has_local_palette f); [done|].
  unfold global_palette_offset, global_palette_size. by destruct (JS.truthy _).
Qed.

Lemma X11_witness :
  let buf := [0x47; 0x49; 0x46; 0x38; 0x39; 0x61; 1; 0; 1; 0; 0; 0;
              0x2C; 0; 0; 0; 0; 1; 0; 1; 0; 0; 2; 2; 0x44; 1; 0; 0x3B] in
  ∃ r, Reader buf = Some (Return r)
       ∧ buffer r = buf
       ∧ Forall (λ f,
           22 ≤ data_offset f
           ∧ 2 ≤ data_length f
           ∧ data_offset f + data_length f ≤ Z.of_nat (length buf)
           ∧ palette_offset f
             = (if has_local_palette f then Some (data_offset f)
                else if JS.truthy (JS.shr (num (buf_get buf 10)) 7) then Some 12
                else None))
          (frames r).
Proof.
  intros buf. eexists. split; [vm_compute; reflexivity|].
  apply (X11_frames_inside buf). vm_compute. reflexivity.
Defined.

End ReaderProperties.

Section StreamProperties.
Import Writer WriterFacts WriterLayout ReaderFacts ParserFacts ReadBack.

(** X12. The reader on the streams of the writer. The reader steps over six
    bytes of the logical screen descriptor, which has seven, so that it
    takes the last byte before the first block for the tag of that block:
    the blue part of the last colour of the global palette, or the 0 of the
    aspect ratio when there is no global palette. Whatever frames were added
    and whether the stream was ended, the constructor of the reader throws
    on that byte unless it is 0x21, 0x2C or 0x3B, and for 0x3B it returns a
    reader without frames. *)
Theorem X12_reader_on_writer_stream (buf0 : list Z) (w h : Z) (o : WriterOptions)
    (st0 st : writer) :
  GifWriter buf0 w h o = (st0, Return tt) →
  p st0 ≤ Z.of_nat (length buf0) →
  session st0 st →
  let tag := match palette o with
             | Some pal => default 0 (last pal) mod 256
             | None => 0
             end in
  (tag ∉ [0x21; 0x2C; 0x3B] →
   Reader.Reader (buf st) = Some (Throw (UnknownGifBlock (Some tag))))
  ∧ (tag = 0x3B →
     ∃ r, Reader.Reader (buf st) = Some (Return r) ∧ Reader.frames r = []).
Proof.
  intros Hc Hroom Hs tag.
  destruct (session_first_block _ _ _ _ _ _ Hc Hroom Hs) as [Hh Ht].
  fold (first_tag o) in tag. split.
  - intros Hn. by apply Reader_unknown_block.
  - intros Heq. unfold tag in Heq. rewrite Heq in Ht.
    eexists. split; [by apply Reader_trailer_first|done].
Qed.

Lemma X12_witness :
  let buf0 := replicate 64 0 in
  let o := {| palette := Some [0xFF0000; 0x0000FF]; loop := None;
              background := None |} in
  let st0 := (GifWriter buf0 2 2 o).1 in
  let st := (end_ (addFrame 0 0 2 2 [0; 1; 1; 0]
                     (Build_FrameOptions None None None None) st0).1).1 in
  Reader.Reader (buf st) = Some (Throw (UnknownGifBlock (Some 0xFF))).
Proof.
  intros buf0 o st0 st.
  apply (X12_reader_on_writer_stream buf0 2 2 o st0 st).
  - vm_compute. reflexivity.
  - apply Z.leb_le. vm_compute. reflexivity.
  - apply session_end, session_addFrame, session_start.
  - rewrite !elem_of_cons, elem_of_nil. vm_compute. intuition discriminate.
Defined.

(** X13. The loop count comes back: where the constructor of the writer has
    stored the looping extension, the last 19 bytes that it writes, the
    block loop of the reader reads the count that was passed and goes on
    behind the extension. *)
Theorem X13_loop_count_read_back (buf0 : list Z) (w h : Z) (o : WriterOptions)
    (st : writer) (l : Z) (gpo gps : option Z) (ps : Reader.parse_state) :
  GifWriter buf0 w h o = (st, Return tt) →
  loop o = Some l →
  p st ≤ Z.of_nat (length buf0) →
  Reader.ps_p ps = p st - 19 →
  Reader.block (buf st) gpo gps ps
  = Some (Return (Reader.Parse (p st) (Reader.ps_no_eof ps) (Reader.ps_delay ps)
                    (Reader.ps_transparent_index ps) (Reader.ps_disposal ps)
                    (Reader.ps_frames ps) (Some l))).
Proof.
  intros Hc Hl Hroom Hps.
  apply GifWriter_Return in Hc as [(_ & _ & _ & Hloop) ->]. cbn [buf p] in *.
  specialize (Hloop l Hl).
  pose proof (stored_at_store_bytes buf0 0 (screen_bytes w h o) ltac:(lia) ltac:(lia))
    as Hst.
  unfold screen_bytes in *. rewrite !map_app in Hst.
  rewrite !length_app, !Nat2Z.inj_add in *.
  apply stored_at_app in Hst as [_ Hst].
  apply stored_at_app in Hst as [_ Hst].
  apply stored_at_app in Hst as [_ Hst].
  rewrite !length_map in Hst.
  unfold loop_bytes in *. rewrite Hl in *. simpl length in Hps.
  rewrite map_mod_bytes in Hst.
  2:{ pose proof (u16_halves l ltac:(lia)).
      repeat (apply Forall_cons; split; [lia|]). apply Forall_nil_2. }
  rewrite (loop_block_read _ _ l gpo gps ps ltac:(lia) Hst) by (simpl length; lia).
  do 3 f_equal. simpl length. lia.
Qed.

Lemma X13_witness :
  let r := GifWriter (replicate 64 0) 2 2
             {| palette := None; loop := Some 1; background := None |} in
  Reader.block (buf r.1) None None (Reader.Parse 13 true 0 None 0 [] None)
  = Some (Return (Reader.Parse 32 true 0 None 0 [] (Some 1))).
Proof.
  intros r.
  apply (X13_loop_count_read_back (replicate 64 0) 2 2
           {| palette := None; loop := Some 1; background := None |} r.1 1
           None None (Reader.Parse 13 true 0 None 0 [] None)).
  - vm_compute. reflexivity.
  - reflexivity.
  - apply Z.leb_le. vm_compute. reflexivity.
  - vm_compute. reflexivity.
Defined.

(** X14. The graphics control extension of a frame comes back: when
    [addFrame] has written one, for a disposal, a transparent index or a
    delay that is not 0, the block loop of the reader, at the place where
    the frame begins, reads the disposal and the transparent index that were
    passed, and the delay reduced to its 16 low bits. *)
Theorem X14_extension_read_back (x y w h : Z) (idx : list Z) (opts : FrameOptions)
    (st st' : writer) (n : Z) (gpo gps : option Z) (ps : Reader.parse_state) :
  addFrame x y w h idx opts st = (st', Return n) →
  writes_extension opts = true →
  0 ≤ Reader.ps_p ps →
  n ≤ Z.of_nat (length (buf st)) →
  Reader.ps_p ps = (if ended st then p st - 1 else p st) →
  Reader.block (buf st') gpo gps ps
  = Some (Return (Reader.Parse (Reader.ps_p ps + 8) (Reader.ps_no_eof ps)
                    (default 0 (delay opts) mod 65536)
                    (transparent opts)
                    (default 0 (disposal opts))
                    (Reader.ps_frames ps) (Reader.ps_loop_count ps))).
Proof.
  intros Hadd Hext Hq Hroom Hps.
  assert (Reader.ps_p ps = p (resumed st)) as Hps'
    by (rewrite Hps; unfold resumed; by destruct (ended st)).
  rewrite Hps' in Hq.
  destruct (addFrame_parts _ _ _ _ _ _ _ _ _ Hadd Hq Hroom)
    as (pal & _ & Hsz & _ & _ & Hd & Ht & Hparts).
  cbv zeta in Hparts. destruct Hparts as (Hgce & _). specialize (Hgce Hext).
  assert (0 ≤ default 0 (transparent opts) < 256) as Hti.
  { destruct (transparent opts) as [t|]; simpl; [|lia].
    specialize (Ht t eq_refl).
    assert (Z.of_nat (length pal) ≤ 256); [|lia].
    unfold pow2_sizes in Hsz.
    repeat (apply elem_of_cons in Hsz as [->|Hsz]; [lia|]).
    by apply elem_of_nil in Hsz. }
  rewrite (gce_block_read _ _ _ _ _ _ gpo gps ps Hd Hti Hgce Hps').
  rewrite Hps'. do 3 f_equal. by destruct (transparent opts).
Qed.

Lemma X14_witness :
  let st := Build_writer (replicate 64 0) 13 false (Some [0; 0xFFFFFF]) in
  let opts := Build_FrameOptions None (Some 70000) (Some 2) (Some 1) in
  let r := addFrame 0 0 2 2 [0; 1; 1; 0] opts st in
  Reader.block (buf r.1) None None (Reader.Parse 13 true 0 None 0 [] None)
  = Some (Return (Reader.Parse 21 true 4464 (Some 1) 2 [] None)).
Proof.
  intros st opts r.
  apply (X14_extension_read_back 0 0 2 2 [0; 1; 1; 0] opts st r.1 37
           None None (Reader.Parse 13 true 0 None 0 [] None)).
  - vm_compute. reflexivity.
  - reflexivity.
  - vm_compute. discriminate.
  - apply Z.leb_le. vm_compute. reflexivity.
  - reflexivity.
Defined.

End StreamProperties.


(** * Frames written and read *)

Section FrameProperties.
Import Writer WriterFacts WriterLayout ReaderFacts ParserFacts ReadBack.

(** X15. A frame on the global palette comes back. At the image descriptor
    that [addFrame] has written, behind the graphics control extension when
    there is one, the block loop of the reader finds a frame with the
    position and the size that were passed, not interlaced, without a
    colour table of its own, whose data end where the writer stopped; and
    the index stream that the blitters decode for that frame is the one
    that was passed, when it has [w * h] indices below the palette size. *)
Theorem X15_frame_read_back (x y w h : Z) (idx pal : list Z) (opts : FrameOptions)
    (st st' : writer) (n : Z) (gpo gps : option Z) (ps : Reader.parse_state) :
  addFrame x y w h idx opts st = (st', Return n) →
  frame_palette opts = None →
  global_palette st = Some pal →
  Z.of_nat (length idx) = w * h →
  Forall (λ v, 0 ≤ v < Z.of_nat (length pal)) idx →
  0 ≤ (if ended st then p st - 1 else p st) →
  n ≤ Z.of_nat (length (buf st)) →
  Reader.ps_p ps = (if ended st then p st - 1 else p st)
                   + (if writes_extension opts then 8 else 0) →
  let f := {| Reader.x := x; Reader.y := y;
              Reader.width := w; Reader.height := h;
              Reader.has_local_palette := false;
              Reader.palette_offset := gpo;
              Reader.palette_size := gps;
              Reader.data_offset := Reader.ps_p ps + 10;
              Reader.data_length := n - (Reader.ps_p ps + 10);
              Reader.transparent_index := Reader.ps_transparent_index ps;
              Reader.interlaced := false;
              Reader.delay := Reader.ps_delay ps;
              Reader.disposal := Reader.ps_disposal ps |} in
  Reader.block (buf st') gpo gps ps
  = Some (Return (Reader.Parse n (Reader.ps_no_eof ps) (Reader.ps_delay ps)
                    (Reader.ps_transparent_index ps) (Reader.ps_disposal ps)
                    (Reader.ps_frames ps ++ [f]) (Reader.ps_loop_count ps)))
  ∧ ∀ (r : Reader.reader) (fuel : nat),
      Reader.buffer r = buf st' → (2 * length idx + 1 ≤ fuel)%nat →
      Reader.decode_frame fuel r f = Some idx.
Proof.
  intros Hadd Hfp Hgp Hlen Hidx Hq Hroom Hps.
  by apply (FrameReadBack.frame_read_back x y w h idx pal opts st st' n).
Qed.

Lemma X15_witness :
  let st := Build_writer (replicate 64 0) 13 false (Some [0xFF0000; 0x0000FF]) in
  let opts := Build_FrameOptions None None None None in
  let r := addFrame 0 0 2 2 [0; 1; 1; 0] opts st in
  let f := {| Reader.x := 0; Reader.y := 0;
              Reader.width := 2; Reader.height := 2;
              Reader.has_local_palette := false;
              Reader.palette_offset := Some 12;
              Reader.palette_size := Some 2;
              Reader.data_offset := 23;
              Reader.data_length := 29 - 23;
              Reader.transparent_index := None;
              Reader.interlaced := false;
              Reader.delay := 0;
              Reader.disposal := 0 |} in
  Reader.block (buf r.1) (Some 12) (Some 2) (Reader.Parse 13 true 0 None 0 [] None)
  = Some (Return (Reader.Parse 29 true 0 None 0 [f] None))
  ∧ ∀ (rd : Reader.reader) (fuel : nat),
      Reader.buffer rd = buf r.1 → (2 * 4 + 1 ≤ fuel)%nat →
      Reader.decode_frame fuel rd f = Some [0; 1; 1; 0].
Proof.
  intros st opts r f.
  apply (X15_frame_read_back 0 0 2 2 [0; 1; 1; 0] [0xFF0000; 0x0000FF] opts st r.1 29
           (Some 12) (Some 2) (Reader.Parse 13 true 0 None 0 [] None)).
  - vm_compute. reflexivity.
  - reflexivity.
  - reflexivity.
  - reflexivity.
  - repeat (apply Forall_cons; split; [simpl; lia|]). apply Forall_nil_2.
  - vm_compute. discriminate.
  - apply Z.leb_le. vm_compute. reflexivity.
  - reflexivity.
Defined.

(** X16. A frame with a colour table of its own does not come back. The
    reader takes the data offset of a frame before it steps over the colour
    table: at the image descriptor that [addFrame] has written for such a
    frame, the block loop of the reader finds a frame whose data offset is
    the offset of the colour table, where the byte that the decoder takes
    for the code size is the red part of the first colour; the code stream
    of the writer, with its code size, begins three bytes per colour further
    on. *)
Theorem X16_local_palette_offset (x y w h : Z) (idx pal : list Z)
    (opts : FrameOptions) (st st' : writer) (n : Z) (gpo gps : option Z)
    (ps : Reader.parse_state) :
  addFrame x y w h idx opts st = (st', Return n) →
  frame_palette opts = Some pal →
  0 ≤ (if ended st then p st - 1 else p st) →
  n ≤ Z.of_nat (length (buf st)) →
  Reader.ps_p ps = (if ended st then p st - 1 else p st)
                   + (if writes_extension opts then 8 else 0) →
  let d := Reader.ps_p ps + 10 in
  let f := {| Reader.x := x; Reader.y := y;
              Reader.width := w; Reader.height := h;
              Reader.has_local_palette := true;
              Reader.palette_offset := Some d;
              Reader.palette_size := Some (Z.of_nat (length pal));
              Reader.data_offset := d;
              Reader.data_length := n - d;
              Reader.transparent_index := Reader.ps_transparent_index ps;
              Reader.interlaced := false;
              Reader.delay := Reader.ps_delay ps;
              Reader.disposal := Reader.ps_disposal ps |} in
  Reader.block (buf st') gpo gps ps
  = Some (Return (Reader.Parse n (Reader.ps_no_eof ps) (Reader.ps_delay ps)
                    (Reader.ps_transparent_index ps) (Reader.ps_disposal ps)
                    (Reader.ps_frames ps ++ [f]) (Reader.ps_loop_count ps)))
  ∧ buf_get (buf st') d = Some (default 0 (head pal) / 65536 mod 256)
  ∧ buf_get (buf st') (d + 3 * Z.of_nat (length pal))
    = Some (Z.max 2 (Z.log2 (Z.of_nat (length pal)))).
Proof.
  intros Hadd Hfp Hq Hroom Hps d f.
  assert ((if ended st then p st - 1 else p st) = p (resumed st)) as Hres
    by (unfold resumed; by destruct (ended st)).
  rewrite Hres in Hq, Hps.
  destruct (addFrame_parts _ _ _ _ _ _ _ _ _ Hadd Hq Hroom)
    as (pal' & Hpal & Hsz & (Hx & Hy & Hw & Hh) & _ & _ & _ & Hparts).
  unfold effective_palette in Hpal. rewrite Hfp in Hpal. simplify_eq.
  cbv zeta in Hparts. rewrite Hfp in Hparts.
  change (bool_decide (is_Some (Some pal'))) with true in Hparts.
  destruct Hparts as (_ & Himg & Hpalb & Hcode & Hscan & _).
  specialize (Hpalb eq_refl).
  rewrite <- Hps in Himg, Hpalb, Hcode, Hscan. fold d in Hpalb, Hcode, Hscan.
  destruct (log2_by_shifts_pow2 _ Hsz) as (_ & Hk & Hpow).
  rewrite (log2_by_shifts_log2 _ Hsz) in *.
  set (k := Z.log2 (Z.of_nat (length pal'))) in *.
  split_and!.
  - rewrite (local_image_block_read (buf st') (Reader.ps_p ps) x y w h k n gpo gps ps);
      try done; try lia.
    + unfold f, d. by rewrite Hpow.
    + rewrite Hpow. by replace (Reader.ps_p ps + 10 + Z.of_nat (length pal') * 3 + 1)
        with (d + 3 * Z.of_nat (length pal') + 1) by (unfold d; lia).
  - destruct pal' as [|rgb rest]; [by vm_compute in Hsz; set_solver|].
    replace d with (d + Z.of_nat 0) by lia. apply Hpalb. simpl.
    f_equal. rewrite JSFacts.and_255. unfold JS.shr. change (16 mod 32) with 16.
    rewrite Z.shiftr_div_pow2 by lia. rewrite Z.mod_mod by lia.
    pose proof (JSFacts.to_int32_mod rgb 24 ltac:(lia)) as H24.
    change (2 ^ 16) with 65536. change (2 ^ 24) with 16777216 in H24.
    Z.div_mod_to_equations. lia.
  - rewrite Hcode. f_equal. case_match; lia.
Qed.

Lemma X16_witness :
  let st := Build_writer (replicate 64 0) 13 false None in
  let opts := Build_FrameOptions (Some [0xFF0000; 0x0000FF]) None None None in
  let r := addFrame 0 0 2 2 [0; 1; 1; 0] opts st in
  let f := {| Reader.x := 0; Reader.y := 0;
              Reader.width := 2; Reader.height := 2;
              Reader.has_local_palette := true;
              Reader.palette_offset := Some 23;
              Reader.palette_size := Some 2;
              Reader.data_offset := 23;
              Reader.data_length := 35 - 23;
              Reader.transparent_index := None;
              Reader.interlaced := false;
              Reader.delay := 0;
              Reader.disposal := 0 |} in
  Reader.block (buf r.1) None None (Reader.Parse 13 true 0 None 0 [] None)
  = Some (Return (Reader.Parse 35 true 0 None 0 [f] None))
  ∧ buf_get (buf r.1) 23 = Some 0xFF
  ∧ buf_get (buf r.1) (23 + 3 * 2) = Some 2.
Proof.
  intros st opts r f.
  apply (X16_local_palette_offset 0 0 2 2 [0; 1; 1; 0] [0xFF0000; 0x0000FF] opts st r.1 35
           None None (Reader.Parse 13 true 0 None 0 [] None)).
  - vm_compute. reflexivity.
  - reflexivity.
  - vm_compute. discriminate.
  - apply Z.leb_le. vm_compute. reflexivity.
  - reflexivity.
Defined.

(** X22. From [addFrame] to the pixels. For a reader that holds the frame
    found at the image descriptor of X15, with the global palette at some
    offset, both [decodeAndBlitFrameRGBA] and [decodeAndBlitFrameBGRA]
    return, and what they leave in the pixels is the rows that were passed
    to [addFrame], painted one below the other from the top of the frame,
    each in its channel order. *)
Theorem X22_written_frame_painted (x y w h : Z) (rows : list (list Z))
    (pal : list Z) (opts : FrameOptions) (st st' : writer) (n po : Z)
    (gps : option Z) (ps : Reader.parse_state) (r : Reader.reader) (k : Z)
    (fuel : nat) (px : list Z) :
  addFrame x y w h (concat rows) opts st = (st', Return n) →
  frame_palette opts = None →
  global_palette st = Some pal →
  Z.of_nat (length rows) = h →
  Forall (λ row, Z.of_nat (length row) = w) rows →
  Forall (λ v, 0 ≤ v < Z.of_nat (length pal)) (concat rows) →
  0 ≤ (if ended st then p st - 1 else p st) →
  n ≤ Z.of_nat (length (buf st)) →
  Reader.ps_p ps = (if ended st then p st - 1 else p st)
                   + (if writes_extension opts then 8 else 0) →
  let f := {| Reader.x := x; Reader.y := y;
              Reader.width := w; Reader.height := h;
              Reader.has_local_palette := false;
              Reader.palette_offset := Some po;
              Reader.palette_size := gps;
              Reader.data_offset := Reader.ps_p ps + 10;
              Reader.data_length := n - (Reader.ps_p ps + 10);
              Reader.transparent_index := Reader.ps_transparent_index ps;
              Reader.interlaced := false;
              Reader.delay := Reader.ps_delay ps;
              Reader.disposal := Reader.ps_disposal ps |} in
  let trans := default 256 (Reader.ps_transparent_index ps) in
  Reader.buffer r = buf st' →
  0 < Reader.canvas_width r →
  0 ≤ k → Reader.frames r !! Z.to_nat k = Some f →
  (2 * length (concat rows) + 1 ≤ fuel)%nat →
  Reader.decodeAndBlitFrameRGBA fuel r k px
  = Some (BlitFacts.paint_rows r f Reader.RGBA po trans px 0 1 rows, Return tt)
  ∧ Reader.decodeAndBlitFrameBGRA fuel r k px
    = Some (BlitFacts.paint_rows r f Reader.BGRA po trans px 0 1 rows, Return tt).
Proof.
  intros Hadd Hfp Hgp Hrows Hw Hidx Hq Hroom Hps f trans Hbuf Hcanvas Hk Hf Hfuel.
  assert ((if ended st then p st - 1 else p st) = p (resumed st)) as Hres
    by (unfold resumed; by destruct (ended st)).
  assert (0 < w ∧ 0 < h) as [Hwpos Hhpos].
  { rewrite Hres in Hq.
    destruct (addFrame_parts _ _ _ _ _ _ _ _ _ Hadd Hq Hroom)
      as (_ & _ & _ & (_ & _ & ? & ?) & _). lia. }
  assert (Z.of_nat (length (concat rows)) = w * h) as Hlen.
  { rewrite <- Hrows. clear -Hw. induction Hw as [|row rest Hr _ IH]; simpl; [lia|].
    rewrite length_app. lia. }
  destruct (FrameReadBack.frame_read_back x y w h (concat rows) pal opts st st' n
              (Some po) gps ps Hadd Hfp Hgp Hlen Hidx Hq Hroom Hps) as [_ Hdec].
  fold f in Hdec. specialize (Hdec r fuel Hbuf Hfuel).
  assert (Reader.frameInfo r k = Return f) as Hinfo.
  { unfold Reader.frameInfo. pose proof (lookup_lt_Some _ _ _ Hf).
    destruct (Z.ltb_spec k 0); [lia|]. destruct (Z.leb_spec (Z.of_nat (length (Reader.frames r))) k); [lia|].
    simpl. by rewrite Hf. }
  assert (rows ≠ []) as Hne by (intros ->; simpl in Hrows; lia).
  unfold Reader.decodeAndBlitFrameRGBA, Reader.decodeAndBlitFrameBGRA.
  rewrite Hinfo, Hdec. cbn [Reader.palette_offset Reader.transparent_index f].
  fold trans. split; do 2 f_equal.
  - apply BlitFacts.natural_blit; try done. simpl. lia.
  - apply BlitFacts.natural_blit; try done. simpl. lia.
Qed.

Lemma X22_witness :
  let st := Build_writer (replicate 64 0) 13 false (Some [0xFF0000; 0x0000FF]) in
  let opts := Build_FrameOptions None None None None in
  let rows := [[0; 1]; [1; 0]] in
  let a := addFrame 0 0 2 2 (concat rows) opts st in
  let f := {| Reader.x := 0; Reader.y := 0;
              Reader.width := 2; Reader.height := 2;
              Reader.has_local_palette := false;
              Reader.palette_offset := Some 7;
              Reader.palette_size := Some 2;
              Reader.data_offset := 23;
              Reader.data_length := 29 - 23;
              Reader.transparent_index := None;
              Reader.interlaced := false;
              Reader.delay := 0;
              Reader.disposal := 0 |} in
  let r := {| Reader.frames := [f]; Reader.canvas_width := 2;
              Reader.canvas_height := 2; Reader.loop_count := None;
              Reader.buffer := buf a.1 |} in
  Reader.decodeAndBlitFrameRGBA 9 r 0 (replicate 16 0)
  = Some (BlitFacts.paint_rows r f Reader.RGBA 7 256 (replicate 16 0) 0 1 rows, Return tt)
  ∧ Reader.decodeAndBlitFrameBGRA 9 r 0 (replicate 16 0)
    = Some (BlitFacts.paint_rows r f Reader.BGRA 7 256 (replicate 16 0) 0 1 rows, Return tt).
Proof.
  intros st opts rows a f r.
  apply (X22_written_frame_painted 0 0 2 2 rows [0xFF0000; 0x0000FF] opts st a.1 29 7
           (Some 2) (Reader.Parse 13 true 0 None 0 [] None) r 0 9 (replicate 16 0)).
  - vm_compute. reflexivity.
  - reflexivity.
  - reflexivity.
  - reflexivity.
  - repeat (apply Forall_cons; split; [reflexivity|]). apply Forall_nil_2.
  - repeat (apply Forall_cons; split; [simpl; lia|]). apply Forall_nil_2.
  - vm_compute. discriminate.
  - apply Z.leb_le. vm_compute. reflexivity.
  - reflexivity.
  - reflexivity.
  - reflexivity.
  - apply Z.le_refl.
  - reflexivity.
  - apply Nat.le_refl.
Defined.

End FrameProperties.


(** * Further properties of the decoder and of the blitters *)

Section DecoderProperties.
Import Decoder DecoderBounds.

(** X17. Where the decoder writes. A call of the decoder that ends has kept
    the length of the output and has written no cell above the index
    [output_length]. The cell at [output_length] itself is not safe: the
    test against [output_length] leaves out the first byte of the string
    that is about to be written. A call whose code size byte lies outside
    the code stream ends whatever else the stream holds: it fills the cells
    from 0 to [output_length] with zeros, that cell included, and logs that
    the stream is longer than expected. *)
Theorem X17_decoder_range (fuel : nat) (code_stream : list Z) (p0 : Z)
    (output : list Z) (output_length : Z) :
  (∀ (out' : list Z) (w : option warning),
     readerLZWOutputIndexStream fuel code_stream p0 output output_length
     = Some (out', w) →
     length out' = length output
     ∧ ∀ i, output_length < i → buf_get out' i = buf_get output i)
  ∧ (buf_get code_stream p0 = None →
     (Z.to_nat (output_length + 1) < fuel)%nat →
     ∃ out',
       readerLZWOutputIndexStream fuel code_stream p0 output output_length
       = Some (out', Some StreamLonger)
       ∧ length out' = length output
       ∧ (∀ i, 0 ≤ i ≤ output_length → i < Z.of_nat (length output) →
               buf_get out' i = Some 0)
       ∧ (∀ i, output_length < i → buf_get out' i = buf_get output i)).
Proof.
  split.
  - intros out' w H. apply decoder_within in H as [Hlen Hsame].
    split; [done|]. intros i Hi. apply Hsame. lia.
  - intros Hnone Hfuel. unfold readerLZWOutputIndexStream. rewrite Hnone.
    destruct (nan_loop_zeros fuel output_length 0 output) as (out' & Hr & Hl & Hz & Hs);
      [lia|by rewrite Z.sub_0_r|].
    exists out'. split_and!; [done|done|done|].
    intros i Hi. apply Hs. lia.
Qed.

Lemma X17_witness :
  (readerLZWOutputIndexStream 10 [2; 2; 140; 11; 0] 0 [9; 9; 9; 9] 2
   = Some ([1; 1; 1; 9], Some StreamShorter)
   ∧ length [1; 1; 1; 9] = length [9; 9; 9; 9]
   ∧ ∀ i, 2 < i → buf_get [1; 1; 1; 9] i = buf_get [9; 9; 9; 9] i)
  ∧ ∃ out',
      readerLZWOutputIndexStream 10 [2; 2; 140; 11; 0] 5 [9; 9; 9; 9] 2
      = Some (out', Some StreamLonger)
      ∧ length out' = length [9; 9; 9; 9]
      ∧ (∀ i, 0 ≤ i ≤ 2 → i < Z.of_nat (length [9; 9; 9; 9]) →
              buf_get out' i = Some 0)
      ∧ (∀ i, 2 < i → buf_get out' i = buf_get [9; 9; 9; 9] i).
Proof.
  split.
  - split; [vm_compute; reflexivity|].
    apply (proj1 (X17_decoder_range 10 [2; 2; 140; 11; 0] 0 [9; 9; 9; 9] 2)
             [1; 1; 1; 9] (Some StreamShorter)).
    vm_compute. reflexivity.
  - apply (proj2 (X17_decoder_range 10 [2; 2; 140; 11; 0] 5 [9; 9; 9; 9] 2)).
    + reflexivity.
    + vm_compute. lia.
Defined.

(** X18. Image data without a data sub-block: when the byte behind the code
    size is the block terminator, the decoder writes nothing, and logs that
    the stream is shorter than expected unless no pixel was expected. *)
Theorem X18_decoder_no_data (fuel : nat) (code_stream : list Z) (p0 m : Z)
    (output : list Z) (output_length : Z) :
  buf_get code_stream p0 = Some m → 0 ≤ m →
  buf_get code_stream (p0 + 1) = Some 0 →
  readerLZWOutputIndexStream (S fuel) code_stream p0 output output_length
  = Some (output, if output_length =? 0 then None else Some StreamShorter).
Proof.
  intros Hm Hpos H0. unfold readerLZWOutputIndexStream. rewrite Hm, H0.
  cbn [loop]. unfold body.
  change (fill code_stream (Bits (p0 + 2) (Some 0) 0 0))
    with (Bits (p0 + 2) (Some 0) 0 0).
  cbn [cur_shift cur_code_size].
  destruct (Z.ltb_spec 0 (m + 1)); [|lia].
  by rewrite (Z.eqb_sym 0 output_length).
Qed.

Lemma X18_witness :
  readerLZWOutputIndexStream 1 [2; 0] 0 [9; 9] 2 = Some ([9; 9], Some StreamShorter).
Proof.
  apply (X18_decoder_no_data 0 [2; 0] 0 2 [9; 9] 2); [reflexivity|lia|reflexivity].
Defined.

End DecoderProperties.

Section BlitProperties.
Import Reader BlitFacts.

(** X19. Transparent pixels leave the canvas as it is: a blit of indices
    that are all the transparent index of the frame changes no byte of the
    pixels, in either channel order, interlaced or not. *)
Theorem X19_transparent_blit (r : reader) (frame : Frame) (order : channel_order)
    (palette_offset trans : Z) (index_stream px : list Z) :
  Forall (λ index, index = trans) index_stream →
  blit_all r frame order palette_offset trans index_stream px = px.
Proof.
  intros H. unfold blit_all.
  assert (∀ s, pixels (fold_left (blit_pixel r frame order palette_offset trans)
                         index_stream s) = pixels s) as Hfold.
  { induction H as [|index rest -> _ IH]; intros s; [done|].
    cbn [fold_left]. rewrite IH, blit_pixel_eq. cbv zeta. cbn [pixels].
    unfold paint. rewrite Z.eqb_refl.
    unfold new_scanline. repeat case_match; done. }
  by rewrite Hfold.
Qed.

Lemma X19_witness :
  let r := {| frames := []; canvas_width := 2; canvas_height := 2;
              loop_count := None; buffer := [] |} in
  let frame := {| x := 0; y := 0; width := 2; height := 2;
                  has_local_palette := false; palette_offset := Some 0;
                  palette_size := Some 2; data_offset := 0; data_length := 0;
                  transparent_index := Some 1; interlaced := true;
                  delay := 0; disposal := 0 |} in
  blit_all r frame RGBA 0 1 [1; 1; 1; 1] (replicate 16 7) = replicate 16 7.
Proof.
  intros r frame.
  apply (X19_transparent_blit r frame RGBA 0 1 [1; 1; 1; 1] (replicate 16 7)).
  repeat (apply Forall_cons; split; [reflexivity|]). apply Forall_nil_2.
Defined.

End BlitProperties.


(** * The two writers *)

Section ClassProperties.
Import WriterClass WriterClassFacts.

(** X20. The constructor of the class [Writer] does what the function
    [GifWriter] does: for the same arguments it leaves the same bytes in
    the buffer, the same position, and the same outcome, the same error
    when it throws. The fields [width] and [height] hold the arguments. *)
Theorem X20_class_constructor (buf : list Z) (w h : Z) (o : Writer.WriterOptions) :
  let r := new_Writer buf w h o in
  Writer.GifWriter buf w h o
  = (Writer.Build_writer (buffer r.1) (position r.1) (ended r.1) (globalPalette r.1),
     r.2)
  ∧ width r.1 = w ∧ height r.1 = h ∧ globalPalette r.1 = Writer.palette o.
Proof.
  intros r. unfold r, new_Writer, Writer.GifWriter.
  by destruct (constructor_sim w h o (State buf w h 0 false (Writer.palette o))
                 eq_refl eq_refl eq_refl) as (? & ? & ? & ?).
Qed.

(** X21. The methods of the class [Writer] and the closures of [GifWriter],
    on the same buffer, position, [ended] flag and global palette, for
    options of a frame that may be [null].

    The method [addFrame] reads a [null] option as an absent one
    ([nulls_absent]). The closure [addFrame] does so for the palette and the
    transparent index, but keeps a [null] delay or disposal, which counts as
    0 and yet is not 0 for its test [!== 0]: it writes the frame that it
    writes for a delay of 65536 ([nulls_kept]). So the two do the same,
    bytes, position, value returned and error thrown, whenever neither the
    delay nor the disposal is [null]; with one of them [null], and no other
    reason for a graphics control extension, the closure begins the frame
    with an extension, byte 0x21, where the method begins it with the image
    descriptor, byte 0x2C. The method [end] does what the closure [end]
    does. The methods leave [width] and [height] alone. *)
Theorem X21_class_methods (x y w h : Z) (idx : list Z)
    (o : Writer.NullableFrameOptions) (s : state) :
  let st := Writer.Build_writer (buffer s) (position s) (ended s) (globalPalette s) in
  let q := if ended s then position s - 1 else position s in
  let a := addFrame x y w h idx o s in
  let g := Writer.addFrame_nullable x y w h idx o st in
  let e := end_ s in
  Writer.addFrame x y w h idx (nulls_absent o) st
  = (Writer.Build_writer (buffer a.1) (position a.1) (ended a.1) (globalPalette a.1),
     a.2)
  ∧ g = Writer.addFrame x y w h idx (nulls_kept o) st
  ∧ (has_null o = false →
     g = (Writer.Build_writer (buffer a.1) (position a.1) (ended a.1)
                              (globalPalette a.1), a.2))
  ∧ (has_null o = true →
     ReadBack.writes_extension (nulls_absent o) = false →
     ∀ n n', g.2 = Return n → a.2 = Return n' →
       0 ≤ q → n ≤ Z.of_nat (length (buffer s)) → n' ≤ Z.of_nat (length (buffer s)) →
       buf_get (Writer.buf g.1) q = Some 0x21
       ∧ buf_get (buffer a.1) q = Some 0x2C)
  ∧ Writer.end_ st
    = (Writer.Build_writer (buffer e.1) (position e.1) (ended e.1) (globalPalette e.1),
       e.2)
  ∧ width a.1 = width s ∧ height a.1 = height s
  ∧ width e.1 = width s ∧ height e.1 = height s.
Proof.
  intros st q a g e.
  destruct (sim_addFrame x y w h idx o s) as (Ha & Hw & Hh & _).
  destruct (sim_end s) as (He & Hw' & Hh' & _).
  fold a in Ha, Hw, Hh. fold e in He, Hw', Hh'.
  change (to_writer s) with st in Ha, He.
  pose proof (addFrame_nullable_eq x y w h idx o st) as Hg. fold g in Hg.
  split; [exact Ha|]. split; [exact Hg|]. split.
  { intros Hn. rewrite Hg, (nulls_kept_absent o Hn). exact Ha. }
  split; [|by split_and!].
  intros Hn Hext n n' Hgn Han Hq Hroom Hroom'.
  assert (q = Writer.p (WriterFacts.resumed st)) as Hq'
    by (unfold q, WriterFacts.resumed, st; simpl; by destruct (ended s)).
  rewrite Hq' in Hq |- *.
  assert (ReadBack.writes_extension (nulls_kept o) = true) as Hext'.
  { unfold ReadBack.writes_extension, nulls_kept. rewrite Hn.
    cbn [Writer.delay default from_option]. unfold id.
    assert (∀ d, negb ((if d =? 0 then 65536 else d) =? 0) = true) as ->
      by (intros d; destruct (Z.eqb_spec d 0); [done|];
          by apply negb_true_iff, Z.eqb_neq).
    apply orb_true_r. }
  split.
  - destruct g as [g1 g2] eqn:Eg. simpl in Hgn. subst g2. symmetry in Hg.
    destruct (ReadBack.addFrame_parts _ _ _ _ _ _ _ _ _ Hg Hq Hroom)
      as (pal & _ & _ & _ & _ & _ & _ & Hparts).
    cbv zeta in Hparts. destruct Hparts as (Hgce & _).
    specialize (Hgce Hext').
    replace (Writer.p (WriterFacts.resumed st))
      with (Writer.p (WriterFacts.resumed st) + Z.of_nat 0) at 1 by lia.
    by apply Hgce.
  - destruct a as [a1 a2] eqn:Ea. simpl in Han. subst a2. simpl in Ha |- *.
    destruct (ReadBack.addFrame_parts _ _ _ _ _ _ _ _ _ Ha Hq Hroom')
      as (pal & _ & _ & _ & _ & _ & _ & Hparts).
    cbv zeta in Hparts. destruct Hparts as (_ & Himg & _).
    rewrite Hext, Z.add_0_r in Himg.
    replace (Writer.p (WriterFacts.resumed st))
      with (Writer.p (WriterFacts.resumed st) + Z.of_nat 0) at 1 by lia.
    by apply Himg.
Qed.

Lemma X21_witness :
  let s := State (replicate 64 0) 2 2 13 false (Some [0; 0xFFFFFF]) in
  let o := {| Writer.null_palette := Writer.Undefined;
              Writer.null_delay := Writer.Null;
              Writer.null_disposal := Writer.Undefined;
              Writer.null_transparent := Writer.Undefined |} in
  let a := addFrame 0 0 2 2 [0; 1; 1; 0] o s in
  let g := Writer.addFrame_nullable 0 0 2 2 [0; 1; 1; 0] o
             (Writer.Build_writer (replicate 64 0) 13 false (Some [0; 0xFFFFFF])) in
  a.2 = Return 29 ∧ g.2 = Return 37
  ∧ buf_get (Writer.buf g.1) 13 = Some 0x21
  ∧ buf_get (buffer a.1) 13 = Some 0x2C.
Proof.
  intros s o a g.
  assert (g.2 = Return 37) as Hg by (vm_compute; reflexivity).
  assert (a.2 = Return 29) as Ha by (vm_compute; reflexivity).
  split; [exact Ha|]. split; [exact Hg|].
  destruct (X21_class_methods 0 0 2 2 [0; 1; 1; 0] o s) as (_ & _ & _ & H & _).
  apply (H eq_refl eq_refl 37 29 Hg Ha).
  - vm_compute. discriminate.
  - apply Z.leb_le. vm_compute. reflexivity.
  - apply Z.leb_le. vm_compute. reflexivity.
Defined.

End ClassProperties.

